(** * Scroll/animation coordination core of the portfolio site

    A shallow embedding of the behaviour layer of the site: the rate
    limiters and the frame scheduler of [utils.js], the [Terminal]
    controller and the [ScrollHandler] coordinator of [terminal.js], the
    geometry helpers of [utils.js] and the navigation bar and the skills
    accordion of [main.js], followed by the properties that the
    specification states about them and by further properties of the code.

    Conventions of the embedding.
    - The browser runs one task at a time.  Timers and animation-frame
      requests are kept in explicit queues; a timer whose deadline has been
      reached runs before any later task, at its deadline.
    - Time is counted in milliseconds and kept in [Z].
    - Offsets and heights are finite numbers, kept exact in [Q]; a result
      that is [NaN] or infinite is kept apart.
    - A closure's captured variables become a record (or a single value)
      threaded through the functions that stand for its body.
    - Callbacks handed to [setTimeout] and [requestAnimationFrame] are
      defunctionalised: each arrow function of the source is a constructor
      of a small inductive type, interpreted by the component that created
      it.
    - A field that may hold [null] or [undefined] is an [option]; a call
      through such a field throws [TypeError], which a computation of the
      coordinator passes on to the task that runs it.
    - The function that [throttle] wraps may throw; which of its
      invocations throw is a parameter of the wrapper.
    - [window.matchMedia] returns a new object on every call, and a
      listener is on the object it was added to.
    - Strings are sequences of ASCII characters.

    Left out: the drawing of the terminal's cursor and of its typewriter
    and background, the smooth-scroll animation and its easing functions,
    the page animations, and of [main.js] the contact form, the mobile
    menu and the marker of the active section; none of them writes a
    variable that the functions below read. *)

From stdpp Require Import gmap strings list fin_maps.
From Stdlib Require Import Ascii ZArith QArith Lia Lqa.

Close Scope Q_scope.

(* ===================================================================== *)
(** * Timers: [setTimeout] and [clearTimeout]                             *)
(* ===================================================================== *)

Module Timers.
Section Timers.
Context {C : Type}.

Record timer := Timer { timer_id : nat; timer_due : Z; timer_cb : C }.

(** The table of pending timers, in registration order, and the next
    handle.  Handles are positive and never reused. *)
Record table := Table { next_id : nat; pending : list timer }.

Definition empty : table := Table 1 [].

(** [setTimeout(cb, delay)] at time [now]; a negative delay counts as 0. *)
Definition setTimeout (now : Z) (cb : C) (delay : Z) (q : table) : nat * table :=
  (next_id q,
   Table (S (next_id q))
         (pending q ++ [Timer (next_id q) (now + Z.max 0 delay)%Z cb])).

Definition drop (i : nat) (l : list timer) : list timer :=
  filter (λ tm, timer_id tm ≠ i) l.

(** [clearTimeout(h)]; [undefined] and [null] (here [None]) and handles
    that are not pending are ignored. *)
Definition clearTimeout (h : option nat) (q : table) : table :=
  match h with
  | Some i => Table (next_id q) (drop i (pending q))
  | None => q
  end.

(** The timer that runs next: the smallest deadline, the earliest
    registration among equal deadlines. *)
Fixpoint earliest (l : list timer) : option timer :=
  match l with
  | [] => None
  | tm :: l' =>
      match earliest l' with
      | Some tm' => if (timer_due tm' <? timer_due tm)%Z then Some tm' else Some tm
      | None => Some tm
      end
  end.

(** Is the timer within the horizon?  [None] is an unbounded horizon. *)
Definition is_due (horizon : option Z) (tm : timer) : bool :=
  match horizon with
  | Some t => (timer_due tm <=? t)%Z
  | None => true
  end.
End Timers.
Arguments timer : clear implicits.
Arguments table : clear implicits.
End Timers.

(* ===================================================================== *)
(** * Animation frames: [requestAnimationFrame], [cancelAnimationFrame]   *)
(* ===================================================================== *)

Module Frames.
Section Frames.
Context {C : Type}.

(** The callbacks requested for the next frame, with their handles, in
    request order.  Handles count up from 1 for the whole document. *)
Record queue := Queue { next_handle : nat; requested : list (nat * C) }.

Definition empty : queue := Queue 1 [].

Definition requestAnimationFrame (cb : C) (q : queue) : nat * queue :=
  (next_handle q,
   Queue (S (next_handle q)) (requested q ++ [(next_handle q, cb)])).

(** [cancelAnimationFrame(h)]: the request with handle [h], if it is
    pending, is removed. *)
Definition cancelAnimationFrame (h : nat) (q : queue) : queue :=
  Queue (next_handle q) (filter (λ r, r.1 ≠ h) (requested q)).

(** The start of a frame: the requested callbacks are taken off the
    queue; requests made while they run are for the frame after. *)
Definition take (q : queue) : list (nat * C) * queue :=
  (requested q, Queue (next_handle q) []).
End Frames.
Arguments queue : clear implicits.
End Frames.

(* ===================================================================== *)
(** * A wrapped function driven by a sequence of calls                    *)
(* ===================================================================== *)

(** The rate limiters return a closure.  [RateSim] runs such a closure
    against a list of calls [(t, args)], the call with arguments [args]
    being made at time [t], and records every invocation of the wrapped
    function together with the time at which it happened. *)

Module RateSim.
Section RateSim.
Context {A St C : Type}.

Record world := World {
  now : Z;                         (* current time *)
  timers : Timers.table C;         (* pending timers *)
  closure : St;                    (* captured variables of the wrapper *)
  invoked : list (Z * A)           (* invocations of the wrapped function *)
}.

Definition init (s : St) : world := World 0 Timers.empty s [].

Definition set_now (t : Z) (w : world) : world :=
  World t (timers w) (closure w) (invoked w).
Definition set_timers (q : Timers.table C) (w : world) : world :=
  World (now w) q (closure w) (invoked w).
Definition set_closure (s : St) (w : world) : world :=
  World (now w) (timers w) s (invoked w).

(** Calling the wrapped function [func(...args)]. *)
Definition invoke (args : A) (w : world) : world :=
  World (now w) (timers w) (closure w) (invoked w ++ [(now w, args)]).

Definition setTimeout (cb : C) (delay : Z) (w : world) : nat * world :=
  let '(h, q) := Timers.setTimeout (now w) cb delay (timers w) in
  (h, set_timers q w).

Definition clearTimeout (h : option nat) (w : world) : world :=
  set_timers (Timers.clearTimeout h (timers w)) w.

(** The body of the wrapper and the bodies of its timer callbacks. *)
Variable on_call : A → world → world.
Variable on_timer : C → world → world.

(** Run the timers that are due within the horizon, earliest first, each
    at its deadline. *)
Fixpoint fire_due (fuel : nat) (horizon : option Z) (w : world) : world :=
  match fuel with
  | O => w
  | S fuel' =>
      match Timers.earliest (Timers.pending (timers w)) with
      | Some tm =>
          if Timers.is_due horizon tm then
            let q := timers w in
            let w1 := set_timers
                        (Timers.Table (Timers.next_id q)
                           (Timers.drop (Timers.timer_id tm) (Timers.pending q)))
                        (set_now (Timers.timer_due tm) w) in
            fire_due fuel' horizon (on_timer (Timers.timer_cb tm) w1)
          else w
      | None => w
      end
  end.

(** The wrappers below never register a timer from a timer callback, so
    one step per pending timer is enough. *)
Definition run_until (t : Z) (w : world) : world :=
  fire_due (length (Timers.pending (timers w))) (Some t) w.

Definition settle (w : world) : world :=
  fire_due (length (Timers.pending (timers w))) None w.

(** One call of the wrapper at time [t]. *)
Definition call_at (w : world) (c : Z * A) : world :=
  on_call c.2 (set_now c.1 (run_until c.1 w)).

Definition simulate (calls : list (Z * A)) (w : world) : world :=
  foldl call_at w calls.

(** The whole run: the calls, then time passes until nothing is pending. *)
Definition run (calls : list (Z * A)) (s : St) : list (Z * A) :=
  invoked (settle (simulate calls (init s))).
End RateSim.
Arguments world : clear implicits.
End RateSim.

(* ===================================================================== *)
(** * utils.js                                                            *)
(* ===================================================================== *)

Module Utils.
Import RateSim.

Section Debounce.
Context {A : Type}.
Variable wait : Z.

(** The arrow function [later] of one call; it captures the arguments of
    that call. *)
Inductive debounce_cb := Later (args : A).

(** Captured variable [timeout]: [None] is [undefined]. *)
Abbreviation dworld := (world A (option nat) debounce_cb).

(** [later]: [clearTimeout(timeout); func(...args)]. *)
Definition later (cb : debounce_cb) (w : dworld) : dworld :=
  match cb with
  | Later args => invoke args (clearTimeout (closure w) w)
  end.

(** [executedFunction(...args)]:
    [clearTimeout(timeout); timeout = setTimeout(later, wait)]. *)
Definition executedFunction (args : A) (w : dworld) : dworld :=
  let w1 := clearTimeout (closure w) w in
  let '(h, w2) := setTimeout (Later args) wait w1 in
  set_closure (Some h) w2.

Definition debounce (calls : list (Z * A)) : list (Z * A) :=
  run executedFunction later calls None.
End Debounce.

Section Throttle.
Context {A : Type}.
Variable limit : Z.

(** The arrow function [() => inThrottle = false]. *)
Inductive throttle_cb := Release.

(** Captured variable [inThrottle]; [undefined] is falsy, hence [false]. *)
Abbreviation tworld := (world A bool throttle_cb).

Definition release (cb : throttle_cb) (w : tworld) : tworld :=
  match cb with
  | Release => set_closure false w
  end.

(** The wrapped function [func] either returns or throws.  Which of the
    two it does may depend on everything it has seen: [throws past t args]
    tells whether the call with [args] at time [t], after the invocations
    [past], throws. *)
Variable throws : list (Z * A) → Z → A → bool.

(** The wrapper: if [!inThrottle], call [func], set the flag and arm the
    timer that clears it.  The three statements are in this order, so an
    exception of [func] leaves the wrapper before the flag is set and
    before the timer is armed. *)
Definition throttled (args : A) (w : tworld) : tworld :=
  if closure w then w
  else
    let w1 := invoke args w in
    if throws (invoked w) (now w) args then w1
    else
      let w2 := set_closure true w1 in
      (setTimeout Release limit w2).2.

Definition throttle (calls : list (Z * A)) : list (Z * A) :=
  run throttled release calls false.
End Throttle.

(** DOM elements are told apart by a number; a style object maps property
    names to values. *)
Definition elem := nat.

Section StyleUpdates.
Context {V : Type}.

(** The callback [runUpdates]. *)
Inductive frame_cb := RunUpdates.

Record page := Page {
  updates : gmap elem (gmap string V);      (* captured [updates] map *)
  ticking : bool;                           (* captured [ticking] flag *)
  frames : Frames.queue frame_cb;           (* requested frame callbacks *)
  styles : gmap elem (gmap string V);       (* [element.style] of the elements *)
  assigned : list (elem * gmap string V)    (* calls of [Object.assign(element.style, style)] *)
}.

Definition page_init : page := Page ∅ false Frames.empty ∅ [].

(** [Object.assign(element.style, style)] *)
Definition assign (st : gmap elem (gmap string V)) (w : elem * gmap string V)
    : gmap elem (gmap string V) :=
  <[w.1 := w.2 ∪ default ∅ (st !! w.1)]> st.

(** [runUpdates]: every entry of [updates] is assigned to its element,
    then the map is cleared and the flag reset. *)
Definition runUpdates (p : page) : page :=
  let entries := map_to_list (updates p) in
  Page ∅ false (frames p) (foldl assign (styles p) entries) (assigned p ++ entries).

(** [(element, style) => { updates.set(element, {...updates.get(element), ...style}); ... }] *)
Definition scheduleStyleUpdate (element : elem) (style : gmap string V) (p : page) : page :=
  let merged := style ∪ default ∅ (updates p !! element) in
  let p1 := Page (<[element := merged]> (updates p)) (ticking p) (frames p)
                 (styles p) (assigned p) in
  if ticking p1 then p1
  else
    Page (updates p1) true (Frames.requestAnimationFrame RunUpdates (frames p1)).2
         (styles p1) (assigned p1).

Definition run_frame_cb (p : page) (r : nat * frame_cb) : page :=
  match r.2 with
  | RunUpdates => runUpdates p
  end.

(** One animation frame: the requested callbacks run, in request order. *)
Definition frame (p : page) : page :=
  let '(cbs, q) := Frames.take (frames p) in
  foldl run_frame_cb (Page (updates p) (ticking p) q (styles p) (assigned p)) cbs.

(** A burst of calls within one task. *)
Definition schedule_all (calls : list (elem * gmap string V)) (p : page) : page :=
  foldl (λ p c, scheduleStyleUpdate c.1 c.2 p) p calls.
End StyleUpdates.
Arguments page : clear implicits.

End Utils.

(* ===================================================================== *)
(** * String operations of the host language                              *)
(* ===================================================================== *)

Module JSString.

Definition code (c : ascii) : nat := nat_of_ascii c.

(** White space and line terminators, as far as ASCII goes: tab, line
    feed, vertical tab, form feed, carriage return and space. *)
Definition is_white_space (c : ascii) : bool :=
  let n := code c in
  ((9 <=? n) && (n <=? 13) || (n =? 32))%nat.

Fixpoint trimStart (s : string) : string :=
  match s with
  | String c s' => if is_white_space c then trimStart s' else s
  | EmptyString => EmptyString
  end.

Definition trimEnd (s : string) : string :=
  String.rev (trimStart (String.rev s)).

(** [s.trim()] *)
Definition trim (s : string) : string := trimEnd (trimStart s).

(** [s.split(' ')]: the pieces between single spaces; never empty. *)
Fixpoint split (s : string) : list string :=
  match s with
  | EmptyString => [EmptyString]
  | String c s' =>
      if Ascii.eqb c " " then EmptyString :: split s'
      else match split s' with
           | tok :: rest => String c tok :: rest
           | [] => [String c EmptyString]
           end
  end.

(** [a.join(' ')] *)
Fixpoint join (l : list string) : string :=
  match l with
  | [] => EmptyString
  | [x] => x
  | x :: rest => x +:+ " " +:+ join rest
  end.

Definition lower (c : ascii) : ascii :=
  let n := code c in
  if ((65 <=? n) && (n <=? 90))%nat then ascii_of_nat (n + 32) else c.

(** [s.toLowerCase()] *)
Fixpoint toLowerCase (s : string) : string :=
  match s with
  | EmptyString => EmptyString
  | String c s' => String (lower c) (toLowerCase s')
  end.

(** [s.startsWith(p)] *)
Fixpoint startsWith (s p : string) : bool :=
  match p, s with
  | EmptyString, _ => true
  | String a p', String b s' => Ascii.eqb a b && startsWith s' p'
  | String _ _, EmptyString => false
  end.

(** The double quote character, as a string. *)
Definition quote : string := String (ascii_of_nat 34) EmptyString.
End JSString.

(* ===================================================================== *)
(** * terminal.js: the [Terminal] controller                              *)
(* ===================================================================== *)

Module Terminal.
Import JSString.
Local Open Scope Z_scope.

(** ** The singleton *)

(** The private static fields [#instance] and [#initializing].  Objects are
    told apart by the order in which they were constructed. *)
Record statics := Statics {
  instance : option nat;
  initializing : bool;
  constructed : nat
}.

Definition statics_init : statics := Statics None false 0.

Inductive outcome (A : Type) :=
  | Returned (a : A)
  | Threw (message : string).
Arguments Returned {A} a.
Arguments Threw {A} message.

(** [new Terminal()]: the guard on [#initializing], then a fresh object.
    Everything after the guard runs inside [try]/[catch] and cannot fail
    the construction. *)
Definition constructor (st : statics) : outcome nat * statics :=
  if negb (initializing st) then
    (Threw "Terminal must be initialized using Terminal.getInstance()", st)
  else
    (Returned (constructed st),
     Statics (instance st) (initializing st) (S (constructed st))).

(** [Terminal.getInstance()]: the result is the field [#instance] as it is
    when the function returns. *)
Definition getInstance (st : statics) : outcome (option nat) * statics :=
  match instance st with
  | None =>
      let st1 := Statics (instance st) true (constructed st) in
      match constructor st1 with
      | (Returned r, st2) =>
          let st3 := Statics (Some r) (initializing st2) (constructed st2) in
          (* finally *)
          let st4 := Statics (instance st3) false (constructed st3) in
          (Returned (instance st4), st4)
      | (Threw m, st2) =>
          (* finally *)
          (Threw m, Statics (instance st2) false (constructed st2))
      end
  | Some r => (Returned (instance st), st)
  end.

(** [Terminal.hasInstance()] *)
Definition hasInstance (st : statics) : bool :=
  match instance st with Some _ => true | None => false end.

(** [Terminal.resetInstance()] *)
Definition resetInstance (st : statics) : statics :=
  Statics None (initializing st) (constructed st).

(** What a script can do with the class. *)
Inductive op := GetInstance | New | HasInstance | ResetInstance.

Inductive answer :=
  | Object (r : nat)
  | Null
  | Boolean (b : bool)
  | Undefined
  | Exception (message : string).

Definition step (o : op) (st : statics) : answer * statics :=
  match o with
  | GetInstance =>
      match getInstance st with
      | (Returned (Some r), st') => (Object r, st')
      | (Returned None, st') => (Null, st')
      | (Threw m, st') => (Exception m, st')
      end
  | New =>
      match constructor st with
      | (Returned r, st') => (Object r, st')
      | (Threw m, st') => (Exception m, st')
      end
  | HasInstance => (Boolean (hasInstance st), st)
  | ResetInstance => (Undefined, resetInstance st)
  end.

(** A script: the answers of its operations, in order, and the final state. *)
Fixpoint exec (ops : list op) (st : statics) : list answer * statics :=
  match ops with
  | [] => ([], st)
  | o :: ops' =>
      let '(a, st1) := step o st in
      let '(answers, st2) := exec ops' st1 in
      (a :: answers, st2)
  end.

(** The listener of [beforeunload] at the end of the file: it asks the
    accessor for the instance, stops what the instance has running and
    resets the class. *)
Definition beforeunload (st : statics) : outcome unit * statics :=
  match getInstance st with
  | (Returned (Some _), st1) => (Returned tt, resetInstance st1)
  | (Returned None, st1) => (Returned tt, st1)
  | (Threw m, st1) => (Threw m, st1)
  end.

(** ** [debounce(func, wait)] *)

Section Debounce.
Context {V : Type}.
Variable wait : Z.

(** The function [later]. *)
Inductive debounce_cb := LaterCb.

(** The captured variables [timeout] and [lastArgs]; [None] stands for
    [undefined] and [null].  [lastThis] and [result] carry the receiver
    and the value returned by [func], which are not observed here. *)
Record debounce_vars := Vars { timeout : option nat; lastArgs : option (list V) }.

Definition dworld : Type := RateSim.world (list V) debounce_vars debounce_cb.

(** [later]: [timeout = null; result = func.apply(lastThis, lastArgs)] *)
Definition later (cb : debounce_cb) (w : dworld) : dworld :=
  match cb with
  | LaterCb =>
      let w1 := RateSim.set_closure (Vars None (lastArgs (RateSim.closure w))) w in
      RateSim.invoke (default [] (lastArgs (RateSim.closure w1))) w1
  end.

(** [if (timeout)]: a handle is truthy unless it is 0. *)
Definition truthy (h : option nat) : bool :=
  match h with Some (S _) => true | _ => false end.

(** [debounced(...args)] *)
Definition debounced (args : list V) (w : dworld) : dworld :=
  let w1 := RateSim.set_closure (Vars (timeout (RateSim.closure w)) (Some args)) w in
  let w2 := if truthy (timeout (RateSim.closure w1))
            then RateSim.clearTimeout (timeout (RateSim.closure w1)) w1
            else w1 in
  let '(h, w3) := RateSim.setTimeout LaterCb wait w2 in
  RateSim.set_closure (Vars (Some h) (lastArgs (RateSim.closure w3))) w3.

Definition debounce (calls : list (Z * list V)) : list (Z * list V) :=
  RateSim.run debounced later calls (Vars None None).

(** [debounced.cancel()]:
    [if (timeout) { clearTimeout(timeout); timeout = null; }] *)
Definition cancel (w : dworld) : dworld :=
  if truthy (timeout (RateSim.closure w)) then
    RateSim.set_closure (Vars None (lastArgs (RateSim.closure w)))
      (RateSim.clearTimeout (timeout (RateSim.closure w)) w)
  else w.

(** What the holder of the wrapper can do with it: call it, or cancel the
    pending run. *)
Inductive use := Call (args : list V) | Cancel.

(** One use at time [u.1]: the timers that are due run first. *)
Definition use_at (w : dworld) (u : Z * use) : dworld :=
  let w1 := RateSim.set_now u.1 (RateSim.run_until later u.1 w) in
  match u.2 with
  | Call args => debounced args w1
  | Cancel => cancel w1
  end.

(** The wrapper and the timers after a sequence of uses. *)
Definition after (us : list (Z * use)) : dworld :=
  foldl use_at (RateSim.init (Vars None None)) us.

(** The runs of the wrapped function: the uses, then time passes until
    nothing is pending. *)
Definition uses (us : list (Z * use)) : list (Z * list V) :=
  RateSim.invoked (RateSim.settle later (after us)).
End Debounce.

(** ** The command line *)

(** A line of the transcript: a child of the history element, with its
    text and the [type] that goes into its class name. *)
Record line := Line { text : string; type : string }.

Record state := State {
  commandHistory : list string;
  historyIndex : Z;
  value : string;                  (* [this.elements.input.value] *)
  history : list line;             (* children of [this.elements.history] *)
  href : option string             (* last assignment to [window.location.href] *)
}.

(** The state of a terminal whose [init] has found its elements. *)
Definition state_init : state := State [] (-1) "" [] None.

(** What the handlers read from the page. *)
Record env := Env {
  pathname : string;               (* [window.location.pathname] *)
  localeString : string            (* [new Date().toLocaleString()] *)
}.

Definition set_value (v : string) (s : state) : state :=
  State (commandHistory s) (historyIndex s) v (history s) (href s).
Definition set_historyIndex (i : Z) (s : state) : state :=
  State (commandHistory s) i (value s) (history s) (href s).
Definition set_href (p : string) (s : state) : state :=
  State (commandHistory s) (historyIndex s) (value s) (history s) (Some p).

(** [addToHistory(text, type = '')] *)
Definition addToHistory (text type : string) (s : state) : state :=
  State (commandHistory s) (historyIndex s) (value s)
        (history s ++ [Line text type]) (href s).

(** [lines.forEach(l => this.addToHistory(l))] *)
Definition addAll (ls : list string) (s : state) : state :=
  foldl (λ s l, addToHistory l "" s) s ls.

(** [clearHistory()] *)
Definition clearHistory (s : state) : state :=
  State (commandHistory s) (historyIndex s) (value s) [] (href s).

(** [navigateTo(path)] *)
Definition navigateTo (path : string) (s : state) : state := set_href path s.

(** A handler returns, or an exception leaves it. *)
Inductive completion :=
  | Normal (s : state)
  | Abrupt (s : state).

(** Names that every object literal inherits from [Object.prototype]. *)
Definition inherited_names : list string :=
  ["constructor"; "__defineGetter__"; "__defineSetter__"; "hasOwnProperty";
   "__lookupGetter__"; "__lookupSetter__"; "isPrototypeOf";
   "propertyIsEnumerable"; "toString"; "valueOf"; "__proto__";
   "toLocaleString"].

Definition inherits (name : string) : bool := bool_decide (name ∈ inherited_names).

Definition showHelp (s : state) : state :=
  addAll ["Available commands:";
          "help     - Show this help message";
          "clear    - Clear terminal history";
          "about    - Go to About page";
          "projects - Go to Projects page";
          "contact  - Go to Contact page";
          "ls       - List all sections";
          "whoami   - Display user info";
          "date     - Show current date/time";
          "echo     - Echo back your text";
          "skills   - List my technical skills";
          "social   - Show social media links";
          "pwd      - Print working directory";
          "cat      - Read a file";
          "cd       - Change directory"] s.

Definition listSections (s : state) : state :=
  foldl (λ s section, addToHistory ("  " +:+ section) "" s)
        (addToHistory "Available sections:" "" s)
        ["about.html"; "projects.html"; "contact.html"].

Definition showSkills (s : state) : state :=
  addAll ["[SECURITY]";
          "  ├── Penetration Testing";
          "  ├── Network Security";
          "  ├── Active Directory";
          "  └── Cloud Security";
          "";
          "[DEVELOPMENT]";
          "  ├── Python";
          "  ├── PowerShell";
          "  ├── Bash";
          "  └── Web Development";
          "";
          "[CERTIFICATIONS]";
          "  ├── OSCP";
          "  └── OSEP (In Progress)"] s.

Definition showSocial (s : state) : state :=
  addAll ["Social Links:";
          "  GitHub:   https://github.com/rileymxyz";
          "  LinkedIn: https://www.linkedin.com/in/riley-mcgowen";
          "  Twitter:  https://x.com/rileymxyz"] s.

Definition showCurrentPath (e : env) (s : state) : state :=
  addToHistory ("/home/riley/web-app" +:+ pathname e) "" s.

Definition showWhoami (s : state) : state :=
  addAll ["Riley McGowen";
          "IT Professional & Security Specialist";
          "Location: Seattle, WA";
          "Status: Available for Security Projects"] s.

Definition showDate (e : env) (s : state) : state :=
  addToHistory (localeString e) "" s.

(** [echo(args)] *)
Definition echo (args : list string) (s : state) : state :=
  match args with
  | [] => s
  | _ => addToHistory (join args) "" s
  end.

(** The own properties of [fileContents]. *)
Definition fileContents (filename : string) : option (list string) :=
  if String.eqb filename "readme.md" then
    Some ["# Riley McGowen";
          "IT Professional & Security Specialist";
          "";
          "Welcome to my portfolio website!";
          "Type " +:+ quote +:+ "help" +:+ quote +:+ " to see available commands."]
  else if String.eqb filename "skills.txt" then
    Some ["Technical Skills:";
          "- Penetration Testing";
          "- Network Security";
          "- Python Development";
          "- Cloud Security"]
  else None.

(** [catFile(args)].  An inherited name is truthy but has no [forEach]:
    the call throws. *)
Definition catFile (args : list string) (s : state) : completion :=
  match args with
  | [] => Normal (addToHistory "Usage: cat <filename>" "error" s)
  | filename :: _ =>
      match fileContents filename with
      | Some ls => Normal (addAll ls s)
      | None =>
          if inherits filename then Abrupt s
          else Normal (addToHistory ("File not found: " +:+ filename) "error" s)
      end
  end.

(** [changeDirectory(args)] *)
Definition changeDirectory (args : list string) (s : state) : state :=
  match args with
  | [] => addToHistory "Usage: cd <directory>" "error" s
  | dir :: _ =>
      if String.eqb dir "/" || String.eqb dir "~" then set_href "/" s
      else if String.eqb dir "about" then navigateTo "/about.html" s
      else if String.eqb dir "projects" then navigateTo "/projects.html" s
      else if String.eqb dir "contact" then navigateTo "/contact.html" s
      else addToHistory ("Directory not found: " +:+ dir) "error" s
  end.

(** The handlers of [this.commands], in the order of the literal. *)
Inductive command :=
  | help | clear | about | projects | contact | ls | whoami | date
  | echo_ | skills | social | pwd | cat | cd.

Definition commands : list (string * command) :=
  [("help", help); ("clear", clear); ("about", about);
   ("projects", projects); ("contact", contact); ("ls", ls);
   ("whoami", whoami); ("date", date); ("echo", echo_);
   ("skills", skills); ("social", social); ("pwd", pwd);
   ("cat", cat); ("cd", cd)].

(** [Object.keys(this.commands)] *)
Definition command_names : list string := commands.*1.

(** The arrow function stored under each name, applied to [args]. *)
Definition run (e : env) (c : command) (args : list string) (s : state) : completion :=
  match c with
  | help => Normal (showHelp s)
  | clear => Normal (clearHistory s)
  | about => Normal (navigateTo "/about.html" s)
  | projects => Normal (navigateTo "/projects.html" s)
  | contact => Normal (navigateTo "/contact.html" s)
  | ls => Normal (listSections s)
  | whoami => Normal (showWhoami s)
  | date => Normal (showDate e s)
  | echo_ => Normal (echo args s)
  | skills => Normal (showSkills s)
  | social => Normal (showSocial s)
  | pwd => Normal (showCurrentPath e s)
  | cat => catFile args s
  | cd => Normal (changeDirectory args s)
  end.

(** The value of [this.commands[name]]. *)
Inductive property :=
  | Own (c : command)
  | Inherited (name : string)
  | Missing.

Definition own_command (name : string) : option command :=
  snd <$> find (λ kv, String.eqb kv.1 name) commands.

Definition lookup (name : string) : property :=
  match own_command name with
  | Some c => Own c
  | None => if inherits name then Inherited name else Missing
  end.

(** [cmd(args)] for an inherited value, called without a receiver:
    [Object] and [Object.prototype.toString] return, the object behind
    [__proto__] is not callable, the other methods reject the missing
    receiver. *)
Definition call_inherited (name : string) (s : state) : completion :=
  if String.eqb name "constructor" || String.eqb name "toString"
  then Normal s else Abrupt s.

(** The [if (cmd) ... else ...] of [executeCommand], for the tokens of the
    line. *)
Definition dispatch (e : env) (command : string) (args : list string) (s : state)
    : completion :=
  match lookup (toLowerCase command) with
  | Own c => run e c args s
  | Inherited name => call_inherited name s
  | Missing =>
      Normal (addToHistory ("Type " +:+ quote +:+ "help" +:+ quote +:+ " for available commands") ""
                (addToHistory ("Command not found: " +:+ command) "error" s))
  end.

(** [executeCommand()] *)
Definition executeCommand (e : env) (s : state) : state :=
  let input := trim (value s) in
  if String.eqb input "" then s
  else
    let s1 := addToHistory input "" s in
    let r :=
      match split input with
      | command :: args => dispatch e command args s1
      | [] => Abrupt s1       (* no first piece: [command.toLowerCase()] throws *)
      end in
    match r with
    | Normal s2 => set_value "" s2
    | Abrupt s2 => addToHistory "Failed to execute command" "error" s2
    end.

(** The names that [handleTabCompletion] finds for the text of the input
    field: those that start with the first token, in lower case. *)
Definition completions (v : string) : list string :=
  let input := trim v in
  let partialCommand := default "" (head (split input)) in
  filter (λ cmd, startsWith cmd (toLowerCase partialCommand) = true) command_names.

(** [handleTabCompletion()] *)
Definition handleTabCompletion (s : state) : state :=
  match completions (value s) with
  | [] => s
  | [m] => set_value m s
  | matches =>
      foldl (λ s m, addToHistory ("  " +:+ m) "" s)
            (addToHistory "Possible commands:" "" s) matches
  end.

(** [this.commandHistory[i]], written to the input field. *)
Definition entry (l : list string) (i : Z) : string :=
  if i <? 0 then "undefined" else default "undefined" (l !! Z.to_nat i).

Inductive key := Enter | ArrowUp | ArrowDown | Tab | Other.

(** [handleKeydown(e)], by [e.key]. *)
Definition handleKeydown (e : env) (k : key) (s : state) : state :=
  match k with
  | Enter =>
      let command := trim (value s) in
      let s1 :=
        if String.eqb command "" then s
        else State (command :: commandHistory s) (-1) (value s) (history s) (href s) in
      executeCommand e s1
  | ArrowUp =>
      if historyIndex s <? Z.of_nat (length (commandHistory s)) - 1 then
        let i := historyIndex s + 1 in
        set_value (entry (commandHistory s) i) (set_historyIndex i s)
      else s
  | ArrowDown =>
      if historyIndex s >? -1 then
        let i := historyIndex s - 1 in
        set_value (if i =? -1 then "" else entry (commandHistory s) i)
                  (set_historyIndex i s)
      else s
  | Tab => handleTabCompletion s
  | Other => s
  end.

Definition keys (e : env) (ks : list key) (s : state) : state :=
  foldl (λ s k, handleKeydown e k s) s ks.

(** What the user does: edit the text of the input field, or press a key. *)
Inductive event := Edit (v : string) | Keydown (k : key).

Definition handle (e : env) (s : state) (ev : event) : state :=
  match ev with
  | Edit v => set_value v s
  | Keydown k => handleKeydown e k s
  end.

(** A session with a terminal that has just been initialised. *)
Definition session (e : env) (evs : list event) : state :=
  foldl (handle e) state_init evs.

End Terminal.

(* ===================================================================== *)
(** * terminal.js: the [ScrollHandler] coordinator                        *)
(* ===================================================================== *)

Module ScrollHandler.
Local Open Scope Z_scope.

(** ** Values *)

(** A number of the host language: a finite value, kept exact, or one of
    [NaN], [Infinity], [-Infinity]. *)
Inductive number := Finite (q : Q) | NotFinite.

(** [a / b] for finite operands. *)
Definition divide (a b : Q) : number :=
  if Qeq_bool b 0 then NotFinite else Finite (a / b)%Q.

(** [n * k] and [n / k] for a finite non-zero constant [k]. *)
Definition times (n : number) (k : Q) : number :=
  match n with Finite q => Finite (q * k)%Q | NotFinite => NotFinite end.
Definition over (n : number) (k : Q) : number :=
  match n with Finite q => Finite (q / k)%Q | NotFinite => NotFinite end.

(** [a < b] on finite numbers. *)
Definition less (a b : Q) : bool := negb (Qle_bool b a).

(** A field that holds a number or [null]; [null] counts as 0 in
    arithmetic. *)
Definition num (o : option Q) : Q := default 0%Q o.

Definition elem := Utils.elem.

(** A bounding rectangle: the object returned by one geometry query.
    Only [top] and [bottom] are read outside [calculateParallaxTransform]. *)
Record rect := Rect { rect_id : nat; top : Q; bottom : Q }.

(** What the scripts can read from the window. *)
Record window := Window {
  scrollY : Q;
  innerHeight : Q;
  scrollHeight : Q;                (* [document.documentElement.scrollHeight] *)
  clock : Z;                       (* [performance.now()] *)
  reducedMotion : bool             (* the media query [prefers-reduced-motion: reduce] *)
}.

(** Style values.  The string built by [calculateParallaxTransform] is
    determined by the window, the element and its rectangle; it is kept as
    that triple, since nothing below looks inside it. *)
Inductive css :=
  | scaleX (n : number)
  | parallax (w : window) (element : elem) (r : rect).

Inductive direction := down | up.

(** ** The object *)

Record handler := Handler {
  lastScrollTop : option Q;
  scrollDirection : option direction;
  ticking : bool;
  supportsNativeSmoothScroll : bool;
  scrollProgress : option elem;
  parallaxImages : option (list elem);
  rectCache : option (gmap elem (rect * Z));
  lastCacheUpdate : option Z;
  pendingStyles : option (gmap elem (gmap string css));
  styleUpdateScheduled : bool;
  (* the fields [onScroll], [updateScrollProgress], [updateParallax],
     [smoothScroll], [handleResize], [throttledResize], [clearRectCache],
     [applyStyles] and [debouncedParallax]: bound functions from the
     constructor on, [null] after [destroy] *)
  bound : bool;
  smoothScrollHandler : bool;      (* bound by [init] when the polyfill is used *)
  reducedMotionHandler : bool;
  parallaxState : bool;            (* [false] is [null]; the map stays empty *)
  lastParallaxUpdate : option Z;
  prefersReducedMotion : option bool;   (* [None] is [undefined] *)
  windowHeight : option Q;
  documentHeight : option Q;
  inThrottle : bool;               (* captured by [throttledResize] *)
  timeout : option nat             (* captured by [debouncedParallax] *)
}.

Definition cacheTimeout : Z := 16.
Definition parallaxUpdateInterval : Z := 16.
Definition throttleDelay : Z := 150.

(** ** The page *)

(** Callbacks given to [requestAnimationFrame]. *)
Inductive frame_cb :=
  | ApplyStyles                    (* the bound [applyStyles] *)
  | ScrollTick.                    (* the arrow function of [onScroll] *)

(** Callbacks given to [setTimeout]. *)
Inductive timer_cb :=
  | Release                        (* [() => inThrottle = false] *)
  | Later.                         (* [later] of [debounce] *)

(** [window.matchMedia(query)] returns a new [MediaQueryList] object on
    every call, and a listener is on the object it was added to.  The
    handler makes such an object in [init], to listen to it, and another
    one in [destroy]. *)
Inductive media_query :=
  | QueryOfInit                    (* the object that [init] listens to *)
  | QueryOfDestroy.                (* [reducedMotionQuery] of [destroy] *)

Global Instance media_query_eq_dec : EqDecision media_query.
Proof. solve_decision. Defined.

Inductive listener :=
  | OnScroll                       (* window, scroll *)
  | ThrottledResize                (* window, resize *)
  | ReducedMotion (q : media_query)   (* media query object [q], change *)
  | AnchorClick (a : elem).        (* anchor, click *)

Global Instance listener_eq_dec : EqDecision listener.
Proof. solve_decision. Defined.

Record world := World {
  win : window;
  boxes : elem → Q * Q;            (* top and bottom a geometry query reports *)
  anchors : list elem;             (* [document.querySelectorAll('a[href^=#]')] *)
  queried : list elem;             (* calls of [getBoundingClientRect], latest last *)
  frames : Frames.queue frame_cb;
  timers : Timers.table timer_cb;
  listeners : list listener;
  styles : gmap elem (gmap string css);      (* [element.style] *)
  written : list (elem * string * css);      (* writes [element.style[p] = v] *)
  uncaught : nat;                  (* exceptions that left a task *)
  this : handler
}.

Definition with_win (x : window) (w : world) : world :=
  World x (boxes w) (anchors w) (queried w) (frames w) (timers w) (listeners w)
        (styles w) (written w) (uncaught w) (this w).
Definition with_queried (x : list elem) (w : world) : world :=
  World (win w) (boxes w) (anchors w) x (frames w) (timers w) (listeners w)
        (styles w) (written w) (uncaught w) (this w).
Definition with_frames (x : Frames.queue frame_cb) (w : world) : world :=
  World (win w) (boxes w) (anchors w) (queried w) x (timers w) (listeners w)
        (styles w) (written w) (uncaught w) (this w).
Definition with_timers (x : Timers.table timer_cb) (w : world) : world :=
  World (win w) (boxes w) (anchors w) (queried w) (frames w) x (listeners w)
        (styles w) (written w) (uncaught w) (this w).
Definition with_listeners (x : list listener) (w : world) : world :=
  World (win w) (boxes w) (anchors w) (queried w) (frames w) (timers w) x
        (styles w) (written w) (uncaught w) (this w).
Definition with_styles (x : gmap elem (gmap string css))
    (l : list (elem * string * css)) (w : world) : world :=
  World (win w) (boxes w) (anchors w) (queried w) (frames w) (timers w)
        (listeners w) x l (uncaught w) (this w).
Definition with_uncaught (x : nat) (w : world) : world :=
  World (win w) (boxes w) (anchors w) (queried w) (frames w) (timers w)
        (listeners w) (styles w) (written w) x (this w).
Definition with_this (x : handler) (w : world) : world :=
  World (win w) (boxes w) (anchors w) (queried w) (frames w) (timers w)
        (listeners w) (styles w) (written w) (uncaught w) x.

(** ** Computations that may throw *)

Inductive result (A : Type) :=
  | Ok (a : A)
  | TypeError.
Arguments Ok {A} a.
Arguments TypeError {A}.

Definition M (A : Type) : Type := world → result A * world.

Global Instance M_ret : MRet M := λ A a w, (Ok a, w).
Global Instance M_bind : MBind M := λ A B f m w,
  match m w with
  | (Ok a, w') => f a w'
  | (TypeError, w') => (TypeError, w')
  end.

Definition throw {A} : M A := λ w, (TypeError, w).
Definition get : M world := λ w, (Ok w, w).
Definition update (f : world → world) : M unit := λ w, (Ok tt, f w).
Definition self : M handler := λ w, (Ok (this w), w).
Definition assign (f : handler → handler) : M unit :=
  update (λ w, with_this (f (this w)) w).

(** [o.m(...)] where the field [o] may be [null]. *)
Definition deref {A} (o : option A) : M A :=
  match o with Some a => mret a | None => throw end.
(** [this.m(...)] for a bound-method field. *)
Definition method : M unit :=
  h ← self; if bound h then mret tt else throw.

Fixpoint for_each {A} (f : A → M unit) (l : list A) : M unit :=
  match l with
  | [] => mret tt
  | a :: l' => f a;; for_each f l'
  end.

(** ** Field assignments *)

Definition set_scroll (st : Q) (d : direction) (h : handler) : handler :=
  Handler (Some st) (Some d) (ticking h) (supportsNativeSmoothScroll h)
    (scrollProgress h) (parallaxImages h) (rectCache h) (lastCacheUpdate h)
    (pendingStyles h) (styleUpdateScheduled h) (bound h) (smoothScrollHandler h)
    (reducedMotionHandler h) (parallaxState h) (lastParallaxUpdate h)
    (prefersReducedMotion h) (windowHeight h) (documentHeight h) (inThrottle h)
    (timeout h).
Definition set_ticking (b : bool) (h : handler) : handler :=
  Handler (lastScrollTop h) (scrollDirection h) b (supportsNativeSmoothScroll h)
    (scrollProgress h) (parallaxImages h) (rectCache h) (lastCacheUpdate h)
    (pendingStyles h) (styleUpdateScheduled h) (bound h) (smoothScrollHandler h)
    (reducedMotionHandler h) (parallaxState h) (lastParallaxUpdate h)
    (prefersReducedMotion h) (windowHeight h) (documentHeight h) (inThrottle h)
    (timeout h).
Definition set_rectCache (c : option (gmap elem (rect * Z))) (h : handler) : handler :=
  Handler (lastScrollTop h) (scrollDirection h) (ticking h) (supportsNativeSmoothScroll h)
    (scrollProgress h) (parallaxImages h) c (lastCacheUpdate h)
    (pendingStyles h) (styleUpdateScheduled h) (bound h) (smoothScrollHandler h)
    (reducedMotionHandler h) (parallaxState h) (lastParallaxUpdate h)
    (prefersReducedMotion h) (windowHeight h) (documentHeight h) (inThrottle h)
    (timeout h).
Definition set_lastCacheUpdate (t : option Z) (h : handler) : handler :=
  Handler (lastScrollTop h) (scrollDirection h) (ticking h) (supportsNativeSmoothScroll h)
    (scrollProgress h) (parallaxImages h) (rectCache h) t
    (pendingStyles h) (styleUpdateScheduled h) (bound h) (smoothScrollHandler h)
    (reducedMotionHandler h) (parallaxState h) (lastParallaxUpdate h)
    (prefersReducedMotion h) (windowHeight h) (documentHeight h) (inThrottle h)
    (timeout h).
Definition set_pendingStyles (p : option (gmap elem (gmap string css))) (h : handler)
    : handler :=
  Handler (lastScrollTop h) (scrollDirection h) (ticking h) (supportsNativeSmoothScroll h)
    (scrollProgress h) (parallaxImages h) (rectCache h) (lastCacheUpdate h)
    p (styleUpdateScheduled h) (bound h) (smoothScrollHandler h)
    (reducedMotionHandler h) (parallaxState h) (lastParallaxUpdate h)
    (prefersReducedMotion h) (windowHeight h) (documentHeight h) (inThrottle h)
    (timeout h).
Definition set_styleUpdateScheduled (b : bool) (h : handler) : handler :=
  Handler (lastScrollTop h) (scrollDirection h) (ticking h) (supportsNativeSmoothScroll h)
    (scrollProgress h) (parallaxImages h) (rectCache h) (lastCacheUpdate h)
    (pendingStyles h) b (bound h) (smoothScrollHandler h)
    (reducedMotionHandler h) (parallaxState h) (lastParallaxUpdate h)
    (prefersReducedMotion h) (windowHeight h) (documentHeight h) (inThrottle h)
    (timeout h).
Definition set_lastParallaxUpdate (t : option Z) (h : handler) : handler :=
  Handler (lastScrollTop h) (scrollDirection h) (ticking h) (supportsNativeSmoothScroll h)
    (scrollProgress h) (parallaxImages h) (rectCache h) (lastCacheUpdate h)
    (pendingStyles h) (styleUpdateScheduled h) (bound h) (smoothScrollHandler h)
    (reducedMotionHandler h) (parallaxState h) t
    (prefersReducedMotion h) (windowHeight h) (documentHeight h) (inThrottle h)
    (timeout h).
Definition set_prefersReducedMotion (b : bool) (h : handler) : handler :=
  Handler (lastScrollTop h) (scrollDirection h) (ticking h) (supportsNativeSmoothScroll h)
    (scrollProgress h) (parallaxImages h) (rectCache h) (lastCacheUpdate h)
    (pendingStyles h) (styleUpdateScheduled h) (bound h) (smoothScrollHandler h)
    (reducedMotionHandler h) (parallaxState h) (lastParallaxUpdate h)
    (Some b) (windowHeight h) (documentHeight h) (inThrottle h)
    (timeout h).
Definition set_heights (wh dh : Q) (h : handler) : handler :=
  Handler (lastScrollTop h) (scrollDirection h) (ticking h) (supportsNativeSmoothScroll h)
    (scrollProgress h) (parallaxImages h) (rectCache h) (lastCacheUpdate h)
    (pendingStyles h) (styleUpdateScheduled h) (bound h) (smoothScrollHandler h)
    (reducedMotionHandler h) (parallaxState h) (lastParallaxUpdate h)
    (prefersReducedMotion h) (Some wh) (Some dh) (inThrottle h)
    (timeout h).
Definition set_inThrottle (b : bool) (h : handler) : handler :=
  Handler (lastScrollTop h) (scrollDirection h) (ticking h) (supportsNativeSmoothScroll h)
    (scrollProgress h) (parallaxImages h) (rectCache h) (lastCacheUpdate h)
    (pendingStyles h) (styleUpdateScheduled h) (bound h) (smoothScrollHandler h)
    (reducedMotionHandler h) (parallaxState h) (lastParallaxUpdate h)
    (prefersReducedMotion h) (windowHeight h) (documentHeight h) b
    (timeout h).
Definition set_timeout (t : option nat) (h : handler) : handler :=
  Handler (lastScrollTop h) (scrollDirection h) (ticking h) (supportsNativeSmoothScroll h)
    (scrollProgress h) (parallaxImages h) (rectCache h) (lastCacheUpdate h)
    (pendingStyles h) (styleUpdateScheduled h) (bound h) (smoothScrollHandler h)
    (reducedMotionHandler h) (parallaxState h) (lastParallaxUpdate h)
    (prefersReducedMotion h) (windowHeight h) (documentHeight h) (inThrottle h)
    t.
Definition set_handlers (sm rm : bool) (h : handler) : handler :=
  Handler (lastScrollTop h) (scrollDirection h) (ticking h) (supportsNativeSmoothScroll h)
    (scrollProgress h) (parallaxImages h) (rectCache h) (lastCacheUpdate h)
    (pendingStyles h) (styleUpdateScheduled h) (bound h) sm rm
    (parallaxState h) (lastParallaxUpdate h)
    (prefersReducedMotion h) (windowHeight h) (documentHeight h) (inThrottle h)
    (timeout h).

(** ** Browser services *)

Definition requestAnimationFrame (cb : frame_cb) : M nat := λ w,
  let '(h, q) := Frames.requestAnimationFrame cb (frames w) in
  (Ok h, with_frames q w).

Definition cancelAnimationFrame (h : nat) : M unit :=
  update (λ w, with_frames (Frames.cancelAnimationFrame h (frames w)) w).

Definition setTimeout (cb : timer_cb) (delay : Z) : M nat := λ w,
  let '(h, q) := Timers.setTimeout (clock (win w)) cb delay (timers w) in
  (Ok h, with_timers q w).

Definition clearTimeout (h : option nat) : M unit :=
  update (λ w, with_timers (Timers.clearTimeout h (timers w)) w).

Definition addEventListener (l : listener) : M unit :=
  update (λ w, if bool_decide (l ∈ listeners w) then w
               else with_listeners (listeners w ++ [l]) w).

Definition removeEventListener (l : listener) : M unit :=
  update (λ w, with_listeners (filter (λ x, x ≠ l) (listeners w)) w).

(** [element.getBoundingClientRect()]: a new object on every call. *)
Definition getBoundingClientRect (element : elem) : M rect := λ w,
  let b := boxes w element in
  (Ok (Rect (length (queried w)) b.1 b.2),
   with_queried (queried w ++ [element]) w).

(** [element.style[property] = value] *)
Definition write (element : elem) (pv : string * css) : M unit :=
  update (λ w,
    with_styles (<[element := <[pv.1 := pv.2]> (default ∅ (styles w !! element))]> (styles w))
                (written w ++ [(element, pv.1, pv.2)]) w).

(** The handle that a boolean stands for when it is passed to
    [cancelAnimationFrame]. *)
Definition handle_of_bool (b : bool) : nat := if b then 1%nat else 0%nat.

(** ** Methods *)

(** [scheduleStyleUpdate(element, styles)] *)
Definition scheduleStyleUpdate (element : elem) (styles : gmap string css) : M unit :=
  h ← self;
  pending ← deref (pendingStyles h);
  assign (set_pendingStyles
            (Some (<[element := styles ∪ default ∅ (pending !! element)]> pending)));;
  if styleUpdateScheduled h then mret tt
  else
    assign (set_styleUpdateScheduled true);;
    (if bound h then mret tt else throw);;
    requestAnimationFrame ApplyStyles;;
    mret tt.

(** [applyStyles()] *)
Definition applyStyles : M unit :=
  h ← self;
  pending ← deref (pendingStyles h);
  for_each (λ entry : elem * gmap string css,
              for_each (write entry.1) (map_to_list entry.2))
           (map_to_list pending);;
  assign (set_pendingStyles (Some ∅));;
  assign (set_styleUpdateScheduled false).

(** [getElementRect(element)] *)
Definition getElementRect (element : elem) : M rect :=
  w ← get;
  let now := clock (win w) in
  cache ← deref (rectCache (this w));
  match cache !! element with
  | Some (r, timestamp) =>
      if now - timestamp <? cacheTimeout then mret r
      else
        r' ← getBoundingClientRect element;
        assign (set_rectCache (Some (<[element := (r', now)]> cache)));;
        mret r'
  | None =>
      r' ← getBoundingClientRect element;
      assign (set_rectCache (Some (<[element := (r', now)]> cache)));;
      mret r'
  end.

(** [clearRectCache()] *)
Definition clearRectCache : M unit :=
  assign (set_rectCache (Some ∅));;
  assign (set_lastCacheUpdate (Some 0)).

(** [isInViewport(element, offset)] *)
Definition isInViewport (element : elem) (offset : Q) : M bool :=
  r ← getElementRect element;
  h ← self;
  mret (Qle_bool (top r) (num (windowHeight h) + offset)%Q
        && Qle_bool (- offset)%Q (bottom r)).

(** [updateScrollProgress()] *)
Definition updateScrollProgress : M unit :=
  w ← get;
  let h := this w in
  match scrollProgress h with
  | Some bar =>
      let scrolled :=
        times (divide (scrollY (win w)) (num (documentHeight h) - num (windowHeight h))%Q) 100 in
      scheduleStyleUpdate bar {[ "transform" := scaleX (over scrolled 100) ]}
  | None => mret tt
  end.

(** The first loop of [updateParallax]: the transforms of the images in
    view, in the order of [parallaxImages]. *)
Fixpoint inViewUpdates (images : list elem) : M (list (elem * gmap string css)) :=
  match images with
  | [] => mret []
  | image :: images' =>
      r ← getElementRect image;
      w ← get;
      let inView := less (top r) (num (windowHeight (this w))) && less 0 (bottom r) in
      rest ← inViewUpdates images';
      mret (if inView
            then (image, {[ "transform" := parallax (win w) image r ]}) :: rest
            else rest)
  end.

(** [updateParallax()] *)
Definition updateParallax : M unit :=
  w ← get;
  let h := this w in
  if default false (prefersReducedMotion h) then mret tt
  else
    let now := clock (win w) in
    if now - default 0 (lastParallaxUpdate h) <? parallaxUpdateInterval then mret tt
    else
      assign (set_lastParallaxUpdate (Some now));;
      images ← deref (parallaxImages h);
      updates ← inViewUpdates images;
      for_each (λ u : elem * gmap string css, scheduleStyleUpdate u.1 u.2) updates.

(** [handleResize()] *)
Definition handleResize : M unit :=
  w ← get;
  assign (set_heights (innerHeight (win w)) (scrollHeight (win w)));;
  method;; clearRectCache;;
  h ← self;
  (if parallaxState h then mret tt else throw);;
  (if default false (prefersReducedMotion h) then mret tt
   else
     assign (set_lastParallaxUpdate (Some 0));;
     method;; updateParallax);;
  method;; updateScrollProgress.

(** [throttle(func, limit)] and [debounce(func, wait)] of the class: their
    bodies are those of the functions of the same names in [utils.js].
    The constructor makes two closures with them, [throttledResize] and
    [debouncedParallax], whose captured variables are the fields
    [inThrottle] and [timeout] above. *)
Definition throttle {A : Type} (limit : Z) (throws : list (Z * A) → Z → A → bool)
    (calls : list (Z * A)) : list (Z * A) :=
  Utils.throttle limit throws calls.
Definition debounce {A : Type} (wait : Z) (calls : list (Z * A)) : list (Z * A) :=
  Utils.debounce wait calls.

(** [later] of [debounce(this.updateParallax, ...)] *)
Definition later : M unit :=
  h ← self;
  clearTimeout (timeout h);;
  updateParallax.

(** [debouncedParallax()] *)
Definition debouncedParallax : M unit :=
  h ← self;
  clearTimeout (timeout h);;
  t ← setTimeout Later parallaxUpdateInterval;
  assign (set_timeout (Some t)).

(** [throttledResize()] *)
Definition throttledResize : M unit :=
  h ← self;
  if inThrottle h then mret tt
  else
    handleResize;;
    assign (set_inThrottle true);;
    setTimeout Release throttleDelay;;
    mret tt.

(** The arrow function that [onScroll] hands to [requestAnimationFrame]. *)
Definition scrollTick : M unit :=
  method;; updateScrollProgress;;
  h ← self;
  (if default false (prefersReducedMotion h) then mret tt
   else method;; debouncedParallax);;
  assign (set_ticking false).

(** [onScroll()] *)
Definition onScroll : M unit :=
  w ← get;
  let st := scrollY (win w) in
  let h := this w in
  assign (set_scroll st (if less (num (lastScrollTop h)) st then down else up));;
  if ticking h then mret tt
  else
    requestAnimationFrame ScrollTick;;
    assign (set_ticking true).

(** [init()] *)
Definition init : M unit :=
  addEventListener OnScroll;;
  addEventListener ThrottledResize;;
  h ← self;
  (if supportsNativeSmoothScroll h then mret tt
   else
     w ← get;
     assign (set_handlers true (reducedMotionHandler h));;
     for_each (λ a, addEventListener (AnchorClick a)) (anchors w));;
  method;; handleResize;;
  w ← get;
  assign (set_prefersReducedMotion (reducedMotion (win w)));;
  h' ← self;
  assign (set_handlers (smoothScrollHandler h') true);;
  addEventListener (ReducedMotion QueryOfInit).

(** The fields as the constructor leaves them before it calls [init]. *)
Definition fresh (native : bool) (bar : option elem) (images : list elem) : handler :=
  Handler (Some 0%Q) (Some down) false native bar (Some images) (Some ∅) (Some 0)
          (Some ∅) false true false false true (Some 0) None None None false None.

(** [new ScrollHandler()] *)
Definition construct (native : bool) (bar : option elem) (images : list elem) : M unit :=
  assign (λ _, fresh native bar images);;
  init.

(** The fields as [destroy] leaves them. *)
Definition released (h : handler) : handler :=
  Handler None None (ticking h) (supportsNativeSmoothScroll h) None None None None
          None (styleUpdateScheduled h) false false (reducedMotionHandler h) false
          None (prefersReducedMotion h) None None (inThrottle h) (timeout h).

(** [destroy()].  The change listener is looked for on
    [reducedMotionQuery], the object that [window.matchMedia] has just
    returned, not on the object that [init] added it to. *)
Definition destroy : M unit :=
  h ← self;
  (if bound h then removeEventListener OnScroll;; removeEventListener ThrottledResize
   else mret tt);;
  (if reducedMotionHandler h then
     removeEventListener (ReducedMotion QueryOfDestroy);;
     assign (set_handlers (smoothScrollHandler h) false)
   else mret tt);;
  (if negb (supportsNativeSmoothScroll h) && smoothScrollHandler h then
     w ← get; for_each (λ a, removeEventListener (AnchorClick a)) (anchors w)
   else mret tt);;
  (if styleUpdateScheduled h
   then cancelAnimationFrame (handle_of_bool (styleUpdateScheduled h)) else mret tt);;
  (if ticking h
   then cancelAnimationFrame (handle_of_bool (ticking h)) else mret tt);;
  method;; clearRectCache;;
  h1 ← self;
  p ← deref (pendingStyles h1);
  assign (set_pendingStyles (Some ∅));;
  (if parallaxState h1 then mret tt else throw);;
  assign released.

(** ** Tasks *)

(** A task runs to its end; an exception that leaves it is reported and
    dropped. *)
Definition task (m : M unit) (w : world) : world :=
  match m w with
  | (Ok _, w') => w'
  | (TypeError, w') => with_uncaught (S (uncaught w')) w'
  end.

Definition run_frame_cb (w : world) (r : nat * frame_cb) : world :=
  match r.2 with
  | ApplyStyles => task applyStyles w
  | ScrollTick => task scrollTick w
  end.

Definition run_timer_cb (cb : timer_cb) (w : world) : world :=
  match cb with
  | Release => task (assign (set_inThrottle false)) w
  | Later => task later w
  end.

Definition set_clock (t : Z) (w : world) : world :=
  with_win (Window (scrollY (win w)) (innerHeight (win w)) (scrollHeight (win w)) t
                   (reducedMotion (win w))) w.
Definition set_scrollY (y : Q) (w : world) : world :=
  with_win (Window y (innerHeight (win w)) (scrollHeight (win w)) (clock (win w))
                   (reducedMotion (win w))) w.
Definition set_size (ih sh : Q) (w : world) : world :=
  with_win (Window (scrollY (win w)) ih sh (clock (win w)) (reducedMotion (win w))) w.
Definition set_reducedMotion (b : bool) (w : world) : world :=
  with_win (Window (scrollY (win w)) (innerHeight (win w)) (scrollHeight (win w))
                   (clock (win w)) b) w.

(** Run the timers that are due at time [t], earliest first, each at its
    deadline. *)
Fixpoint fire_due (fuel : nat) (t : Z) (w : world) : world :=
  match fuel with
  | O => w
  | S fuel' =>
      match Timers.earliest (Timers.pending (timers w)) with
      | Some tm =>
          if Timers.timer_due tm <=? t then
            let q := timers w in
            let w1 := with_timers
                        (Timers.Table (Timers.next_id q)
                           (Timers.drop (Timers.timer_id tm) (Timers.pending q)))
                        (set_clock (Z.max (clock (win w)) (Timers.timer_due tm)) w) in
            fire_due fuel' t (run_timer_cb (Timers.timer_cb tm) w1)
          else w
      | None => w
      end
  end.

(** What happens on the page. *)
Inductive event :=
  | Construct (native : bool) (bar : option elem) (images : list elem)
  | Scroll (y : Q)                 (* the page is scrolled to offset [y] *)
  | Resize (ih sh : Q)             (* new viewport and document heights *)
  | Grow (sh : Q)                  (* the document gets a new height, the viewport stays *)
  | Motion (b : bool)              (* the reduced-motion preference changes *)
  | Frame                          (* an animation frame *)
  | Advance (t : Z)                (* time passes until [t] *)
  | Destroy.                       (* [scrollHandler.destroy()] *)

Definition dispatch (l : listener) (m : M unit) (w : world) : world :=
  if bool_decide (l ∈ listeners w) then task m w else w.

Definition react (w : world) (ev : event) : world :=
  match ev with
  | Construct native bar images => task (construct native bar images) w
  | Scroll y => dispatch OnScroll onScroll (set_scrollY y w)
  | Resize ih sh => dispatch ThrottledResize throttledResize (set_size ih sh w)
  | Grow sh => set_size (innerHeight (win w)) sh w
  | Motion b =>
      (* the listeners are on the object of [init]; no other one gets any *)
      dispatch (ReducedMotion QueryOfInit) (assign (set_prefersReducedMotion b))
               (set_reducedMotion b w)
  | Frame =>
      let '(cbs, q) := Frames.take (frames w) in
      foldl run_frame_cb (with_frames q w) cbs
  | Advance t =>
      let w' := fire_due (length (Timers.pending (timers w))) t w in
      set_clock (Z.max (clock (win w')) t) w'
  | Destroy => task destroy w
  end.

Definition play (evs : list event) (w : world) : world := foldl react w evs.

(** A page on which no script has run yet. *)
Definition blank (boxes : elem → Q * Q) (anchors : list elem) (wn : window) : world :=
  World wn boxes anchors [] Frames.empty Timers.empty [] ∅ [] 0
        (Handler None None false true None None None None None false false false
                 false false None None None None false None).

End ScrollHandler.

(* ===================================================================== *)
(** * utils.js: geometry                                                  *)
(* ===================================================================== *)

Module UtilsGeometry.

Definition elem := Utils.elem.

(** What the functions read from the page: the top and the bottom of the
    bounding rectangle of each element, [window.innerHeight] and
    [window.pageYOffset]. *)
Record page := Page {
  rects : elem → Q * Q;
  innerHeight : Q;
  pageYOffset : Q
}.

(** [getElementRect(element)] *)
Definition getElementRect (p : page) (element : elem) : Q * Q := rects p element.

(** [isInViewport(element, offset)] *)
Definition isInViewport (p : page) (element : elem) (offset : Q) : bool :=
  let rect := getElementRect p element in
  ScrollHandler.less (rect.1 + offset)%Q (innerHeight p)
  && ScrollHandler.less 0 (rect.2 - offset)%Q.

(** [calculateParallaxTransform(element, speed)] *)
Definition calculateParallaxTransform (p : page) (element : elem) (speed : Q)
    : ScrollHandler.number :=
  let rect := getElementRect p element in
  let viewportHeight := innerHeight p in
  let scrolled := pageYOffset p in
  let parallaxStart := (rect.1 + scrolled - viewportHeight)%Q in
  let parallaxEnd := (rect.2 + scrolled)%Q in
  let progress :=
    ScrollHandler.divide (scrolled - parallaxStart)%Q (parallaxEnd - parallaxStart)%Q in
  ScrollHandler.times progress speed.

End UtilsGeometry.

(* ===================================================================== *)
(** * main.js                                                             *)
(* ===================================================================== *)

Module Main.

(** ** The terminal *)

(** [initializeTerminal()], with the module's variable [terminalInstance]
    ([None] is [null]) passed in and out. *)
Definition initializeTerminal (terminalInstance : option nat) (st : Terminal.statics)
    : option nat * Terminal.statics :=
  match terminalInstance with
  | Some _ => (terminalInstance, st)
  | None =>
      match Terminal.getInstance st with
      | (Terminal.Returned r, st1) => (r, st1)
      | (Terminal.Threw _, st1) => (None, st1)
      end
  end.

(** ** The navigation bar *)

(** The callback [() => navbar.classList.remove('hide')] of [handleScroll]
    and the callback [() => { handleScroll(); ticking = false; }] of the
    scroll listener. *)
Inductive nav_timer := Unhide.
Inductive nav_frame := Tick.

(** The variables [lastScroll], [scrollTimeout] and [ticking] of the
    module, the classes [hide] and [scrolled] of the element [.navbar],
    and what the listener reads and uses of the browser. *)
Record page := Page {
  navbar : bool;                   (* [false]: [document.querySelector] gave [null] *)
  hide : bool;
  scrolled : bool;
  pageYOffset : Q;
  now : Z;
  lastScroll : Q;
  scrollTimeout : option nat;      (* [None] is [undefined] *)
  ticking : bool;
  timers : Timers.table nav_timer;
  frames : Frames.queue nav_frame;
  uncaught : nat                   (* exceptions that left a callback *)
}.

Definition page_init (navbar : bool) : page :=
  Page navbar false false 0 0 0 None false Timers.empty Frames.empty 0.

Definition set_classes (h s : bool) (p : page) : page :=
  Page (navbar p) h s (pageYOffset p) (now p) (lastScroll p) (scrollTimeout p)
       (ticking p) (timers p) (frames p) (uncaught p).
Definition set_pageYOffset (y : Q) (p : page) : page :=
  Page (navbar p) (hide p) (scrolled p) y (now p) (lastScroll p) (scrollTimeout p)
       (ticking p) (timers p) (frames p) (uncaught p).
Definition set_now (t : Z) (p : page) : page :=
  Page (navbar p) (hide p) (scrolled p) (pageYOffset p) t (lastScroll p)
       (scrollTimeout p) (ticking p) (timers p) (frames p) (uncaught p).
Definition set_lastScroll (y : Q) (p : page) : page :=
  Page (navbar p) (hide p) (scrolled p) (pageYOffset p) (now p) y (scrollTimeout p)
       (ticking p) (timers p) (frames p) (uncaught p).
Definition set_scrollTimeout (h : option nat) (p : page) : page :=
  Page (navbar p) (hide p) (scrolled p) (pageYOffset p) (now p) (lastScroll p) h
       (ticking p) (timers p) (frames p) (uncaught p).
Definition set_ticking (b : bool) (p : page) : page :=
  Page (navbar p) (hide p) (scrolled p) (pageYOffset p) (now p) (lastScroll p)
       (scrollTimeout p) b (timers p) (frames p) (uncaught p).
Definition set_timers (q : Timers.table nav_timer) (p : page) : page :=
  Page (navbar p) (hide p) (scrolled p) (pageYOffset p) (now p) (lastScroll p)
       (scrollTimeout p) (ticking p) q (frames p) (uncaught p).
Definition set_frames (q : Frames.queue nav_frame) (p : page) : page :=
  Page (navbar p) (hide p) (scrolled p) (pageYOffset p) (now p) (lastScroll p)
       (scrollTimeout p) (ticking p) (timers p) q (uncaught p).
Definition set_uncaught (n : nat) (p : page) : page :=
  Page (navbar p) (hide p) (scrolled p) (pageYOffset p) (now p) (lastScroll p)
       (scrollTimeout p) (ticking p) (timers p) (frames p) n.

(** [handleScroll()]; the boolean tells whether it returned ([true]) or a
    [TypeError] left it, which happens at the first use of [navbar] when
    there is no such element. *)
Definition handleScroll (p : page) : bool * page :=
  let p1 := set_timers (Timers.clearTimeout (scrollTimeout p) (timers p)) p in
  let currentScroll := pageYOffset p1 in
  if navbar p1 then
    let p2 :=
      set_classes (ScrollHandler.less (lastScroll p1) currentScroll
                   && ScrollHandler.less 100 currentScroll)
                  (scrolled p1) p1 in
    let p3 := set_lastScroll currentScroll p2 in
    let p4 := set_classes (hide p3) (ScrollHandler.less 50 currentScroll) p3 in
    let '(h, q) := Timers.setTimeout (now p4) Unhide 150 (timers p4) in
    (true, set_scrollTimeout (Some h) (set_timers q p4))
  else (false, p1).

(** The listener of [scroll] that asks for a frame. *)
Definition onScroll (p : page) : page :=
  if ticking p then p
  else
    set_ticking true
      (set_frames (Frames.requestAnimationFrame Tick (frames p)).2 p).

Definition run_frame_cb (p : page) (r : nat * nav_frame) : page :=
  match r.2 with
  | Tick =>
      match handleScroll p with
      | (true, p1) => set_ticking false p1
      | (false, p1) => set_uncaught (S (uncaught p1)) p1
      end
  end.

Definition run_timer_cb (cb : nav_timer) (p : page) : page :=
  match cb with
  | Unhide =>
      if navbar p then set_classes false (scrolled p) p
      else set_uncaught (S (uncaught p)) p
  end.

(** Run the timers that are due at time [t], earliest first, each at its
    deadline. *)
Fixpoint fire_due (fuel : nat) (t : Z) (p : page) : page :=
  match fuel with
  | O => p
  | S fuel' =>
      match Timers.earliest (Timers.pending (timers p)) with
      | Some tm =>
          if (Timers.timer_due tm <=? t)%Z then
            let q := timers p in
            let p1 := set_timers
                        (Timers.Table (Timers.next_id q)
                           (Timers.drop (Timers.timer_id tm) (Timers.pending q)))
                        (set_now (Z.max (now p) (Timers.timer_due tm)) p) in
            fire_due fuel' t (run_timer_cb (Timers.timer_cb tm) p1)
          else p
      | None => p
      end
  end.

Inductive nav_event :=
  | Scroll (y : Q)                 (* the page is scrolled to offset [y] *)
  | Frame                          (* an animation frame *)
  | Advance (t : Z).               (* time passes until [t] *)

Definition react (p : page) (ev : nav_event) : page :=
  match ev with
  | Scroll y => onScroll (set_pageYOffset y p)
  | Frame =>
      let '(cbs, q) := Frames.take (frames p) in
      foldl run_frame_cb (set_frames q p) cbs
  | Advance t =>
      let p' := fire_due (length (Timers.pending (timers p))) t p in
      set_now (Z.max (now p') t) p'
  end.

Definition play (evs : list nav_event) (p : page) : page := foldl react p evs.

(** ** The skills accordion *)

(** The attribute [aria-expanded] of the elements; an element that is not
    in the map has no such attribute. *)
Definition attributes := gmap nat string.

Definition toString (b : bool) : string := if b then "true" else "false".

(** [initializeSkillsCollapsible()], as far as the attribute goes: the
    custom property [--item-index] that it sets on the list items is not
    read by any script. *)
Definition initializeSkillsCollapsible (skillsHeaders : list nat) (a : attributes)
    : attributes :=
  foldl (λ a header, <[header := "false"]> a) a skillsHeaders.

(** The listener of [click] on [header].  The display of the list is set
    and reset within the listener and is not kept here. *)
Definition click (skillsHeaders : list nat) (header : nat) (a : attributes) : attributes :=
  let isExpanded := bool_decide (a !! header = Some "true") in
  let a1 :=
    foldl (λ a otherHeader,
             if bool_decide (otherHeader ≠ header) then <[otherHeader := "false"]> a
             else a)
          a skillsHeaders in
  <[header := toString (negb isExpanded)]> a1.

(** A click on an element: the headers have the listener. *)
Definition clicked (skillsHeaders : list nat) (a : attributes) (element : nat)
    : attributes :=
  if bool_decide (element ∈ skillsHeaders) then click skillsHeaders element a else a.

End Main.

(* ===================================================================== *)
(** * The behaviour the specification describes                           *)
(* ===================================================================== *)

(** These definitions follow the words of the specification, not the
    code; the theorems compare the code with them. *)

Module Described.
Section RateLimiters.
Context {A : Type}.

(** Debounce: a call arms a timer for [wait] from now and disarms the
    one before; the function runs when a timer reaches its deadline with
    no call in between, with the arguments of the call that armed it.
    [debounce_pending due args calls]: a timer is armed for [due] by a
    call with [args], and [calls] are still to come. *)
Fixpoint debounce_pending (wait due : Z) (args : A) (calls : list (Z * A))
    : list (Z * A) :=
  match calls with
  | [] => [(due, args)]
  | (t, a) :: rest =>
      (if (due <=? t)%Z then [(due, args)] else [])
        ++ debounce_pending wait (t + Z.max 0 wait)%Z a rest
  end.

Definition debounce (wait : Z) (calls : list (Z * A)) : list (Z * A) :=
  match calls with
  | [] => []
  | (t, a) :: rest => debounce_pending wait (t + Z.max 0 wait)%Z a rest
  end.

(** A burst: every call but the first arrives before the timer of the
    call before it has reached its deadline. *)
Fixpoint burst (wait : Z) (calls : list (Z * A)) : Prop :=
  match calls with
  | c :: rest =>
      match rest with
      | c' :: _ => (c'.1 < c.1 + Z.max 0 wait)%Z ∧ burst wait rest
      | [] => True
      end
  | [] => True
  end.

(** Throttle: a call runs the function at once unless the window opened
    by the last run is still open; a call inside the window is dropped.
    [open_until] is the end of the current window, if there was a run. *)
Definition window_over (open_until : option Z) (t : Z) : bool :=
  match open_until with
  | Some d => (d <=? t)%Z
  | None => true
  end.

Fixpoint throttle_from (limit : Z) (open_until : option Z) (calls : list (Z * A))
    : list (Z * A) :=
  match calls with
  | [] => []
  | (t, a) :: rest =>
      if window_over open_until t
      then (t, a) :: throttle_from limit (Some (t + Z.max 0 limit)%Z) rest
      else throttle_from limit open_until rest
  end.

Definition throttle (limit : Z) (calls : list (Z * A)) : list (Z * A) :=
  throttle_from limit None calls.
End RateLimiters.

(** The tokens of a line, separated by white space: the longest runs of
    characters that are not white space. *)
Fixpoint tokens (s : string) : list string :=
  match s with
  | EmptyString => []
  | String c s' =>
      if JSString.is_white_space c then tokens s'
      else
        match s' with
        | EmptyString => [String c EmptyString]
        | String c' _ =>
            if JSString.is_white_space c' then String c EmptyString :: tokens s'
            else match tokens s' with
                 | tok :: rest => String c tok :: rest
                 | [] => [String c EmptyString]
                 end
        end
  end.

Section Merge.
Context {V : Type}.

(** The value a property has after a sequence of style fragments: the
    one given by the last fragment that sets it. *)
Fixpoint last_set (property : string) (fragments : list (gmap string V)) : option V :=
  match fragments with
  | [] => None
  | f :: rest =>
      match last_set property rest with
      | Some v => Some v
      | None => f !! property
      end
  end.
End Merge.
End Described.

(* ===================================================================== *)
(** * The vocabulary of the theorems                                      *)
(* ===================================================================== *)

Section RateLimiterStates.
Import RateSim Utils.
Context {A : Type}.

(** A call has armed timer [h] for [d] with arguments [a]. *)
Definition armed (t : Z) (nx h : nat) (d : Z) (a : A) (tr : list (Z * A))
    : world A (option nat) (@debounce_cb A) :=
  World t (Timers.Table nx [Timers.Timer h d (Later a)]) (Some h) tr.




End RateLimiterStates.

Section TerminalDebounceStates.
Import RateSim.
Context {V : Type}.

(** A call has armed timer [S h] for [d]; its arguments are in [lastArgs]. *)
Definition armed' (t : Z) (nx h : nat) (d : Z) (a : list V) (tr : list (Z * list V))
    : Terminal.dworld (V:=V) :=
  World t (Timers.Table nx [Timers.Timer (S h) d Terminal.LaterCb])
        (Terminal.Vars (Some (S h)) (Some a)) tr.

End TerminalDebounceStates.

Section TerminalProperties.
Import Terminal.
Local Open Scope Z_scope.

(** Between two operations the construction flag is down, and every object
    handed out so far is older than the next one to be constructed. *)
Definition settled (st : statics) : Prop :=
  initializing st = false ∧ ∀ r, instance st = Some r → (r < constructed st)%nat.

(** The command history and its cursor. *)
Definition cursor (s : state) : list string * Z := (commandHistory s, historyIndex s).

Definition completion_state (r : completion) : state :=
  match r with Normal s | Abrupt s => s end.

(** The cursor is on an entry of the history, or on none. *)
Definition in_range (s : state) : Prop :=
  -1 ≤ historyIndex s ≤ Z.of_nat (length (commandHistory s)) - 1.

Definition arrow (k : key) : Prop := k = ArrowUp ∨ k = ArrowDown.

End TerminalProperties.

Section ScrollHandlerProperties.
Import ScrollHandler.
Local Open Scope Z_scope.

(** [m] keeps [P], whether it returns or throws. *)
Definition preserves (P : world → Prop) {A : Type} (m : M A) : Prop :=
  ∀ w, P w → P (m w).2.

(** The outcome of a fetch that asks the layout: a new rectangle, one more
    geometry query, and the rectangle stored with the current time. *)
Definition refetched (element : elem) (cache : gmap elem (rect * Z)) (w : world)
    : result rect * world :=
  let r := Rect (length (queried w)) (boxes w element).1 (boxes w element).2 in
  (Ok r,
   with_this (set_rectCache (Some (<[element := (r, clock (win w))]> cache)) (this w))
             (with_queried (queried w ++ [element]) w)).

(** Every rectangle in the cache comes from one of the geometry queries
    made since the [n]-th. *)
Definition cache_since (n : nat) (w : world) : Prop :=
  (n ≤ length (queried w))%nat ∧
  ∃ cache, rectCache (this w) = Some cache ∧
    ∀ element r timestamp, cache !! element = Some (r, timestamp) → (n ≤ rect_id r)%nat.

(** A computation that leaves the cache and the count of queries alone. *)
Definition cache_neutral {A : Type} (m : M A) : Prop :=
  ∀ w, queried (m w).2 = queried w ∧ rectCache (this (m w).2) = rectCache (this w).

(** The value lies between 0 and 1. *)
Definition in_unit (n : number) : Prop :=
  match n with
  | Finite q => (0 <= q)%Q ∧ (q <= 1)%Q
  | NotFinite => False
  end.

(** The transform pending for the progress bar. *)
Definition scheduled_transform (w : world) : option css :=
  bar ← scrollProgress (this w);
  pending ← pendingStyles (this w);
  style ← pending !! bar;
  style !! "transform".

(** The style pending for the progress bar has [scaleX(n)] as its
    transform. *)
Definition scheduled_scale (w : world) (n : number) : Prop :=
  scheduled_transform w = Some (scaleX n).

(** The ratio that [updateScrollProgress] computes. *)
Definition progress (w : world) : number :=
  over (times (divide (scrollY (win w))
                 (num (documentHeight (this w)) - num (windowHeight (this w)))%Q) 100) 100.

(** A burst of calls of [scheduleStyleUpdate] within one task. *)
Definition schedule_burst (calls : list (elem * gmap string css)) : M unit :=
  for_each (λ c, scheduleStyleUpdate c.1 c.2) calls.

(** The writes [element.style[p] = v] that carry out one entry. *)
Definition writes_of (entry : elem * gmap string css) : list (elem * string * css) :=
  (λ pv, (entry.1, pv.1, pv.2)) <$> map_to_list entry.2.

End ScrollHandlerProperties.

Section MergeProperties.
Context {V : Type}.

(** The style fragments that a sequence of calls gives for one element. *)
Definition fragments_of (el : Utils.elem) (calls : list (Utils.elem * gmap string V))
    : list (gmap string V) :=
  snd <$> filter (λ c, c.1 = el) calls.

(** [{...pending, ...f1}], then [{..., ...f2}], and so on. *)
Definition spread_all (pending : gmap string V) (fragments : list (gmap string V))
    : gmap string V :=
  foldl (λ acc f, f ∪ acc) pending fragments.

(** The pending entry of an element after the fragments, from the entry
    [o] before them ([None]: no entry). *)
Definition fold_pending (o : option (gmap string V)) (fragments : list (gmap string V))
    : option (gmap string V) :=
  foldl (λ o f, Some (f ∪ default ∅ o)) o fragments.

(** [element.style[property]] in the styles [st] of the elements; [None]
    when the property has not been set. *)
Definition style_value (st : gmap Utils.elem (gmap string V)) (el : Utils.elem)
    (property : string) : option V :=
  st !! el ≫= (.!! property).

End MergeProperties.

Section CommandLineProperties.
Import JSString Terminal.

(** Every character of the string is white space. *)
Definition blank_text (s : string) : Prop :=
  Forall (λ c, is_white_space c = true) (String.list_ascii_of_string s).

(** The string has no space in it. *)
Definition spaceless (s : string) : Prop :=
  Forall (λ c, c ≠ " "%char) (String.list_ascii_of_string s).

(** The names with which [changeDirectory] navigates, and their pages. *)
Definition directories : list (string * string) :=
  [("/", "/"); ("~", "/"); ("about", "/about.html");
   ("projects", "/projects.html"); ("contact", "/contact.html")].

(** A name followed by spaces up to the column of the descriptions, a
    dash and the description. *)
Definition help_line (name description : string) : string :=
  name +:+ String.string_of_list_ascii (replicate (9 - String.length name) " "%char)
       +:+ "- " +:+ description.

(** The lines of the transcript with the given texts and no type. *)
Definition plain (texts : list string) : list line := (λ t, Line t "") <$> texts.

End CommandLineProperties.

Section TerminalCancelStates.
Import RateSim.
Context {V : Type}.

(** No run is pending: the table is empty and [timeout] is [null]. *)
Definition idle (t : Z) (nx : nat) (l : option (list V)) (tr : list (Z * list V))
    : Terminal.dworld (V:=V) :=
  World t (Timers.Table (S nx) []) (Terminal.Vars None l) tr.

(** At most one run is pending, and [timeout] is its timer. *)
Definition idle_or_armed (w : Terminal.dworld (V:=V)) : Prop :=
  (∃ t nx l tr, w = idle t nx l tr) ∨ (∃ t nx h d a tr, w = armed' t (S nx) h d a tr).

(** The calls of a list, as uses of the wrapper. *)
Definition calls_of (calls : list (Z * list V)) : list (Z * Terminal.use (V:=V)) :=
  (λ c, (c.1, Terminal.Call c.2)) <$> calls.

(** Every run so far happened at [T] or before. *)
Definition ran_by (T : Z) (w : Terminal.dworld (V:=V)) : Prop :=
  Forall (λ r : Z * list V, (r.1 ≤ T)%Z) (invoked w).

End TerminalCancelStates.

Section CoordinatorProperties.
Import ScrollHandler.
Local Open Scope Z_scope.

(** The handler is in use: constructed and not destroyed. *)
Definition alive (w : world) : Prop :=
  bound (this w) = true ∧ parallaxState (this w) = true ∧
  is_Some (pendingStyles (this w)) ∧ is_Some (rectCache (this w)) ∧
  is_Some (parallaxImages (this w)).

(** From a world with [P] the computation returns, in a world with [Q]. *)
Definition returns {A : Type} (P : world → Prop) (m : M A) (Q : A → world → Prop) : Prop :=
  ∀ w, P w → ∃ a w', m w = (Ok a, w') ∧ Q a w'.

(** The direction that [onScroll] records for a move from [y0] to [y]. *)
Definition direction_of (y0 y : Q) : direction := if less y0 y then down else up.

(** The timer that [throttledResize] arms. *)
Definition release_timer (w : world) : Timers.timer timer_cb :=
  Timers.Timer (Timers.next_id (timers w)) (clock (win w) + Z.max 0 throttleDelay) Release.

End CoordinatorProperties.

Section CoordinatorFrames.
Import ScrollHandler.

(** A property that does not look at the pending styles, their flag and
    the frame requests. *)
Definition besides_styles (R : world → Prop) : Prop :=
  (∀ w x, R w → R (with_frames x w)) ∧
  (∀ w x, R w → R (with_this (set_pendingStyles x (this w)) w)) ∧
  (∀ w x, R w → R (with_this (set_styleUpdateScheduled x (this w)) w)).

(** A property that does not look at those, nor at the geometry cache and
    its queries, nor at the time of the last parallax update. *)
Definition besides_styles_and_cache (R : world → Prop) : Prop :=
  besides_styles R ∧
  (∀ w x, R w → R (with_queried x w)) ∧
  (∀ w x, R w → R (with_this (set_rectCache x (this w)) w)) ∧
  (∀ w x, R w → R (with_this (set_lastCacheUpdate x (this w)) w)) ∧
  (∀ w x, R w → R (with_this (set_lastParallaxUpdate x (this w)) w)).

End CoordinatorFrames.

Section ParallaxProperties.
Import ScrollHandler.
Local Open Scope Z_scope.

(** The cache agrees with the layout: a cached rectangle has the top and
    the bottom that a geometry query would report now. *)
Definition cache_agrees (w : world) : Prop :=
  ∀ cache el r ts,
    rectCache (this w) = Some cache → cache !! el = Some (r, ts) →
    top r = (boxes w el).1 ∧ bottom r = (boxes w el).2.

(** The test of [updateParallax] for an image, on the layout and the
    viewport height that the handler holds. *)
Definition in_view (w : world) (image : elem) : bool :=
  less (boxes w image).1 (num (windowHeight (this w))) && less 0 (boxes w image).2.

(** The transform pending for an element. *)
Definition pending_transform (w : world) (el : elem) : option css :=
  pending ← pendingStyles (this w);
  style ← pending !! el;
  style !! "transform".

(** The transform of the parallax effect for an image, computed in the
    window [wn] from a rectangle that the layout reports for the image. *)
Definition parallax_of (w : world) (image : elem) (v : css) : Prop :=
  ∃ r, top r = (boxes w image).1 ∧ bottom r = (boxes w image).2 ∧
       v = parallax (win w) image r.

(** What [updateParallax] leaves alone but for the cache. *)
Definition same_page (w w' : world) : Prop :=
  win w' = win w ∧ boxes w' = boxes w ∧
  windowHeight (this w') = windowHeight (this w) ∧
  pendingStyles (this w') = pendingStyles (this w) ∧
  scrollProgress (this w') = scrollProgress (this w) ∧
  documentHeight (this w') = documentHeight (this w) ∧
  prefersReducedMotion (this w') = prefersReducedMotion (this w) ∧
  lastParallaxUpdate (this w') = lastParallaxUpdate (this w).

(** An entry of the batch that [updateParallax] builds. *)
Definition batch_entry (w : world) (images : list elem) (u : elem * gmap string css) : Prop :=
  u.1 ∈ images ∧ in_view w u.1 = true ∧
  ∃ v, parallax_of w u.1 v ∧ u.2 = {[ "transform" := v ]}.

End ParallaxProperties.

Section ReducedMotionProperties.
Import ScrollHandler.

(** The style value is a transform of the parallax effect. *)
Definition is_parallax (v : css) : bool :=
  match v with parallax _ _ _ => true | scaleX _ => false end.

(** No transform of the parallax effect waits for the next frame. *)
Definition no_parallax_pending (w : world) : Prop :=
  ∀ p el style prop v,
    pendingStyles (this w) = Some p → p !! el = Some style → style !! prop = Some v →
    is_parallax v = false.

(** The writes to element styles are those of [log], followed by writes
    of values other than parallax transforms. *)
Definition no_parallax_written_since (log : list (elem * string * css)) (w : world) : Prop :=
  ∃ l, written w = log ++ l ∧ Forall (λ x, is_parallax x.2 = false) l.

(** The handler has seen the preference for reduced motion, and since
    [log] it has neither queued nor written a parallax transform. *)
Definition calm_since (log : list (elem * string * css)) (w : world) : Prop :=
  prefersReducedMotion (this w) = Some true ∧
  no_parallax_pending w ∧
  no_parallax_written_since log w.

(** The events that leave the preference for reduced motion as the
    handler has it: all but the construction of a new handler and a change
    of the preference to off. *)
Definition keeps_preference (ev : event) : bool :=
  match ev with
  | Construct _ _ _ => false
  | Motion b => b
  | _ => true
  end.

End ReducedMotionProperties.

Section ReleaseProperties.
Import ScrollHandler.

(** A state in the course of [destroy] on the world [w0]: the handler is
    still in use, the fields that [destroy] keeps are those of [w0], the
    listeners that [gone] holds of are off the page, no listener has come,
    and the change listener on the media query of [init] is where it
    was. *)
Definition releasing (w0 : world) (gone : listener → Prop) (rmh : bool) (w : world) : Prop :=
  alive w ∧
  released (set_handlers false false (this w))
  = released (set_handlers false false (this w0)) ∧
  reducedMotionHandler (this w) = rmh ∧
  anchors w = anchors w0 ∧
  listeners w ⊆ listeners w0 ∧
  (∀ l, gone l → l ∉ listeners w) ∧
  (ReducedMotion QueryOfInit ∈ listeners w0 → ReducedMotion QueryOfInit ∈ listeners w).

(** The listener is one that [init] adds, in a state in which the handler
    holds what [init] has stored by then. *)
Definition own_listener (l : listener) (w : world) : Prop :=
  match l with
  | OnScroll | ThrottledResize => True
  | ReducedMotion q => q = QueryOfInit ∧ reducedMotionHandler (this w) = true
  | AnchorClick a =>
      supportsNativeSmoothScroll (this w) = false ∧
      smoothScrollHandler (this w) = true ∧ a ∈ anchors w
  end.

(** Every listener on the page is one of the handler's. *)
Definition accounted (w : world) : Prop :=
  ∀ l, l ∈ listeners w → own_listener l w.

End ReleaseProperties.

Section ViewportProperties.
Import ScrollHandler.

(** The test of [ScrollHandler.isInViewport] on the layout and the
    viewport height that the handler holds. *)
Definition within (w : world) (element : elem) (offset : Q) : bool :=
  Qle_bool (boxes w element).1 (num (windowHeight (this w)) + offset)%Q
  && Qle_bool (- offset)%Q (boxes w element).2.

End ViewportProperties.

Section InstallProperties.
Import ScrollHandler.

(** A state in the course of the constructor on a page with the anchors
    [an]: the handler is in use, every listener is accounted for, and no
    exception has left a task. *)
Definition installing (native : bool) (an : list elem) (w : world) : Prop :=
  alive w ∧ accounted w ∧ uncaught w = 0%nat ∧ anchors w = an ∧
  supportsNativeSmoothScroll (this w) = native.

End InstallProperties.

Section TimerProperties.
Import ScrollHandler.

Definition is_later (tm : Timers.timer timer_cb) : bool :=
  match Timers.timer_cb tm with Later => true | Release => false end.

Definition is_release (tm : Timers.timer timer_cb) : bool :=
  match Timers.timer_cb tm with Release => true | Later => false end.

(** The timers of the parallax debounce and of the resize throttle that
    are armed. *)
Definition later_timers (w : world) : list (Timers.timer timer_cb) :=
  filter (λ tm, is_later tm = true) (Timers.pending (timers w)).
Definition release_timers (w : world) : list (Timers.timer timer_cb) :=
  filter (λ tm, is_release tm = true) (Timers.pending (timers w)).

(** The timers are those that the two closures know of: a debounce timer
    is the one that [timeout] names, a throttle timer is armed only while
    [inThrottle] is up, and there is at most one of each. *)
Definition tidy (w : world) : Prop :=
  (∀ tm, tm ∈ later_timers w → timeout (this w) = Some (Timers.timer_id tm)) ∧
  (∀ tm, tm ∈ release_timers w → inThrottle (this w) = true) ∧
  (length (later_timers w) ≤ 1)%nat ∧
  (length (release_timers w) ≤ 1)%nat.

Definition is_construct (ev : event) : bool :=
  match ev with Construct _ _ _ => true | _ => false end.

End TimerProperties.

Section NavbarProperties.
Import Main.
Local Open Scope Z_scope.

(** At most one timer is armed; it is the one that [scrollTimeout] names
    and it is due within 150 ms; without a timer the bar is not hidden. *)
Definition one_timer (p : page) : Prop :=
  match Timers.pending (timers p) with
  | [] => hide p = false
  | [tm] => scrollTimeout p = Some (Timers.timer_id tm) ∧
            Timers.timer_due tm ≤ now p + 150
  | _ => False
  end.

(** The state of the navigation bar between two events, on a page that
    has the bar: a frame is requested exactly when [ticking] is up, and
    the timers are as above. *)
Definition nav_settled (p : page) : Prop :=
  navbar p = true ∧
  (if ticking p then ∃ h, Frames.requested (frames p) = [(h, Tick)]
   else Frames.requested (frames p) = []) ∧
  one_timer p.

(** The state of a page without the bar once a frame has run the
    listener's callback: the flag stays up and nothing is requested. *)
Definition nav_stuck (p : page) : Prop :=
  navbar p = false ∧ ticking p = true ∧ Frames.requested (frames p) = [] ∧
  Timers.pending (timers p) = [] ∧ hide p = false ∧ scrolled p = false ∧
  uncaught p = 1%nat.

(** The page after [handleScroll] has run at the offset and the time of
    [p]. *)
Definition handled (p : page) : page :=
  Page true
       (ScrollHandler.less (lastScroll p) (pageYOffset p)
        && ScrollHandler.less 100 (pageYOffset p))
       (ScrollHandler.less 50 (pageYOffset p))
       (pageYOffset p) (now p) (pageYOffset p)
       (Some (Timers.next_id (timers p))) (ticking p)
       (Timers.Table (S (Timers.next_id (timers p)))
          [Timers.Timer (Timers.next_id (timers p)) (now p + 150) Unhide])
       (frames p) (uncaught p).

End NavbarProperties.

Section AccordionProperties.
Import Main.

(** The attributes after the accordion has been set up on the page with
    attributes [a] and the elements of [elements] have been clicked, in
    that order. *)
Definition after_clicks (skillsHeaders : list nat) (a : attributes) (elements : list nat)
    : attributes :=
  foldl (clicked skillsHeaders) (initializeSkillsCollapsible skillsHeaders a) elements.

(** The section under [header] is open. *)
Definition expanded (a : attributes) (header : nat) : bool :=
  bool_decide (a !! header = Some "true").

End AccordionProperties.

(** Pages for the examples. *)

(** A page that is as tall as its viewport. *)
Definition short_page : ScrollHandler.world :=
  ScrollHandler.blank (λ _, (0, 100)%Q) [] (ScrollHandler.Window 0 800 800 0 false).

(** A page of height 1000 in a viewport of height 800. *)
Definition long_page : ScrollHandler.world :=
  ScrollHandler.blank (λ _, (0, 100)%Q) [] (ScrollHandler.Window 0 800 1000 0 false).

(** A page on which a handler has just been constructed and nothing has
    been measured yet. *)
Definition measured_page : ScrollHandler.world :=
  ScrollHandler.task (ScrollHandler.construct true None [])
    (ScrollHandler.blank (λ _, (0, 100)%Q) []
       (ScrollHandler.Window 0 800 2000 0 false)).

(** A page that is 20 ms old, with an image in the viewport. *)
Definition page_with_image : ScrollHandler.world :=
  ScrollHandler.blank (λ _, (0, 100)%Q) [] (ScrollHandler.Window 0 800 1000 20 false).

(* ===================================================================== *)
(** * Theorems                                                            *)
(* ===================================================================== *)

(** ** Rate limiters *)

Section RateLimiterFacts.
Import RateSim.

Lemma simulate_cons {B St C : Type} (f : B → world B St C → world B St C)
    (g : C → world B St C → world B St C) (c : Z * B) (cs : list (Z * B)) w :
  simulate f g (c :: cs) w
  = simulate f g cs (f c.2 (set_now c.1 (run_until g c.1 w))).
Proof. reflexivity. Qed.

Lemma drop_same (C : Type) (h : nat) (d : Z) (c : C) :
  Timers.drop h [Timers.Timer h d c] = [].
Proof.
  unfold Timers.drop. rewrite filter_cons. simpl.
  destruct (decide (h ≠ h)); [congruence | reflexivity].
Qed.
End RateLimiterFacts.

Section UtilsDebounceFacts.
Import RateSim Utils.
Context {A : Type}.
Variable wait : Z.

Lemma later_fires t nx h d (a : A) tr (hz : option Z) :
  Timers.is_due hz (Timers.Timer h d (Later a)) = true →
  fire_due later 1 hz (armed t nx h d a tr)
  = World d (Timers.Table nx []) (Some h) (tr ++ [(d, a)]).
Proof.
  intros Hdue. unfold armed. cbn [fire_due timers Timers.pending Timers.earliest].
  rewrite Hdue. cbn [Timers.timer_id Timers.timer_cb Timers.timer_due Timers.next_id].
  unfold set_timers, set_now, later, clearTimeout, invoke, set_timers, Timers.clearTimeout.
  cbn [now timers closure invoked Timers.pending Timers.next_id].
  rewrite !drop_same. reflexivity.
Qed.

Lemma later_waits t nx h d (a : A) tr (hz : option Z) :
  Timers.is_due hz (Timers.Timer h d (Later a)) = false →
  fire_due later 1 hz (armed t nx h d a tr) = armed t nx h d a tr.
Proof.
  intros Hdue. unfold armed. cbn [fire_due timers Timers.pending Timers.earliest].
  rewrite Hdue. reflexivity.
Qed.

Lemma executedFunction_rearms t nx h d (a : A) tr (a' : A) :
  executedFunction wait a' (armed t nx h d a tr)
  = armed t (S nx) nx (t + Z.max 0 wait) a' tr.
Proof.
  unfold armed, executedFunction, clearTimeout, setTimeout, Timers.clearTimeout,
    Timers.setTimeout, set_timers, set_closure.
  cbn [now timers closure invoked Timers.pending Timers.next_id].
  rewrite drop_same. reflexivity.
Qed.

Lemma executedFunction_arms t nx (c : option nat) tr (a' : A) :
  executedFunction wait a' (World t (Timers.Table nx []) c tr)
  = armed t (S nx) nx (t + Z.max 0 wait) a' tr.
Proof.
  unfold armed, executedFunction, clearTimeout, setTimeout, Timers.clearTimeout,
    Timers.setTimeout, set_timers, set_closure.
  destruct c; reflexivity.
Qed.

Lemma debounce_from_armed (calls : list (Z * A)) :
  ∀ t nx h d a tr,
    invoked (settle later
      (simulate (executedFunction wait) later calls (armed t nx h d a tr)))
    = tr ++ Described.debounce_pending wait d a calls.
Proof.
  induction calls as [|[t' a'] rest IH]; intros t nx h d a tr.
  - cbn [simulate foldl Described.debounce_pending]. unfold settle.
    change (length _) with 1%nat. rewrite later_fires; reflexivity.
  - rewrite simulate_cons. cbn [fst snd Described.debounce_pending].
    unfold run_until. change (length _) with 1%nat.
    destruct (d <=? t')%Z eqn:Hd.
    + rewrite later_fires by exact Hd. unfold set_now.
      cbn [now timers closure invoked].
      rewrite executedFunction_arms, IH, <- app_assoc. reflexivity.
    + rewrite later_waits by exact Hd.
      change (set_now t' (armed t nx h d a tr)) with (armed t' nx h d a tr).
      rewrite executedFunction_rearms, IH. reflexivity.
Qed.

Lemma utils_debounce_refines (calls : list (Z * A)) :
  debounce wait calls = Described.debounce wait calls.
Proof.
  destruct calls as [|[t a] rest]; [reflexivity|].
  unfold debounce, run. rewrite simulate_cons. cbn [fst snd].
  change (set_now t (run_until later t (init None)))
    with (World (A:=A) (C:=@debounce_cb A) t (Timers.Table 1 []) (@None nat) []).
  rewrite executedFunction_arms, debounce_from_armed. reflexivity.
Qed.
End UtilsDebounceFacts.

Section TerminalDebounceFacts.
Import RateSim.
Context {V : Type}.
Variable wait : Z.

Lemma terminal_later_fires t nx h d (a : list V) tr (hz : option Z) :
  Timers.is_due hz (Timers.Timer (S h) d Terminal.LaterCb) = true →
  fire_due Terminal.later 1 hz (armed' t nx h d a tr)
  = World d (Timers.Table nx []) (Terminal.Vars None (Some a)) (tr ++ [(d, a)]).
Proof.
  intros Hdue. unfold armed'. cbn [fire_due timers Timers.pending Timers.earliest].
  rewrite Hdue. cbn [Timers.timer_id Timers.timer_cb Timers.timer_due Timers.next_id].
  unfold set_timers, set_now, Terminal.later, invoke, set_closure.
  cbn [now timers closure invoked Timers.pending Timers.next_id Terminal.lastArgs default].
  rewrite drop_same. reflexivity.
Qed.

Lemma terminal_later_waits t nx h d (a : list V) tr (hz : option Z) :
  Timers.is_due hz (Timers.Timer (S h) d Terminal.LaterCb) = false →
  fire_due Terminal.later 1 hz (armed' t nx h d a tr) = armed' t nx h d a tr.
Proof.
  intros Hdue. unfold armed'. cbn [fire_due timers Timers.pending Timers.earliest].
  rewrite Hdue. reflexivity.
Qed.

Lemma debounced_rearms t nx h d (a : list V) tr (a' : list V) :
  Terminal.debounced wait a' (armed' t (S nx) h d a tr)
  = armed' t (S (S nx)) nx (t + Z.max 0 wait) a' tr.
Proof.
  unfold armed', Terminal.debounced, clearTimeout, setTimeout, Timers.clearTimeout,
    Timers.setTimeout, set_timers, set_closure.
  cbn [now timers closure invoked Timers.pending Timers.next_id Terminal.timeout
       Terminal.lastArgs Terminal.truthy].
  rewrite drop_same. reflexivity.
Qed.

Lemma debounced_arms t nx (l : option (list V)) tr (a' : list V) :
  Terminal.debounced wait a' (World t (Timers.Table (S nx) []) (Terminal.Vars None l) tr)
  = armed' t (S (S nx)) nx (t + Z.max 0 wait) a' tr.
Proof. reflexivity. Qed.

Lemma terminal_debounce_from_armed (calls : list (Z * list V)) :
  ∀ t nx h d a tr,
    invoked (settle Terminal.later
      (simulate (Terminal.debounced wait) Terminal.later calls (armed' t (S nx) h d a tr)))
    = tr ++ Described.debounce_pending wait d a calls.
Proof.
  induction calls as [|[t' a'] rest IH]; intros t nx h d a tr.
  - cbn [simulate foldl Described.debounce_pending]. unfold settle.
    change (length _) with 1%nat. rewrite terminal_later_fires; reflexivity.
  - rewrite simulate_cons. cbn [fst snd Described.debounce_pending].
    unfold run_until. change (length _) with 1%nat.
    destruct (d <=? t')%Z eqn:Hd.
    + rewrite terminal_later_fires by exact Hd. unfold set_now.
      cbn [now timers closure invoked].
      rewrite debounced_arms, IH, <- app_assoc. reflexivity.
    + rewrite terminal_later_waits by exact Hd.
      change (set_now t' (armed' t (S nx) h d a tr)) with (armed' t' (S nx) h d a tr).
      rewrite debounced_rearms, IH. reflexivity.
Qed.

Lemma terminal_debounce_refines (calls : list (Z * list V)) :
  Terminal.debounce wait calls = Described.debounce wait calls.
Proof.
  destruct calls as [|[t a] rest]; [reflexivity|].
  unfold Terminal.debounce, run. rewrite simulate_cons. cbn [fst snd].
  change (set_now t (run_until Terminal.later t (init (Terminal.Vars None None))))
    with (World (A:=list V) (C:=Terminal.debounce_cb) t (Timers.Table 1 [])
                (Terminal.Vars (V:=V) None None) []).
  rewrite debounced_arms, terminal_debounce_from_armed. reflexivity.
Qed.
End TerminalDebounceFacts.

Section DescribedFacts.
Context {A : Type}.
Local Open Scope Z_scope.

Lemma debounce_pending_burst (wait : Z) (calls : list (Z * A)) :
  ∀ d a,
    match calls with c :: _ => c.1 < d | [] => True end →
    Described.burst wait calls →
    Described.debounce_pending wait d a calls
    = [match last calls with
       | Some c => (c.1 + Z.max 0 wait, c.2)
       | None => (d, a)
       end].
Proof.
  induction calls as [|[t a'] rest IH]; intros d a Hd Hb; [reflexivity|].
  cbn [Described.debounce_pending]. cbn [fst] in Hd.
  destruct (d <=? t) eqn:E; [apply Z.leb_le in E; lia|].
  cbn [app]. destruct rest as [|c' rest'].
  - reflexivity.
  - change (c'.1 < t + Z.max 0 wait ∧ Described.burst wait (c' :: rest')) in Hb.
    destruct Hb as [Hlt Hb].
    rewrite (IH (t + Z.max 0 wait) a' Hlt Hb).
    change (last ((t, a') :: c' :: rest')) with (last (c' :: rest')).
    destruct (last (c' :: rest')) eqn:El; [reflexivity|].
    by apply last_None in El.
Qed.

Lemma debounce_burst (wait : Z) (calls : list (Z * A)) (c : Z * A) :
  Described.burst wait calls → last calls = Some c →
  Described.debounce wait calls = [(c.1 + Z.max 0 wait, c.2)].
Proof.
  destruct calls as [|[t a] rest]; [discriminate|]. intros Hb Hl.
  cbn [Described.debounce]. destruct rest as [|c' rest'].
  - cbn in Hl. injection Hl as <-. reflexivity.
  - change (c'.1 < t + Z.max 0 wait ∧ Described.burst wait (c' :: rest')) in Hb.
    destruct Hb as [Hlt Hb].
    rewrite debounce_pending_burst by assumption.
    change (last ((t, a) :: c' :: rest')) with (last (c' :: rest')) in Hl.
    rewrite Hl. reflexivity.
Qed.

Lemma throttle_from_closed_drops (limit d : Z) (mid rest : list (Z * A)) :
  Forall (λ c, c.1 < d) mid →
  Described.throttle_from limit (Some d) (mid ++ rest)
  = Described.throttle_from limit (Some d) rest.
Proof.
  induction 1 as [|[t a] mid Hlt _ IH]; [reflexivity|].
  cbn [app Described.throttle_from Described.window_over]. cbn [fst] in Hlt.
  destruct (d <=? t) eqn:E; [apply Z.leb_le in E; lia|]. exact IH.
Qed.
End DescribedFacts.

(** C5.  The debounce wrappers of [utils.js] (the same body is
    [ScrollHandler.debounce]) and of [Terminal] behave as described: each
    call disarms the pending timer and arms a new one, and the wrapped
    function runs when a timer reaches its deadline without a call in
    between.  For a burst of calls it runs exactly once, [wait] after the
    last call and with the arguments of the last call; for calls at 0, 50
    and 100 with a wait of 80 it runs once, at 180, with the arguments of
    the call at 100. *)
Theorem debounce_trailing_edge :
  (∀ (A : Type) (wait : Z) (calls : list (Z * A)),
      Utils.debounce wait calls = Described.debounce wait calls) ∧
  (∀ (V : Type) (wait : Z) (calls : list (Z * list V)),
      Terminal.debounce wait calls = Described.debounce wait calls) ∧
  (∀ (A : Type) (wait : Z) (calls : list (Z * A)),
      ScrollHandler.debounce wait calls = Described.debounce wait calls) ∧
  (∀ (A : Type) (wait : Z) (calls : list (Z * A)) (c : Z * A),
      Described.burst wait calls → last calls = Some c →
      Utils.debounce wait calls = [(c.1 + Z.max 0 wait, c.2)%Z]) ∧
  (∀ (V : Type) (wait : Z) (calls : list (Z * list V)) (c : Z * list V),
      Described.burst wait calls → last calls = Some c →
      Terminal.debounce wait calls = [(c.1 + Z.max 0 wait, c.2)%Z]) ∧
  (∀ (A : Type) (a0 a1 a2 : A),
      Utils.debounce 80 [(0, a0); (50, a1); (100, a2)]%Z = [(180%Z, a2)]) ∧
  (∀ (V : Type) (a0 a1 a2 : list V),
      Terminal.debounce 80 [(0, a0); (50, a1); (100, a2)]%Z = [(180%Z, a2)]).
Proof.
  split; [exact @utils_debounce_refines|].
  split; [exact @terminal_debounce_refines|].
  split; [exact @utils_debounce_refines|].
  split; [intros A wait calls c Hb Hl; rewrite utils_debounce_refines;
          by apply debounce_burst|].
  split; [intros V wait calls c Hb Hl; rewrite terminal_debounce_refines;
          by apply debounce_burst|].
  split; intros; [rewrite utils_debounce_refines | rewrite terminal_debounce_refines];
    reflexivity.
Qed.

(** The burst of the specification's example is a burst, and the theorem
    gives its single run. *)
Lemma debounce_trailing_edge_witness :
  Described.burst 80 [(0, "a"); (50, "b"); (100, "c")]%Z ∧
  Utils.debounce 80 [(0, "a"); (50, "b"); (100, "c")]%Z = [(180%Z, "c")].
Proof.
  assert (Hb : Described.burst 80 [(0, "a"); (50, "b"); (100, "c")]%Z).
  { cbn. lia. }
  split; [exact Hb|].
  exact (proj1 (proj2 (proj2 (proj2 debounce_trailing_edge))) string 80%Z
           [(0, "a"); (50, "b"); (100, "c")]%Z (100%Z, "c") Hb eq_refl).
Defined.

Section UtilsThrottleFacts.
Import RateSim Utils.
Context {A : Type}.
Variable limit : Z.
Variable throws : list (Z * A) → Z → A → bool.










End UtilsThrottleFacts.

Section UtilsThrottleShift.
Import RateSim Utils.
Context {A : Type}.
Variable limit : Z.



End UtilsThrottleShift.




(** ** The terminal: one instance *)

Section SingletonFacts.
Import Terminal.

Lemma settled_init : settled statics_init.
Proof. split; [reflexivity | discriminate]. Qed.

Lemma step_settled (o : op) (st : statics) :
  settled st →
  settled (step o st).2 ∧
  (constructed st ≤ constructed (step o st).2)%nat ∧
  (∀ r, (step o st).1 = Object r → (r < constructed (step o st).2)%nat).
Proof.
  intros [Hi Hr]. destruct st as [inst ini n]. cbn in Hi, Hr. subst ini.
  destruct o; [destruct inst as [r0|] | ..]; cbn; unfold settled; cbn;
    (split; [split | split]); try done; try lia;
    intros; simplify_eq; try lia; eauto.
Qed.

Lemma exec_cons (o : op) (ops : list op) (st : statics) :
  exec (o :: ops) st
  = ((step o st).1 :: (exec ops (step o st).2).1, (exec ops (step o st).2).2).
Proof.
  cbn [exec]. destruct (step o st) as [a st1]. cbn [fst snd].
  destruct (exec ops st1) as [answers st2]. reflexivity.
Qed.

Lemma exec_settled (ops : list op) :
  ∀ st, settled st →
    settled (exec ops st).2 ∧
    (constructed st ≤ constructed (exec ops st).2)%nat ∧
    (∀ r, Object r ∈ (exec ops st).1 → (r < constructed (exec ops st).2)%nat).
Proof.
  induction ops as [|o ops IH]; intros st Hst.
  - cbn. repeat split; [apply Hst | apply Hst | lia |]. intros r Hin. by apply elem_of_nil in Hin.
  - rewrite exec_cons. cbn [fst snd].
    destruct (step_settled o st Hst) as (Hst1 & Hle1 & Hnew1).
    destruct (IH _ Hst1) as (Hst2 & Hle2 & Hnew2).
    repeat split; [apply Hst2 | apply Hst2 | lia |].
    intros r Hin. apply elem_of_cons in Hin as [Heq | Hin].
    + specialize (Hnew1 r (eq_sym Heq)). lia.
    + by apply Hnew2.
Qed.

(** Once an instance is there and nobody resets it, every call of the
    accessor returns it. *)
Lemma exec_same_instance (ops : list op) :
  ∀ st r i a,
    instance st = Some r → ResetInstance ∉ ops →
    ops !! i = Some GetInstance → (exec ops st).1 !! i = Some a →
    a = Object r.
Proof.
  induction ops as [|o ops IH]; intros st r i a Hr Hno Hi Ha; [discriminate|].
  rewrite exec_cons in Ha. cbn [fst] in Ha.
  assert (Hkeep : instance (step o st).2 = Some r).
  { destruct st as [inst ini n]. cbn in Hr. subst inst.
    destruct o; [reflexivity | destruct ini; reflexivity | reflexivity |].
    exfalso. apply Hno. left. }
  destruct i as [|i].
  - cbn in Hi, Ha. injection Hi as ->. injection Ha as <-.
    destruct st as [inst ini n]. cbn in Hr. subst inst. reflexivity.
  - cbn in Hi, Ha. eapply IH; eauto. intros Hin. apply Hno. by right.
Qed.

Lemma exec_all_same (ops : list op) :
  ∀ st i j a a',
    settled st → ResetInstance ∉ ops →
    ops !! i = Some GetInstance → ops !! j = Some GetInstance →
    (exec ops st).1 !! i = Some a → (exec ops st).1 !! j = Some a' →
    a = a' ∧ ∃ r, a = Object r.
Proof.
  induction ops as [|o ops IH]; intros st i j a a' Hst Hno Hi Hj Ha Ha'; [discriminate|].
  assert (Hno' : ResetInstance ∉ ops) by (intros Hin; apply Hno; by right).
  destruct (step_settled o st Hst) as (Hst1 & _ & _).
  rewrite exec_cons in Ha, Ha'. cbn [fst] in Ha, Ha'.
  assert (Hget : ∀ k b, o = GetInstance → ops !! k = Some GetInstance →
            (exec ops (step o st).2).1 !! k = Some b → (step o st).1 = b
            ∧ ∃ r, b = Object r).
  { intros k b -> Hk Hb.
    assert (∃ r, (step GetInstance st).1 = Object r
                 ∧ instance (step GetInstance st).2 = Some r) as (r & Hans & Hinst).
    { destruct Hst as [Hini _]. destruct st as [[r|] ini n]; cbn in Hini; subst ini;
        cbn; eauto. }
    pose proof (exec_same_instance ops _ r k b Hinst Hno' Hk Hb) as ->. eauto. }
  destruct i as [|i], j as [|j]; cbn in Hi, Hj, Ha, Ha'.
  - injection Ha as <-. injection Ha' as <-. split; [reflexivity|].
    injection Hi as ->. destruct Hst as [Hini _].
    destruct st as [[r|] ini n]; cbn in Hini; subst ini; cbn; eauto.
  - injection Hi as ->. injection Ha as <-.
    destruct (Hget j a' eq_refl Hj Ha') as [Heq [r Hr]].
    split; [exact Heq | exists r; rewrite <- Hr; exact Heq].
  - injection Hj as ->. injection Ha' as <-.
    destruct (Hget i a eq_refl Hi Ha) as [Heq [r Hr]].
    split; [symmetry; exact Heq | by exists r].
  - exact (IH _ i j a a' Hst1 Hno' Hi Hj Ha Ha').
Qed.
End SingletonFacts.

(** C7.  In any state the class can reach: as long as nobody calls
    [resetInstance], every call of [getInstance] returns one and the same
    object; [new Terminal()] outside the accessor throws and changes
    nothing; and after [resetInstance] the next call of [getInstance]
    returns an object that is none of those handed out before. *)
Theorem singleton_lifecycle (past : list Terminal.op) :
  let st := (Terminal.exec past Terminal.statics_init).2 in
  (∀ ops i j a a',
      Terminal.ResetInstance ∉ ops →
      ops !! i = Some Terminal.GetInstance →
      ops !! j = Some Terminal.GetInstance →
      (Terminal.exec ops st).1 !! i = Some a →
      (Terminal.exec ops st).1 !! j = Some a' →
      a = a' ∧ ∃ r, a = Terminal.Object r) ∧
  (∃ m, Terminal.step Terminal.New st = (Terminal.Exception m, st)) ∧
  (∀ r, Terminal.Object r ∈ (Terminal.exec past Terminal.statics_init).1 →
      ∃ r' st',
        Terminal.step Terminal.GetInstance (Terminal.resetInstance st)
        = (Terminal.Object r', st') ∧ r' ≠ r).
Proof.
  intros st.
  destruct (exec_settled past _ settled_init) as (Hst & _ & Hold).
  fold st in Hst, Hold. split; [|split].
  - intros ops i j a a' Hno Hi Hj Ha Ha'.
    exact (exec_all_same ops st i j a a' Hst Hno Hi Hj Ha Ha').
  - destruct Hst as [Hini _]. unfold Terminal.step, Terminal.constructor.
    rewrite Hini. cbn. eauto.
  - intros r Hin. specialize (Hold r Hin). destruct Hst as [Hini _].
    destruct st as [inst ini n]. cbn in Hini, Hold. subst ini. cbn.
    eexists _, _. split; [reflexivity | lia].
Qed.

(** A script with three calls of the accessor, a direct construction in
    between and no reset: the first and the last call return the same
    object. *)
Lemma singleton_lifecycle_witness :
  (Terminal.ResetInstance
     ∉ [Terminal.GetInstance; Terminal.New; Terminal.GetInstance; Terminal.GetInstance]) ∧
  (Terminal.Object 0 = Terminal.Object 0 ∧ ∃ r, Terminal.Object 0 = Terminal.Object r).
Proof.
  assert (Hno : Terminal.ResetInstance
            ∉ [Terminal.GetInstance; Terminal.New; Terminal.GetInstance;
               Terminal.GetInstance]).
  { intros Hin. repeat (apply elem_of_cons in Hin as [Hin|Hin]; [discriminate|]).
    by apply elem_of_nil in Hin. }
  split; [exact Hno|].
  exact (proj1 (singleton_lifecycle []) _ 0%nat 3%nat
           (Terminal.Object 0) (Terminal.Object 0) Hno eq_refl eq_refl eq_refl eq_refl).
Defined.

(** ** The terminal: history cursor *)

Section CursorFacts.
Import Terminal.
Local Open Scope Z_scope.

Lemma cursor_addToHistory text type s : cursor (addToHistory text type s) = cursor s.
Proof. reflexivity. Qed.

Lemma cursor_foldl {B : Type} (f : state → B → state) (l : list B) :
  (∀ s b, cursor (f s b) = cursor s) → ∀ s, cursor (foldl f s l) = cursor s.
Proof.
  intros Hf. induction l as [|b l IH]; intros s; [reflexivity|].
  cbn [foldl]. by rewrite IH, Hf.
Qed.

Lemma cursor_addAll ls s : cursor (addAll ls s) = cursor s.
Proof. unfold addAll. by apply cursor_foldl. Qed.

Lemma cursor_catFile args s : cursor (completion_state (catFile args s)) = cursor s.
Proof.
  unfold catFile. destruct args as [|filename args]; [reflexivity|].
  destruct (fileContents filename); [apply cursor_addAll|].
  destruct (inherits filename); reflexivity.
Qed.

Lemma cursor_changeDirectory args s : cursor (changeDirectory args s) = cursor s.
Proof.
  unfold changeDirectory. destruct args as [|dir args]; [reflexivity|].
  repeat match goal with |- context [if ?b then _ else _] => destruct b end;
    reflexivity.
Qed.

Lemma cursor_run e c args s : cursor (completion_state (run e c args s)) = cursor s.
Proof.
  destruct c; cbn [run completion_state]; try reflexivity.
  - unfold echo. destruct args; reflexivity.
  - apply cursor_catFile.
  - apply cursor_changeDirectory.
Qed.

Lemma cursor_dispatch e command args s :
  cursor (completion_state (dispatch e command args s)) = cursor s.
Proof.
  unfold dispatch. destruct (lookup _) as [c|name|].
  - apply cursor_run.
  - unfold call_inherited. destruct (_ || _); reflexivity.
  - reflexivity.
Qed.

Lemma cursor_executeCommand e s : cursor (executeCommand e s) = cursor s.
Proof.
  unfold executeCommand. destruct (String.eqb _ _); [reflexivity|].
  set (s1 := addToHistory _ _ s).
  assert (Hr : ∀ r, cursor (completion_state r) = cursor s →
            cursor (match r with
                    | Normal s2 => set_value "" s2
                    | Abrupt s2 => addToHistory "Failed to execute command" "error" s2
                    end) = cursor s).
  { intros [s2|s2] H; exact H. }
  apply Hr. destruct (JSString.split _) as [|command args]; [reflexivity|].
  by rewrite cursor_dispatch.
Qed.

Lemma cursor_handleTabCompletion s : cursor (handleTabCompletion s) = cursor s.
Proof.
  unfold handleTabCompletion. destruct (completions _) as [|m [|m' ms]];
    [reflexivity | reflexivity |].
  by rewrite cursor_foldl.
Qed.

Lemma in_range_cursor s s' : cursor s' = cursor s → in_range s → in_range s'.
Proof. unfold cursor, in_range. intros [= -> ->]. done. Qed.

Lemma in_range_handleKeydown e k s : in_range s → in_range (handleKeydown e k s).
Proof.
  intros Hs. destruct k; cbn [handleKeydown].
  - eapply in_range_cursor; [apply cursor_executeCommand|].
    destruct (String.eqb _ _); [exact Hs|].
    unfold in_range. cbn. lia.
  - destruct (_ <? _) eqn:E; [|exact Hs]. apply Z.ltb_lt in E.
    unfold in_range in *. cbn. lia.
  - destruct (_ >? _) eqn:E; [|exact Hs]. apply Z.gtb_lt in E.
    unfold in_range in *. cbn. lia.
  - eapply in_range_cursor; [apply cursor_handleTabCompletion | exact Hs].
  - exact Hs.
Qed.

Lemma in_range_session e evs : in_range (session e evs).
Proof.
  unfold session. induction evs as [|ev evs IH] using rev_ind.
  - unfold in_range. cbn. lia.
  - rewrite foldl_app. cbn [foldl]. destruct ev as [v|k]; cbn [handle].
    + exact IH.
    + by apply in_range_handleKeydown.
Qed.

Lemma arrows_keep_history e ks :
  Forall arrow ks → ∀ s,
    in_range s →
    commandHistory (keys e ks s) = commandHistory s ∧
    in_range (keys e ks s) ∧
    (historyIndex (keys e ks s) = -1 → value (keys e ks s) = "" ∨ keys e ks s = s).
Proof.
  intros Hks s Hs. unfold keys.
  induction ks as [|k ks IH] using rev_ind.
  - cbn. auto.
  - apply Forall_app in Hks as [Hks Hk]. apply Forall_inv in Hk.
    specialize (IH Hks). rewrite foldl_app. cbn [foldl].
    set (s1 := foldl (λ s k, handleKeydown e k s) s ks) in *.
    destruct IH as (Hh & Hr & Hv).
    unfold arrow in Hk. destruct Hk as [Hk | Hk]; subst k; cbn [handleKeydown].
    + destruct (_ <? _) eqn:E; [|auto]. cbn. apply Z.ltb_lt in E.
      split; [exact Hh|]. split; [unfold in_range in *; cbn; lia|].
      intros Hneg. unfold in_range in Hr. lia.
    + destruct (_ >? _) eqn:E; [|auto]. cbn. apply Z.gtb_lt in E.
      split; [exact Hh|]. split; [unfold in_range in *; cbn; lia|].
      intros Hneg. left. apply Z.eqb_eq in Hneg. by rewrite Hneg.
Qed.
End CursorFacts.

(** C6.  Within a history of length H the cursor stays in the interval
    from -1 to H-1 whatever arrow keys are pressed: the history itself is
    untouched, arrow-up stops at H-1 and arrow-down at -1, and when the
    keys leave the cursor at -1 the input field is empty, unless no key has
    changed anything.  A line that is submitted is trimmed first.  When
    something is left, that becomes the first entry of the history and the
    cursor returns to -1; when nothing is left, the line being empty or
    white space only, the history and the cursor stay as they are.  The
    bounds hold in every state a session can reach. *)
Theorem history_cursor_bounds (e : Terminal.env) :
  (∀ (s : Terminal.state) (ks : list Terminal.key),
      Forall arrow ks → in_range s →
      Terminal.commandHistory (Terminal.keys e ks s) = Terminal.commandHistory s ∧
      in_range (Terminal.keys e ks s) ∧
      (Terminal.historyIndex (Terminal.keys e ks s) = (-1)%Z →
       Terminal.value (Terminal.keys e ks s) = "" ∨ Terminal.keys e ks s = s)) ∧
  (∀ (s : Terminal.state) (n : nat),
      in_range s →
      Terminal.historyIndex (Terminal.keys e (replicate n Terminal.ArrowUp) s)
      = Z.min (Terminal.historyIndex s + Z.of_nat n)
              (Z.of_nat (length (Terminal.commandHistory s)) - 1) ∧
      Terminal.historyIndex (Terminal.keys e (replicate n Terminal.ArrowDown) s)
      = Z.max (Terminal.historyIndex s - Z.of_nat n) (-1)) ∧
  (∀ s : Terminal.state,
      JSString.trim (Terminal.value s) ≠ "" →
      Terminal.commandHistory (Terminal.handleKeydown e Terminal.Enter s)
      = JSString.trim (Terminal.value s) :: Terminal.commandHistory s ∧
      Terminal.historyIndex (Terminal.handleKeydown e Terminal.Enter s) = (-1)%Z) ∧
  (∀ s : Terminal.state,
      JSString.trim (Terminal.value s) = "" →
      Terminal.commandHistory (Terminal.handleKeydown e Terminal.Enter s)
      = Terminal.commandHistory s ∧
      Terminal.historyIndex (Terminal.handleKeydown e Terminal.Enter s)
      = Terminal.historyIndex s) ∧
  (∀ evs : list Terminal.event, in_range (Terminal.session e evs)).
Proof.
  split; [intros s ks Hks Hs; by apply arrows_keep_history|].
  split.
  { intros s n Hs. split.
    - revert s Hs. induction n as [|n IH]; intros s Hs.
      + cbn. unfold in_range in Hs. lia.
      + cbn [replicate Terminal.keys foldl].
        change (foldl _ ?s0 (replicate n Terminal.ArrowUp))
          with (Terminal.keys e (replicate n Terminal.ArrowUp) s0).
        rewrite IH by (by apply in_range_handleKeydown).
        cbn [Terminal.handleKeydown].
        destruct (_ <? _)%Z eqn:E.
        * apply Z.ltb_lt in E. cbn. lia.
        * apply Z.ltb_ge in E. unfold in_range in Hs. lia.
    - revert s Hs. induction n as [|n IH]; intros s Hs.
      + cbn. unfold in_range in Hs. lia.
      + cbn [replicate Terminal.keys foldl].
        change (foldl _ ?s0 (replicate n Terminal.ArrowDown))
          with (Terminal.keys e (replicate n Terminal.ArrowDown) s0).
        rewrite IH by (by apply in_range_handleKeydown).
        cbn [Terminal.handleKeydown].
        destruct (_ >? _)%Z eqn:E.
        * apply Z.gtb_lt in E. cbn. lia.
        * rewrite Z.gtb_ltb in E. apply Z.ltb_ge in E. unfold in_range in Hs. lia. }
  split.
  { intros s Hne. cbn [Terminal.handleKeydown].
    destruct (String.eqb _ _) eqn:E; [by apply String.eqb_eq in E|].
    pose proof (cursor_executeCommand e
      (Terminal.State (JSString.trim (Terminal.value s) :: Terminal.commandHistory s)
         (-1) (Terminal.value s) (Terminal.history s) (Terminal.href s))) as Hc.
    unfold cursor in Hc. cbn in Hc. by injection Hc as -> ->. }
  split; [|apply in_range_session].
  intros s He. cbn [Terminal.handleKeydown].
  destruct (String.eqb _ _) eqn:E; [|by apply String.eqb_neq in E].
  pose proof (cursor_executeCommand e s) as Hc.
  unfold cursor in Hc. by injection Hc as -> ->.
Qed.

(** Three entries in the history: up, up, down, down ends at -1 with an
    empty input field. *)
Lemma history_cursor_bounds_witness :
  Forall arrow [Terminal.ArrowUp; Terminal.ArrowUp; Terminal.ArrowDown; Terminal.ArrowDown] ∧
  in_range (Terminal.State ["ls"; "pwd"; "help"] (-1) "draft" [] None) ∧
  in_range (Terminal.keys (Terminal.Env "/" "now")
              [Terminal.ArrowUp; Terminal.ArrowUp; Terminal.ArrowDown; Terminal.ArrowDown]
              (Terminal.State ["ls"; "pwd"; "help"] (-1) "draft" [] None)).
Proof.
  assert (Hk : Forall arrow
            [Terminal.ArrowUp; Terminal.ArrowUp; Terminal.ArrowDown; Terminal.ArrowDown]).
  { repeat (apply List.Forall_cons; [unfold arrow; auto|]). apply List.Forall_nil. }
  assert (Hs : in_range (Terminal.State ["ls"; "pwd"; "help"] (-1) "draft" [] None)).
  { unfold in_range. cbn. lia. }
  split; [exact Hk|]. split; [exact Hs|].
  exact (proj1 (proj2 (proj1 (history_cursor_bounds (Terminal.Env "/" "now")) _ _ Hk Hs))).
Defined.

(** C6, as stated for every non-empty line, fails.  A line of three
    spaces is not empty; submitted while the cursor is on the first entry of
    the history, it is not pushed and the cursor stays on that entry.  Of a
    line with spaces around its text it is the trimmed text that is pushed,
    not the line.  And arrow-down at -1 leaves the cursor at -1 with the
    typed text, not the empty string, in the input field. *)
Lemma enter_pushes_no_line_of_spaces :
  ¬ (∀ (e : Terminal.env) (s : Terminal.state),
       Terminal.value s ≠ "" →
       Terminal.commandHistory (Terminal.handleKeydown e Terminal.Enter s)
       = Terminal.value s :: Terminal.commandHistory s ∧
       Terminal.historyIndex (Terminal.handleKeydown e Terminal.Enter s) = (-1)%Z) ∧
  ¬ (∀ (e : Terminal.env) (s : Terminal.state) (ks : list Terminal.key),
       Forall arrow ks → in_range s →
       Terminal.historyIndex (Terminal.keys e ks s) = (-1)%Z →
       Terminal.value (Terminal.keys e ks s) = "") ∧
  (let s := Terminal.handleKeydown (Terminal.Env "/" "now") Terminal.Enter
              (Terminal.State ["ls"] 0 "   " [] None) in
   Terminal.commandHistory s = ["ls"] ∧ Terminal.historyIndex s = 0%Z) ∧
  (let s := Terminal.handleKeydown (Terminal.Env "/" "now") Terminal.Enter
              (Terminal.State [] (-1) "  ls  " [] None) in
   Terminal.commandHistory s = ["ls"] ∧ Terminal.historyIndex s = (-1)%Z) ∧
  (let s := Terminal.keys (Terminal.Env "/" "now") [Terminal.ArrowDown]
              (Terminal.State ["ls"] (-1) "draft" [] None) in
   Terminal.historyIndex s = (-1)%Z ∧ Terminal.value s = "draft").
Proof.
  assert (E1 : let s := Terminal.handleKeydown (Terminal.Env "/" "now") Terminal.Enter
                          (Terminal.State ["ls"] 0 "   " [] None) in
               Terminal.commandHistory s = ["ls"] ∧ Terminal.historyIndex s = 0%Z)
    by (vm_compute; split; reflexivity).
  assert (E2 : let s := Terminal.handleKeydown (Terminal.Env "/" "now") Terminal.Enter
                          (Terminal.State [] (-1) "  ls  " [] None) in
               Terminal.commandHistory s = ["ls"] ∧ Terminal.historyIndex s = (-1)%Z)
    by (vm_compute; split; reflexivity).
  assert (E3 : let s := Terminal.keys (Terminal.Env "/" "now") [Terminal.ArrowDown]
                          (Terminal.State ["ls"] (-1) "draft" [] None) in
               Terminal.historyIndex s = (-1)%Z ∧ Terminal.value s = "draft")
    by (vm_compute; split; reflexivity).
  split.
  { intros H.
    destruct (H (Terminal.Env "/" "now") (Terminal.State ["ls"] 0 "   " [] None))
      as [_ Hi]; [discriminate|].
    destruct E1 as [_ E1]. cbv zeta in E1. rewrite E1 in Hi. discriminate Hi. }
  split.
  { intros H.
    specialize (H (Terminal.Env "/" "now") (Terminal.State ["ls"] (-1) "draft" [] None)
                  [Terminal.ArrowDown]).
    destruct E3 as [E3 E3']. cbv zeta in E3, E3'. rewrite E3' in H.
    assert (Hd : "draft" = "") ; [|discriminate Hd].
    apply H; [| unfold in_range; cbn; lia | exact E3].
    apply List.Forall_cons; [unfold arrow; auto | apply List.Forall_nil]. }
  split; [exact E1|]. split; [exact E2 | exact E3].
Qed.

(** ** The terminal: dispatch *)

Section DispatchFacts.
Import JSString Terminal.

Lemma lower_white_space c : is_white_space (lower c) = is_white_space c.
Proof. destruct c as [[] [] [] [] [] [] [] []]; reflexivity. Qed.

Lemma lower_space c : Ascii.eqb (lower c) " " = Ascii.eqb c " ".
Proof. destruct c as [[] [] [] [] [] [] [] []]; reflexivity. Qed.

Lemma lower_lower c : lower (lower c) = lower c.
Proof. destruct c as [[] [] [] [] [] [] [] []]; reflexivity. Qed.

Lemma toLowerCase_idemp s : toLowerCase (toLowerCase s) = toLowerCase s.
Proof. induction s as [|c s IH]; [reflexivity|]. cbn. by rewrite lower_lower, IH. Qed.

Lemma toLowerCase_trimStart s : toLowerCase (trimStart s) = trimStart (toLowerCase s).
Proof.
  induction s as [|c s IH]; [reflexivity|].
  cbn. rewrite lower_white_space. destruct (is_white_space c); [exact IH | reflexivity].
Qed.

Lemma toLowerCase_rev_app s1 s2 :
  toLowerCase (String.rev_app s1 s2) = String.rev_app (toLowerCase s1) (toLowerCase s2).
Proof.
  revert s2. induction s1 as [|c s1 IH]; intros s2; [reflexivity|].
  cbn. by rewrite IH.
Qed.

Lemma toLowerCase_trim s : toLowerCase (trim s) = trim (toLowerCase s).
Proof.
  unfold trim, trimEnd, String.rev.
  by rewrite toLowerCase_rev_app, toLowerCase_trimStart, toLowerCase_rev_app,
    toLowerCase_trimStart.
Qed.

Lemma split_nonempty s : split s ≠ [].
Proof.
  destruct s as [|c s]; [discriminate|]. cbn.
  destruct (Ascii.eqb c " "); [discriminate|]. destruct (split s); discriminate.
Qed.

Lemma toLowerCase_split s : split (toLowerCase s) = toLowerCase <$> split s.
Proof.
  induction s as [|c s IH]; [reflexivity|].
  cbn. rewrite lower_space, IH. destruct (Ascii.eqb c " "); [reflexivity|].
  pose proof (split_nonempty s). destruct (split s); [done | reflexivity].
Qed.

(** The first token does not depend on the case of the text but for its
    own case. *)
Lemma completions_lower v : completions (toLowerCase v) = completions v.
Proof.
  unfold completions. rewrite <- toLowerCase_trim, toLowerCase_split.
  destruct (split (trim v)) as [|tok rest]; [reflexivity|].
  rewrite fmap_cons. cbn [head default from_option id]. by rewrite toLowerCase_idemp.
Qed.

Lemma dispatch_own e command args s c :
  own_command (toLowerCase command) = Some c →
  dispatch e command args s = run e c args s.
Proof. intros H. unfold dispatch, lookup. by rewrite H. Qed.

Lemma executeCommand_own e s command args c :
  trim (value s) ≠ "" →
  split (trim (value s)) = command :: args →
  own_command (toLowerCase command) = Some c →
  executeCommand e s
  = match run e c args (addToHistory (trim (value s)) "" s) with
    | Normal s2 => set_value "" s2
    | Abrupt s2 => addToHistory "Failed to execute command" "error" s2
    end.
Proof.
  intros Hne Hsplit Hown. unfold executeCommand.
  destruct (String.eqb _ _) eqn:E; [by apply String.eqb_eq in E|].
  by rewrite Hsplit, (dispatch_own _ _ _ _ c).
Qed.

(** A token that is no property of [this.commands] at all, its own or
    inherited: the line, the error line with the token and the hint are
    appended, and the input field is cleared. *)
Lemma executeCommand_missing e s command args :
  trim (value s) ≠ "" →
  split (trim (value s)) = command :: args →
  lookup (toLowerCase command) = Missing →
  executeCommand e s
  = set_value ""
      (addToHistory ("Type " +:+ quote +:+ "help" +:+ quote +:+ " for available commands") ""
         (addToHistory ("Command not found: " +:+ command) "error"
            (addToHistory (trim (value s)) "" s))).
Proof.
  intros Hne Hsplit Hmiss. unfold executeCommand.
  destruct (String.eqb _ _) eqn:E; [by apply String.eqb_eq in E|].
  rewrite Hsplit. unfold dispatch. by rewrite Hmiss.
Qed.
End DispatchFacts.

(** C10.  The names of the registry are in lower case, and the first token
    of a submitted line is put in lower case before it is looked up: a line
    whose first token is a registry name in any case runs that name's
    handler, with the other tokens as they were typed ([ECHO hi] prints
    [hi], [eCho HeLLo WORLD] prints [HeLLo WORLD]).  Tab completion compares
    the registry names with the first token in lower case, so the case of
    the text is of no account for the names it finds. *)
Theorem command_names_case_insensitive (e : Terminal.env) :
  Forall (λ name, JSString.toLowerCase name = name) Terminal.command_names ∧
  (∀ (s : Terminal.state) (command : string) (args : list string) (c : Terminal.command),
      JSString.trim (Terminal.value s) ≠ "" →
      JSString.split (JSString.trim (Terminal.value s)) = command :: args →
      Terminal.own_command (JSString.toLowerCase command) = Some c →
      Terminal.executeCommand e s
      = match Terminal.run e c args
                (Terminal.addToHistory (JSString.trim (Terminal.value s)) "" s) with
        | Terminal.Normal s2 => Terminal.set_value "" s2
        | Terminal.Abrupt s2 =>
            Terminal.addToHistory "Failed to execute command" "error" s2
        end) ∧
  (∀ s : Terminal.state,
      Terminal.executeCommand e (Terminal.set_value "ECHO hi" s)
      = Terminal.set_value ""
          (Terminal.addToHistory "hi" "" (Terminal.addToHistory "ECHO hi" "" s))) ∧
  (∀ s : Terminal.state,
      Terminal.executeCommand e (Terminal.set_value "eCho HeLLo WORLD" s)
      = Terminal.set_value ""
          (Terminal.addToHistory "HeLLo WORLD" ""
             (Terminal.addToHistory "eCho HeLLo WORLD" "" s))) ∧
  (∀ v : string, Terminal.completions (JSString.toLowerCase v) = Terminal.completions v) ∧
  (∀ s : Terminal.state,
      Terminal.handleTabCompletion (Terminal.set_value "HE" s)
      = Terminal.set_value "help" s).
Proof.
  split; [repeat constructor|].
  split; [intros s command args c; apply executeCommand_own|].
  split; [reflexivity|]. split; [reflexivity|].
  split; [apply completions_lower | reflexivity].
Qed.

(** The line [PWD] runs the handler stored under [pwd]. *)
Lemma command_names_case_insensitive_witness :
  Terminal.executeCommand (Terminal.Env "/index.html" "now")
    (Terminal.set_value "PWD" Terminal.state_init)
  = Terminal.set_value ""
      (Terminal.addToHistory "/home/riley/web-app/index.html" ""
         (Terminal.addToHistory "PWD" "" Terminal.state_init)).
Proof.
  assert (Hne : JSString.trim (Terminal.value (Terminal.set_value "PWD" Terminal.state_init))
                ≠ "") by discriminate.
  exact (proj1 (proj2 (command_names_case_insensitive (Terminal.Env "/index.html" "now")))
           (Terminal.set_value "PWD" Terminal.state_init) "PWD" [] Terminal.pwd
           Hne eq_refl eq_refl).
Defined.

(** A name that every object inherits.  The token [constructor] is none of
    the registry's names, yet [this.commands[...]] finds the function that
    the object literal inherits under that name; it is called, and the
    transcript gains the submitted line alone: no error line, no hint.  At
    [__proto__] the value found is not callable, and the transcript gains
    the generic failure line in place of the error line and the hint. *)
Lemma inherited_name_is_not_reported (e : Terminal.env) (s : Terminal.state) :
  Terminal.own_command "constructor" = None ∧
  Terminal.own_command "__proto__" = None ∧
  Terminal.executeCommand e (Terminal.set_value "constructor" s)
  = Terminal.set_value "" (Terminal.addToHistory "constructor" "" s) ∧
  Terminal.executeCommand e (Terminal.set_value "__proto__" s)
  = Terminal.addToHistory "Failed to execute command" "error"
      (Terminal.addToHistory "__proto__" "" (Terminal.set_value "__proto__" s)).
Proof. repeat split. Qed.

(** C8, as stated, fails.  The claim takes the tokens of the line to be
    separated by white space; the code splits the line at every single
    space.  With two spaces after [echo] the handler gets an empty string
    as its first argument and prints the text with a space in front; with
    two spaces after [cd] the directory is the empty string; and with a
    tab after [echo] no handler runs at all. *)
Lemma dispatch_not_on_white_space_tokens :
  ¬ (∀ (e : Terminal.env) (s : Terminal.state) (tok : string) (args : list string)
       (c : Terminal.command),
       Described.tokens (Terminal.value s) = tok :: args →
       Terminal.own_command (JSString.toLowerCase tok) = Some c →
       Terminal.executeCommand e s
       = match Terminal.run e c args
                 (Terminal.addToHistory (JSString.trim (Terminal.value s)) "" s) with
         | Terminal.Normal s2 => Terminal.set_value "" s2
         | Terminal.Abrupt s2 =>
             Terminal.addToHistory "Failed to execute command" "error" s2
         end) ∧
  Described.tokens "echo  hi" = ["echo"; "hi"] ∧
  Terminal.history
    (Terminal.executeCommand (Terminal.Env "/" "now")
       (Terminal.set_value "echo  hi" Terminal.state_init))
  = [Terminal.Line "echo  hi" ""; Terminal.Line " hi" ""] ∧
  Terminal.executeCommand (Terminal.Env "/" "now")
    (Terminal.set_value "cd  about" Terminal.state_init)
  = Terminal.State [] (-1) ""
      [Terminal.Line "cd  about" ""; Terminal.Line "Directory not found: " "error"] None ∧
  Described.tokens ("echo" +:+ String (ascii_of_nat 9) "hi") = ["echo"; "hi"] ∧
  Terminal.history
    (Terminal.executeCommand (Terminal.Env "/" "now")
       (Terminal.set_value ("echo" +:+ String (ascii_of_nat 9) "hi") Terminal.state_init))
  = [Terminal.Line ("echo" +:+ String (ascii_of_nat 9) "hi") "";
     Terminal.Line ("Command not found: echo" +:+ String (ascii_of_nat 9) "hi") "error";
     Terminal.Line ("Type " +:+ JSString.quote +:+ "help" +:+ JSString.quote
                    +:+ " for available commands") ""].
Proof.
  split; [|repeat split].
  intros H.
  specialize (H (Terminal.Env "/" "now")
                (Terminal.set_value "echo  hi" Terminal.state_init)
                "echo" ["hi"] Terminal.echo_ eq_refl eq_refl).
  vm_compute in H. discriminate H.
Qed.

(** C8, amended.  A non-empty line is split at its single spaces after
    trimming, and the trimmed line is appended to the transcript.  When
    the first piece, in lower case, is a name of the registry, the handler
    of that name runs with the other pieces as arguments and its output
    lines are appended: [echo hello world] appends [hello world].  When the
    first piece, in lower case, names no property of the registry object,
    exactly the error line with that piece and the hint line are appended,
    no handler runs and the input field is cleared: so for
    [nonexistent]. *)
Theorem command_dispatch (e : Terminal.env) :
  (∀ (s : Terminal.state) (command : string) (args : list string) (c : Terminal.command),
      JSString.trim (Terminal.value s) ≠ "" →
      JSString.split (JSString.trim (Terminal.value s)) = command :: args →
      Terminal.own_command (JSString.toLowerCase command) = Some c →
      Terminal.executeCommand e s
      = match Terminal.run e c args
                (Terminal.addToHistory (JSString.trim (Terminal.value s)) "" s) with
        | Terminal.Normal s2 => Terminal.set_value "" s2
        | Terminal.Abrupt s2 =>
            Terminal.addToHistory "Failed to execute command" "error" s2
        end) ∧
  (∀ s : Terminal.state,
      Terminal.executeCommand e (Terminal.set_value "echo hello world" s)
      = Terminal.set_value ""
          (Terminal.addToHistory "hello world" ""
             (Terminal.addToHistory "echo hello world" "" s))) ∧
  (∀ (s : Terminal.state) (command : string) (args : list string),
      JSString.trim (Terminal.value s) ≠ "" →
      JSString.split (JSString.trim (Terminal.value s)) = command :: args →
      Terminal.lookup (JSString.toLowerCase command) = Terminal.Missing →
      Terminal.executeCommand e s
      = Terminal.set_value ""
          (Terminal.addToHistory
             ("Type " +:+ JSString.quote +:+ "help" +:+ JSString.quote
              +:+ " for available commands") ""
             (Terminal.addToHistory ("Command not found: " +:+ command) "error"
                (Terminal.addToHistory (JSString.trim (Terminal.value s)) "" s)))) ∧
  (∀ s : Terminal.state,
      Terminal.executeCommand e (Terminal.set_value "nonexistent" s)
      = Terminal.set_value ""
          (Terminal.addToHistory
             ("Type " +:+ JSString.quote +:+ "help" +:+ JSString.quote
              +:+ " for available commands") ""
             (Terminal.addToHistory "Command not found: nonexistent" "error"
                (Terminal.addToHistory "nonexistent" "" s)))).
Proof.
  split; [intros s command args c; apply executeCommand_own|].
  split; [reflexivity|].
  split; [intros s command args; apply executeCommand_missing | reflexivity].
Qed.

(** The line [whoami now] runs the handler of [whoami]. *)
Lemma command_dispatch_witness :
  Terminal.executeCommand (Terminal.Env "/" "now")
    (Terminal.set_value "whoami now" Terminal.state_init)
  = Terminal.set_value ""
      (Terminal.showWhoami (Terminal.addToHistory "whoami now" "" Terminal.state_init)).
Proof.
  assert (Hne : JSString.trim (Terminal.value
                  (Terminal.set_value "whoami now" Terminal.state_init)) ≠ "")
    by discriminate.
  exact (proj1 (command_dispatch (Terminal.Env "/" "now"))
           (Terminal.set_value "whoami now" Terminal.state_init) "whoami" ["now"]
           Terminal.whoami Hne eq_refl eq_refl).
Defined.

(** ** The scroll coordinator: reasoning about its computations *)

Section Preservation.
Import ScrollHandler.

Lemma preserves_ret (P : world → Prop) {A : Type} (a : A) : preserves P (mret a).
Proof. intros w H. exact H. Qed.

Lemma preserves_throw (P : world → Prop) {A : Type} : preserves P (@throw A).
Proof. intros w H. exact H. Qed.

Lemma preserves_bind (P : world → Prop) {A B : Type} (m : M A) (f : A → M B) :
  preserves P m → (∀ a, preserves P (f a)) → preserves P (m ≫= f).
Proof.
  intros Hm Hf w H. unfold mbind, M_bind. specialize (Hm w H).
  destruct (m w) as [[a|] w']; cbn in *; [by apply Hf | exact Hm].
Qed.

Lemma preserves_get (P : world → Prop) : preserves P get.
Proof. intros w H. exact H. Qed.

Lemma preserves_self (P : world → Prop) : preserves P self.
Proof. intros w H. exact H. Qed.

Lemma preserves_deref (P : world → Prop) {A : Type} (o : option A) : preserves P (deref o).
Proof. destruct o; intros w H; exact H. Qed.

Lemma preserves_method (P : world → Prop) : preserves P method.
Proof. intros w H. unfold method, mbind, M_bind, self. cbn. by destruct (bound (this w)). Qed.

Lemma preserves_update (P : world → Prop) (f : world → world) :
  (∀ w, P w → P (f w)) → preserves P (update f).
Proof. intros Hf w H. by apply Hf. Qed.

Lemma preserves_if (P : world → Prop) {A : Type} (b : bool) (m1 m2 : M A) :
  preserves P m1 → preserves P m2 → preserves P (if b then m1 else m2).
Proof. by destruct b. Qed.

Lemma preserves_for_each (P : world → Prop) {A : Type} (f : A → M unit) (l : list A) :
  (∀ a, preserves P (f a)) → preserves P (for_each f l).
Proof.
  intros Hf. induction l as [|a l IH]; [apply preserves_ret|].
  cbn [for_each]. apply preserves_bind; [apply Hf | intros _; exact IH].
Qed.

Lemma preserves_task (P : world → Prop) (m : M unit) :
  (∀ w, P w → P (with_uncaught (S (uncaught w)) w)) →
  preserves P m → ∀ w, P w → P (task m w).
Proof.
  intros Hu Hm w H. unfold task. specialize (Hm w H).
  destruct (m w) as [[[]|] w']; cbn in *; [exact Hm | by apply Hu].
Qed.
End Preservation.

(** ** The scroll coordinator: geometry cache *)

Section RectCacheFacts.
Import ScrollHandler.
Local Open Scope Z_scope.

Lemma getElementRect_hit w cache element r timestamp :
  rectCache (this w) = Some cache →
  cache !! element = Some (r, timestamp) →
  clock (win w) - timestamp < cacheTimeout →
  getElementRect element w = (Ok r, w).
Proof.
  intros Hc He Hage. unfold getElementRect, mbind, M_bind, get, deref.
  rewrite Hc. cbn. rewrite He.
  apply Z.ltb_lt in Hage. by rewrite Hage.
Qed.

Lemma getElementRect_expired w cache element r timestamp :
  rectCache (this w) = Some cache →
  cache !! element = Some (r, timestamp) →
  cacheTimeout ≤ clock (win w) - timestamp →
  getElementRect element w = refetched element cache w.
Proof.
  intros Hc He Hage. unfold getElementRect, mbind, M_bind, get, deref.
  rewrite Hc. cbn. rewrite He.
  apply Z.ltb_ge in Hage. rewrite Hage. reflexivity.
Qed.

Lemma getElementRect_absent w cache element :
  rectCache (this w) = Some cache →
  cache !! element = None →
  getElementRect element w = refetched element cache w.
Proof.
  intros Hc He. unfold getElementRect, mbind, M_bind, get, deref.
  rewrite Hc. cbn. rewrite He. reflexivity.
Qed.
End RectCacheFacts.

(** ** The scroll coordinator: what [destroy] leaves behind *)

Section DestroyFacts.
Import ScrollHandler.

Ltac preserve_step :=
  first
    [ apply preserves_ret | apply preserves_throw | apply preserves_get
    | apply preserves_self | apply preserves_deref | apply preserves_method
    | apply preserves_for_each; intros ?
    | apply preserves_bind; [|intros ?]
    | match goal with |- preserves _ (if ?b then _ else _) => destruct b end ].

(** [destroy] cancels no frame request but the one with handle 1. *)
Lemma destroy_keeps_request (r : nat * frame_cb) :
  r.1 ≠ 1%nat →
  preserves (λ w, r ∈ Frames.requested (frames w)) destroy.
Proof.
  intros Hr. unfold destroy, clearRectCache, removeEventListener, assign.
  repeat preserve_step;
    try (apply preserves_update; intros w H; exact H).
  all: unfold cancelAnimationFrame; apply preserves_update; intros w H;
    cbn; apply list_elem_of_filter; split; [exact Hr | exact H].
Qed.

(** [destroy] clears no timer. *)
Lemma destroy_keeps_timer (tm : Timers.timer timer_cb) :
  preserves (λ w, tm ∈ Timers.pending (timers w)) destroy.
Proof.
  unfold destroy, clearRectCache, removeEventListener, assign, cancelAnimationFrame.
  repeat preserve_step; apply preserves_update; intros w H; exact H.
Qed.

(** [destroy] leaves the change listener on the media query of [init]. *)
Lemma destroy_keeps_media_listener :
  preserves (λ w, ReducedMotion QueryOfInit ∈ listeners w) destroy.
Proof.
  unfold destroy, clearRectCache, removeEventListener, assign, cancelAnimationFrame.
  repeat preserve_step; apply preserves_update; intros w H;
    first [ exact H | cbn; apply list_elem_of_filter; split; [discriminate | exact H] ].
Qed.
End DestroyFacts.

Section ResizeFacts.
Import ScrollHandler.
Local Open Scope Z_scope.

Lemma cache_neutral_preserves {A : Type} (m : M A) (n : nat) :
  cache_neutral m → preserves (cache_since n) m.
Proof.
  intros Hm w (Hq & cache & Hc & Hall). destruct (Hm w) as [Hq' Hc'].
  split; [by rewrite Hq'|]. exists cache. by rewrite Hc'.
Qed.

Lemma scheduleStyleUpdate_neutral element styles :
  cache_neutral (scheduleStyleUpdate element styles).
Proof.
  intros w. unfold scheduleStyleUpdate, mbind, M_bind, self, deref. cbn.
  destruct (pendingStyles (this w)); cbn; [|done].
  destruct (styleUpdateScheduled (this w)); cbn; [done|].
  destruct (bound (this w)); cbn; done.
Qed.

Lemma updateScrollProgress_neutral : cache_neutral updateScrollProgress.
Proof.
  intros w. unfold updateScrollProgress, mbind, M_bind, get. cbn.
  destruct (scrollProgress (this w)); [apply scheduleStyleUpdate_neutral | done].
Qed.

Lemma getElementRect_since (n : nat) (element : elem) :
  preserves (cache_since n) (getElementRect element).
Proof.
  intros w (Hq & cache & Hc & Hall).
  destruct (cache !! element) as [[r timestamp]|] eqn:He.
  - destruct (Z.lt_ge_cases (clock (win w) - timestamp) cacheTimeout) as [Hage|Hage].
    + rewrite (getElementRect_hit w cache element r timestamp Hc He Hage).
      split; [exact Hq | by exists cache].
    + rewrite (getElementRect_expired w cache element r timestamp Hc He Hage).
      split; [cbn; rewrite length_app; lia|]. eexists. split; [reflexivity|].
      intros el r' ts' Hl. destruct (decide (element = el)) as [<-|Hne].
      * rewrite lookup_insert_eq in Hl. injection Hl as <- <-. exact Hq.
      * rewrite lookup_insert_ne in Hl by done. by eapply Hall.
  - rewrite (getElementRect_absent w cache element Hc He).
    split; [cbn; rewrite length_app; lia|]. eexists. split; [reflexivity|].
    intros el r' ts' Hl. destruct (decide (element = el)) as [<-|Hne].
    + rewrite lookup_insert_eq in Hl. injection Hl as <- <-. exact Hq.
    + rewrite lookup_insert_ne in Hl by done. by eapply Hall.
Qed.

Lemma inViewUpdates_since (n : nat) (images : list elem) :
  preserves (cache_since n) (inViewUpdates images).
Proof.
  induction images as [|image images IH]; [apply preserves_ret|].
  cbn [inViewUpdates]. apply preserves_bind; [apply getElementRect_since | intros r].
  apply preserves_bind; [apply preserves_get | intros w'].
  apply preserves_bind; [exact IH | intros rest]. apply preserves_ret.
Qed.

Lemma updateParallax_since (n : nat) : preserves (cache_since n) updateParallax.
Proof.
  unfold updateParallax. apply preserves_bind; [apply preserves_get | intros w].
  destruct (default false _); [apply preserves_ret|].
  destruct (_ <? _); [apply preserves_ret|].
  apply preserves_bind; [by apply preserves_update | intros _].
  apply preserves_bind; [apply preserves_deref | intros images].
  apply preserves_bind; [apply inViewUpdates_since | intros updates].
  apply preserves_for_each. intros u.
  apply cache_neutral_preserves, scheduleStyleUpdate_neutral.
Qed.

Lemma bind_ok {A B : Type} (m : M A) (f : A → M B) (w w' : world) (a : A) :
  m w = (Ok a, w') → (m ≫= f) w = f a w'.
Proof. intros H. unfold mbind, M_bind. by rewrite H. Qed.

Lemma method_ok (w : world) : bound (this w) = true → method w = (Ok tt, w).
Proof. intros H. unfold method, mbind, M_bind, self. cbn. by rewrite H. Qed.

(** After [handleResize] the cache holds nothing older than the resize. *)
Lemma handleResize_invalidates (w : world) :
  bound (this w) = true →
  cache_since (length (queried w)) (handleResize w).2.
Proof.
  intros Hb. unfold handleResize.
  erewrite bind_ok by reflexivity.
  erewrite bind_ok by reflexivity.
  erewrite bind_ok by (apply method_ok; exact Hb).
  erewrite bind_ok by reflexivity.
  match goal with |- cache_since _ (_ ?w0).2 =>
    assert (Hw0 : cache_since (length (queried w)) w0)
  end.
  { split; [cbn; lia|]. exists ∅. split; [reflexivity|].
    intros ? ? ? Hl. by rewrite lookup_empty in Hl. }
  revert Hw0. apply (preserves_bind (cache_since _)); [apply preserves_self | intros h].
  apply preserves_bind; [destruct (parallaxState h); [apply preserves_ret | apply preserves_throw]|].
  intros _. apply preserves_bind.
  - destruct (default false _); [apply preserves_ret|].
    apply preserves_bind; [by apply preserves_update | intros _].
    apply preserves_bind; [apply preserves_method | intros _].
    apply updateParallax_since.
  - intros _. apply preserves_bind; [apply preserves_method | intros _].
    apply cache_neutral_preserves, updateScrollProgress_neutral.
Qed.
End ResizeFacts.

(** C9.  A fetch that finds an entry younger than the cache window returns
    the cached rectangle itself and asks the layout nothing; a fetch that
    finds the entry as old as the window or older, or finds none, asks the
    layout, and stores the new rectangle with the current time.  So after
    a fetch that asked the layout, a second fetch within the window
    returns the identical rectangle without a query.  [clearRectCache]
    empties the cache, after which every fetch asks the layout, and
    [handleResize] leaves no rectangle in the cache that is older than the
    resize. *)
Theorem rect_cache_window (element : ScrollHandler.elem) :
  (∀ w cache r timestamp,
      ScrollHandler.rectCache (ScrollHandler.this w) = Some cache →
      cache !! element = Some (r, timestamp) →
      (ScrollHandler.clock (ScrollHandler.win w) - timestamp < ScrollHandler.cacheTimeout)%Z →
      ScrollHandler.getElementRect element w = (ScrollHandler.Ok r, w)) ∧
  (∀ w cache r timestamp,
      ScrollHandler.rectCache (ScrollHandler.this w) = Some cache →
      cache !! element = Some (r, timestamp) →
      (ScrollHandler.cacheTimeout ≤ ScrollHandler.clock (ScrollHandler.win w) - timestamp)%Z →
      ScrollHandler.getElementRect element w = refetched element cache w) ∧
  (∀ w cache,
      ScrollHandler.rectCache (ScrollHandler.this w) = Some cache →
      cache !! element = None →
      ScrollHandler.getElementRect element w = refetched element cache w) ∧
  (∀ w cache (t : Z),
      ScrollHandler.rectCache (ScrollHandler.this w) = Some cache →
      (t - ScrollHandler.clock (ScrollHandler.win w) < ScrollHandler.cacheTimeout)%Z →
      let first := refetched element cache w in
      ScrollHandler.getElementRect element (ScrollHandler.set_clock t first.2)
      = (first.1, ScrollHandler.set_clock t first.2)) ∧
  (∀ w,
      ScrollHandler.clearRectCache w
      = (ScrollHandler.Ok tt,
         ScrollHandler.with_this
           (ScrollHandler.set_lastCacheUpdate (Some 0%Z)
              (ScrollHandler.set_rectCache (Some ∅) (ScrollHandler.this w))) w) ∧
      ScrollHandler.getElementRect element (ScrollHandler.clearRectCache w).2
      = refetched element ∅ (ScrollHandler.clearRectCache w).2) ∧
  (∀ w,
      ScrollHandler.bound (ScrollHandler.this w) = true →
      cache_since (length (ScrollHandler.queried w)) (ScrollHandler.handleResize w).2).
Proof.
  split; [intros; by eapply getElementRect_hit|].
  split; [intros; by eapply getElementRect_expired|].
  split; [intros; by eapply getElementRect_absent|].
  split.
  { intros w cache t Hc Ht first.
    eapply getElementRect_hit; [reflexivity | apply lookup_insert_eq | exact Ht]. }
  split; [|exact handleResize_invalidates].
  intros w. split; [reflexivity|]. by apply getElementRect_absent.
Qed.

(** The first fetch on that page asks the layout; a second one 10 ms
    later gets the same rectangle back and asks nothing. *)
Lemma rect_cache_window_witness :
  ScrollHandler.rectCache (ScrollHandler.this measured_page) = Some ∅ ∧
  (10 - ScrollHandler.clock (ScrollHandler.win measured_page) < ScrollHandler.cacheTimeout)%Z ∧
  ScrollHandler.getElementRect 3%nat
    (ScrollHandler.set_clock 10 (refetched 3%nat ∅ measured_page).2)
  = ((refetched 3%nat ∅ measured_page).1,
     ScrollHandler.set_clock 10 (refetched 3%nat ∅ measured_page).2).
Proof.
  assert (H1 : ScrollHandler.rectCache (ScrollHandler.this measured_page) = Some ∅)
    by (vm_compute; reflexivity).
  assert (H2 : (10 - ScrollHandler.clock (ScrollHandler.win measured_page)
                < ScrollHandler.cacheTimeout)%Z)
    by (vm_compute; reflexivity).
  split; [exact H1|]. split; [exact H2|].
  exact (proj1 (proj2 (proj2 (proj2 (rect_cache_window 3%nat)))) measured_page ∅ 10%Z H1 H2).
Defined.

(** ** The scroll coordinator: scroll progress *)

Section ProgressFacts.
Import ScrollHandler.

Lemma updateScrollProgress_pending (w : world) (bar : elem)
    (pending : gmap elem (gmap string css)) :
  scrollProgress (this w) = Some bar →
  pendingStyles (this w) = Some pending →
  scrollProgress (this (updateScrollProgress w).2) = Some bar ∧
  pendingStyles (this (updateScrollProgress w).2)
  = Some (<[bar := {[ "transform" := scaleX (progress w) ]} ∪ default ∅ (pending !! bar)]>
            pending).
Proof.
  intros Hbar Hp.
  unfold updateScrollProgress, scheduleStyleUpdate, mbind, M_bind, get, self, deref.
  cbn. rewrite Hbar. cbn. rewrite Hp. cbn.
  destruct (styleUpdateScheduled (this w)); cbn; [done|].
  destruct (bound (this w)); cbn; done.
Qed.

Lemma updateScrollProgress_schedules (w : world) (bar : elem)
    (pending : gmap elem (gmap string css)) :
  scrollProgress (this w) = Some bar →
  pendingStyles (this w) = Some pending →
  scheduled_scale (updateScrollProgress w).2 (progress w).
Proof.
  intros Hbar Hp. unfold scheduled_scale, scheduled_transform.
  destruct (updateScrollProgress_pending w bar pending Hbar Hp) as [-> ->].
  cbn. rewrite lookup_insert_eq. cbn.
  apply lookup_union_Some_l, lookup_singleton_eq.
Qed.

Lemma progress_in_unit (w : world) :
  let d := (num (documentHeight (this w)) - num (windowHeight (this w)))%Q in
  (0 < d)%Q → (0 <= scrollY (win w))%Q → (scrollY (win w) <= d)%Q →
  in_unit (progress w).
Proof.
  intros d Hd H0 H1. unfold progress. fold d. unfold divide.
  destruct (Qeq_bool d 0) eqn:E.
  { apply Qeq_bool_iff in E. rewrite E in Hd. by apply Qlt_irrefl in Hd. }
  cbn [times over in_unit].
  assert (Heq : (scrollY (win w) / d * 100 / 100 == scrollY (win w) / d)%Q).
  { field. intros Hz. rewrite Hz in Hd. by apply Qlt_irrefl in Hd. }
  rewrite Heq. split.
  - apply Qle_shift_div_l; [exact Hd|]. by rewrite Qmult_0_l.
  - apply Qle_shift_div_r; [exact Hd|]. by rewrite Qmult_1_l.
Qed.
End ProgressFacts.

(** C3, as stated, fails.  The handler of a page that is as tall as its
    viewport schedules [scaleX(NaN)] when it is constructed; and when the
    document has grown since the heights were measured, the value at
    offset 500 is 5/2. *)
Lemma scroll_progress_not_clamped :
  ¬ (∀ (boxes : ScrollHandler.elem → Q * Q) (anchors : list ScrollHandler.elem)
       (wn : ScrollHandler.window) (evs : list ScrollHandler.event)
       (n : ScrollHandler.number),
       scheduled_scale (ScrollHandler.play evs (ScrollHandler.blank boxes anchors wn)) n →
       in_unit n) ∧
  scheduled_scale
    (ScrollHandler.play [ScrollHandler.Construct true (Some 7%nat) []] short_page)
    ScrollHandler.NotFinite ∧
  scheduled_scale
    (ScrollHandler.play
       [ScrollHandler.Construct true (Some 7%nat) []; ScrollHandler.Frame;
        ScrollHandler.Grow 2000; ScrollHandler.Scroll 500; ScrollHandler.Frame]
       long_page)
    (ScrollHandler.Finite (50000 # 20000)) ∧
  (50000 # 20000 == 5 # 2)%Q.
Proof.
  assert (H1 : scheduled_scale
            (ScrollHandler.play [ScrollHandler.Construct true (Some 7%nat) []] short_page)
            ScrollHandler.NotFinite) by (vm_compute; reflexivity).
  split; [|split; [exact H1|split]].
  - intros H. exact (H _ _ _ _ _ H1).
  - vm_compute. reflexivity.
  - reflexivity.
Qed.

(** C3, amended.  When there is a progress bar, [updateScrollProgress]
    schedules for it the transform [scaleX] of the ratio of the current
    offset to the difference of the document and viewport heights measured
    at the last resize, not clamped.  The value lies between 0 and 1 when
    that difference is positive and the offset lies between 0 and it. *)
Theorem scroll_progress_ratio (w : ScrollHandler.world) (bar : ScrollHandler.elem)
    (pending : gmap ScrollHandler.elem (gmap string ScrollHandler.css)) :
  ScrollHandler.scrollProgress (ScrollHandler.this w) = Some bar →
  ScrollHandler.pendingStyles (ScrollHandler.this w) = Some pending →
  scheduled_scale (ScrollHandler.updateScrollProgress w).2 (progress w) ∧
  (let d := (ScrollHandler.num (ScrollHandler.documentHeight (ScrollHandler.this w))
             - ScrollHandler.num (ScrollHandler.windowHeight (ScrollHandler.this w)))%Q in
   (0 < d)%Q →
   (0 <= ScrollHandler.scrollY (ScrollHandler.win w))%Q →
   (ScrollHandler.scrollY (ScrollHandler.win w) <= d)%Q →
   in_unit (progress w)).
Proof.
  intros Hbar Hp.
  split; [by eapply updateScrollProgress_schedules | apply progress_in_unit].
Qed.

(** The long page scrolled to offset 100: the ratio is in the unit
    interval. *)
Lemma scroll_progress_ratio_witness :
  in_unit
    (progress
       (ScrollHandler.play
          [ScrollHandler.Construct true (Some 7%nat) []; ScrollHandler.Frame;
           ScrollHandler.Scroll 100]
          long_page)).
Proof.
  assert (H1 : ScrollHandler.scrollProgress (ScrollHandler.this
            (ScrollHandler.play
               [ScrollHandler.Construct true (Some 7%nat) []; ScrollHandler.Frame;
                ScrollHandler.Scroll 100]
               long_page)) = Some 7%nat) by (vm_compute; reflexivity).
  assert (H2 : ScrollHandler.pendingStyles (ScrollHandler.this
            (ScrollHandler.play
               [ScrollHandler.Construct true (Some 7%nat) []; ScrollHandler.Frame;
                ScrollHandler.Scroll 100]
               long_page)) = Some ∅) by (vm_compute; reflexivity).
  refine (proj2 (scroll_progress_ratio _ 7%nat ∅ H1 H2) _ _ _);
    vm_compute; [reflexivity | discriminate | discriminate].
Defined.

(** C2, at a failing input.  A handler is constructed on the long page, a
    frame passes, the page is scrolled, and [destroy] is called.  The
    scroll and resize listeners are gone, but the frame request made by
    [onScroll] (handle 2) is still pending: [destroy] passed the flag
    [ticking], which counts as handle 1, to [cancelAnimationFrame].  The
    next frame runs the callback against the released object and an
    exception leaves it.  The timer of the debounced parallax update is not
    cleared either: it runs after [destroy] and fails in the same way.  The
    change listener of the media query is not removed either: [destroy]
    looks for it on a media query object of its own, so a change of the
    preference after [destroy] still runs the handler, which writes to the
    released object.  Whatever the state, [destroy] leaves every frame
    request but the one with handle 1, every timer, and the change
    listener. *)
Theorem destroy_leaves_callbacks_pending :
  (let w := ScrollHandler.play
              [ScrollHandler.Construct true (Some 7%nat) []; ScrollHandler.Frame;
               ScrollHandler.Scroll 100; ScrollHandler.Destroy] long_page in
   ScrollHandler.listeners w = [ScrollHandler.ReducedMotion ScrollHandler.QueryOfInit] ∧
   ScrollHandler.pendingStyles (ScrollHandler.this w) = None ∧
   ScrollHandler.bound (ScrollHandler.this w) = false ∧
   Frames.requested (ScrollHandler.frames w) = [(2%nat, ScrollHandler.ScrollTick)] ∧
   ScrollHandler.uncaught w = 0%nat ∧
   ScrollHandler.scrollTick w = (ScrollHandler.TypeError, w) ∧
   ScrollHandler.uncaught (ScrollHandler.react w ScrollHandler.Frame) = 1%nat ∧
   ScrollHandler.prefersReducedMotion (ScrollHandler.this w) = Some false ∧
   ScrollHandler.prefersReducedMotion
     (ScrollHandler.this (ScrollHandler.react w (ScrollHandler.Motion true))) = Some true) ∧
  (let w := ScrollHandler.play
              [ScrollHandler.Construct true (Some 7%nat) [3%nat]; ScrollHandler.Advance 20;
               ScrollHandler.Frame; ScrollHandler.Scroll 100; ScrollHandler.Frame;
               ScrollHandler.Destroy] long_page in
   ScrollHandler.listeners w = [ScrollHandler.ReducedMotion ScrollHandler.QueryOfInit] ∧
   Timers.pending (ScrollHandler.timers w) = [Timers.Timer 1%nat 36%Z ScrollHandler.Later] ∧
   ScrollHandler.uncaught w = 0%nat ∧
   ScrollHandler.uncaught (ScrollHandler.react w (ScrollHandler.Advance 100)) = 1%nat) ∧
  (∀ (w : ScrollHandler.world) (r : nat * ScrollHandler.frame_cb),
      r.1 ≠ 1%nat →
      r ∈ Frames.requested (ScrollHandler.frames w) →
      r ∈ Frames.requested (ScrollHandler.frames (ScrollHandler.task ScrollHandler.destroy w))) ∧
  (∀ (w : ScrollHandler.world) (tm : Timers.timer ScrollHandler.timer_cb),
      tm ∈ Timers.pending (ScrollHandler.timers w) →
      tm ∈ Timers.pending (ScrollHandler.timers (ScrollHandler.task ScrollHandler.destroy w))) ∧
  (∀ w : ScrollHandler.world,
      ScrollHandler.ReducedMotion ScrollHandler.QueryOfInit ∈ ScrollHandler.listeners w →
      ScrollHandler.ReducedMotion ScrollHandler.QueryOfInit
        ∈ ScrollHandler.listeners (ScrollHandler.task ScrollHandler.destroy w)).
Proof.
  split; [vm_compute; repeat split|]. split; [vm_compute; repeat split|]. split; [|split].
  - intros w r Hr Hin.
    apply (preserves_task (λ w, r ∈ Frames.requested (ScrollHandler.frames w)));
      [intros ? H; exact H | by apply destroy_keeps_request | exact Hin].
  - intros w tm Hin.
    apply (preserves_task (λ w, tm ∈ Timers.pending (ScrollHandler.timers w)));
      [intros ? H; exact H | apply destroy_keeps_timer | exact Hin].
  - intros w Hin.
    apply (preserves_task
             (λ w, ScrollHandler.ReducedMotion ScrollHandler.QueryOfInit
                     ∈ ScrollHandler.listeners w));
      [intros ? H; exact H | apply destroy_keeps_media_listener | exact Hin].
Qed.

(** The request of the scroll tick, handle 2, is still there after
    [destroy]. *)
Lemma destroy_leaves_callbacks_pending_witness :
  (2%nat, ScrollHandler.ScrollTick)
    ∈ Frames.requested
        (ScrollHandler.frames
           (ScrollHandler.task ScrollHandler.destroy
              (ScrollHandler.play
                 [ScrollHandler.Construct true (Some 7%nat) []; ScrollHandler.Frame;
                  ScrollHandler.Scroll 100] long_page))).
Proof.
  assert (H : (2%nat, ScrollHandler.ScrollTick)
              ∈ Frames.requested
                  (ScrollHandler.frames
                     (ScrollHandler.play
                        [ScrollHandler.Construct true (Some 7%nat) []; ScrollHandler.Frame;
                         ScrollHandler.Scroll 100] long_page))).
  { vm_compute. apply list_elem_of_here. }
  refine (proj1 (proj2 (proj2 destroy_leaves_callbacks_pending)) _
            (2%nat, ScrollHandler.ScrollTick) _ H).
  discriminate.
Defined.

(** ** Frame coalescing *)

Section MergeFacts.
Context {V : Type}.

Lemma last_set_snoc (p : string) (fragments : list (gmap string V)) (f : gmap string V) :
  Described.last_set p (fragments ++ [f])
  = match f !! p with Some v => Some v | None => Described.last_set p fragments end.
Proof.
  induction fragments as [|g fragments IH]; cbn.
  - by destruct (f !! p).
  - rewrite IH. by destruct (f !! p).
Qed.

Lemma spread_all_lookup (pending : gmap string V) (fragments : list (gmap string V))
    (p : string) :
  spread_all pending fragments !! p
  = match Described.last_set p fragments with
    | Some v => Some v
    | None => pending !! p
    end.
Proof.
  unfold spread_all. induction fragments as [|f fragments IH] using rev_ind; [reflexivity|].
  rewrite foldl_app, last_set_snoc. cbn [foldl]. rewrite lookup_union, IH.
  by destruct (f !! p), (Described.last_set p fragments), (pending !! p).
Qed.

Lemma fold_pending_cons (o : option (gmap string V)) (f : gmap string V)
    (fragments : list (gmap string V)) :
  fold_pending o (f :: fragments) = Some (spread_all (default ∅ o) (f :: fragments)).
Proof.
  unfold fold_pending, spread_all. cbn [foldl].
  generalize (f ∪ default ∅ o). clear f o.
  induction fragments as [|g fragments IH]; intros m; [reflexivity|].
  cbn [foldl]. apply IH.
Qed.

Lemma default_lookup (o : option (gmap string V)) (p : string) :
  default ∅ o !! p = o ≫= (.!! p).
Proof. destruct o; [reflexivity | apply lookup_empty]. Qed.

Lemma fragments_of_cons (el : Utils.elem) (c : Utils.elem * gmap string V)
    (calls : list (Utils.elem * gmap string V)) :
  fragments_of el (c :: calls)
  = if decide (c.1 = el) then c.2 :: fragments_of el calls else fragments_of el calls.
Proof.
  unfold fragments_of. rewrite filter_cons. by destruct (decide (c.1 = el)).
Qed.

(** The entries of a map that belong to one key. *)
Lemma filter_map_to_list {B : Type} (m : gmap Utils.elem B) (el : Utils.elem) :
  filter (λ a, a.1 = el) (map_to_list m)
  = match m !! el with Some b => [(el, b)] | None => [] end.
Proof.
  induction m as [|k b m Hk Hfirst IH] using map_first_key_ind.
  - by rewrite map_to_list_empty, lookup_empty.
  - rewrite (map_to_list_insert_first_key _ _ _ Hk Hfirst), filter_cons, IH. cbn [fst].
    destruct (decide (k = el)) as [->|Hne].
    + rewrite lookup_insert_eq, Hk. reflexivity.
    + by rewrite lookup_insert_ne.
Qed.
End MergeFacts.

Section UtilsSchedulerFacts.
Import Utils.
Context {V : Type}.

Lemma scheduleStyleUpdate_updates (element el : elem) (style : gmap string V) (p : page V) :
  updates (scheduleStyleUpdate element style p) !! el
  = if decide (element = el)
    then Some (style ∪ default ∅ (updates p !! el))
    else updates p !! el.
Proof.
  unfold scheduleStyleUpdate. cbn.
  destruct (ticking p); cbn; destruct (decide (element = el)) as [->|Hne];
    by rewrite ?lookup_insert_eq, ?lookup_insert_ne.
Qed.

Lemma schedule_all_updates (calls : list (elem * gmap string V)) (el : elem) :
  ∀ p : page V,
    updates (schedule_all calls p) !! el
    = fold_pending (updates p !! el) (fragments_of el calls).
Proof.
  induction calls as [|[element style] calls IH]; intros p; [reflexivity|].
  unfold schedule_all. cbn [foldl fst snd].
  change (foldl _ ?p0 calls) with (schedule_all calls p0).
  rewrite IH, scheduleStyleUpdate_updates, fragments_of_cons. cbn [fst snd].
  destruct (decide (element = el)); reflexivity.
Qed.

(** The burst requests one frame if none is requested yet, and no more. *)
Lemma schedule_all_frames (calls : list (elem * gmap string V)) :
  ∀ p : page V,
    frames (schedule_all calls p)
    = (if ticking p then frames p
       else match calls with
            | [] => frames p
            | _ => (Frames.requestAnimationFrame RunUpdates (frames p)).2
            end) ∧
    ticking (schedule_all calls p)
    = (ticking p || match calls with [] => false | _ => true end) ∧
    assigned (schedule_all calls p) = assigned p ∧
    styles (schedule_all calls p) = styles p.
Proof.
  induction calls as [|[element style] calls IH]; intros p.
  - cbn. rewrite orb_false_r. by destruct (ticking p).
  - unfold schedule_all. cbn [foldl fst snd].
    change (foldl _ ?p0 calls) with (schedule_all calls p0).
    destruct (IH (scheduleStyleUpdate element style p)) as (-> & -> & -> & ->).
    unfold scheduleStyleUpdate. cbn. destruct (ticking p); cbn; [done|].
    by destruct calls.
Qed.

Lemma frame_single (p : page V) (h : nat) :
  Frames.requested (frames p) = [(h, RunUpdates)] →
  frame p
  = Page ∅ false (Frames.Queue (Frames.next_handle (frames p)) [])
         (foldl assign (styles p) (map_to_list (updates p)))
         (assigned p ++ map_to_list (updates p)).
Proof. intros H. unfold frame, Frames.take. rewrite H. reflexivity. Qed.

Lemma utils_coalescing (p0 : page V) (calls : list (elem * gmap string V)) (el : elem) :
  ticking p0 = false → updates p0 = ∅ → Frames.requested (frames p0) = [] →
  fragments_of el calls ≠ [] →
  Frames.requested (frames (schedule_all calls p0))
  = [(Frames.next_handle (frames p0), RunUpdates)] ∧
  (∃ style,
      filter (λ a, a.1 = el) (assigned (frame (schedule_all calls p0)))
      = filter (λ a, a.1 = el) (assigned p0) ++ [(el, style)] ∧
      ∀ property, style !! property = Described.last_set property (fragments_of el calls)) ∧
  ticking (frame (schedule_all calls p0)) = false ∧
  updates (frame (schedule_all calls p0)) = ∅ ∧
  Frames.requested (frames (frame (schedule_all calls p0))) = [].
Proof.
  intros Ht Hu Hq Hne.
  destruct (schedule_all_frames calls p0) as (Hf & _ & Ha & _).
  rewrite Ht in Hf.
  assert (Hcalls : calls ≠ []) by (intros ->; by apply Hne).
  assert (Hreq : Frames.requested (frames (schedule_all calls p0))
                 = [(Frames.next_handle (frames p0), RunUpdates)]).
  { rewrite Hf. destruct calls; [done|]. cbn. by rewrite Hq. }
  split; [exact Hreq|]. rewrite (frame_single _ _ Hreq). cbn.
  split; [|done].
  pose proof (schedule_all_updates calls el p0) as Hl.
  rewrite Hu, lookup_empty in Hl.
  destruct (fragments_of el calls) as [|f fragments] eqn:E; [done|].
  rewrite fold_pending_cons in Hl.
  exists (spread_all (default ∅ None) (f :: fragments)). split.
  - rewrite filter_app, Ha, filter_map_to_list, Hl. reflexivity.
  - intros property. rewrite spread_all_lookup. cbn [default from_option].
    rewrite lookup_empty. by destruct (Described.last_set _ _).
Qed.

(** The styles after [runUpdates] has assigned the entries of [m]. *)
Lemma assign_all_styles (m : gmap elem (gmap string V)) :
  ∀ (st : gmap elem (gmap string V)) (el : elem),
    foldl assign st (map_to_list m) !! el
    = match m !! el with
      | Some style => Some (style ∪ default ∅ (st !! el))
      | None => st !! el
      end.
Proof.
  induction m as [|k b m Hk Hfirst IH] using map_first_key_ind; intros st el.
  - by rewrite map_to_list_empty, lookup_empty.
  - rewrite (map_to_list_insert_first_key _ _ _ Hk Hfirst). cbn [foldl].
    rewrite IH. unfold assign. cbn [fst snd].
    destruct (decide (k = el)) as [->|Hne].
    + rewrite lookup_insert_eq, Hk, lookup_insert_eq. reflexivity.
    + rewrite !lookup_insert_ne by done. reflexivity.
Qed.

(** The styles of the elements after the flush. *)
Lemma utils_flush_styles (p0 : page V) (calls : list (elem * gmap string V)) :
  ticking p0 = false → updates p0 = ∅ → Frames.requested (frames p0) = [] →
  calls ≠ [] →
  ∀ (el : elem) (property : string),
    style_value (styles (frame (schedule_all calls p0))) el property
    = match Described.last_set property (fragments_of el calls) with
      | Some v => Some v
      | None => style_value (styles p0) el property
      end.
Proof.
  intros Ht Hu Hq Hcalls el property.
  destruct (schedule_all_frames calls p0) as (Hf & _ & _ & Hs).
  rewrite Ht in Hf.
  assert (Hreq : Frames.requested (frames (schedule_all calls p0))
                 = [(Frames.next_handle (frames p0), RunUpdates)]).
  { rewrite Hf. destruct calls; [done|]. cbn. by rewrite Hq. }
  rewrite (frame_single _ _ Hreq). cbn [styles]. rewrite Hs.
  unfold style_value. rewrite assign_all_styles.
  rewrite (schedule_all_updates calls el p0), Hu, lookup_empty.
  destruct (fragments_of el calls) as [|f fragments]; [reflexivity|].
  rewrite fold_pending_cons. cbn [mbind option_bind].
  rewrite lookup_union, spread_all_lookup. cbn [default from_option].
  rewrite lookup_empty.
  destruct (Described.last_set property (f :: fragments)); [|rewrite (left_id None _)];
    by destruct (styles p0 !! el) as [old|]; cbn; rewrite ?lookup_empty;
       try destruct (old !! property).
Qed.
End UtilsSchedulerFacts.

Section ScrollSchedulerFacts.
Import ScrollHandler.

Lemma scheduleStyleUpdate_ok (element : elem) (style : gmap string css) (w : world)
    (pending : gmap elem (gmap string css)) :
  pendingStyles (this w) = Some pending → bound (this w) = true →
  ∃ w',
    scheduleStyleUpdate element style w = (Ok tt, w') ∧
    pendingStyles (this w')
    = Some (<[element := style ∪ default ∅ (pending !! element)]> pending) ∧
    bound (this w') = true ∧
    written w' = written w ∧
    styleUpdateScheduled (this w') = true ∧
    frames w'
    = (if styleUpdateScheduled (this w) then frames w
       else (Frames.requestAnimationFrame ApplyStyles (frames w)).2).
Proof.
  intros Hp Hb.
  unfold scheduleStyleUpdate, mbind, M_bind, self, deref, requestAnimationFrame.
  cbn. rewrite Hp. cbn. destruct (styleUpdateScheduled (this w)) eqn:Hs; cbn.
  - eexists. split; [reflexivity|]. cbn. by rewrite Hs.
  - rewrite Hb. cbn. eexists. split; [reflexivity|]. cbn. done.
Qed.

Lemma schedule_burst_ok (calls : list (elem * gmap string css)) :
  ∀ (w : world) (pending : gmap elem (gmap string css)),
    pendingStyles (this w) = Some pending → bound (this w) = true →
    ∃ w' pending',
      schedule_burst calls w = (Ok tt, w') ∧
      pendingStyles (this w') = Some pending' ∧
      (∀ el, pending' !! el = fold_pending (pending !! el) (fragments_of el calls)) ∧
      written w' = written w ∧
      frames w'
      = (if styleUpdateScheduled (this w) then frames w
         else match calls with
              | [] => frames w
              | _ => (Frames.requestAnimationFrame ApplyStyles (frames w)).2
              end).
Proof.
  induction calls as [|[element style] calls IH]; intros w pending Hp Hb.
  - exists w, pending. split; [reflexivity|]. split; [exact Hp|].
    split; [reflexivity|]. split; [reflexivity|]. by destruct (styleUpdateScheduled _).
  - destruct (scheduleStyleUpdate_ok element style w pending Hp Hb)
      as (w1 & Hrun & Hp1 & Hb1 & Hw1 & Hs1 & Hf1).
    destruct (IH w1 _ Hp1 Hb1) as (w2 & pending2 & Hrun2 & Hp2 & Hl2 & Hw2 & Hf2).
    exists w2, pending2. split.
    { unfold schedule_burst. cbn [for_each fst snd].
      rewrite (bind_ok _ _ _ _ _ Hrun). exact Hrun2. }
    split; [exact Hp2|]. split.
    { intros el. rewrite Hl2, fragments_of_cons. cbn [fst snd].
      destruct (decide (element = el)) as [->|Hne].
      - rewrite lookup_insert_eq, decide_True by done. reflexivity.
      - rewrite lookup_insert_ne, decide_False by done. reflexivity. }
    split; [by rewrite Hw2|].
    rewrite Hf2, Hs1, Hf1. reflexivity.
Qed.

Lemma write_all_ok (element : elem) (l : list (string * css)) :
  ∀ w, ∃ w',
    for_each (write element) l w = (Ok tt, w') ∧
    written w' = written w ++ ((λ pv, (element, pv.1, pv.2)) <$> l) ∧
    this w' = this w ∧ frames w' = frames w.
Proof.
  induction l as [|pv l IH]; intros w.
  - exists w. by rewrite app_nil_r.
  - destruct (IH (write element pv w).2) as (w' & Hrun & Hw & Ht & Hf).
    exists w'. split; [|split; [|split]].
    + cbn [for_each]. erewrite bind_ok by reflexivity. exact Hrun.
    + rewrite Hw. cbn. by rewrite <- app_assoc.
    + by rewrite Ht.
    + by rewrite Hf.
Qed.

Lemma apply_all_ok (entries : list (elem * gmap string css)) :
  ∀ w, ∃ w',
    for_each (λ entry : elem * gmap string css,
                for_each (write entry.1) (map_to_list entry.2)) entries w
    = (Ok tt, w') ∧
    written w' = written w ++ concat (writes_of <$> entries) ∧
    this w' = this w ∧ frames w' = frames w.
Proof.
  induction entries as [|entry entries IH]; intros w.
  - exists w. by rewrite app_nil_r.
  - destruct (write_all_ok entry.1 (map_to_list entry.2) w) as (w1 & Hrun1 & Hw1 & Ht1 & Hf1).
    destruct (IH w1) as (w' & Hrun & Hw & Ht & Hf).
    exists w'. split; [|split; [|split]].
    + cbn [for_each]. rewrite (bind_ok _ _ _ _ _ Hrun1). exact Hrun.
    + rewrite Hw, Hw1. cbn. by rewrite <- app_assoc.
    + by rewrite Ht, Ht1.
    + by rewrite Hf, Hf1.
Qed.

Lemma applyStyles_ok (w : world) (pending : gmap elem (gmap string css)) :
  pendingStyles (this w) = Some pending →
  ∃ w',
    applyStyles w = (Ok tt, w') ∧
    written w' = written w ++ concat (writes_of <$> map_to_list pending) ∧
    pendingStyles (this w') = Some ∅ ∧
    styleUpdateScheduled (this w') = false ∧
    frames w' = frames w.
Proof.
  intros Hp. destruct (apply_all_ok (map_to_list pending) w) as (w1 & Hrun & Hw & Ht & Hf).
  unfold applyStyles. erewrite bind_ok by reflexivity. rewrite Hp.
  erewrite bind_ok by reflexivity. rewrite (bind_ok _ _ _ _ _ Hrun).
  eexists. split; [reflexivity|]. cbn. done.
Qed.

Lemma filter_writes (entries : list (elem * gmap string css)) (el : elem) :
  filter (λ x : elem * string * css, x.1.1 = el) (concat (writes_of <$> entries))
  = concat (writes_of <$> filter (λ a, a.1 = el) entries).
Proof.
  induction entries as [|entry entries IH]; [reflexivity|].
  rewrite fmap_cons. cbn [concat]. rewrite filter_app, IH, filter_cons.
  assert (Hw : filter (λ x : elem * string * css, x.1.1 = el) (writes_of entry)
               = if decide (entry.1 = el) then writes_of entry else []).
  { unfold writes_of. generalize (map_to_list entry.2). intros l.
    induction l as [|pv l IHl]; [by destruct (decide _)|].
    rewrite fmap_cons, filter_cons. cbn [fst]. rewrite IHl.
    by destruct (decide (entry.1 = el)). }
  rewrite Hw. destruct (decide (entry.1 = el)); [by rewrite fmap_cons|reflexivity].
Qed.

Lemma scroll_coalescing (w : world) (calls : list (elem * gmap string css)) (el : elem) :
  pendingStyles (this w) = Some ∅ → styleUpdateScheduled (this w) = false →
  bound (this w) = true → fragments_of el calls ≠ [] →
  ∃ w1 w2 style,
    schedule_burst calls w = (Ok tt, w1) ∧
    Frames.requested (frames w1)
    = Frames.requested (frames w) ++ [(Frames.next_handle (frames w), ApplyStyles)] ∧
    applyStyles w1 = (Ok tt, w2) ∧
    filter (λ x : elem * string * css, x.1.1 = el) (written w2)
    = filter (λ x : elem * string * css, x.1.1 = el) (written w) ++ writes_of (el, style) ∧
    (∀ property, style !! property = Described.last_set property (fragments_of el calls)) ∧
    pendingStyles (this w2) = Some ∅ ∧
    styleUpdateScheduled (this w2) = false ∧
    frames w2 = frames w1.
Proof.
  intros Hp Hs Hb Hne.
  destruct (schedule_burst_ok calls w ∅ Hp Hb) as (w1 & pending1 & Hrun & Hp1 & Hl & Hw1 & Hf1).
  destruct (applyStyles_ok w1 pending1 Hp1) as (w2 & Hrun2 & Hw2 & Hp2 & Hs2 & Hf2).
  assert (Hcalls : calls ≠ []) by (intros ->; by apply Hne).
  specialize (Hl el). rewrite lookup_empty in Hl.
  destruct (fragments_of el calls) as [|f fragments] eqn:E; [done|].
  rewrite fold_pending_cons in Hl.
  exists w1, w2, (spread_all (default ∅ None) (f :: fragments)).
  split; [exact Hrun|]. split.
  { rewrite Hf1, Hs. by destruct calls. }
  split; [exact Hrun2|]. split.
  { rewrite Hw2, Hw1, filter_app, filter_writes, filter_map_to_list.
    unfold elem, Utils.elem in *. rewrite Hl. cbn.
    by rewrite app_nil_r. }
  split; [|done].
  intros property. rewrite spread_all_lookup. cbn [default from_option].
  rewrite lookup_empty. by destruct (Described.last_set _ _).
Qed.

(** The calls of [scheduleStyleUpdate] write no style. *)
Lemma schedule_burst_styles (calls : list (elem * gmap string css)) :
  ∀ w, styles (schedule_burst calls w).2 = styles w.
Proof.
  assert (H1 : ∀ element style w, styles (scheduleStyleUpdate element style w).2 = styles w).
  { intros element style w.
    unfold scheduleStyleUpdate, mbind, M_bind, self, deref, requestAnimationFrame. cbn.
    destruct (pendingStyles (this w)); cbn; [|reflexivity].
    destruct (styleUpdateScheduled (this w)); cbn; [reflexivity|].
    destruct (bound (this w)); reflexivity. }
  induction calls as [|[element style] calls IH]; intros w; [reflexivity|].
  unfold schedule_burst. cbn [for_each fst snd]. unfold mbind at 1, M_bind at 1.
  specialize (H1 element style w).
  destruct (scheduleStyleUpdate element style w) as [[[]|] w1]; cbn [snd] in *.
  - rewrite <- H1. apply IH.
  - exact H1.
Qed.

(** The styles after the properties of one style object are written. *)
Lemma write_all_styles (element : elem) (style : gmap string css) :
  ∀ (w : world) (el : elem) (property : string),
    style_value (styles (for_each (write element) (map_to_list style) w).2) el property
    = if decide (element = el)
      then match style !! property with
           | Some v => Some v
           | None => style_value (styles w) el property
           end
      else style_value (styles w) el property.
Proof.
  induction style as [|k v style Hk Hfirst IH] using map_first_key_ind;
    intros w el property.
  - rewrite map_to_list_empty. cbn. rewrite lookup_empty. by destruct (decide _).
  - rewrite (map_to_list_insert_first_key _ _ _ Hk Hfirst). cbn [for_each].
    erewrite bind_ok by reflexivity. rewrite IH.
    unfold style_value, write, update. cbn [snd styles with_styles fst].
    destruct (decide (element = el)) as [->|Hne].
    + rewrite lookup_insert_eq. cbn [mbind option_bind].
      destruct (decide (k = property)) as [->|Hp].
      * by rewrite Hk, !lookup_insert_eq.
      * rewrite !lookup_insert_ne by done.
        destruct (style !! property); [reflexivity|].
        apply default_lookup.
    + rewrite lookup_insert_ne by done. reflexivity.
Qed.

(** The styles after the entries of [pending] are written. *)
Lemma apply_all_styles (pending : gmap elem (gmap string css)) :
  ∀ (w : world) (el : elem) (property : string),
    style_value
      (styles (for_each (λ entry : elem * gmap string css,
                           for_each (write entry.1) (map_to_list entry.2))
                        (map_to_list pending) w).2) el property
    = match style_value pending el property with
      | Some v => Some v
      | None => style_value (styles w) el property
      end.
Proof.
  induction pending as [|k style pending Hk Hfirst IH] using map_first_key_ind;
    intros w el property.
  - rewrite map_to_list_empty. cbn [for_each]. unfold style_value at 2.
    by rewrite lookup_empty.
  - rewrite (map_to_list_insert_first_key _ _ _ Hk Hfirst). cbn [for_each fst snd].
    destruct (write_all_ok k (map_to_list style) w) as (w1 & Hrun & _).
    rewrite (bind_ok _ _ _ _ _ Hrun). rewrite IH.
    assert (E : w1 = (for_each (write k) (map_to_list style) w).2) by (by rewrite Hrun).
    rewrite E, write_all_styles. unfold style_value. unfold elem, Utils.elem in *.
    destruct (decide (k = el)) as [->|Hne].
    + rewrite Hk, lookup_insert_eq. reflexivity.
    + rewrite lookup_insert_ne by done.
      by destruct (pending !! el ≫= (.!! property)).
Qed.

(** The styles of the elements after [applyStyles]. *)
Lemma applyStyles_styles (w : world) (pending : gmap elem (gmap string css)) :
  pendingStyles (this w) = Some pending →
  ∀ (el : elem) (property : string),
    style_value (styles (applyStyles w).2) el property
    = match style_value pending el property with
      | Some v => Some v
      | None => style_value (styles w) el property
      end.
Proof.
  intros Hp el property.
  destruct (apply_all_ok (map_to_list pending) w) as (w1 & Hrun & _).
  rewrite <- (apply_all_styles pending w el property). rewrite Hrun.
  unfold applyStyles. erewrite bind_ok by reflexivity. rewrite Hp.
  erewrite bind_ok by reflexivity. rewrite (bind_ok _ _ _ _ _ Hrun). reflexivity.
Qed.

(** The styles of the elements after the flush. *)
Lemma scroll_flush_styles (w : world) (calls : list (elem * gmap string css)) :
  pendingStyles (this w) = Some ∅ → bound (this w) = true →
  ∀ (el : elem) (property : string),
    style_value (styles (applyStyles (schedule_burst calls w).2).2) el property
    = match Described.last_set property (fragments_of el calls) with
      | Some v => Some v
      | None => style_value (styles w) el property
      end.
Proof.
  intros Hp Hb el property.
  destruct (schedule_burst_ok calls w ∅ Hp Hb) as (w1 & pending1 & Hrun & Hp1 & Hl & _).
  pose proof (schedule_burst_styles calls w) as Hs. rewrite Hrun in *. cbn [snd] in *.
  rewrite (applyStyles_styles w1 pending1 Hp1), Hs.
  unfold style_value at 1. unfold elem, Utils.elem in *. rewrite (Hl el), lookup_empty.
  destruct (fragments_of el calls) as [|f fragments]; [reflexivity|].
  rewrite fold_pending_cons. cbn [mbind option_bind].
  rewrite spread_all_lookup. cbn [default from_option]. rewrite lookup_empty.
  by destruct (Described.last_set property (f :: fragments)).
Qed.
End ScrollSchedulerFacts.

Lemma fragments_of_same {V : Type} (el : Utils.elem) (fragments : list (gmap string V)) :
  fragments_of el (pair el <$> fragments) = fragments.
Proof.
  induction fragments as [|f fragments IH]; [reflexivity|].
  rewrite fmap_cons, fragments_of_cons. cbn [fst snd].
  rewrite decide_True by done. by rewrite IH.
Qed.

(** C1.  Between two frames, let [scheduleStyleUpdate] be called any
    number of times, at least once for the element [el] (the calls for
    other elements may lie in between).  Then exactly one flush callback is
    requested for the frame; when it runs, the element is written once:
    [utils.js] assigns it one style object, and [ScrollHandler] writes each
    property of one style object once; in that object every property has the
    value of the last fragment for [el] that sets it.  After the flush the
    style of every element has, for each property that a fragment for the
    element sets, the value of the last such fragment, and every other
    property of every element is as it was before the calls; nothing is
    pending and no flush is requested.  The fragments of calls that all
    name [el] are the fragments of [el]. *)
Theorem frame_coalescing :
  (∀ (V : Type) (p0 : Utils.page V) (calls : list (Utils.elem * gmap string V))
     (el : Utils.elem),
      Utils.ticking p0 = false → Utils.updates p0 = ∅ →
      Frames.requested (Utils.frames p0) = [] →
      fragments_of el calls ≠ [] →
      Frames.requested (Utils.frames (Utils.schedule_all calls p0))
      = [(Frames.next_handle (Utils.frames p0), Utils.RunUpdates)] ∧
      (∃ style,
          filter (λ a, a.1 = el) (Utils.assigned (Utils.frame (Utils.schedule_all calls p0)))
          = filter (λ a, a.1 = el) (Utils.assigned p0) ++ [(el, style)] ∧
          ∀ property,
            style !! property = Described.last_set property (fragments_of el calls)) ∧
      (∀ (el' : Utils.elem) (property : string),
          style_value (Utils.styles (Utils.frame (Utils.schedule_all calls p0))) el' property
          = match Described.last_set property (fragments_of el' calls) with
            | Some v => Some v
            | None => style_value (Utils.styles p0) el' property
            end) ∧
      Utils.ticking (Utils.frame (Utils.schedule_all calls p0)) = false ∧
      Utils.updates (Utils.frame (Utils.schedule_all calls p0)) = ∅ ∧
      Frames.requested (Utils.frames (Utils.frame (Utils.schedule_all calls p0))) = []) ∧
  (∀ (w : ScrollHandler.world)
     (calls : list (ScrollHandler.elem * gmap string ScrollHandler.css))
     (el : ScrollHandler.elem),
      ScrollHandler.pendingStyles (ScrollHandler.this w) = Some ∅ →
      ScrollHandler.styleUpdateScheduled (ScrollHandler.this w) = false →
      ScrollHandler.bound (ScrollHandler.this w) = true →
      fragments_of el calls ≠ [] →
      ∃ w1 w2 style,
        schedule_burst calls w = (ScrollHandler.Ok tt, w1) ∧
        Frames.requested (ScrollHandler.frames w1)
        = Frames.requested (ScrollHandler.frames w)
            ++ [(Frames.next_handle (ScrollHandler.frames w), ScrollHandler.ApplyStyles)] ∧
        ScrollHandler.applyStyles w1 = (ScrollHandler.Ok tt, w2) ∧
        filter (λ x : ScrollHandler.elem * string * ScrollHandler.css, x.1.1 = el)
               (ScrollHandler.written w2)
        = filter (λ x : ScrollHandler.elem * string * ScrollHandler.css, x.1.1 = el)
                 (ScrollHandler.written w)
            ++ writes_of (el, style) ∧
        (∀ property,
            style !! property = Described.last_set property (fragments_of el calls)) ∧
        (∀ (el' : ScrollHandler.elem) (property : string),
            style_value (ScrollHandler.styles w2) el' property
            = match Described.last_set property (fragments_of el' calls) with
              | Some v => Some v
              | None => style_value (ScrollHandler.styles w) el' property
              end) ∧
        ScrollHandler.pendingStyles (ScrollHandler.this w2) = Some ∅ ∧
        ScrollHandler.styleUpdateScheduled (ScrollHandler.this w2) = false ∧
        ScrollHandler.frames w2 = ScrollHandler.frames w1) ∧
  (∀ (V : Type) (el : Utils.elem) (fragments : list (gmap string V)),
      fragments_of el (pair el <$> fragments) = fragments).
Proof.
  split.
  { intros V p0 calls el Ht Hu Hq Hne.
    destruct (utils_coalescing p0 calls el Ht Hu Hq Hne) as (H1 & H2 & H3).
    split; [exact H1|]. split; [exact H2|]. split; [|exact H3].
    apply utils_flush_styles; try done. intros ->. by apply Hne. }
  split.
  { intros w calls el Hp Hs Hb Hne.
    destruct (scroll_coalescing w calls el Hp Hs Hb Hne)
      as (w1 & w2 & style & E1 & Hf & E2 & Hw & Hl & H3).
    exists w1, w2, style.
    split; [exact E1|]. split; [exact Hf|]. split; [exact E2|]. split; [exact Hw|].
    split; [exact Hl|]. split; [|exact H3].
    intros el' property. pose proof (scroll_flush_styles w calls Hp Hb el' property) as H.
    rewrite E1 in H. cbn [snd] in H. rewrite E2 in H. exact H. }
  intros V el fragments. apply fragments_of_same.
Qed.

(** Three calls on a fresh page, two of them for element 1: one flush is
    requested, and after it the opacity of element 1 is that of the last
    call. *)
Lemma frame_coalescing_witness :
  fragments_of 1%nat
    [(1%nat, {[ "opacity" := "0" ]}); (2%nat, {[ "opacity" := "1" ]});
     (1%nat, {[ "opacity" := "1" ]})] ≠ [] ∧
  Frames.requested
    (Utils.frames
       (Utils.schedule_all
          [(1%nat, {[ "opacity" := "0" ]}); (2%nat, {[ "opacity" := "1" ]});
           (1%nat, {[ "opacity" := "1" ]})]
          Utils.page_init))
  = [(1%nat, Utils.RunUpdates)] ∧
  style_value
    (Utils.styles
       (Utils.frame
          (Utils.schedule_all
             [(1%nat, {[ "opacity" := "0" ]}); (2%nat, {[ "opacity" := "1" ]});
              (1%nat, {[ "opacity" := "1" ]})]
             Utils.page_init))) 1%nat "opacity"
  = Some "1".
Proof.
  assert (H : fragments_of 1%nat
                [(1%nat, ({[ "opacity" := "0" ]} : gmap string string));
                 (2%nat, {[ "opacity" := "1" ]}); (1%nat, {[ "opacity" := "1" ]})] ≠ []).
  { vm_compute. discriminate. }
  split; [exact H|].
  destruct (proj1 frame_coalescing string Utils.page_init _ 1%nat
              eq_refl eq_refl eq_refl H) as (H1 & _ & H2 & _).
  split; [exact H1|]. exact (H2 1%nat "opacity").
Defined.

(* ===================================================================== *)
(** * Further properties of the code                                      *)
(* ===================================================================== *)

(** ** The terminal: what the commands print *)

Section SplitFacts.
Import JSString.

Lemma join_split s : join (split s) = s.
Proof.
  induction s as [|c s IH]; [reflexivity|].
  cbn [split]. destruct (Ascii.eqb c " ") eqn:E.
  - apply Ascii.eqb_eq in E. subst c.
    pose proof (split_nonempty s) as Hne.
    destruct (split s) as [|x rest]; [done|].
    change (" " +:+ join (x :: rest) = String " " s). by rewrite IH.
  - pose proof (split_nonempty s) as Hne.
    destruct (split s) as [|tok rest]; [done|].
    destruct rest as [|r rest].
    + cbn [join] in *. by rewrite IH.
    + change (String c (tok +:+ " " +:+ join (r :: rest)) = String c s).
      change (tok +:+ " " +:+ join (r :: rest) = s) in IH. by rewrite IH.
Qed.

Lemma split_spaceless cmd rest :
  spaceless cmd → split (cmd +:+ " " +:+ rest) = cmd :: split rest.
Proof.
  unfold spaceless. induction cmd as [|c cmd IH]; intros H.
  - reflexivity.
  - cbn in H. apply Forall_cons in H as [Hc H].
    change (split (String c (cmd +:+ " " +:+ rest)) = String c cmd :: split rest).
    cbn [split]. destruct (Ascii.eqb c " ") eqn:E; [by apply Ascii.eqb_eq in E|].
    by rewrite (IH H).
Qed.

Lemma split_spaceless_alone cmd : spaceless cmd → split cmd = [cmd].
Proof.
  unfold spaceless. induction cmd as [|c cmd IH]; intros H; [reflexivity|].
  cbn in H. apply Forall_cons in H as [Hc H].
  cbn [split]. destruct (Ascii.eqb c " ") eqn:E; [by apply Ascii.eqb_eq in E|].
  by rewrite (IH H).
Qed.

Lemma spaceless_toLowerCase s : spaceless (toLowerCase s) → spaceless s.
Proof.
  unfold spaceless. induction s as [|c s IH]; intros H; [constructor|].
  cbn in H. apply Forall_cons in H as [Hc H]. cbn. constructor; [|by apply IH].
  intros ->. by apply Hc.
Qed.

Lemma trimStart_blank s : blank_text s → trimStart s = "".
Proof.
  unfold blank_text. induction s as [|c s IH]; intros H; [reflexivity|].
  cbn in H. apply Forall_cons in H as [Hc H]. cbn. rewrite Hc. by apply IH.
Qed.

Lemma trim_blank s : blank_text s → trim s = "".
Proof. intros H. unfold trim. by rewrite trimStart_blank. Qed.

Lemma split_first_nonempty s command args :
  split s = command :: args → command ≠ "" → s ≠ "".
Proof. intros H Hc ->. cbn in H. congruence. Qed.

End SplitFacts.

Section CommandFacts.
Import JSString Terminal.

Lemma addAll_state ls s :
  addAll ls s
  = State (commandHistory s) (historyIndex s) (value s) (history s ++ plain ls) (href s).
Proof.
  unfold addAll, plain. revert s. induction ls as [|l ls IH]; intros s.
  - cbn. rewrite app_nil_r. by destruct s.
  - cbn [foldl]. rewrite IH. cbn. by rewrite <- app_assoc.
Qed.

Lemma indented_state ls s :
  foldl (λ s m, addToHistory ("  " +:+ m) "" s) s ls
  = State (commandHistory s) (historyIndex s) (value s)
      (history s ++ plain ((λ m, "  " +:+ m) <$> ls)) (href s).
Proof.
  unfold plain. revert s. induction ls as [|l ls IH]; intros s.
  - cbn. rewrite app_nil_r. by destruct s.
  - cbn [foldl]. rewrite IH. cbn. by rewrite <- app_assoc.
Qed.

(** The line is not empty when its first piece is a word of the registry
    in some case. *)
Lemma named_line_nonempty s command args name :
  split s = command :: args → toLowerCase command = name → name ≠ "" → s ≠ "".
Proof.
  intros H Hl Hn. eapply split_first_nonempty; [exact H|].
  intros ->. by apply Hn.
Qed.

Lemma executeCommand_named e s command args name c :
  split (trim (value s)) = command :: args →
  toLowerCase command = name →
  name ≠ "" →
  own_command name = Some c →
  executeCommand e s
  = match run e c args (addToHistory (trim (value s)) "" s) with
    | Normal s2 => set_value "" s2
    | Abrupt s2 => addToHistory "Failed to execute command" "error" s2
    end.
Proof.
  intros H Hl Hn Ho. apply executeCommand_own with (command := command).
  - by eapply named_line_nonempty.
  - exact H.
  - by rewrite Hl.
Qed.

End CommandFacts.

(** X1.  [echo] gives back the rest of the line as it was typed: when the
    trimmed line is a word that reads [echo] in some case, a space and a
    text, that text is appended to the transcript after the line, with its
    inner spaces as they are, and the input field is cleared.  The word
    alone appends only the line. *)
Theorem echo_prints_rest_of_line (e : Terminal.env) :
  (∀ (s : Terminal.state) (command rest : string),
      JSString.toLowerCase command = "echo" →
      JSString.trim (Terminal.value s) = command +:+ " " +:+ rest →
      Terminal.executeCommand e s
      = Terminal.set_value ""
          (Terminal.addToHistory rest ""
             (Terminal.addToHistory (command +:+ " " +:+ rest) "" s))) ∧
  (∀ s : Terminal.state,
      JSString.toLowerCase (JSString.trim (Terminal.value s)) = "echo" →
      Terminal.executeCommand e s
      = Terminal.set_value ""
          (Terminal.addToHistory (JSString.trim (Terminal.value s)) "" s)).
Proof.
  assert (Hsp : ∀ command, JSString.toLowerCase command = "echo" → spaceless command).
  { intros command H. apply spaceless_toLowerCase. rewrite H.
    repeat constructor; discriminate. }
  split.
  - intros s command rest Hl Ht.
    rewrite (executeCommand_named e s command (JSString.split rest) "echo" Terminal.echo_);
      [| rewrite Ht; by apply split_spaceless, Hsp | exact Hl | discriminate | reflexivity].
    cbn [Terminal.run]. unfold Terminal.echo.
    pose proof (split_nonempty rest) as Hne.
    pose proof (join_split rest) as Hj.
    destruct (JSString.split rest) as [|x xs]; [done|].
    by rewrite Hj, Ht.
  - intros s Hl.
    rewrite (executeCommand_named e s (JSString.trim (Terminal.value s)) [] "echo"
               Terminal.echo_);
      [reflexivity | by apply split_spaceless_alone, Hsp | exact Hl | discriminate
      | reflexivity].
Qed.

(** The line [Echo a  b], typed with two leading spaces, prints [a  b]. *)
Lemma echo_prints_rest_of_line_witness :
  Terminal.executeCommand (Terminal.Env "/" "now")
    (Terminal.set_value "  Echo a  b" Terminal.state_init)
  = Terminal.set_value ""
      (Terminal.addToHistory "a  b" ""
         (Terminal.addToHistory "Echo a  b" ""
            (Terminal.set_value "  Echo a  b" Terminal.state_init))).
Proof.
  exact (proj1 (echo_prints_rest_of_line (Terminal.Env "/" "now"))
           (Terminal.set_value "  Echo a  b" Terminal.state_init) "Echo" "a  b"
           eq_refl eq_refl).
Defined.

(** X2.  A first word is reported as not found unless, in lower case, it
    is a name of the registry or one of the two words [constructor] and
    [__proto__]: these two are the only names inherited by the registry
    object that a word in lower case can be.  A line that starts with
    [constructor] in some case appends the line alone and clears the input
    field; one that starts with [__proto__] appends the line and the
    generic failure line and leaves the input field as it is. *)
Theorem lookup_reaches_two_inherited_names (e : Terminal.env) :
  (∀ command : string,
      Terminal.lookup (JSString.toLowerCase command) = Terminal.Missing
      ↔ Terminal.own_command (JSString.toLowerCase command) = None ∧
        JSString.toLowerCase command ≠ "constructor" ∧
        JSString.toLowerCase command ≠ "__proto__") ∧
  (∀ (s : Terminal.state) (command : string) (args : list string),
      JSString.split (JSString.trim (Terminal.value s)) = command :: args →
      JSString.toLowerCase command = "constructor" →
      Terminal.executeCommand e s
      = Terminal.set_value ""
          (Terminal.addToHistory (JSString.trim (Terminal.value s)) "" s)) ∧
  (∀ (s : Terminal.state) (command : string) (args : list string),
      JSString.split (JSString.trim (Terminal.value s)) = command :: args →
      JSString.toLowerCase command = "__proto__" →
      Terminal.executeCommand e s
      = Terminal.addToHistory "Failed to execute command" "error"
          (Terminal.addToHistory (JSString.trim (Terminal.value s)) "" s)).
Proof.
  assert (Hnames : Forall (λ n, JSString.toLowerCase n = n →
                                n = "constructor" ∨ n = "__proto__")
                     Terminal.inherited_names).
  { unfold Terminal.inherited_names.
    repeat (apply List.Forall_cons; [cbn; intros H; try discriminate H; auto|]).
    apply List.Forall_nil. }
  assert (Hrun : ∀ (s : Terminal.state) command args name,
            JSString.split (JSString.trim (Terminal.value s)) = command :: args →
            JSString.toLowerCase command = name → name ≠ "" →
            Terminal.executeCommand e s
            = match Terminal.dispatch e command args
                      (Terminal.addToHistory (JSString.trim (Terminal.value s)) "" s) with
              | Terminal.Normal s2 => Terminal.set_value "" s2
              | Terminal.Abrupt s2 =>
                  Terminal.addToHistory "Failed to execute command" "error" s2
              end).
  { intros s command args name H Hl Hn. unfold Terminal.executeCommand.
    destruct (String.eqb _ _) eqn:E.
    - apply String.eqb_eq in E. by eapply named_line_nonempty in E.
    - by rewrite H. }
  split; [|split].
  - intros command. unfold Terminal.lookup.
    destruct (Terminal.own_command _) as [c|] eqn:Ho.
    + split; [discriminate | intros [H _]; discriminate H].
    + unfold Terminal.inherits. case_bool_decide as Hin.
      * split; [discriminate|]. intros (_ & H1 & H2).
        rewrite Forall_forall in Hnames.
        destruct (Hnames _ Hin (toLowerCase_idemp command)); contradiction.
      * split; [|done]. intros _. split; [done|].
        split; intros Heq; apply Hin; rewrite Heq; unfold Terminal.inherited_names;
          set_solver.
  - intros s command args H Hl.
    rewrite (Hrun s command args "constructor" H Hl ltac:(discriminate)).
    unfold Terminal.dispatch. rewrite Hl. reflexivity.
  - intros s command args H Hl.
    rewrite (Hrun s command args "__proto__" H Hl ltac:(discriminate)).
    unfold Terminal.dispatch. rewrite Hl. reflexivity.
Qed.

(** The line [Constructor x] appends itself and nothing else. *)
Lemma lookup_reaches_two_inherited_names_witness :
  Terminal.executeCommand (Terminal.Env "/" "now")
    (Terminal.set_value "Constructor x" Terminal.state_init)
  = Terminal.set_value ""
      (Terminal.addToHistory "Constructor x" ""
         (Terminal.set_value "Constructor x" Terminal.state_init)).
Proof.
  exact (proj1 (proj2 (lookup_reaches_two_inherited_names (Terminal.Env "/" "now")))
           (Terminal.set_value "Constructor x" Terminal.state_init) "Constructor" ["x"]
           eq_refl eq_refl).
Defined.

Section HandlerFacts.
Import JSString Terminal.
Local Open Scope Z_scope.

Lemma keys_app e ks1 ks2 s : keys e (ks1 ++ ks2) s = keys e ks2 (keys e ks1 s).
Proof. unfold keys. apply foldl_app. Qed.

Lemma keys_cons e k ks s : keys e (k :: ks) s = keys e ks (handleKeydown e k s).
Proof. reflexivity. Qed.

Lemma arrow_up_run e n : ∀ s,
  historyIndex s + Z.of_nat (S n) ≤ Z.of_nat (length (commandHistory s)) - 1 →
  keys e (replicate (S n) ArrowUp) s
  = set_value (entry (commandHistory s) (historyIndex s + Z.of_nat (S n)))
      (set_historyIndex (historyIndex s + Z.of_nat (S n)) s).
Proof.
  induction n as [|n IH]; intros s H.
  - cbn [replicate]. rewrite keys_cons. cbn [handleKeydown].
    destruct (_ <? _) eqn:E; [reflexivity | apply Z.ltb_ge in E; lia].
  - change (replicate (S (S n)) ArrowUp) with (ArrowUp :: replicate (S n) ArrowUp).
    rewrite keys_cons. cbn [handleKeydown].
    destruct (_ <? _) eqn:E; [|apply Z.ltb_ge in E; lia].
    rewrite IH by (cbn [set_value set_historyIndex commandHistory historyIndex]; lia).
    unfold set_value, set_historyIndex.
    cbn [commandHistory historyIndex value history href].
    replace (historyIndex s + 1 + Z.of_nat (S n))
      with (historyIndex s + Z.of_nat (S (S n))) by lia.
    reflexivity.
Qed.

Lemma arrow_down_run e n : ∀ s,
  -1 ≤ historyIndex s - Z.of_nat (S n) →
  keys e (replicate (S n) ArrowDown) s
  = set_value (if historyIndex s - Z.of_nat (S n) =? -1 then ""
               else entry (commandHistory s) (historyIndex s - Z.of_nat (S n)))
      (set_historyIndex (historyIndex s - Z.of_nat (S n)) s).
Proof.
  induction n as [|n IH]; intros s H.
  - cbn [replicate]. rewrite keys_cons. cbn [handleKeydown].
    destruct (_ >? _) eqn:E; [reflexivity | rewrite Z.gtb_ltb in E; apply Z.ltb_ge in E; lia].
  - change (replicate (S (S n)) ArrowDown) with (ArrowDown :: replicate (S n) ArrowDown).
    rewrite keys_cons. cbn [handleKeydown].
    destruct (_ >? _) eqn:E; [|rewrite Z.gtb_ltb in E; apply Z.ltb_ge in E; lia].
    rewrite IH by (cbn [set_value set_historyIndex commandHistory historyIndex]; lia).
    unfold set_value, set_historyIndex.
    cbn [commandHistory historyIndex value history href].
    replace (historyIndex s - 1 - Z.of_nat (S n))
      with (historyIndex s - Z.of_nat (S (S n))) by lia.
    reflexivity.
Qed.

Lemma entry_lookup l k x : l !! k = Some x → entry l (Z.of_nat k) = x.
Proof.
  intros H. unfold entry. destruct (_ <? _) eqn:E; [apply Z.ltb_lt in E; lia|].
  by rewrite Nat2Z.id, H.
Qed.

Lemma enter_submits e s :
  trim (value s) ≠ "" →
  handleKeydown e Enter s
  = executeCommand e
      (State (trim (value s) :: commandHistory s) (-1) (value s) (history s) (href s)).
Proof.
  intros Hne. cbn [handleKeydown].
  destruct (String.eqb _ _) eqn:E; [by apply String.eqb_eq in E | reflexivity].
Qed.

(** What the tests of the registry's names compute. *)
Lemma names_are_words :
  Forall (λ m, trim m = m ∧ split m = [m] ∧ toLowerCase m = m ∧
               (∃ c, own_command m = Some c) ∧
               filter (λ cmd, startsWith cmd m = true) command_names = [m])
         command_names.
Proof.
  unfold command_names. cbn [fmap list_fmap commands fst].
  repeat (apply List.Forall_cons;
          [split; [reflexivity|]; split; [reflexivity|]; split; [reflexivity|];
           split; [eexists; reflexivity | reflexivity]|]).
  apply List.Forall_nil.
Qed.

End HandlerFacts.

(** X3.  [cat] reads its first argument as a file name, as it was typed.
    The two files [readme.md] and [skills.txt] are printed line by line;
    any other name gives the one error line [File not found] with the
    name, except the twelve names that every object inherits: there the
    handler fails, the generic failure line is appended and the input
    field keeps its text.  Without an argument the usage line is
    appended. *)
Theorem cat_reads_two_files (e : Terminal.env) :
  (∀ filename : string,
      Terminal.fileContents filename = None
      ↔ filename ≠ "readme.md" ∧ filename ≠ "skills.txt") ∧
  (∀ (s : Terminal.state) (command filename : string) (args ls : list string),
      JSString.split (JSString.trim (Terminal.value s)) = command :: filename :: args →
      JSString.toLowerCase command = "cat" →
      Terminal.fileContents filename = Some ls →
      Terminal.executeCommand e s
      = Terminal.set_value ""
          (Terminal.addAll ls
             (Terminal.addToHistory (JSString.trim (Terminal.value s)) "" s))) ∧
  (∀ (s : Terminal.state) (command filename : string) (args : list string),
      JSString.split (JSString.trim (Terminal.value s)) = command :: filename :: args →
      JSString.toLowerCase command = "cat" →
      Terminal.fileContents filename = None →
      filename ∉ Terminal.inherited_names →
      Terminal.executeCommand e s
      = Terminal.set_value ""
          (Terminal.addToHistory ("File not found: " +:+ filename) "error"
             (Terminal.addToHistory (JSString.trim (Terminal.value s)) "" s))) ∧
  (∀ (s : Terminal.state) (command filename : string) (args : list string),
      JSString.split (JSString.trim (Terminal.value s)) = command :: filename :: args →
      JSString.toLowerCase command = "cat" →
      filename ∈ Terminal.inherited_names →
      Terminal.executeCommand e s
      = Terminal.addToHistory "Failed to execute command" "error"
          (Terminal.addToHistory (JSString.trim (Terminal.value s)) "" s)) ∧
  (∀ (s : Terminal.state) (command : string),
      JSString.split (JSString.trim (Terminal.value s)) = [command] →
      JSString.toLowerCase command = "cat" →
      Terminal.executeCommand e s
      = Terminal.set_value ""
          (Terminal.addToHistory "Usage: cat <filename>" "error"
             (Terminal.addToHistory (JSString.trim (Terminal.value s)) "" s))).
Proof.
  assert (Hrun : ∀ (s : Terminal.state) command args,
            JSString.split (JSString.trim (Terminal.value s)) = command :: args →
            JSString.toLowerCase command = "cat" →
            Terminal.executeCommand e s
            = match Terminal.catFile args
                      (Terminal.addToHistory (JSString.trim (Terminal.value s)) "" s) with
              | Terminal.Normal s2 => Terminal.set_value "" s2
              | Terminal.Abrupt s2 =>
                  Terminal.addToHistory "Failed to execute command" "error" s2
              end).
  { intros s command args H Hl.
    by rewrite (executeCommand_named e s command args "cat" Terminal.cat). }
  split; [|split; [|split; [|split]]].
  - intros filename. unfold Terminal.fileContents.
    destruct (String.eqb filename "readme.md") eqn:E1.
    { apply String.eqb_eq in E1. split; [discriminate | intros [H _]; contradiction]. }
    destruct (String.eqb filename "skills.txt") eqn:E2.
    { apply String.eqb_eq in E2. split; [discriminate | intros [_ H]; contradiction]. }
    apply String.eqb_neq in E1, E2. done.
  - intros s command filename args ls H Hl Hf.
    rewrite (Hrun s command _ H Hl). unfold Terminal.catFile. by rewrite Hf.
  - intros s command filename args H Hl Hf Hin.
    rewrite (Hrun s command _ H Hl). unfold Terminal.catFile, Terminal.inherits.
    rewrite Hf. by rewrite bool_decide_eq_false_2.
  - intros s command filename args H Hl Hin.
    rewrite (Hrun s command _ H Hl). unfold Terminal.catFile, Terminal.inherits.
    assert (Hf : Terminal.fileContents filename = None).
    { unfold Terminal.inherited_names in Hin.
      repeat (apply elem_of_cons in Hin as [-> | Hin]; [reflexivity|]).
      by apply elem_of_nil in Hin. }
    rewrite Hf. by rewrite bool_decide_eq_true_2.
  - intros s command H Hl. by rewrite (Hrun s command _ H Hl).
Qed.

(** [cat valueOf]: the failure line, and the text stays in the input
    field. *)
Lemma cat_reads_two_files_witness :
  Terminal.executeCommand (Terminal.Env "/" "now")
    (Terminal.set_value "cat valueOf" Terminal.state_init)
  = Terminal.State [] (-1) "cat valueOf"
      [Terminal.Line "cat valueOf" ""; Terminal.Line "Failed to execute command" "error"]
      None.
Proof.
  assert (Hin : "valueOf" ∈ Terminal.inherited_names).
  { unfold Terminal.inherited_names. set_solver. }
  exact (proj1 (proj2 (proj2 (proj2 (cat_reads_two_files (Terminal.Env "/" "now")))))
           (Terminal.set_value "cat valueOf" Terminal.state_init) "cat" "valueOf" []
           eq_refl eq_refl Hin).
Defined.

(** X4.  [cd] goes to the page of its first argument when that is one of
    [/], [~], [about], [projects] and [contact], typed in lower case, and
    appends nothing but the line; with any other argument the location
    stays and the one error line [Directory not found] is appended;
    without an argument the usage line is appended.  The commands [about],
    [projects] and [contact] go to the pages that [cd] goes to with the
    same word. *)
Theorem cd_goes_to_the_named_page (e : Terminal.env) :
  (∀ (s : Terminal.state) (command dir page : string) (args : list string),
      JSString.split (JSString.trim (Terminal.value s)) = command :: dir :: args →
      JSString.toLowerCase command = "cd" →
      (dir, page) ∈ directories →
      Terminal.executeCommand e s
      = Terminal.set_value ""
          (Terminal.set_href page
             (Terminal.addToHistory (JSString.trim (Terminal.value s)) "" s))) ∧
  (∀ (s : Terminal.state) (command dir : string) (args : list string),
      JSString.split (JSString.trim (Terminal.value s)) = command :: dir :: args →
      JSString.toLowerCase command = "cd" →
      dir ∉ directories.*1 →
      Terminal.executeCommand e s
      = Terminal.set_value ""
          (Terminal.addToHistory ("Directory not found: " +:+ dir) "error"
             (Terminal.addToHistory (JSString.trim (Terminal.value s)) "" s))) ∧
  (∀ (s : Terminal.state) (command : string),
      JSString.split (JSString.trim (Terminal.value s)) = [command] →
      JSString.toLowerCase command = "cd" →
      Terminal.executeCommand e s
      = Terminal.set_value ""
          (Terminal.addToHistory "Usage: cd <directory>" "error"
             (Terminal.addToHistory (JSString.trim (Terminal.value s)) "" s))) ∧
  (∀ (s : Terminal.state) (command page : string) (args : list string),
      JSString.split (JSString.trim (Terminal.value s)) = command :: args →
      (JSString.toLowerCase command, page) ∈ directories →
      page ≠ "/" →
      Terminal.executeCommand e s
      = Terminal.set_value ""
          (Terminal.set_href page
             (Terminal.addToHistory (JSString.trim (Terminal.value s)) "" s))).
Proof.
  assert (Hrun : ∀ (s : Terminal.state) command args,
            JSString.split (JSString.trim (Terminal.value s)) = command :: args →
            JSString.toLowerCase command = "cd" →
            Terminal.executeCommand e s
            = Terminal.set_value ""
                (Terminal.changeDirectory args
                   (Terminal.addToHistory (JSString.trim (Terminal.value s)) "" s))).
  { intros s command args H Hl.
    by rewrite (executeCommand_named e s command args "cd" Terminal.cd). }
  split; [|split; [|split]].
  - intros s command dir page args H Hl Hin. rewrite (Hrun s command _ H Hl).
    unfold directories in Hin.
    repeat (apply elem_of_cons in Hin as [[= -> ->] | Hin]; [reflexivity|]).
    by apply elem_of_nil in Hin.
  - intros s command dir args H Hl Hin. rewrite (Hrun s command _ H Hl).
    unfold Terminal.changeDirectory.
    assert (Hne : ∀ d, d ∈ directories.*1 → String.eqb dir d = false).
    { intros d Hd. apply String.eqb_neq. intros ->. contradiction. }
    rewrite !Hne by (unfold directories; cbn; set_solver). reflexivity.
  - intros s command H Hl. by rewrite (Hrun s command _ H Hl).
  - intros s command page args H Hin Hp.
    unfold directories in Hin.
    apply elem_of_cons in Hin as [[= Hl ->] | Hin]; [contradiction|].
    apply elem_of_cons in Hin as [[= Hl ->] | Hin]; [contradiction|].
    apply elem_of_cons in Hin as [[= Hl ->] | Hin].
    { by rewrite (executeCommand_named e s command args "about" Terminal.about). }
    apply elem_of_cons in Hin as [[= Hl ->] | Hin].
    { by rewrite (executeCommand_named e s command args "projects" Terminal.projects). }
    apply elem_of_cons in Hin as [[= Hl ->] | Hin].
    { by rewrite (executeCommand_named e s command args "contact" Terminal.contact). }
    by apply elem_of_nil in Hin.
Qed.

(** [CD projects now] goes to the projects page. *)
Lemma cd_goes_to_the_named_page_witness :
  Terminal.executeCommand (Terminal.Env "/" "now")
    (Terminal.set_value "CD projects now" Terminal.state_init)
  = Terminal.State [] (-1) "" [Terminal.Line "CD projects now" ""] (Some "/projects.html").
Proof.
  assert (Hin : ("projects", "/projects.html") ∈ directories).
  { unfold directories. set_solver. }
  exact (proj1 (cd_goes_to_the_named_page (Terminal.Env "/" "now"))
           (Terminal.set_value "CD projects now" Terminal.state_init)
           "CD" "projects" "/projects.html" ["now"] eq_refl eq_refl Hin).
Defined.

(** X5.  [clear] leaves the transcript empty: the lines that were there
    and the line of the command itself are removed.  The input field is
    cleared; the command history, its cursor and the location stay. *)
Theorem clear_empties_the_transcript (e : Terminal.env) (s : Terminal.state)
    (command : string) (args : list string) :
  JSString.split (JSString.trim (Terminal.value s)) = command :: args →
  JSString.toLowerCase command = "clear" →
  Terminal.executeCommand e s
  = Terminal.State (Terminal.commandHistory s) (Terminal.historyIndex s) "" []
      (Terminal.href s).
Proof.
  intros H Hl.
  by rewrite (executeCommand_named e s command args "clear" Terminal.clear).
Qed.

(** [Clear all] on a transcript of two lines. *)
Lemma clear_empties_the_transcript_witness :
  Terminal.executeCommand (Terminal.Env "/" "now")
    (Terminal.State ["ls"] (-1) "Clear all"
       [Terminal.Line "ls" ""; Terminal.Line "Available sections:" ""] None)
  = Terminal.State ["ls"] (-1) "" [] None.
Proof.
  exact (clear_empties_the_transcript (Terminal.Env "/" "now")
           (Terminal.State ["ls"] (-1) "Clear all"
              [Terminal.Line "ls" ""; Terminal.Line "Available sections:" ""] None)
           "Clear" ["all"] eq_refl eq_refl).
Defined.

(** X6.  [help] documents the registry: after the line and the heading it
    appends one line for each name of the registry, in the order of the
    registry, made of the name, spaces up to the tenth column, a dash and
    a description. *)
Theorem help_lists_the_registry (e : Terminal.env) (s : Terminal.state)
    (command : string) (args : list string) :
  JSString.split (JSString.trim (Terminal.value s)) = command :: args →
  JSString.toLowerCase command = "help" →
  ∃ descriptions : list string,
    length descriptions = length Terminal.command_names ∧
    Terminal.history (Terminal.executeCommand e s)
    = Terminal.history s
        ++ plain (JSString.trim (Terminal.value s) :: "Available commands:"
                  :: zip_with help_line Terminal.command_names descriptions) ∧
    Terminal.value (Terminal.executeCommand e s) = "" ∧
    Terminal.href (Terminal.executeCommand e s) = Terminal.href s.
Proof.
  intros H Hl.
  rewrite (executeCommand_named e s command args "help" Terminal.help H Hl);
    [|discriminate | reflexivity].
  cbn [Terminal.run]. unfold Terminal.showHelp.
  exists ["Show this help message"; "Clear terminal history"; "Go to About page";
          "Go to Projects page"; "Go to Contact page"; "List all sections";
          "Display user info"; "Show current date/time"; "Echo back your text";
          "List my technical skills"; "Show social media links";
          "Print working directory"; "Read a file"; "Change directory"].
  split; [reflexivity|]. rewrite addAll_state.
  cbn [Terminal.set_value Terminal.addToHistory Terminal.history Terminal.value
       Terminal.href Terminal.commandHistory Terminal.historyIndex].
  rewrite <- app_assoc. done.
Qed.

(** [help] in a new terminal: sixteen lines. *)
Lemma help_lists_the_registry_witness :
  ∃ descriptions : list string,
    length descriptions = length Terminal.command_names ∧
    Terminal.history
      (Terminal.executeCommand (Terminal.Env "/" "now")
         (Terminal.set_value "help" Terminal.state_init))
    = Terminal.history (Terminal.set_value "help" Terminal.state_init)
        ++ plain (JSString.trim (Terminal.value (Terminal.set_value "help" Terminal.state_init))
                  :: "Available commands:"
                  :: zip_with help_line Terminal.command_names descriptions) ∧
    Terminal.value
      (Terminal.executeCommand (Terminal.Env "/" "now")
         (Terminal.set_value "help" Terminal.state_init)) = "" ∧
    Terminal.href
      (Terminal.executeCommand (Terminal.Env "/" "now")
         (Terminal.set_value "help" Terminal.state_init))
    = Terminal.href (Terminal.set_value "help" Terminal.state_init).
Proof.
  exact (help_lists_the_registry (Terminal.Env "/" "now")
           (Terminal.set_value "help" Terminal.state_init) "help" [] eq_refl eq_refl).
Defined.

(** ** The terminal: keys *)

(** X7.  The arrow keys browse the command history, the newest entry
    first.  From the cursor -1, the key up pressed k+1 times puts the
    k-th entry into the input field and the cursor on k.  Going up n
    entries and down again n entries ends on the cursor -1 with an empty
    input field: the text that was in the field before is not brought
    back.  A line that has just been submitted is the entry that the next
    key up recalls, without the white space around it. *)
Theorem arrows_recall_the_history (e : Terminal.env) :
  (∀ (s : Terminal.state) (k : nat) (line : string),
      Terminal.historyIndex s = (-1)%Z →
      Terminal.commandHistory s !! k = Some line →
      Terminal.keys e (replicate (S k) Terminal.ArrowUp) s
      = Terminal.set_value line (Terminal.set_historyIndex (Z.of_nat k) s)) ∧
  (∀ (s : Terminal.state) (n : nat),
      Terminal.historyIndex s = (-1)%Z →
      (1 ≤ n ≤ length (Terminal.commandHistory s))%nat →
      Terminal.keys e (replicate n Terminal.ArrowUp ++ replicate n Terminal.ArrowDown) s
      = Terminal.set_value "" s) ∧
  (∀ s : Terminal.state,
      JSString.trim (Terminal.value s) ≠ "" →
      Terminal.value (Terminal.keys e [Terminal.Enter; Terminal.ArrowUp] s)
      = JSString.trim (Terminal.value s)).
Proof.
  split; [|split].
  - intros s k line Hi Hk.
    pose proof (lookup_lt_Some _ _ _ Hk) as Hlt.
    rewrite arrow_up_run by lia.
    replace (Terminal.historyIndex s + Z.of_nat (S k))%Z with (Z.of_nat k) by lia.
    by rewrite (entry_lookup _ _ _ Hk).
  - intros s n Hi Hn. destruct n as [|n]; [lia|].
    rewrite keys_app, arrow_up_run by lia.
    rewrite arrow_down_run
      by (cbn [Terminal.set_value Terminal.set_historyIndex Terminal.historyIndex]; lia).
    unfold Terminal.set_value, Terminal.set_historyIndex.
    cbn [Terminal.commandHistory Terminal.historyIndex Terminal.value Terminal.history
         Terminal.href].
    replace (Terminal.historyIndex s + Z.of_nat (S n) - Z.of_nat (S n))%Z
      with (-1)%Z by lia.
    rewrite Z.eqb_refl. by rewrite <- Hi.
  - intros s Hne. rewrite keys_cons.
    pose proof (cursor_executeCommand e
      (Terminal.State (JSString.trim (Terminal.value s) :: Terminal.commandHistory s)
         (-1) (Terminal.value s) (Terminal.history s) (Terminal.href s))) as Hc.
    rewrite (enter_submits e s Hne). unfold cursor in Hc. cbn in Hc. injection Hc as Hh Hi.
    change [Terminal.ArrowUp] with (replicate 1 Terminal.ArrowUp).
    rewrite arrow_up_run by (rewrite Hh, Hi; cbn [length]; lia).
    cbn [Terminal.set_value Terminal.value]. rewrite Hh, Hi. reflexivity.
Qed.

(** Three entries: up, up, up, down, down, down. *)
Lemma arrows_recall_the_history_witness :
  Terminal.keys (Terminal.Env "/" "now")
    (replicate 3 Terminal.ArrowUp ++ replicate 3 Terminal.ArrowDown)
    (Terminal.State ["ls"; "pwd"; "help"] (-1) "draft" [] None)
  = Terminal.State ["ls"; "pwd"; "help"] (-1) "" [] None.
Proof.
  assert (Hn : (1 ≤ 3 ≤ length (Terminal.commandHistory
                  (Terminal.State ["ls"; "pwd"; "help"] (-1) "draft" [] None)))%nat).
  { cbn. lia. }
  exact (proj1 (proj2 (arrows_recall_the_history (Terminal.Env "/" "now")))
           (Terminal.State ["ls"; "pwd"; "help"] (-1) "draft" [] None) 3%nat
           eq_refl Hn).
Defined.

(** X8.  A line of white space only is not a command: the key Enter
    changes nothing, neither the command history nor the transcript, and
    the input field keeps the white space. *)
Theorem blank_line_is_ignored (e : Terminal.env) (s : Terminal.state) :
  blank_text (Terminal.value s) →
  Terminal.handleKeydown e Terminal.Enter s = s ∧ Terminal.executeCommand e s = s.
Proof.
  intros Hb. apply trim_blank in Hb.
  assert (He : Terminal.executeCommand e s = s).
  { unfold Terminal.executeCommand. by rewrite Hb. }
  split; [|exact He]. cbn [Terminal.handleKeydown]. rewrite Hb. exact He.
Qed.

(** A space and a tab in the input field. *)
Lemma blank_line_is_ignored_witness :
  Terminal.handleKeydown (Terminal.Env "/" "now") Terminal.Enter
    (Terminal.set_value (String " " (String (ascii_of_nat 9) "")) Terminal.state_init)
  = Terminal.set_value (String " " (String (ascii_of_nat 9) "")) Terminal.state_init.
Proof.
  assert (Hb : blank_text (Terminal.value
            (Terminal.set_value (String " " (String (ascii_of_nat 9) ""))
               Terminal.state_init))).
  { unfold blank_text. cbn. repeat constructor. }
  exact (proj1 (blank_line_is_ignored (Terminal.Env "/" "now") _ Hb)).
Defined.

(** X9.  The key Tab completes the first word of the input field against
    the registry, whatever its case.  When the word is a name of the
    registry the field is replaced by that name: what was typed after the
    word is dropped.  On a field of white space every name of the registry
    is listed.  In no case does the key touch the command history, its
    cursor or the location, and it changes either the field or the
    transcript, never both. *)
Theorem tab_completes_the_first_word :
  (∀ (s : Terminal.state) (v name partial : string) (rest : list string),
      name ∈ Terminal.command_names →
      JSString.split (JSString.trim v) = partial :: rest →
      JSString.toLowerCase partial = name →
      Terminal.handleTabCompletion (Terminal.set_value v s) = Terminal.set_value name s) ∧
  (∀ s : Terminal.state,
      blank_text (Terminal.value s) →
      Terminal.handleTabCompletion s
      = Terminal.State (Terminal.commandHistory s) (Terminal.historyIndex s)
          (Terminal.value s)
          (Terminal.history s
             ++ plain ("Possible commands:"
                       :: ((λ name, "  " +:+ name) <$> Terminal.command_names)))
          (Terminal.href s)) ∧
  (∀ s : Terminal.state,
      cursor (Terminal.handleTabCompletion s) = cursor s ∧
      Terminal.href (Terminal.handleTabCompletion s) = Terminal.href s ∧
      (Terminal.value (Terminal.handleTabCompletion s) = Terminal.value s ∨
       Terminal.history (Terminal.handleTabCompletion s) = Terminal.history s)).
Proof.
  split; [|split].
  - intros s v name partial rest Hin Hs Hl.
    pose proof names_are_words as Hw. rewrite Forall_forall in Hw.
    destruct (Hw name Hin) as (_ & _ & _ & _ & Hf).
    unfold Terminal.handleTabCompletion, Terminal.completions.
    cbn [Terminal.set_value Terminal.value]. rewrite Hs.
    cbn [head default from_option id]. rewrite Hl, Hf. reflexivity.
  - intros s Hb. apply trim_blank in Hb.
    assert (Hall : Terminal.completions (Terminal.value s) = Terminal.command_names).
    { unfold Terminal.completions. rewrite Hb. vm_compute. reflexivity. }
    unfold Terminal.handleTabCompletion. rewrite Hall.
    change (foldl (λ (s0 : Terminal.state) (m : string),
                     Terminal.addToHistory ("  " +:+ m) "" s0)
              (Terminal.addToHistory "Possible commands:" "" s) Terminal.command_names
            = Terminal.State (Terminal.commandHistory s) (Terminal.historyIndex s)
                (Terminal.value s)
                (Terminal.history s
                 ++ plain ("Possible commands:"
                           :: ((λ name, "  " +:+ name) <$> Terminal.command_names)))
                (Terminal.href s)).
    rewrite indented_state. cbn [Terminal.addToHistory Terminal.history
      Terminal.commandHistory Terminal.historyIndex Terminal.value Terminal.href].
    by rewrite <- app_assoc.
  - intros s. split; [apply cursor_handleTabCompletion|].
    unfold Terminal.handleTabCompletion.
    destruct (Terminal.completions _) as [|m [|m' ms]]; [auto | auto |].
    set (f := λ (s : Terminal.state) (m : string), Terminal.addToHistory ("  " +:+ m) "" s).
    assert (Hf : ∀ l s0, Terminal.href (foldl f s0 l) = Terminal.href s0 ∧
                         Terminal.value (foldl f s0 l) = Terminal.value s0).
    { induction l as [|x l IH]; intros s0; [done|]. cbn [foldl].
      destruct (IH (f s0 x)) as [-> ->]. done. }
    destruct (Hf (m :: m' :: ms) (Terminal.addToHistory "Possible commands:" "" s))
      as [-> ->]. auto.
Qed.

(** [ECHO hello] and Tab: the field reads [echo]. *)
Lemma tab_completes_the_first_word_witness :
  Terminal.handleTabCompletion (Terminal.set_value "ECHO hello" Terminal.state_init)
  = Terminal.set_value "echo" Terminal.state_init.
Proof.
  assert (Hin : "echo" ∈ Terminal.command_names).
  { unfold Terminal.command_names. cbn. set_solver. }
  exact (proj1 tab_completes_the_first_word Terminal.state_init "ECHO hello" "echo"
           "ECHO" ["hello"] Hin eq_refl eq_refl).
Defined.

(** X10.  A word that Tab has completed is a command: when the key finds
    one name for the input field and Enter is pressed next, the handler of
    that name runs without arguments and returns, the name is the newest
    entry of the command history, and the input field is cleared. *)
Theorem completed_word_runs (e : Terminal.env) (s : Terminal.state) (m : string) :
  Terminal.completions (Terminal.value s) = [m] →
  ∃ (c : Terminal.command) (s2 : Terminal.state),
    Terminal.own_command m = Some c ∧
    Terminal.run e c []
      (Terminal.addToHistory m ""
         (Terminal.State (m :: Terminal.commandHistory s) (-1) m (Terminal.history s)
            (Terminal.href s)))
    = Terminal.Normal s2 ∧
    Terminal.keys e [Terminal.Tab; Terminal.Enter] s = Terminal.set_value "" s2.
Proof.
  intros Hc.
  assert (Hin : m ∈ Terminal.command_names).
  { assert (H : m ∈ Terminal.completions (Terminal.value s))
      by (rewrite Hc; apply list_elem_of_here).
    unfold Terminal.completions in H. by apply list_elem_of_filter in H as [_ H]. }
  pose proof names_are_words as Hw. rewrite Forall_forall in Hw.
  destruct (Hw m Hin) as (Ht & Hs & Hl & [c Ho] & _).
  set (s1 := Terminal.State (m :: Terminal.commandHistory s) (-1) m (Terminal.history s)
               (Terminal.href s)).
  assert (Hrun : ∃ s2, Terminal.run e c [] (Terminal.addToHistory m "" s1)
                       = Terminal.Normal s2).
  { destruct c; cbn [Terminal.run Terminal.catFile]; eexists; reflexivity. }
  destruct Hrun as [s2 Hrun]. exists c, s2. split; [exact Ho|]. split; [exact Hrun|].
  assert (Hm : m ≠ "") by (intros ->; by cbn in Ho).
  rewrite !keys_cons. cbn [Terminal.keys foldl].
  change (Terminal.handleKeydown e Terminal.Tab s) with (Terminal.handleTabCompletion s).
  unfold Terminal.handleTabCompletion. rewrite Hc.
  rewrite enter_submits by (cbn [Terminal.set_value Terminal.value]; by rewrite Ht).
  cbn [Terminal.set_value Terminal.value Terminal.commandHistory Terminal.historyIndex
       Terminal.history Terminal.href].
  rewrite Ht. fold s1.
  rewrite (executeCommand_own e s1 m [] c);
    [| cbn [s1 Terminal.value]; by rewrite Ht
     | cbn [s1 Terminal.value]; by rewrite Ht, Hs
     | by rewrite Hl ].
  cbn [s1 Terminal.value]. rewrite Ht. fold s1. by rewrite Hrun.
Qed.

(** [wh], Tab, Enter: the lines of [whoami]. *)
Lemma completed_word_runs_witness :
  ∃ (c : Terminal.command) (s2 : Terminal.state),
    Terminal.own_command "whoami" = Some c ∧
    Terminal.run (Terminal.Env "/" "now") c []
      (Terminal.addToHistory "whoami" ""
         (Terminal.State
            ("whoami" :: Terminal.commandHistory (Terminal.set_value "wh" Terminal.state_init))
            (-1) "whoami"
            (Terminal.history (Terminal.set_value "wh" Terminal.state_init))
            (Terminal.href (Terminal.set_value "wh" Terminal.state_init))))
    = Terminal.Normal s2 ∧
    Terminal.keys (Terminal.Env "/" "now") [Terminal.Tab; Terminal.Enter]
      (Terminal.set_value "wh" Terminal.state_init)
    = Terminal.set_value "" s2.
Proof.
  exact (completed_word_runs (Terminal.Env "/" "now")
           (Terminal.set_value "wh" Terminal.state_init) "whoami" eq_refl).
Defined.

(** ** The terminal: cancelling the debounced call *)

Section TerminalCancelFacts.
Import RateSim.
Context {V : Type}.
Variable wait : Z.
Local Open Scope Z_scope.

Lemma run_until_idle t' t nx (l : option (list V)) tr :
  run_until Terminal.later t' (idle t nx l tr) = idle t nx l tr.
Proof. reflexivity. Qed.

Lemma run_until_armed t' t nx h d (a : list V) tr :
  run_until Terminal.later t' (armed' t (S nx) h d a tr)
  = if d <=? t' then idle d nx (Some a) (tr ++ [(d, a)])
    else armed' t (S nx) h d a tr.
Proof.
  unfold run_until. change (length _) with 1%nat.
  destruct (d <=? t') eqn:Hd.
  - by rewrite terminal_later_fires.
  - by rewrite terminal_later_waits.
Qed.

Lemma cancel_armed t nx h d (a : list V) tr :
  Terminal.cancel (armed' t (S nx) h d a tr) = idle t nx (Some a) tr.
Proof.
  unfold armed', Terminal.cancel, clearTimeout, Timers.clearTimeout, set_timers,
    set_closure.
  cbn [now timers closure invoked Timers.pending Timers.next_id Terminal.timeout
       Terminal.lastArgs Terminal.truthy].
  rewrite drop_same. reflexivity.
Qed.

Lemma use_at_shape (w : Terminal.dworld (V:=V)) (u : Z * Terminal.use) :
  idle_or_armed w → idle_or_armed (Terminal.use_at wait w u).
Proof.
  destruct u as [t' u]. unfold Terminal.use_at. cbn [fst snd].
  intros [(t & nx & l & tr & ->) | (t & nx & h & d & a & tr & ->)].
  - rewrite run_until_idle. destruct u as [args|].
    + right. change (set_now t' (idle t nx l tr)) with (idle t' nx l tr).
      unfold idle. rewrite debounced_arms. by eexists _, _, _, _, _, _.
    + left. by eexists _, _, _, _.
  - rewrite run_until_armed. destruct (d <=? t'); destruct u as [args|].
    + right. change (set_now t' (idle d nx (Some a) ?tr')) with (idle t' nx (Some a) tr').
      unfold idle. rewrite debounced_arms. by eexists _, _, _, _, _, _.
    + left. by eexists _, _, _, _.
    + right. change (set_now t' (armed' t (S nx) h d a tr)) with (armed' t' (S nx) h d a tr).
      rewrite debounced_rearms. by eexists _, _, _, _, _, _.
    + left. change (set_now t' (armed' t (S nx) h d a tr)) with (armed' t' (S nx) h d a tr).
      rewrite cancel_armed. by eexists _, _, _, _.
Qed.

Lemma use_at_cancel (w : Terminal.dworld (V:=V)) (t' : Z) :
  idle_or_armed w →
  ∃ t nx l tr, Terminal.use_at wait w (t', Terminal.Cancel) = idle t nx l tr.
Proof.
  unfold Terminal.use_at. cbn [fst snd].
  intros [(t & nx & l & tr & ->) | (t & nx & h & d & a & tr & ->)].
  - rewrite run_until_idle. by eexists _, _, _, _.
  - rewrite run_until_armed. destruct (d <=? t').
    + by eexists _, _, _, _.
    + change (set_now t' (armed' t (S nx) h d a tr)) with (armed' t' (S nx) h d a tr).
      rewrite cancel_armed. by eexists _, _, _, _.
Qed.

Lemma use_at_ran_by (T : Z) (w : Terminal.dworld (V:=V)) (u : Z * Terminal.use) :
  idle_or_armed w → u.1 ≤ T → ran_by T w → ran_by T (Terminal.use_at wait w u).
Proof.
  destruct u as [t' u]. unfold Terminal.use_at, ran_by. cbn [fst snd].
  intros [(t & nx & l & tr & ->) | (t & nx & h & d & a & tr & ->)] Ht Hr.
  - rewrite run_until_idle. destruct u as [args|]; exact Hr.
  - rewrite run_until_armed. destruct (d <=? t') eqn:Hd.
    + apply Z.leb_le in Hd.
      assert (Hr' : Forall (λ r : Z * list V, r.1 ≤ T) (tr ++ [(d, a)])).
      { apply Forall_app. split; [exact Hr|]. apply Forall_singleton. cbn. lia. }
      destruct u as [args|]; exact Hr'.
    + destruct u as [args|].
      * change (set_now t' (armed' t (S nx) h d a tr)) with (armed' t' (S nx) h d a tr).
        rewrite debounced_rearms. exact Hr.
      * change (set_now t' (armed' t (S nx) h d a tr)) with (armed' t' (S nx) h d a tr).
        rewrite cancel_armed. exact Hr.
Qed.

Lemma after_snoc (us : list (Z * Terminal.use (V:=V))) u :
  Terminal.after wait (us ++ [u]) = Terminal.use_at wait (Terminal.after wait us) u.
Proof. unfold Terminal.after. by rewrite foldl_app. Qed.

Lemma after_shape (us : list (Z * Terminal.use (V:=V))) :
  idle_or_armed (Terminal.after wait us).
Proof.
  induction us as [|u us IH] using rev_ind.
  - left. by exists 0, 0%nat, None, [].
  - rewrite after_snoc. by apply use_at_shape.
Qed.

Lemma after_ran_by (T : Z) (us : list (Z * Terminal.use (V:=V))) :
  Forall (λ u, u.1 ≤ T) us → ran_by T (Terminal.after wait us).
Proof.
  induction us as [|u us IH] using rev_ind; intros H.
  - constructor.
  - apply Forall_app in H as [H Hu]. apply Forall_inv in Hu.
    rewrite after_snoc. apply use_at_ran_by; [apply after_shape | exact Hu | by apply IH].
Qed.

Lemma calls_are_uses (calls : list (Z * list V)) : ∀ w,
  foldl (Terminal.use_at wait) w (calls_of calls)
  = simulate (Terminal.debounced wait) Terminal.later calls w.
Proof.
  induction calls as [|c calls IH]; intros w; [reflexivity|].
  rewrite simulate_cons. cbn [calls_of fmap list_fmap foldl].
  change (list_fmap _ _ ?f calls) with (calls_of calls). by rewrite IH.
Qed.

Lemma debounce_from_idle (calls : list (Z * list V)) t nx l tr :
  invoked (settle Terminal.later
             (simulate (Terminal.debounced wait) Terminal.later calls (idle t nx l tr)))
  = tr ++ Terminal.debounce wait calls.
Proof.
  rewrite terminal_debounce_refines.
  destruct calls as [|[t' a'] rest].
  - cbn. by rewrite app_nil_r.
  - rewrite simulate_cons. cbn [fst snd]. rewrite run_until_idle.
    change (set_now t' (idle t nx l tr)) with (idle t' nx l tr).
    unfold idle. rewrite debounced_arms, terminal_debounce_from_armed. reflexivity.
Qed.

End TerminalCancelFacts.

(** X11.  [cancel] of the terminal's debounce wrapper drops the pending
    run.  After a cancel no timer is pending, so nothing runs until the
    wrapper is called again: when every use so far was made at [t] or
    before, no run happens after [t]; calls made after a cancel run as
    they do on a new wrapper.  Calls at 0 and 50 with a wait of 80 and a
    cancel at 100 run nothing.  Without a cancel the uses are the calls of
    [debounce]. *)
Theorem cancel_drops_the_pending_run (V : Type) (wait : Z) :
  (∀ calls : list (Z * list V),
      Terminal.uses wait (calls_of calls) = Terminal.debounce wait calls) ∧
  (∀ (us : list (Z * Terminal.use (V:=V))) (t : Z),
      Timers.pending (RateSim.timers (Terminal.after wait (us ++ [(t, Terminal.Cancel)])))
      = [] ∧
      Terminal.uses wait (us ++ [(t, Terminal.Cancel)])
      = RateSim.invoked (Terminal.after wait (us ++ [(t, Terminal.Cancel)]))) ∧
  (∀ (us : list (Z * Terminal.use (V:=V))) (t : Z),
      Forall (λ u, (u.1 ≤ t)%Z) us →
      Forall (λ r, (r.1 ≤ t)%Z) (Terminal.uses wait (us ++ [(t, Terminal.Cancel)]))) ∧
  (∀ (us : list (Z * Terminal.use (V:=V))) (t : Z) (calls : list (Z * list V)),
      Terminal.uses wait (us ++ (t, Terminal.Cancel) :: calls_of calls)
      = Terminal.uses wait (us ++ [(t, Terminal.Cancel)]) ++ Terminal.debounce wait calls) ∧
  (∀ a b : list V,
      Terminal.uses 80 [(0, Terminal.Call a); (50, Terminal.Call b); (100, Terminal.Cancel)]%Z
      = []).
Proof.
  assert (Hidle : ∀ (us : list (Z * Terminal.use (V:=V))) (t : Z),
            ∃ t0 nx l tr, Terminal.after wait (us ++ [(t, Terminal.Cancel)])
                          = idle t0 nx l tr).
  { intros us t. rewrite after_snoc. apply use_at_cancel, after_shape. }
  split; [|split; [|split; [|split]]].
  - intros calls. unfold Terminal.uses, Terminal.after. rewrite calls_are_uses.
    reflexivity.
  - intros us t. destruct (Hidle us t) as (t0 & nx & l & tr & Hw).
    unfold Terminal.uses. rewrite Hw. done.
  - intros us t Hus. destruct (Hidle us t) as (t0 & nx & l & tr & Hw).
    unfold Terminal.uses. rewrite Hw.
    change (RateSim.invoked (RateSim.settle Terminal.later (idle t0 nx l tr)))
      with (RateSim.invoked (idle t0 nx l tr)).
    rewrite <- Hw. apply after_ran_by.
    apply Forall_app. split; [exact Hus|]. apply Forall_singleton. cbn. lia.
  - intros us t calls. destruct (Hidle us t) as (t0 & nx & l & tr & Hw).
    unfold Terminal.uses at 1 2.
    replace (us ++ (t, Terminal.Cancel) :: calls_of calls)
      with ((us ++ [(t, Terminal.Cancel)]) ++ calls_of calls)
      by (by rewrite <- app_assoc).
    unfold Terminal.after at 1. rewrite foldl_app.
    change (foldl (Terminal.use_at wait) _ (us ++ [(t, Terminal.Cancel)]))
      with (Terminal.after wait (us ++ [(t, Terminal.Cancel)])).
    rewrite calls_are_uses, Hw, debounce_from_idle. reflexivity.
  - intros a b. reflexivity.
Qed.

(** Two calls and a cancel at 100: no run after 100. *)
Lemma cancel_drops_the_pending_run_witness :
  Forall (λ r : Z * list string, (r.1 ≤ 100)%Z)
    (Terminal.uses 80
       ([(0, Terminal.Call ["a"]); (50, Terminal.Call ["b"])] ++ [(100, Terminal.Cancel)])%Z).
Proof.
  assert (H : Forall (λ u : Z * Terminal.use (V:=string), (u.1 ≤ 100)%Z)
                [(0, Terminal.Call ["a"]); (50, Terminal.Call ["b"])]%Z).
  { repeat (apply List.Forall_cons; [cbn; lia|]). apply List.Forall_nil. }
  exact (proj1 (proj2 (proj2 (cancel_drops_the_pending_run string 80))) _ 100%Z H).
Defined.

(** ** The terminal: one instance per page *)

(** X12.  The unload listener of the terminal's file leaves the class
    without an instance, and it returns.  It gets the instance from the
    accessor: on a page where no terminal was made it makes one, only to
    drop it.  [initializeTerminal] of [main.js] calls the accessor when
    its variable is empty and keeps the instance; called again it does
    nothing, so a page makes one terminal however often it is called. *)
Theorem unload_makes_and_drops_an_instance (st : Terminal.statics) :
  (Terminal.beforeunload st).1 = Terminal.Returned tt ∧
  Terminal.hasInstance (Terminal.beforeunload st).2 = false ∧
  Terminal.constructed (Terminal.beforeunload st).2
  = (if Terminal.hasInstance st then Terminal.constructed st
     else S (Terminal.constructed st)) ∧
  (∃ r : nat,
      (Main.initializeTerminal None st).1 = Some r ∧
      Terminal.instance (Main.initializeTerminal None st).2 = Some r ∧
      ∀ st' : Terminal.statics, Main.initializeTerminal (Some r) st' = (Some r, st')) ∧
  (∀ n : nat,
      let page := Nat.iter (S n) (λ p, Main.initializeTerminal p.1 p.2)
                    (None, Terminal.statics_init) in
      page.1 = Some 0%nat ∧
      Terminal.constructed page.2 = 1%nat ∧
      Terminal.constructed (Terminal.beforeunload page.2).2 = 1%nat).
Proof.
  split; [|split; [|split; [|split]]].
  - unfold Terminal.beforeunload, Terminal.getInstance, Terminal.constructor.
    destruct (Terminal.instance st); reflexivity.
  - unfold Terminal.beforeunload, Terminal.getInstance, Terminal.constructor.
    destruct (Terminal.instance st); reflexivity.
  - unfold Terminal.beforeunload, Terminal.getInstance, Terminal.constructor,
      Terminal.hasInstance.
    destruct (Terminal.instance st); reflexivity.
  - unfold Main.initializeTerminal, Terminal.getInstance, Terminal.constructor.
    destruct (Terminal.instance st) as [r|] eqn:E; cbn; rewrite ?E; eauto.
  - intros n.
    assert (H : Nat.iter (S n) (λ p, Main.initializeTerminal p.1 p.2)
                  (None, Terminal.statics_init)
                = (Some 0%nat, Terminal.Statics (Some 0%nat) false 1)).
    { induction n as [|n IH]; [reflexivity|].
      change (Nat.iter (S (S n)) ?f ?x) with (f (Nat.iter (S n) f x)).
      rewrite IH. reflexivity. }
    cbv zeta. rewrite H. done.
Qed.

(** ** The scroll coordinator: computations that return *)

Section ReturnsFacts.
Import ScrollHandler.

Lemma returns_ret (P : world → Prop) {A : Type} (a : A) (Q : A → world → Prop) :
  (∀ w, P w → Q a w) → returns P (mret a) Q.
Proof. intros H w Hw. exists a, w. split; [reflexivity | by apply H]. Qed.

Lemma returns_bind {A B : Type} (P : world → Prop) (m : M A) (R : A → world → Prop)
    (f : A → M B) (Q : B → world → Prop) :
  returns P m R → (∀ a, returns (R a) (f a) Q) → returns P (m ≫= f) Q.
Proof.
  intros Hm Hf w Hw. destruct (Hm w Hw) as (a & w1 & E1 & H1).
  destruct (Hf a w1 H1) as (b & w2 & E2 & H2).
  exists b, w2. split; [|exact H2]. unfold mbind, M_bind. by rewrite E1.
Qed.

Lemma returns_weaken {A : Type} (P P' : world → Prop) (m : M A) (Q Q' : A → world → Prop) :
  returns P' m Q' → (∀ w, P w → P' w) → (∀ a w, Q' a w → Q a w) → returns P m Q.
Proof.
  intros Hm HP HQ w Hw. destruct (Hm w (HP w Hw)) as (a & w' & E & H).
  exists a, w'. split; [exact E | by apply HQ].
Qed.

Lemma returns_get (P : world → Prop) : returns P get (λ a w, a = w ∧ P w).
Proof. intros w Hw. by exists w, w. Qed.

Lemma returns_self (P : world → Prop) : returns P self (λ h w, h = this w ∧ P w).
Proof. intros w Hw. by exists (this w), w. Qed.

Lemma returns_update (P Q : world → Prop) (f : world → world) :
  (∀ w, P w → Q (f w)) → returns P (update f) (λ _, Q).
Proof. intros H w Hw. exists tt, (f w). split; [reflexivity | by apply H]. Qed.

Lemma returns_assign (P Q : world → Prop) (f : handler → handler) :
  (∀ w, P w → Q (with_this (f (this w)) w)) → returns P (assign f) (λ _, Q).
Proof. apply returns_update. Qed.

Lemma returns_method (P : world → Prop) :
  (∀ w, P w → bound (this w) = true) → returns P method (λ _, P).
Proof. intros H w Hw. exists tt, w. split; [by apply method_ok, H | exact Hw]. Qed.

Lemma returns_for_each {A : Type} (P : world → Prop) (f : A → M unit) (l : list A) :
  (∀ a, returns P (f a) (λ _, P)) → returns P (for_each f l) (λ _, P).
Proof.
  intros Hf. induction l as [|a l IH]; [by apply returns_ret|].
  cbn [for_each]. eapply returns_bind; [apply Hf | intros ?; exact IH].
Qed.

(** A computation that returns keeps what it preserves. *)
Lemma returns_preserves {A : Type} (P R : world → Prop) (m : M A) (Q : A → world → Prop) :
  returns P m Q → preserves R m → returns (λ w, P w ∧ R w) m (λ a w, Q a w ∧ R w).
Proof.
  intros Hm Hr w [Hw HR]. destruct (Hm w Hw) as (a & w' & E & H).
  exists a, w'. split; [exact E|]. split; [exact H|].
  specialize (Hr w HR). by rewrite E in Hr.
Qed.

Lemma task_returns (P : world → Prop) (m : M unit) (Q : unit → world → Prop) (w : world) :
  returns P m Q → P w → ∃ w', m w = (Ok tt, w') ∧ task m w = w' ∧ Q tt w'.
Proof.
  intros Hm Hw. destruct (Hm w Hw) as (a & w' & E & H). destruct a.
  exists w'. unfold task. rewrite E. done.
Qed.

End ReturnsFacts.

Section AliveFacts.
Import ScrollHandler.
Local Open Scope Z_scope.

Lemma alive_frame (w w' : world) :
  bound (this w') = bound (this w) →
  parallaxState (this w') = parallaxState (this w) →
  (is_Some (pendingStyles (this w)) → is_Some (pendingStyles (this w'))) →
  (is_Some (rectCache (this w)) → is_Some (rectCache (this w'))) →
  parallaxImages (this w') = parallaxImages (this w) →
  alive w → alive w'.
Proof.
  intros Hb Hs Hp Hc Hi (H1 & H2 & H3 & H4 & H5).
  unfold alive. rewrite Hb, Hs, Hi. repeat split; auto.
Qed.

Lemma scheduleStyleUpdate_returns element styles :
  returns alive (scheduleStyleUpdate element styles) (λ _, alive).
Proof.
  intros w Hw. pose proof Hw as (Hb & Hs & [p Hp] & Hc & Hi).
  unfold scheduleStyleUpdate, mbind, M_bind, self, deref, assign, update,
    requestAnimationFrame. cbn.
  rewrite Hp. cbn. destruct (styleUpdateScheduled (this w)) eqn:E; cbn.
  - eexists _, _. split; [reflexivity|].
    revert Hw. apply alive_frame; cbn; auto.
  - rewrite Hb. cbn. eexists _, _. split; [reflexivity|].
    revert Hw. apply alive_frame; cbn; auto.
Qed.

Lemma getElementRect_returns element :
  returns alive (getElementRect element) (λ _, alive).
Proof.
  intros w Hw. pose proof Hw as (Hb & Hs & Hp & [c Hc] & Hi).
  destruct (c !! element) as [[r ts]|] eqn:He.
  - destruct (Z.lt_ge_cases (clock (win w) - ts) cacheTimeout) as [Hage|Hage].
    + rewrite (getElementRect_hit w c element r ts Hc He Hage). by eexists _, _.
    + rewrite (getElementRect_expired w c element r ts Hc He Hage).
      eexists _, _. split; [reflexivity|]. revert Hw. apply alive_frame; cbn; auto.
  - rewrite (getElementRect_absent w c element Hc He).
    eexists _, _. split; [reflexivity|]. revert Hw. apply alive_frame; cbn; auto.
Qed.

Lemma inViewUpdates_returns images :
  returns alive (inViewUpdates images) (λ _, alive).
Proof.
  induction images as [|image images IH]; [by apply returns_ret|].
  cbn [inViewUpdates].
  eapply returns_bind; [apply getElementRect_returns | intros r].
  eapply returns_bind; [apply returns_get | intros w0]. cbn beta.
  eapply returns_bind.
  { eapply returns_weaken; [exact IH | by intros ? [_ ?] | intros ? ? H; exact H]. }
  intros rest. by apply returns_ret.
Qed.

Ltac returns_at w Hw :=
  match goal with
  | |- ∃ a w', ?m w = (Ok a, w') ∧ _ =>
      let Hm := fresh "Hm" in
      assert (Hm : returns alive m (λ _, alive)); [|exact (Hm w Hw)]
  end.

Ltac alive_assign :=
  apply returns_assign; intros ?w; apply alive_frame; cbn; auto.

Lemma updateParallax_returns : returns alive updateParallax (λ _, alive).
Proof.
  intros w Hw. pose proof Hw as (Hb & Hs & Hp & Hc & [images Hi]).
  unfold updateParallax. unfold mbind at 1, M_bind at 1. cbn [get]. cbv zeta.
  destruct (default false _); [by eexists _, _|].
  destruct (_ <? _); [by eexists _, _|].
  rewrite Hi. returns_at w Hw.
  eapply returns_bind; [alive_assign | intros ?].
  eapply returns_bind with (R := λ _, alive);
    [intros w1 H1; eexists _, _; split; [reflexivity | exact H1] | intros images'].
  eapply returns_bind; [apply inViewUpdates_returns | intros updates].
  apply returns_for_each. intros u. apply scheduleStyleUpdate_returns.
Qed.

Lemma updateScrollProgress_returns : returns alive updateScrollProgress (λ _, alive).
Proof.
  intros w Hw. unfold updateScrollProgress. unfold mbind at 1, M_bind at 1. cbn [get].
  cbv zeta. destruct (scrollProgress (this w)) as [bar|]; [|by eexists _, _].
  by apply scheduleStyleUpdate_returns.
Qed.

Lemma clearRectCache_returns : returns alive clearRectCache (λ _, alive).
Proof.
  unfold clearRectCache.
  eapply returns_bind; [alive_assign | intros ?]. alive_assign.
Qed.

Lemma alive_bound : ∀ w, alive w → bound (this w) = true.
Proof. by intros w [H _]. Qed.

Lemma handleResize_returns : returns alive handleResize (λ _, alive).
Proof.
  intros w Hw. unfold handleResize. unfold mbind at 1, M_bind at 1. cbn [get].
  returns_at w Hw.
  eapply returns_bind; [alive_assign | intros ?].
  eapply returns_bind; [apply returns_method, alive_bound | intros ?].
  eapply returns_bind; [apply clearRectCache_returns | intros ?].
  eapply returns_bind; [apply returns_self | intros h]. cbn beta.
  eapply returns_bind with (R := λ _ w, h = this w ∧ alive w).
  { intros w1 [-> Hw1]. pose proof Hw1 as (H1 & H2 & H3). rewrite H2.
    exists tt, w1. split; [reflexivity|]. split; [reflexivity | exact Hw1]. }
  intros ?. eapply returns_bind with (R := λ _, alive).
  { destruct (default false _).
    - apply returns_ret. by intros ? [_ ?].
    - eapply returns_bind with (R := λ _, alive).
      { apply returns_assign. intros w1 [_ Hw1]. revert Hw1. apply alive_frame; cbn; auto. }
      intros ?. eapply returns_bind; [apply returns_method, alive_bound | intros ?].
      apply updateParallax_returns. }
  intros ?. eapply returns_bind; [apply returns_method, alive_bound | intros ?].
  apply updateScrollProgress_returns.
Qed.

End AliveFacts.

(** ** The scroll coordinator: what a method leaves alone *)

Section StyleFrameFacts.
Import ScrollHandler.

Variable R : world → Prop.
Hypothesis HR : besides_styles R.

Lemma scheduleStyleUpdate_besides element styles :
  preserves R (scheduleStyleUpdate element styles).
Proof.
  destruct HR as (Hf & Hp & Hs).
  intros w Hw. unfold scheduleStyleUpdate, mbind, M_bind, self, deref, assign, update,
    requestAnimationFrame. cbn.
  destruct (pendingStyles (this w)); cbn; [|exact Hw].
  destruct (styleUpdateScheduled (this w)); cbn; [by apply Hp|].
  destruct (bound (this w)); cbn.
  - by apply Hf, Hs, Hp.
  - by apply Hs, Hp.
Qed.

Lemma schedule_burst_besides (calls : list (elem * gmap string css)) :
  preserves R (schedule_burst calls).
Proof.
  unfold schedule_burst. apply preserves_for_each. intros c.
  apply scheduleStyleUpdate_besides.
Qed.

Lemma updateScrollProgress_besides : preserves R updateScrollProgress.
Proof.
  unfold updateScrollProgress. apply preserves_bind; [apply preserves_get | intros w].
  destruct (scrollProgress (this w)); [apply scheduleStyleUpdate_besides | apply preserves_ret].
Qed.

End StyleFrameFacts.

Section FrameFacts.
Import ScrollHandler.
Local Open Scope Z_scope.

Variable R : world → Prop.
Hypothesis HR : besides_styles_and_cache R.

Lemma getElementRect_besides element : preserves R (getElementRect element).
Proof.
  destruct HR as (_ & Hq & Hc & Hu & Hl).
  intros w Hw. destruct (rectCache (this w)) as [c|] eqn:Ec.
  - destruct (c !! element) as [[r ts]|] eqn:He.
    + destruct (Z.lt_ge_cases (clock (win w) - ts) cacheTimeout) as [Hage|Hage].
      * by rewrite (getElementRect_hit w c element r ts Ec He Hage).
      * rewrite (getElementRect_expired w c element r ts Ec He Hage).
        unfold refetched. cbn [snd]. apply (Hc (with_queried _ w)). by apply Hq.
    + rewrite (getElementRect_absent w c element Ec He).
      unfold refetched. cbn [snd]. apply (Hc (with_queried _ w)). by apply Hq.
  - unfold getElementRect, mbind, M_bind, get, deref. cbn. rewrite Ec. exact Hw.
Qed.

Lemma inViewUpdates_besides images : preserves R (inViewUpdates images).
Proof.
  induction images as [|image images IH]; [apply preserves_ret|].
  cbn [inViewUpdates]. apply preserves_bind; [apply getElementRect_besides | intros r].
  apply preserves_bind; [apply preserves_get | intros w'].
  apply preserves_bind; [exact IH | intros rest]. apply preserves_ret.
Qed.

Lemma updateParallax_besides : preserves R updateParallax.
Proof.
  pose proof HR as (Hst & Hq & Hc & Hu & Hl).
  unfold updateParallax. apply preserves_bind; [apply preserves_get | intros w].
  destruct (default false _); [apply preserves_ret|].
  destruct (_ <? _); [apply preserves_ret|].
  apply preserves_bind; [apply preserves_update; intros w1 H1; by apply Hl | intros ?].
  apply preserves_bind; [apply preserves_deref | intros images].
  apply preserves_bind; [apply inViewUpdates_besides | intros updates].
  apply preserves_for_each. intros u. by apply scheduleStyleUpdate_besides.
Qed.

Lemma clearRectCache_besides : preserves R clearRectCache.
Proof.
  pose proof HR as (Hst & Hq & Hc & Hu & Hl).
  unfold clearRectCache.
  apply preserves_bind; [apply preserves_update; intros w1 H1; by apply Hc | intros ?].
  apply preserves_update; intros w1 H1; by apply Hu.
Qed.

(** [handleResize] besides sets the two heights: what holds once they
    are set holds when it is over. *)
Lemma handleResize_sets (w : world) :
  R (with_this (set_heights (innerHeight (win w)) (scrollHeight (win w)) (this w)) w) →
  R (handleResize w).2.
Proof.
  pose proof HR as (Hst & Hq & Hc & Hu & Hl). intros H0.
  unfold handleResize. unfold mbind at 1, M_bind at 1. cbn [get].
  unfold mbind at 1, M_bind at 1. cbn [assign update].
  match goal with |- R (?m ?w1).2 => assert (Hm : preserves R m); [|exact (Hm w1 H0)] end.
  apply preserves_bind; [apply preserves_method | intros ?].
  apply preserves_bind; [apply clearRectCache_besides | intros ?].
  apply preserves_bind; [apply preserves_self | intros h].
  apply preserves_bind;
    [destruct (parallaxState h); [apply preserves_ret | apply preserves_throw] | intros ?].
  apply preserves_bind.
  - destruct (default false _); [apply preserves_ret|].
    apply preserves_bind; [apply preserves_update; intros w1 H1; by apply Hl | intros ?].
    apply preserves_bind; [apply preserves_method | intros ?].
    apply updateParallax_besides.
  - intros ?. apply preserves_bind; [apply preserves_method | intros ?].
    by apply updateScrollProgress_besides.
Qed.

Lemma handleResize_besides :
  (∀ w a b, R w → R (with_this (set_heights a b (this w)) w)) →
  preserves R handleResize.
Proof. intros Hh w Hw. by apply handleResize_sets, Hh. Qed.

End FrameFacts.

Section ScrollFacts.
Import ScrollHandler.
Local Open Scope Z_scope.

Lemma play_snoc evs ev w : play (evs ++ [ev]) w = react (play evs w) ev.
Proof. unfold play. by rewrite foldl_app. Qed.

Lemma scroll_step (w : world) (y : Q) :
  OnScroll ∈ listeners w →
  react w (Scroll y)
  = let h := set_scroll y (direction_of (num (lastScrollTop (this w))) y) (this w) in
    if ticking (this w) then with_this h (set_scrollY y w)
    else with_this (set_ticking true h)
           (with_frames (Frames.requestAnimationFrame ScrollTick (frames w)).2
              (set_scrollY y w)).
Proof.
  intros Hl. unfold react, dispatch.
  rewrite bool_decide_eq_true_2 by exact Hl.
  unfold task, onScroll, mbind, M_bind, get, assign, update, requestAnimationFrame.
  cbn. destruct (ticking (this w)); reflexivity.
Qed.

Lemma handleResize_heights (w : world) :
  alive w →
  ∃ w', handleResize w = (Ok tt, w') ∧ alive w' ∧
        windowHeight (this w') = Some (innerHeight (win w)) ∧
        documentHeight (this w') = Some (scrollHeight (win w)) ∧
        timers w' = timers w ∧ listeners w' = listeners w ∧ uncaught w' = uncaught w ∧
        win w' = win w ∧ inThrottle (this w') = inThrottle (this w).
Proof.
  intros Hw. destruct (handleResize_returns w Hw) as ([] & w' & E & Hw').
  exists w'. split; [exact E|]. split; [exact Hw'|].
  assert (Hk : ∀ R : world → Prop, besides_styles_and_cache R →
            R (with_this (set_heights (innerHeight (win w)) (scrollHeight (win w))
                            (this w)) w) →
            R w').
  { intros R HR H0. pose proof (handleResize_sets R HR w H0) as H. by rewrite E in H. }
  split; [|split; [|split; [|split; [|split; [|split]]]]].
  - by apply (Hk (λ w0, windowHeight (this w0) = Some (innerHeight (win w)))).
  - by apply (Hk (λ w0, documentHeight (this w0) = Some (scrollHeight (win w)))).
  - by apply (Hk (λ w0, timers w0 = timers w)).
  - by apply (Hk (λ w0, listeners w0 = listeners w)).
  - by apply (Hk (λ w0, uncaught w0 = uncaught w)).
  - by apply (Hk (λ w0, win w0 = win w)).
  - by apply (Hk (λ w0, inThrottle (this w0) = inThrottle (this w))).
Qed.

Lemma throttledResize_serves (w w1 : world) :
  inThrottle (this w) = false →
  handleResize w = (Ok tt, w1) →
  throttledResize w
  = (Ok tt,
     let w2 := with_this (set_inThrottle true (this w1)) w1 in
     with_timers (Timers.setTimeout (clock (win w2)) Release throttleDelay (timers w2)).2 w2).
Proof.
  intros Ht E. unfold throttledResize.
  rewrite (bind_ok self _ w w (this w) eq_refl). rewrite Ht.
  rewrite (bind_ok handleResize _ w w1 tt E). reflexivity.
Qed.

End ScrollFacts.

(** ** The scroll coordinator: scroll and resize events *)

(** X13.  Scroll events between two frames share one frame request.
    After any number of scroll events, the last to offset [y], the flag
    [ticking] is up and the queue has gained one request for the scroll
    tick if the flag was down before, none if it was up.  The handler
    holds [y] as the last offset, and the direction is down when [y] is
    greater than the offset before it and up otherwise, also when the two
    are equal.  The events arm no timer and touch no pending style. *)
Theorem scroll_events_share_a_frame (w : ScrollHandler.world) (ys : list Q) (y : Q) :
  ScrollHandler.OnScroll ∈ ScrollHandler.listeners w →
  let w' := ScrollHandler.play (ScrollHandler.Scroll <$> (ys ++ [y])) w in
  Frames.requested (ScrollHandler.frames w')
  = Frames.requested (ScrollHandler.frames w)
      ++ (if ScrollHandler.ticking (ScrollHandler.this w) then []
          else [(Frames.next_handle (ScrollHandler.frames w), ScrollHandler.ScrollTick)]) ∧
  ScrollHandler.ticking (ScrollHandler.this w') = true ∧
  ScrollHandler.lastScrollTop (ScrollHandler.this w') = Some y ∧
  ScrollHandler.scrollDirection (ScrollHandler.this w')
  = Some (direction_of
            (default (ScrollHandler.num (ScrollHandler.lastScrollTop (ScrollHandler.this w)))
               (last ys)) y) ∧
  ScrollHandler.scrollY (ScrollHandler.win w') = y ∧
  ScrollHandler.timers w' = ScrollHandler.timers w ∧
  ScrollHandler.listeners w' = ScrollHandler.listeners w ∧
  ScrollHandler.uncaught w' = ScrollHandler.uncaught w ∧
  ScrollHandler.pendingStyles (ScrollHandler.this w')
  = ScrollHandler.pendingStyles (ScrollHandler.this w).
Proof.
  intros Hl. cbv zeta. revert y.
  induction ys as [|y0 ys IH] using rev_ind; intros y.
  - cbn [app fmap list_fmap ScrollHandler.play foldl].
    rewrite (scroll_step w y Hl). cbv zeta.
    destruct (ScrollHandler.ticking (ScrollHandler.this w)) eqn:E; cbn.
    + rewrite app_nil_r. done.
    + done.
  - rewrite fmap_app. cbn [fmap list_fmap]. rewrite play_snoc.
    destruct (IH y0) as (H1 & H2 & H3 & H4 & H5 & H6 & H7 & H8 & H9).
    set (w1 := ScrollHandler.play _ w) in *.
    rewrite (scroll_step w1 y) by (by rewrite H7). cbv zeta. rewrite H2.
    rewrite last_snoc. cbn [default from_option id]. rewrite H3.
    cbn. done.
Qed.

(** Three scroll events on a page whose handler has just been made. *)
Lemma scroll_events_share_a_frame_witness :
  ScrollHandler.ticking
    (ScrollHandler.this
       (ScrollHandler.play (ScrollHandler.Scroll <$> ([10; 40] ++ [20]))%Q
          (ScrollHandler.play [ScrollHandler.Construct true (Some 7%nat) []; ScrollHandler.Frame]
             long_page)))
  = true.
Proof.
  assert (Hl : ScrollHandler.OnScroll
               ∈ ScrollHandler.listeners
                   (ScrollHandler.play
                      [ScrollHandler.Construct true (Some 7%nat) []; ScrollHandler.Frame]
                      long_page)).
  { vm_compute. apply list_elem_of_here. }
  exact (proj1 (proj2 (scroll_events_share_a_frame _ [10; 40]%Q 20%Q Hl))).
Defined.

(** X14.  The resize listener measures at most once per window of 150
    ms, and the measurement it drops is not made up later.  A resize that
    finds the flag down measures the viewport and the document, raises
    the flag and arms the timer that lowers it; a resize that finds the
    flag up changes nothing in the handler.  So of two resizes in a row
    the handler keeps the heights of the first, while the window has those
    of the second.  When the timer has run, the flag is down again. *)
Theorem resize_in_the_window_is_dropped :
  (∀ (w : ScrollHandler.world) (ih sh : Q),
      ScrollHandler.inThrottle (ScrollHandler.this w) = true →
      ScrollHandler.react w (ScrollHandler.Resize ih sh) = ScrollHandler.set_size ih sh w) ∧
  (∀ (w : ScrollHandler.world) (ih sh : Q),
      alive w →
      ScrollHandler.ThrottledResize ∈ ScrollHandler.listeners w →
      ScrollHandler.inThrottle (ScrollHandler.this w) = false →
      let w' := ScrollHandler.react w (ScrollHandler.Resize ih sh) in
      alive w' ∧
      ScrollHandler.windowHeight (ScrollHandler.this w') = Some ih ∧
      ScrollHandler.documentHeight (ScrollHandler.this w') = Some sh ∧
      ScrollHandler.inThrottle (ScrollHandler.this w') = true ∧
      Timers.pending (ScrollHandler.timers w')
      = Timers.pending (ScrollHandler.timers w) ++ [release_timer w] ∧
      ScrollHandler.listeners w' = ScrollHandler.listeners w ∧
      ScrollHandler.uncaught w' = ScrollHandler.uncaught w) ∧
  (∀ (w : ScrollHandler.world) (a b c d : Q),
      alive w →
      ScrollHandler.ThrottledResize ∈ ScrollHandler.listeners w →
      ScrollHandler.inThrottle (ScrollHandler.this w) = false →
      let w' := ScrollHandler.play [ScrollHandler.Resize a b; ScrollHandler.Resize c d] w in
      ScrollHandler.innerHeight (ScrollHandler.win w') = c ∧
      ScrollHandler.scrollHeight (ScrollHandler.win w') = d ∧
      ScrollHandler.windowHeight (ScrollHandler.this w') = Some a ∧
      ScrollHandler.documentHeight (ScrollHandler.this w') = Some b) ∧
  (∀ (w : ScrollHandler.world) (h : nat) (due t : Z),
      Timers.pending (ScrollHandler.timers w) = [Timers.Timer h due ScrollHandler.Release] →
      (due ≤ t)%Z →
      ScrollHandler.inThrottle
        (ScrollHandler.this (ScrollHandler.react w (ScrollHandler.Advance t))) = false ∧
      Timers.pending (ScrollHandler.timers (ScrollHandler.react w (ScrollHandler.Advance t)))
      = []).
Proof.
  assert (Hdrop : ∀ (w : ScrollHandler.world) (ih sh : Q),
            ScrollHandler.inThrottle (ScrollHandler.this w) = true →
            ScrollHandler.react w (ScrollHandler.Resize ih sh)
            = ScrollHandler.set_size ih sh w).
  { intros w ih sh Ht. unfold ScrollHandler.react, ScrollHandler.dispatch.
    case_bool_decide; [|reflexivity].
    unfold ScrollHandler.task, ScrollHandler.throttledResize, mbind, ScrollHandler.M_bind,
      ScrollHandler.self. cbn. by rewrite Ht. }
  assert (Hserve : ∀ (w : ScrollHandler.world) (ih sh : Q),
            alive w →
            ScrollHandler.ThrottledResize ∈ ScrollHandler.listeners w →
            ScrollHandler.inThrottle (ScrollHandler.this w) = false →
            let w' := ScrollHandler.react w (ScrollHandler.Resize ih sh) in
            alive w' ∧
            ScrollHandler.windowHeight (ScrollHandler.this w') = Some ih ∧
            ScrollHandler.documentHeight (ScrollHandler.this w') = Some sh ∧
            ScrollHandler.inThrottle (ScrollHandler.this w') = true ∧
            Timers.pending (ScrollHandler.timers w')
            = Timers.pending (ScrollHandler.timers w) ++ [release_timer w] ∧
            ScrollHandler.listeners w' = ScrollHandler.listeners w ∧
            ScrollHandler.uncaught w' = ScrollHandler.uncaught w ∧
            ScrollHandler.win w' = ScrollHandler.win (ScrollHandler.set_size ih sh w)).
  { intros w ih sh Hw Hl Ht. cbv zeta.
    unfold ScrollHandler.react, ScrollHandler.dispatch.
    rewrite bool_decide_eq_true_2 by exact Hl.
    set (w0 := ScrollHandler.set_size ih sh w).
    assert (Hw0 : alive w0) by exact Hw.
    destruct (handleResize_heights w0 Hw0)
      as (w1 & E & Hw1 & Hh1 & Hh2 & Ht1 & Hl1 & Hu1 & Hwin & Hth).
    unfold ScrollHandler.task. rewrite (throttledResize_serves w0 w1 Ht E).
    cbn [fst snd ScrollHandler.this ScrollHandler.with_this ScrollHandler.with_timers
         ScrollHandler.timers ScrollHandler.win ScrollHandler.listeners
         ScrollHandler.uncaught Timers.pending Timers.setTimeout
         ScrollHandler.set_inThrottle ScrollHandler.inThrottle
         ScrollHandler.windowHeight ScrollHandler.documentHeight].
    split; [revert Hw1; apply alive_frame; cbn; auto|].
    split; [exact Hh1|]. split; [exact Hh2|]. split; [reflexivity|].
    split; [|split; [exact Hl1|split; [exact Hu1 | exact Hwin]]].
    rewrite Ht1. unfold release_timer. rewrite Hwin. reflexivity. }
  split; [exact Hdrop|]. split; [|split].
  - intros w ih sh Hw Hl Ht. destruct (Hserve w ih sh Hw Hl Ht) as (?&?&?&?&?&?&?&?).
    cbv zeta. done.
  - intros w a b c d Hw Hl Ht. cbv zeta.
    destruct (Hserve w a b Hw Hl Ht) as (H1&H2&H3&H4&H5&H6&H7&H8).
    cbn [ScrollHandler.play foldl].
    rewrite (Hdrop _ c d H4). cbn. done.
  - intros w h due t Hp Hd.
    unfold ScrollHandler.react. rewrite Hp. cbn [length ScrollHandler.fire_due].
    rewrite Hp. cbn [Timers.earliest Timers.timer_due Timers.timer_cb Timers.timer_id].
    apply Z.leb_le in Hd. rewrite Hd.
    rewrite drop_same. cbn. done.
Qed.

(** Two resizes on the page whose handler has just been made: the handler
    keeps the heights of the first. *)
Lemma resize_in_the_window_is_dropped_witness :
  ScrollHandler.windowHeight
    (ScrollHandler.this
       (ScrollHandler.play [ScrollHandler.Resize 600 2000; ScrollHandler.Resize 500 2500]
          (ScrollHandler.play [ScrollHandler.Construct true (Some 7%nat) []] long_page)))
  = Some 600%Q.
Proof.
  set (w := ScrollHandler.play [ScrollHandler.Construct true (Some 7%nat) []] long_page).
  assert (Hw : alive w).
  { unfold alive. vm_compute. repeat split; eexists; reflexivity. }
  assert (Hl : ScrollHandler.ThrottledResize ∈ ScrollHandler.listeners w).
  { vm_compute. apply list_elem_of_further, list_elem_of_here. }
  assert (Ht : ScrollHandler.inThrottle (ScrollHandler.this w) = false).
  { vm_compute. reflexivity. }
  exact (proj1 (proj2 (proj2 (proj1 (proj2 (proj2 resize_in_the_window_is_dropped))
           w 600%Q 2000%Q 500%Q 2500%Q Hw Hl Ht)))).
Defined.

(** ** The scroll coordinator: parallax *)

Section ParallaxFacts.
Import ScrollHandler.
Local Open Scope Z_scope.

Lemma same_page_refl w : same_page w w.
Proof. by repeat split. Qed.

Lemma same_page_trans w1 w2 w3 : same_page w1 w2 → same_page w2 w3 → same_page w1 w3.
Proof.
  intros (A1&A2&A3&A4&A5&A6&A7&A8) (B1&B2&B3&B4&B5&B6&B7&B8).
  unfold same_page. rewrite B1, B2, B3, B4, B5, B6, B7, B8. done.
Qed.

Lemma in_view_same w w' image : same_page w w' → in_view w' image = in_view w image.
Proof. intros (A1&A2&A3&_). unfold in_view. by rewrite A2, A3. Qed.

Lemma parallax_of_same w w' image v :
  same_page w w' → parallax_of w' image v → parallax_of w image v.
Proof.
  intros (A1&A2&_) (r & H1 & H2 & ->). exists r. by rewrite <- A1, <- A2.
Qed.

Lemma refetched_agrees (w : world) (cache : gmap elem (rect * Z)) (element : elem) :
  rectCache (this w) = Some cache → cache_agrees w →
  cache_agrees (refetched element cache w).2.
Proof.
  intros Hc Ha cache' el r ts Hc' He. unfold refetched in *. cbn in *.
  injection Hc' as <-. destruct (decide (element = el)) as [<-|Hne].
  - rewrite lookup_insert_eq in He. by injection He as <- <-.
  - rewrite lookup_insert_ne in He by done. by eapply Ha.
Qed.

Lemma getElementRect_layout (w : world) (element : elem) :
  alive w → cache_agrees w →
  ∃ r w', getElementRect element w = (Ok r, w') ∧
          top r = (boxes w element).1 ∧ bottom r = (boxes w element).2 ∧
          alive w' ∧ cache_agrees w' ∧ same_page w w'.
Proof.
  intros Hw Ha. pose proof Hw as (Hb & Hs & Hp & [c Hc] & Hi).
  destruct (c !! element) as [[r ts]|] eqn:He.
  - destruct (Z.lt_ge_cases (clock (win w) - ts) cacheTimeout) as [Hage|Hage].
    + rewrite (getElementRect_hit w c element r ts Hc He Hage).
      exists r, w. destruct (Ha c element r ts Hc He) as [H1 H2].
      split; [reflexivity|]. split; [exact H1|]. split; [exact H2|].
      split; [exact Hw|]. split; [exact Ha | apply same_page_refl].
    + rewrite (getElementRect_expired w c element r ts Hc He Hage).
      eexists _, _. split; [reflexivity|]. split; [reflexivity|]. split; [reflexivity|].
      split; [revert Hw; apply alive_frame; cbn; auto|].
      split; [by apply refetched_agrees | by repeat split].
  - rewrite (getElementRect_absent w c element Hc He).
    eexists _, _. split; [reflexivity|]. split; [reflexivity|]. split; [reflexivity|].
    split; [revert Hw; apply alive_frame; cbn; auto|].
    split; [by apply refetched_agrees | by repeat split].
Qed.

Lemma batch_entry_same w w' images u :
  same_page w w' → batch_entry w' images u → batch_entry w images u.
Proof.
  intros Hs (H1 & H2 & v & H3 & H4). split; [exact H1|].
  split; [by rewrite <- (in_view_same w w')|].
  exists v. split; [by eapply parallax_of_same | exact H4].
Qed.

Lemma batch_entry_further w image images u :
  batch_entry w images u → batch_entry w (image :: images) u.
Proof.
  intros (H1 & H2 & H3). split; [by apply list_elem_of_further | done].
Qed.

Lemma inViewUpdates_layout (images : list elem) : ∀ w,
  alive w → cache_agrees w →
  ∃ updates w', inViewUpdates images w = (Ok updates, w') ∧
    alive w' ∧ cache_agrees w' ∧ same_page w w' ∧
    Forall (batch_entry w images) updates ∧
    (∀ image, image ∈ images → in_view w image = true → image ∈ updates.*1).
Proof.
  induction images as [|image images IH]; intros w Hw Ha.
  - exists [], w. split; [reflexivity|]. split; [exact Hw|]. split; [exact Ha|].
    split; [apply same_page_refl|]. split; [constructor|].
    intros image Hin. by apply elem_of_nil in Hin.
  - destruct (getElementRect_layout w image Hw Ha)
      as (r & w1 & E1 & Ht & Hbm & Hw1 & Ha1 & Hs1).
    destruct (IH w1 Hw1 Ha1) as (rest & w2 & E2 & Hw2 & Ha2 & Hs2 & Hrest & Hall).
    cbn [inViewUpdates].
    rewrite (bind_ok _ _ _ _ _ E1). rewrite (bind_ok get _ w1 w1 w1 eq_refl).
    rewrite (bind_ok _ _ _ _ _ E2).
    assert (Hv : less (top r) (num (windowHeight (this w1))) && less 0 (bottom r)
                 = in_view w image).
    { unfold in_view. destruct Hs1 as (_ & _ & -> & _). by rewrite Ht, Hbm. }
    rewrite Hv. eexists _, w2. split; [reflexivity|].
    split; [exact Hw2|]. split; [exact Ha2|].
    split; [by eapply same_page_trans|].
    assert (Hrest' : Forall (batch_entry w (image :: images)) rest).
    { eapply Forall_impl; [exact Hrest|]. intros u Hu.
      apply batch_entry_further. by eapply batch_entry_same. }
    split.
    + destruct (in_view w image) eqn:Ev; [|exact Hrest'].
      constructor; [|exact Hrest'].
      split; [apply list_elem_of_here|]. split; [exact Ev|].
      eexists. split; [|reflexivity]. exists r.
      destruct Hs1 as (-> & _). done.
    + intros x Hin Hx. apply elem_of_cons in Hin as [-> | Hin].
      * rewrite Hx. rewrite fmap_cons. apply list_elem_of_here.
      * assert (Hx' : x ∈ rest.*1).
        { apply Hall; [exact Hin|]. by rewrite (in_view_same w w1). }
        destruct (in_view w image); [rewrite fmap_cons; by apply list_elem_of_further|].
        exact Hx'.
Qed.

Lemma last_set_singletons (P : css → Prop) (fragments : list (gmap string css)) :
  Forall (λ f, ∃ v, P v ∧ f = {[ "transform" := v ]}) fragments →
  fragments ≠ [] →
  ∃ v, P v ∧ Described.last_set "transform" fragments = Some v.
Proof.
  induction 1 as [|f fragments (v & Hv & ->) Hall IH]; intros Hne; [done|].
  cbn [Described.last_set]. destruct fragments as [|g fragments].
  - exists v. split; [exact Hv|]. cbn. by rewrite lookup_singleton_eq.
  - destruct IH as (v' & Hv' & ->); [done|]. by exists v'.
Qed.

Lemma fragments_of_absent (el : elem) (updates : list (elem * gmap string css)) :
  el ∉ updates.*1 → fragments_of el updates = [].
Proof.
  induction updates as [|u updates IH]; intros Hnin; [reflexivity|].
  rewrite fragments_of_cons. rewrite fmap_cons in Hnin.
  apply not_elem_of_cons in Hnin as [Hne Hnin].
  rewrite decide_False by done. by apply IH.
Qed.

(** The last fragment of a batch for an element sets its transform. *)
Lemma batch_transform w images updates el (o : option (gmap string css)) :
  Forall (batch_entry w images) updates →
  el ∈ updates.*1 →
  ∃ v, parallax_of w el v ∧
       (fold_pending o (fragments_of el updates) ≫= (.!! "transform")) = Some v.
Proof.
  intros Hall Hin.
  assert (Hfr : Forall (λ f, ∃ v, parallax_of w el v ∧ f = {[ "transform" := v ]})
                  (fragments_of el updates)).
  { unfold fragments_of. apply Forall_fmap. apply Forall_forall.
    intros u Hu. apply list_elem_of_filter in Hu as [Heq Hu].
    rewrite Forall_forall in Hall. destruct (Hall u Hu) as (_ & _ & v & Hv & Hf).
    exists v. cbn. by rewrite <- Heq. }
  assert (Hne : fragments_of el updates ≠ []).
  { apply list_elem_of_fmap in Hin as (u & -> & Hu).
    unfold fragments_of. intros Hnil. apply fmap_nil_inv in Hnil.
    pose proof (proj2 (list_elem_of_filter (λ c : elem * gmap string css, c.1 = u.1)
                         updates u) (conj eq_refl Hu)) as Hf.
    unfold elem, Utils.elem in *. rewrite Hnil in Hf. by apply elem_of_nil in Hf. }
  destruct (last_set_singletons _ _ Hfr Hne) as (v & Hv & Hl).
  exists v. split; [exact Hv|].
  destruct (fragments_of el updates) as [|f fragments]; [done|].
  rewrite fold_pending_cons. cbn [mbind option_bind].
  rewrite spread_all_lookup. by rewrite Hl.
Qed.

(** [updateParallax], when it is not held back: every image in view gets
    the transform of the effect, the other elements keep what is pending. *)
Lemma updateParallax_layout (w : world) (images : list elem) :
  alive w → cache_agrees w →
  default false (prefersReducedMotion (this w)) = false →
  parallaxUpdateInterval ≤ clock (win w) - default 0 (lastParallaxUpdate (this w)) →
  parallaxImages (this w) = Some images →
  ∃ w', updateParallax w = (Ok tt, w') ∧ alive w' ∧ cache_agrees w' ∧
    win w' = win w ∧ boxes w' = boxes w ∧
    windowHeight (this w') = windowHeight (this w) ∧
    documentHeight (this w') = documentHeight (this w) ∧
    scrollProgress (this w') = scrollProgress (this w) ∧
    prefersReducedMotion (this w') = prefersReducedMotion (this w) ∧
    lastParallaxUpdate (this w') = Some (clock (win w)) ∧
    (∀ image, image ∈ images → in_view w image = true →
       ∃ v, parallax_of w image v ∧ pending_transform w' image = Some v) ∧
    (∀ el, el ∉ images ∨ in_view w el = false →
       pending_transform w' el = pending_transform w el).
Proof.
  intros Hw Ha Hm Hage Hi. pose proof Hw as (Hb & Hs & [p Hp] & Hc & _).
  unfold updateParallax. rewrite (bind_ok get _ w w w eq_refl). cbv zeta.
  rewrite Hm. apply Z.ltb_ge in Hage. rewrite Hage.
  erewrite bind_ok by reflexivity. rewrite Hi.
  set (w1 := with_this (set_lastParallaxUpdate (Some (clock (win w))) (this w)) w).
  rewrite (bind_ok (deref (Some images)) _ w1 w1 images eq_refl).
  assert (Hw1 : alive w1) by (revert Hw; apply alive_frame; cbn; auto).
  assert (Ha1 : cache_agrees w1) by exact Ha.
  destruct (inViewUpdates_layout images w1 Hw1 Ha1)
    as (updates & w2 & E2 & Hw2 & Ha2 & Hs2 & Hall & Hin).
  rewrite (bind_ok _ _ _ _ _ E2).
  destruct Hs2 as (S1 & S2 & S3 & S4 & S5 & S6 & S7 & S8).
  destruct (schedule_burst_ok updates w2 p) as (w3 & p3 & E3 & Hp3 & Hl3 & _);
    [by rewrite S4 | by apply alive_bound|].
  unfold schedule_burst in E3. rewrite E3.
  assert (Hk : ∀ R : world → Prop, besides_styles R → R w2 → R w3).
  { intros R HR H2.
    pose proof (preserves_for_each R
      (λ u : elem * gmap string css, scheduleStyleUpdate u.1 u.2) updates
      (λ u, scheduleStyleUpdate_besides R HR u.1 u.2) w2 H2) as H.
    by rewrite E3 in H. }
  exists w3. split; [reflexivity|].
  assert (Hw3 : alive w3).
  { destruct (returns_for_each alive
      (λ u : elem * gmap string css, scheduleStyleUpdate u.1 u.2) updates
      (λ u, scheduleStyleUpdate_returns u.1 u.2) w2 Hw2) as (a & w3' & E3' & H3').
    rewrite E3 in E3'. assert (w3 = w3') as -> by congruence. exact H3'. }
  split; [exact Hw3|].
  split.
  { by apply (Hk cache_agrees). }
  split; [etrans; [by apply (Hk (λ w0, win w0 = win w2)) | exact S1]|].
  split; [etrans; [by apply (Hk (λ w0, boxes w0 = boxes w2)) | exact S2]|].
  split; [etrans; [by apply (Hk (λ w0, windowHeight (this w0) = windowHeight (this w2)))
                  | exact S3]|].
  split; [etrans; [by apply (Hk (λ w0, documentHeight (this w0) = documentHeight (this w2)))
                  | exact S6]|].
  split; [etrans; [by apply (Hk (λ w0, scrollProgress (this w0) = scrollProgress (this w2)))
                  | exact S5]|].
  split; [etrans; [by apply (Hk (λ w0, prefersReducedMotion (this w0)
                                       = prefersReducedMotion (this w2)))
                  | exact S7]|].
  split; [etrans; [by apply (Hk (λ w0, lastParallaxUpdate (this w0)
                                       = lastParallaxUpdate (this w2)))
                  | exact S8]|].
  assert (Hview : ∀ el, in_view w1 el = in_view w el) by reflexivity.
  assert (Hpar : ∀ el v, parallax_of w1 el v → parallax_of w el v) by (intros el v H; exact H).
  split.
  - intros image Himg Hv. rewrite <- Hview in Hv.
    destruct (batch_transform w1 images updates image (p !! image) Hall (Hin image Himg Hv))
      as (v & Hv1 & Hv2).
    exists v. split; [by apply Hpar|].
    unfold pending_transform. rewrite Hp3. cbn [mbind option_bind]. rewrite Hl3.
    exact Hv2.
  - intros el Hel. unfold pending_transform. rewrite Hp3, Hp. cbn [mbind option_bind].
    rewrite Hl3. rewrite fragments_of_absent; [reflexivity|].
    intros Hin'. apply list_elem_of_fmap in Hin' as (u & -> & Hu).
    rewrite Forall_forall in Hall. destruct (Hall u Hu) as (H1 & H2 & _).
    rewrite Hview in H2. destruct Hel as [Hel | Hel]; [contradiction | congruence].
Qed.

End ParallaxFacts.

Section ResizeParallaxFacts.
Import ScrollHandler.
Local Open Scope Z_scope.

Lemma scheduleStyleUpdate_elsewhere (w : world) (bar el : elem) (styles : gmap string css) :
  bar ≠ el →
  pending_transform (scheduleStyleUpdate bar styles w).2 el = pending_transform w el.
Proof.
  intros Hne. unfold scheduleStyleUpdate, mbind, M_bind, self, deref, assign, update,
    requestAnimationFrame, pending_transform. cbn.
  destruct (pendingStyles (this w)) as [p|] eqn:Hp; cbn; [|by rewrite Hp].
  destruct (styleUpdateScheduled (this w)); cbn.
  - by rewrite lookup_insert_ne.
  - destruct (bound (this w)); cbn; by rewrite lookup_insert_ne.
Qed.

Lemma updateScrollProgress_elsewhere (w : world) (el : elem) :
  scrollProgress (this w) ≠ Some el →
  pending_transform (updateScrollProgress w).2 el = pending_transform w el.
Proof.
  intros Hne. unfold updateScrollProgress. rewrite (bind_ok get _ w w w eq_refl). cbv zeta.
  destruct (scrollProgress (this w)) as [bar|]; [|reflexivity].
  apply scheduleStyleUpdate_elsewhere. intros ->. by apply Hne.
Qed.

(** The world in which [handleResize] calls [updateParallax]. *)
Lemma handleResize_steps (w : world) :
  alive w →
  default false (prefersReducedMotion (this w)) = false →
  handleResize w
  = match updateParallax
            (with_this
               (set_lastParallaxUpdate (Some 0)
                  (set_lastCacheUpdate (Some 0)
                     (set_rectCache (Some ∅)
                        (set_heights (innerHeight (win w)) (scrollHeight (win w))
                           (this w))))) w) with
    | (Ok _, w4) => (method;; updateScrollProgress) w4
    | (TypeError, w4) => (TypeError, w4)
    end.
Proof.
  intros (Hb & Hs & _) Hm. unfold handleResize.
  rewrite (bind_ok get _ w w w eq_refl).
  erewrite bind_ok by reflexivity.
  erewrite bind_ok by (apply method_ok; exact Hb).
  unfold clearRectCache.
  erewrite bind_ok by reflexivity.
  erewrite bind_ok by reflexivity.
  cbn [this with_this parallaxState set_lastCacheUpdate set_rectCache set_heights
       prefersReducedMotion].
  rewrite Hs, Hm.
  erewrite bind_ok by reflexivity.
  unfold mbind at 1, M_bind at 1.
  erewrite bind_ok by reflexivity.
  erewrite bind_ok by (apply method_ok; exact Hb).
  reflexivity.
Qed.

(** [handleResize] on a page that is at least 16 ms old, without the
    preference for reduced motion. *)
Lemma handleResize_layout (w : world) (images : list elem) :
  alive w →
  default false (prefersReducedMotion (this w)) = false →
  parallaxUpdateInterval ≤ clock (win w) →
  parallaxImages (this w) = Some images →
  ∃ w', handleResize w = (Ok tt, w') ∧ alive w' ∧
    prefersReducedMotion (this w') = prefersReducedMotion (this w) ∧
    ∀ image, image ∈ images →
      less (boxes w image).1 (innerHeight (win w)) && less 0 (boxes w image).2 = true →
      scrollProgress (this w) ≠ Some image →
      ∃ v, parallax_of w image v ∧ pending_transform w' image = Some v.
Proof.
  intros Hw Hm Hage Hi. rewrite (handleResize_steps w Hw Hm).
  set (w3 := with_this _ w).
  assert (Hw3 : alive w3) by (revert Hw; apply alive_frame; cbn; auto).
  assert (Ha3 : cache_agrees w3).
  { intros cache el r ts Hc He. cbn in Hc. injection Hc as <-.
    by rewrite lookup_empty in He. }
  destruct (updateParallax_layout w3 images Hw3 Ha3 Hm)
    as (w4 & E4 & Hw4 & Ha4 & Hwin & Hbox & Hwh & Hdh & Hsp & Hpm & Hlp & Hin & Hout);
    [cbn; lia | exact Hi |].
  rewrite E4.
  rewrite (bind_ok method _ w4 w4 tt (method_ok w4 (alive_bound w4 Hw4))).
  destruct (updateScrollProgress_returns w4 Hw4) as ([] & w5 & E5 & Hw5).
  exists w5. split; [exact E5|]. split; [exact Hw5|]. split.
  { etrans; [|exact Hpm].
    pose proof (updateScrollProgress_besides
                  (λ w0, prefersReducedMotion (this w0) = prefersReducedMotion (this w4))
                  ltac:(by repeat split) w4 eq_refl) as H.
    by rewrite E5 in H. }
  intros image Himg Hv Hbar.
  destruct (Hin image Himg Hv) as (v & Hv1 & Hv2).
  exists v. split; [exact Hv1|].
  pose proof (updateScrollProgress_elsewhere w4 image) as H.
  rewrite E5 in H. cbn [snd] in H. rewrite H; [exact Hv2|].
  by rewrite Hsp.
Qed.

(** [new ScrollHandler()] on a page on which no script has run, in a
    browser with native smooth scrolling. *)
Lemma construct_steps (boxes : elem → Q * Q) (anchors : list elem) (wn : window)
    (bar : option elem) (images : list elem) (w2 : world) :
  handleResize
    (with_listeners [OnScroll; ThrottledResize]
       (with_this (fresh true bar images) (blank boxes anchors wn)))
  = (Ok tt, w2) →
  construct true bar images (blank boxes anchors wn)
  = (Ok tt,
     (addEventListener (ReducedMotion QueryOfInit)
        (with_this
           (set_handlers (smoothScrollHandler (this w2)) true
              (set_prefersReducedMotion (reducedMotion (win w2)) (this w2))) w2)).2).
Proof.
  intros E. unfold construct, init.
  erewrite bind_ok by reflexivity.
  erewrite bind_ok by reflexivity.
  erewrite bind_ok by reflexivity.
  erewrite bind_ok by reflexivity.
  cbn [this with_this with_listeners fresh supportsNativeSmoothScroll].
  erewrite bind_ok by reflexivity.
  erewrite bind_ok by reflexivity.
  rewrite (bind_ok handleResize _ _ w2 tt E).
  reflexivity.
Qed.

End ResizeParallaxFacts.

Lemma updateParallax_rests (w : ScrollHandler.world) :
  default false (ScrollHandler.prefersReducedMotion (ScrollHandler.this w)) = true ∨
  (ScrollHandler.clock (ScrollHandler.win w)
   - default 0 (ScrollHandler.lastParallaxUpdate (ScrollHandler.this w))
   < ScrollHandler.parallaxUpdateInterval)%Z →
  ScrollHandler.updateParallax w = (ScrollHandler.Ok tt, w).
Proof.
  intros H. unfold ScrollHandler.updateParallax.
  rewrite (bind_ok ScrollHandler.get _ w w w eq_refl). cbv zeta.
  destruct (default false _); [reflexivity|].
  destruct H as [H | H]; [discriminate|]. apply Z.ltb_lt in H. by rewrite H.
Qed.

(** X15.  [updateParallax] gives every image in view the transform of
    the effect, and only those.  It does nothing when reduced motion is
    preferred or when the last update is less than 16 ms old.  Otherwise
    it notes the time, and when the cached rectangles agree with the
    layout, an image whose top is above the bottom of the viewport and
    whose bottom is below its top gets the transform computed from its
    rectangle as the pending transform; every other element keeps the
    transform it had pending.  [handleResize] on a page at least 16 ms old
    does so with the new viewport height and a cleared cache, for every
    image that is not the progress bar. *)
Theorem parallax_for_the_images_in_view :
  (∀ w : ScrollHandler.world,
      default false (ScrollHandler.prefersReducedMotion (ScrollHandler.this w)) = true ∨
      (ScrollHandler.clock (ScrollHandler.win w)
       - default 0 (ScrollHandler.lastParallaxUpdate (ScrollHandler.this w))
       < ScrollHandler.parallaxUpdateInterval)%Z →
      ScrollHandler.updateParallax w = (ScrollHandler.Ok tt, w)) ∧
  (∀ (w : ScrollHandler.world) (images : list ScrollHandler.elem),
      alive w → cache_agrees w →
      default false (ScrollHandler.prefersReducedMotion (ScrollHandler.this w)) = false →
      (ScrollHandler.parallaxUpdateInterval
       ≤ ScrollHandler.clock (ScrollHandler.win w)
         - default 0 (ScrollHandler.lastParallaxUpdate (ScrollHandler.this w)))%Z →
      ScrollHandler.parallaxImages (ScrollHandler.this w) = Some images →
      ∃ w', ScrollHandler.updateParallax w = (ScrollHandler.Ok tt, w') ∧
        ScrollHandler.lastParallaxUpdate (ScrollHandler.this w')
        = Some (ScrollHandler.clock (ScrollHandler.win w)) ∧
        (∀ image, image ∈ images → in_view w image = true →
           ∃ v, parallax_of w image v ∧ pending_transform w' image = Some v) ∧
        (∀ el, el ∉ images ∨ in_view w el = false →
           pending_transform w' el = pending_transform w el)) ∧
  (∀ (w : ScrollHandler.world) (images : list ScrollHandler.elem),
      alive w →
      default false (ScrollHandler.prefersReducedMotion (ScrollHandler.this w)) = false →
      (ScrollHandler.parallaxUpdateInterval ≤ ScrollHandler.clock (ScrollHandler.win w))%Z →
      ScrollHandler.parallaxImages (ScrollHandler.this w) = Some images →
      ∃ w', ScrollHandler.handleResize w = (ScrollHandler.Ok tt, w') ∧
        ∀ image, image ∈ images →
          ScrollHandler.less (ScrollHandler.boxes w image).1
            (ScrollHandler.innerHeight (ScrollHandler.win w))
          && ScrollHandler.less 0 (ScrollHandler.boxes w image).2 = true →
          ScrollHandler.scrollProgress (ScrollHandler.this w) ≠ Some image →
          ∃ v, parallax_of w image v ∧ pending_transform w' image = Some v).
Proof.
  split; [|split].
  - exact updateParallax_rests.
  - intros w images Hw Ha Hm Hage Hi.
    destruct (updateParallax_layout w images Hw Ha Hm Hage Hi)
      as (w' & E & _ & _ & _ & _ & _ & _ & _ & _ & Hl & Hin & Hout).
    exists w'. done.
  - intros w images Hw Hm Hage Hi.
    destruct (handleResize_layout w images Hw Hm Hage Hi) as (w' & E & _ & _ & H).
    exists w'. done.
Qed.

(** A resize on the page with an image, once its handler is made. *)
Lemma parallax_for_the_images_in_view_witness :
  ∃ w', ScrollHandler.handleResize
          (ScrollHandler.play [ScrollHandler.Construct true (Some 7%nat) [3%nat]]
             page_with_image)
        = (ScrollHandler.Ok tt, w') ∧
    ∀ image, image ∈ [3%nat] →
      ScrollHandler.less
        (ScrollHandler.boxes
           (ScrollHandler.play [ScrollHandler.Construct true (Some 7%nat) [3%nat]]
              page_with_image) image).1
        (ScrollHandler.innerHeight
           (ScrollHandler.win
              (ScrollHandler.play [ScrollHandler.Construct true (Some 7%nat) [3%nat]]
                 page_with_image)))
      && ScrollHandler.less 0
           (ScrollHandler.boxes
              (ScrollHandler.play [ScrollHandler.Construct true (Some 7%nat) [3%nat]]
                 page_with_image) image).2 = true →
      ScrollHandler.scrollProgress
        (ScrollHandler.this
           (ScrollHandler.play [ScrollHandler.Construct true (Some 7%nat) [3%nat]]
              page_with_image)) ≠ Some image →
      ∃ v, parallax_of
             (ScrollHandler.play [ScrollHandler.Construct true (Some 7%nat) [3%nat]]
                page_with_image) image v ∧
           pending_transform w' image = Some v.
Proof.
  assert (Hw : alive (ScrollHandler.play [ScrollHandler.Construct true (Some 7%nat) [3%nat]]
                        page_with_image)).
  { unfold alive. vm_compute. repeat split; eexists; reflexivity. }
  assert (Hm : default false
                 (ScrollHandler.prefersReducedMotion
                    (ScrollHandler.this
                       (ScrollHandler.play
                          [ScrollHandler.Construct true (Some 7%nat) [3%nat]]
                          page_with_image))) = false)
    by (vm_compute; reflexivity).
  assert (Hage : (ScrollHandler.parallaxUpdateInterval
                  ≤ ScrollHandler.clock
                      (ScrollHandler.win
                         (ScrollHandler.play
                            [ScrollHandler.Construct true (Some 7%nat) [3%nat]]
                            page_with_image)))%Z)
    by (vm_compute; discriminate).
  assert (Hi : ScrollHandler.parallaxImages
                 (ScrollHandler.this
                    (ScrollHandler.play
                       [ScrollHandler.Construct true (Some 7%nat) [3%nat]]
                       page_with_image)) = Some [3%nat])
    by (vm_compute; reflexivity).
  exact (proj2 (proj2 parallax_for_the_images_in_view) _ [3%nat] Hw Hm Hage Hi).
Defined.

(** X16.  The constructor measures the page before it reads the
    preference for reduced motion.  On a page that is at least 16 ms old,
    in a browser with native smooth scrolling, a new handler has the
    preference of the window, no exception has left the constructor, and
    every image in view other than the progress bar has the transform of
    the parallax effect pending, whether reduced motion is preferred or
    not.  On a younger page no image has one. *)
Theorem construct_measures_before_it_reads_the_preference
    (boxes : ScrollHandler.elem → Q * Q) (anchors : list ScrollHandler.elem)
    (wn : ScrollHandler.window) (bar : option ScrollHandler.elem)
    (images : list ScrollHandler.elem) :
  let w := ScrollHandler.task (ScrollHandler.construct true bar images)
             (ScrollHandler.blank boxes anchors wn) in
  ((ScrollHandler.parallaxUpdateInterval ≤ ScrollHandler.clock wn)%Z →
   ScrollHandler.uncaught w = 0%nat ∧
   ScrollHandler.prefersReducedMotion (ScrollHandler.this w)
   = Some (ScrollHandler.reducedMotion wn) ∧
   ∀ image, image ∈ images →
     ScrollHandler.less (boxes image).1 (ScrollHandler.innerHeight wn)
     && ScrollHandler.less 0 (boxes image).2 = true →
     bar ≠ Some image →
     ∃ r, ScrollHandler.top r = (boxes image).1 ∧
          ScrollHandler.bottom r = (boxes image).2 ∧
          pending_transform w image = Some (ScrollHandler.parallax wn image r)) ∧
  ((ScrollHandler.clock wn < ScrollHandler.parallaxUpdateInterval)%Z →
   ScrollHandler.uncaught w = 0%nat ∧
   ScrollHandler.prefersReducedMotion (ScrollHandler.this w)
   = Some (ScrollHandler.reducedMotion wn) ∧
   ∀ image, bar ≠ Some image → pending_transform w image = None).
Proof.
  set (w1 := ScrollHandler.with_listeners
               [ScrollHandler.OnScroll; ScrollHandler.ThrottledResize]
               (ScrollHandler.with_this (ScrollHandler.fresh true bar images)
                  (ScrollHandler.blank boxes anchors wn))).
  assert (Hw1 : alive w1).
  { unfold alive. cbn. repeat split; eexists; reflexivity. }
  assert (Hm1 : default false
                  (ScrollHandler.prefersReducedMotion (ScrollHandler.this w1)) = false)
    by reflexivity.
  assert (Hfin : ∀ w2, ScrollHandler.handleResize w1 = (ScrollHandler.Ok tt, w2) →
            ScrollHandler.win w2 = wn →
            let w := ScrollHandler.task (ScrollHandler.construct true bar images)
                       (ScrollHandler.blank boxes anchors wn) in
            ScrollHandler.uncaught w = ScrollHandler.uncaught w2 ∧
            ScrollHandler.prefersReducedMotion (ScrollHandler.this w)
            = Some (ScrollHandler.reducedMotion wn) ∧
            ∀ image, pending_transform w image = pending_transform w2 image).
  { intros w2 E Hwin. cbv zeta. unfold ScrollHandler.task.
    rewrite (construct_steps boxes anchors wn bar images w2 E). rewrite Hwin.
    unfold ScrollHandler.addEventListener, ScrollHandler.update. cbn [snd].
    case_bool_decide; done. }
  destruct (handleResize_heights w1 Hw1)
    as (w2 & E & Hw2 & _ & _ & _ & _ & Hu & Hwin & _).
  cbv zeta. split.
  - intros Hage.
    destruct (handleResize_layout w1 images Hw1 Hm1 Hage eq_refl)
      as (w2' & E' & _ & _ & Hin).
    rewrite E in E'. assert (w2' = w2) as -> by congruence.
    destruct (Hfin w2 E Hwin) as (H1 & H2 & H3).
    split; [by rewrite H1, Hu|]. split; [exact H2|].
    intros image Himg Hv Hbar.
    destruct (Hin image Himg Hv Hbar) as (v & (r & Hr1 & Hr2 & ->) & Hp).
    exists r. split; [exact Hr1|]. split; [exact Hr2|]. by rewrite H3.
  - intros Hage.
    destruct (Hfin w2 E Hwin) as (H1 & H2 & H3).
    split; [by rewrite H1, Hu|]. split; [exact H2|].
    intros image Hbar. rewrite H3.
    rewrite (handleResize_steps w1 Hw1 Hm1) in E.
    set (w3 := ScrollHandler.with_this _ w1) in E.
    assert (E3 : ScrollHandler.updateParallax w3 = (ScrollHandler.Ok tt, w3)).
    { apply updateParallax_rests. right. cbn. lia. }
    rewrite E3 in E.
    rewrite (bind_ok ScrollHandler.method _ w3 w3 tt
               (method_ok w3 eq_refl)) in E.
    pose proof (updateScrollProgress_elsewhere w3 image) as H.
    rewrite E in H. cbn [snd] in H. rewrite H; [reflexivity|].
    cbn. intros Heq. by apply Hbar.
Qed.

(** The page with an image, on which reduced motion is preferred. *)
Lemma construct_measures_before_it_reads_the_preference_witness :
  ScrollHandler.prefersReducedMotion
    (ScrollHandler.this
       (ScrollHandler.task (ScrollHandler.construct true (Some 7%nat) [3%nat])
          (ScrollHandler.blank (λ _, (0, 100)%Q) []
             (ScrollHandler.Window 0 800 1000 20 true))))
  = Some true.
Proof.
  assert (Hage : (ScrollHandler.parallaxUpdateInterval
                  ≤ ScrollHandler.clock (ScrollHandler.Window 0 800 1000 20 true))%Z)
    by (vm_compute; discriminate).
  exact (proj1 (proj2 (proj1 (construct_measures_before_it_reads_the_preference
           (λ _, (0, 100)%Q) [] (ScrollHandler.Window 0 800 1000 20 true)
           (Some 7%nat) [3%nat]) Hage))).
Defined.

(** ** The scroll coordinator: reduced motion *)

Section CalmFacts.
Import ScrollHandler.
Local Open Scope Z_scope.

Variable log : list (elem * string * css).

Lemma preserves_self_bind (P : world → Prop) {B : Type} (f : handler → M B) :
  (∀ w, P w → P (f (this w) w).2) → preserves P (self ≫= f).
Proof. intros H w Hw. exact (H w Hw). Qed.

Lemma preserves_for_each_in (P : world → Prop) {A : Type} (f : A → M unit) (l : list A) :
  (∀ a, a ∈ l → preserves P (f a)) → preserves P (for_each f l).
Proof.
  induction l as [|a l IH]; intros Hf; [apply preserves_ret|].
  cbn [for_each]. apply preserves_bind; [apply Hf, list_elem_of_here | intros _].
  apply IH. intros b Hb. by apply Hf, list_elem_of_further.
Qed.

Lemma calm_frame (w w' : world) :
  prefersReducedMotion (this w') = prefersReducedMotion (this w) →
  pendingStyles (this w') = pendingStyles (this w) →
  written w' = written w →
  calm_since log w → calm_since log w'.
Proof.
  intros E1 E2 E3 (H1 & H2 & H3). unfold calm_since, no_parallax_pending,
    no_parallax_written_since. rewrite E1, E2, E3. done.
Qed.

Lemma calm_emptied (w w' : world) :
  prefersReducedMotion (this w') = prefersReducedMotion (this w) →
  default ∅ (pendingStyles (this w')) = ∅ →
  written w' = written w →
  calm_since log w → calm_since log w'.
Proof.
  intros E1 E2 E3 (H1 & H2 & H3). unfold calm_since, no_parallax_pending,
    no_parallax_written_since. rewrite E1, E3. split; [exact H1|]. split; [|exact H3].
  intros p el style prop v Hp. rewrite Hp in E2. cbn in E2. subst p.
  by rewrite lookup_empty.
Qed.

Lemma calm_inserted (w w' : world) (element : elem) (styles : gmap string css)
    (p : gmap elem (gmap string css)) :
  (∀ prop v, styles !! prop = Some v → is_parallax v = false) →
  pendingStyles (this w) = Some p →
  prefersReducedMotion (this w') = prefersReducedMotion (this w) →
  pendingStyles (this w')
  = Some (<[element := styles ∪ default ∅ (p !! element)]> p) →
  written w' = written w →
  calm_since log w → calm_since log w'.
Proof.
  intros Hs Ep E1 E2 E3 (H1 & H2 & H3). unfold calm_since, no_parallax_pending,
    no_parallax_written_since. rewrite E1, E2, E3. split; [exact H1|]. split; [|exact H3].
  intros p' el style prop v Hp He Hv. injection Hp as <-.
  destruct (decide (element = el)) as [->|Hne].
  - rewrite lookup_insert_eq in He. injection He as <-.
    apply lookup_union_Some_raw in Hv as [Hv | [_ Hv]]; [by eapply Hs|].
    destruct (p !! el) as [old|] eqn:Eo; cbn in Hv; [|by rewrite lookup_empty in Hv].
    exact (H2 p el old prop v Ep Eo Hv).
  - rewrite lookup_insert_ne in He by exact Hne.
    exact (H2 p el style prop v Ep He Hv).
Qed.

Lemma calm_written (w : world) (element : elem) (pv : string * css) :
  is_parallax pv.2 = false →
  calm_since log w → calm_since log (write element pv w).2.
Proof.
  intros Hv (H1 & H2 & (l & Hl & Hf)). split; [exact H1|]. split; [exact H2|].
  exists (l ++ [(element, pv.1, pv.2)]). cbn. rewrite Hl, app_assoc. split; [reflexivity|].
  apply Forall_app. split; [exact Hf|]. by apply Forall_singleton.
Qed.

Lemma scheduleStyleUpdate_calm (element : elem) (styles : gmap string css) :
  (∀ prop v, styles !! prop = Some v → is_parallax v = false) →
  preserves (calm_since log) (scheduleStyleUpdate element styles).
Proof.
  intros Hs w Hw. unfold scheduleStyleUpdate, mbind, M_bind, self, deref, assign, update,
    requestAnimationFrame. cbn.
  destruct (pendingStyles (this w)) as [p|] eqn:Ep; cbn; [|exact Hw].
  destruct (styleUpdateScheduled (this w)); cbn.
  - by apply (calm_inserted w _ element styles p).
  - destruct (bound (this w)); cbn; by apply (calm_inserted w _ element styles p).
Qed.

Lemma updateScrollProgress_calm : preserves (calm_since log) updateScrollProgress.
Proof.
  unfold updateScrollProgress. apply preserves_bind; [apply preserves_get | intros w].
  destruct (scrollProgress (this w)); [|apply preserves_ret].
  apply scheduleStyleUpdate_calm. intros prop v Hv.
  apply lookup_singleton_Some in Hv as [_ <-]. reflexivity.
Qed.

Lemma updateParallax_calm : preserves (calm_since log) updateParallax.
Proof.
  intros w Hw. rewrite updateParallax_rests; [exact Hw|].
  left. destruct Hw as (-> & _). reflexivity.
Qed.

Lemma applyStyles_calm : preserves (calm_since log) applyStyles.
Proof.
  unfold applyStyles. apply preserves_self_bind. intros w Hw.
  destruct (pendingStyles (this w)) as [p|] eqn:Ep; [|exact Hw].
  pose proof Hw as (_ & H2 & _).
  unfold deref, mbind at 1, M_bind at 1, mret, M_ret.
  match goal with |- calm_since log (?m w).2 =>
    assert (Hm : preserves (calm_since log) m); [|exact (Hm w Hw)] end.
  apply preserves_bind.
  - apply preserves_for_each_in. intros [el style] He.
    apply elem_of_map_to_list in He.
    apply preserves_for_each_in. intros [prop v] Hv.
    apply elem_of_map_to_list in Hv.
    intros w1 Hw1. apply calm_written; [|exact Hw1].
    exact (H2 p el style prop v Ep He Hv).
  - intros _. apply preserves_bind; [|intros _].
    + apply preserves_update. intros w1. by apply calm_emptied.
    + apply preserves_update. intros w1. by apply calm_frame.
Qed.

Lemma handleResize_calm : preserves (calm_since log) handleResize.
Proof.
  unfold handleResize, clearRectCache, assign.
  apply preserves_bind; [apply preserves_get | intros w0].
  apply preserves_bind; [apply preserves_update; intros w1; by apply calm_frame | intros _].
  apply preserves_bind; [apply preserves_method | intros _].
  apply preserves_bind.
  { apply preserves_bind; [|intros _];
      apply preserves_update; intros w1; by apply calm_frame. }
  intros _. apply preserves_self_bind. intros w Hw.
  pose proof Hw as (Hp & _). rewrite Hp. cbn [default from_option id].
  match goal with |- calm_since log (?m w).2 =>
    assert (Hm : preserves (calm_since log) m); [|exact (Hm w Hw)] end.
  apply preserves_bind;
    [destruct (parallaxState (this w)); [apply preserves_ret | apply preserves_throw]
    | intros _].
  apply preserves_bind; [apply preserves_ret | intros _].
  apply preserves_bind; [apply preserves_method | intros _].
  apply updateScrollProgress_calm.
Qed.

Lemma throttledResize_calm : preserves (calm_since log) throttledResize.
Proof.
  unfold throttledResize. apply preserves_bind; [apply preserves_self | intros h].
  destruct (inThrottle h); [apply preserves_ret|].
  apply preserves_bind; [apply handleResize_calm | intros _].
  apply preserves_bind;
    [apply preserves_update; intros w1; by apply calm_frame | intros _].
  apply preserves_bind; [|intros ?; apply preserves_ret].
  intros w Hw. unfold setTimeout. cbn. revert Hw. by apply calm_frame.
Qed.

Lemma scrollTick_calm : preserves (calm_since log) scrollTick.
Proof.
  unfold scrollTick.
  apply preserves_bind; [apply preserves_method | intros _].
  apply preserves_bind; [apply updateScrollProgress_calm | intros _].
  apply preserves_self_bind. intros w Hw.
  pose proof Hw as (Hp & _). rewrite Hp. cbn [default from_option id].
  match goal with |- calm_since log (?m w).2 =>
    assert (Hm : preserves (calm_since log) m); [|exact (Hm w Hw)] end.
  apply preserves_bind; [apply preserves_ret | intros _].
  apply preserves_update; intros w1; by apply calm_frame.
Qed.

Lemma onScroll_calm : preserves (calm_since log) onScroll.
Proof.
  unfold onScroll. apply preserves_bind; [apply preserves_get | intros w0]. cbv zeta.
  apply preserves_bind;
    [apply preserves_update; intros w1; by apply calm_frame | intros _].
  destruct (ticking (this w0)); [apply preserves_ret|].
  apply preserves_bind; [|intros ?; apply preserves_update; intros w1; by apply calm_frame].
  intros w Hw. unfold requestAnimationFrame. cbn. revert Hw. by apply calm_frame.
Qed.

Lemma later_calm : preserves (calm_since log) later.
Proof.
  unfold later. apply preserves_bind; [apply preserves_self | intros h].
  apply preserves_bind; [|intros _; apply updateParallax_calm].
  apply preserves_update; intros w1; by apply calm_frame.
Qed.

Lemma destroy_calm : preserves (calm_since log) destroy.
Proof.
  unfold destroy, clearRectCache, removeEventListener, cancelAnimationFrame, assign.
  apply preserves_bind; [apply preserves_self | intros h].
  apply preserves_bind.
  { destruct (bound h); [|apply preserves_ret].
    apply preserves_bind; [|intros _];
      apply preserves_update; intros w1; by apply calm_frame. }
  intros _. apply preserves_bind.
  { destruct (reducedMotionHandler h); [|apply preserves_ret].
    apply preserves_bind; [|intros _];
      apply preserves_update; intros w1; by apply calm_frame. }
  intros _. apply preserves_bind.
  { destruct (_ && _); [|apply preserves_ret].
    apply preserves_bind; [apply preserves_get | intros w0].
    apply preserves_for_each. intros a.
    apply preserves_update; intros w1; by apply calm_frame. }
  intros _. apply preserves_bind.
  { destruct (styleUpdateScheduled h); [|apply preserves_ret].
    apply preserves_update; intros w1; by apply calm_frame. }
  intros _. apply preserves_bind.
  { destruct (ticking h); [|apply preserves_ret].
    apply preserves_update; intros w1; by apply calm_frame. }
  intros _. apply preserves_bind; [apply preserves_method | intros _].
  apply preserves_bind.
  { apply preserves_bind; [|intros _];
      apply preserves_update; intros w1; by apply calm_frame. }
  intros _. apply preserves_bind; [apply preserves_self | intros h1].
  apply preserves_bind; [apply preserves_deref | intros p].
  apply preserves_bind;
    [apply preserves_update; intros w1; by apply calm_emptied | intros _].
  apply preserves_bind;
    [destruct (parallaxState h1); [apply preserves_ret | apply preserves_throw]
    | intros _].
  apply preserves_update; intros w1; by apply calm_emptied.
Qed.

Lemma calm_task (m : M unit) (w : world) :
  preserves (calm_since log) m → calm_since log w → calm_since log (task m w).
Proof.
  intros Hm Hw. apply preserves_task; [|exact Hm | exact Hw].
  intros w1. by apply calm_frame.
Qed.

Lemma calm_dispatch (l : listener) (m : M unit) (w : world) :
  preserves (calm_since log) m → calm_since log w → calm_since log (dispatch l m w).
Proof.
  intros Hm Hw. unfold dispatch. case_bool_decide; [by apply calm_task | exact Hw].
Qed.

Lemma fire_due_calm (fuel : nat) (t : Z) (w : world) :
  calm_since log w → calm_since log (fire_due fuel t w).
Proof.
  revert w. induction fuel as [|fuel IH]; intros w Hw; [exact Hw|].
  cbn [fire_due]. destruct (Timers.earliest _) as [tm|]; [|exact Hw].
  destruct (_ <=? _); [|exact Hw]. cbv zeta. apply IH.
  unfold run_timer_cb. destruct (Timers.timer_cb tm).
  - apply calm_task; [apply preserves_update; intros w1; by apply calm_frame|].
    revert Hw. by apply calm_frame.
  - apply calm_task; [apply later_calm|]. revert Hw. by apply calm_frame.
Qed.

Lemma frame_calm (cbs : list (nat * frame_cb)) (w : world) :
  calm_since log w → calm_since log (foldl run_frame_cb w cbs).
Proof.
  revert w. induction cbs as [|r cbs IH]; intros w Hw; [exact Hw|].
  cbn [foldl]. apply IH. unfold run_frame_cb. destruct (r.2).
  - apply calm_task; [apply applyStyles_calm | exact Hw].
  - apply calm_task; [apply scrollTick_calm | exact Hw].
Qed.

Lemma react_calm (w : world) (ev : event) :
  keeps_preference ev = true → calm_since log w → calm_since log (react w ev).
Proof.
  intros Hev Hw. destruct ev as [native bar images|y|ih sh|sh|b| |t|]; cbn [react].
  - discriminate.
  - apply calm_dispatch; [apply onScroll_calm|]. revert Hw. by apply calm_frame.
  - apply calm_dispatch; [apply throttledResize_calm|]. revert Hw. by apply calm_frame.
  - revert Hw. by apply calm_frame.
  - cbn in Hev. subst b. apply calm_dispatch.
    + apply preserves_update. intros w1 (H1 & H2 & H3). done.
    + revert Hw. by apply calm_frame.
  - destruct (Frames.take (frames w)) as [cbs q]. apply frame_calm.
    revert Hw. by apply calm_frame.
  - cbv zeta. set (w' := fire_due _ t w).
    assert (Hw' : calm_since log w') by (by apply fire_due_calm).
    revert Hw'. by apply calm_frame.
  - apply calm_task; [apply destroy_calm | exact Hw].
Qed.

End CalmFacts.

(** X17.  While the handler has the preference for reduced motion, it
    neither queues nor writes a parallax transform.  From a state with the
    preference on and no parallax transform pending, after any scrolls,
    resizes, frames, timers and a [destroy] (all events but the
    construction of a new handler and the preference going off) the
    preference is still on, no parallax transform is pending, and the
    style writes made since are all of other values. *)
Theorem reduced_motion_stops_the_parallax (w : ScrollHandler.world)
    (evs : list ScrollHandler.event) :
  ScrollHandler.prefersReducedMotion (ScrollHandler.this w) = Some true →
  no_parallax_pending w →
  forallb keeps_preference evs = true →
  let w' := ScrollHandler.play evs w in
  ScrollHandler.prefersReducedMotion (ScrollHandler.this w') = Some true ∧
  no_parallax_pending w' ∧
  no_parallax_written_since (ScrollHandler.written w) w'.
Proof.
  intros Hp Hn Hevs. cbv zeta.
  assert (H0 : calm_since (ScrollHandler.written w) w).
  { split; [exact Hp|]. split; [exact Hn|]. exists []. by rewrite app_nil_r. }
  clear Hp Hn. revert H0. generalize (ScrollHandler.written w) as log. intros log.
  revert w. induction evs as [|ev evs IH]; intros w H0; [exact H0|].
  cbn [forallb] in Hevs. apply andb_prop in Hevs as [Hev Hevs].
  cbn [ScrollHandler.play foldl]. apply (IH Hevs). by apply react_calm.
Qed.

(** The preference goes on while a parallax-free handler is on the page;
    then the page is scrolled, a frame runs and the timers fire. *)
Lemma reduced_motion_stops_the_parallax_witness :
  ScrollHandler.prefersReducedMotion
    (ScrollHandler.this
       (ScrollHandler.play
          [ScrollHandler.Scroll 300; ScrollHandler.Frame; ScrollHandler.Advance 100;
           ScrollHandler.Resize 600 2000; ScrollHandler.Frame]
          (ScrollHandler.play
             [ScrollHandler.Construct true (Some 7%nat) [3%nat]; ScrollHandler.Frame;
              ScrollHandler.Motion true]
             (ScrollHandler.blank (λ _, (0, 100)%Q) []
                (ScrollHandler.Window 0 800 1000 5 false)))))
  = Some true.
Proof.
  set (w := ScrollHandler.play
              [ScrollHandler.Construct true (Some 7%nat) [3%nat]; ScrollHandler.Frame;
               ScrollHandler.Motion true]
              (ScrollHandler.blank (λ _, (0, 100)%Q) []
                 (ScrollHandler.Window 0 800 1000 5 false))).
  assert (Hp : ScrollHandler.prefersReducedMotion (ScrollHandler.this w) = Some true)
    by (vm_compute; reflexivity).
  assert (Hn : no_parallax_pending w).
  { assert (E : ScrollHandler.pendingStyles (ScrollHandler.this w) = Some ∅)
      by (vm_compute; reflexivity).
    intros p el style prop v Ep. rewrite E in Ep. injection Ep as <-.
    intros He. by rewrite lookup_empty in He. }
  exact (proj1 (reduced_motion_stops_the_parallax w
           [ScrollHandler.Scroll 300; ScrollHandler.Frame; ScrollHandler.Advance 100;
            ScrollHandler.Resize 600 2000; ScrollHandler.Frame] Hp Hn eq_refl)).
Defined.

(** ** The scroll coordinator: [destroy] *)

Section ReleaseFacts.
Import ScrollHandler.

Variable w0 : world.

Lemma releasing_fewer (gone gone' : listener → Prop) (rmh : bool) (w : world) :
  (∀ l, gone' l → gone l) → releasing w0 gone rmh w → releasing w0 gone' rmh w.
Proof.
  intros Hsub (Ha & He & Hr & Hk & Hl & Hg & Hq).
  split; [exact Ha|]. split; [exact He|]. split; [exact Hr|]. split; [exact Hk|].
  split; [exact Hl|]. split; [|exact Hq]. intros l Hl'. by apply Hg, Hsub.
Qed.

Lemma removeEventListener_releasing (l : listener) (gone : listener → Prop) (rmh : bool) :
  l ≠ ReducedMotion QueryOfInit →
  returns (releasing w0 gone rmh) (removeEventListener l)
          (λ _, releasing w0 (λ x, x = l ∨ gone x) rmh).
Proof.
  intros Hother. apply returns_update. intros w (Ha & He & Hr & Hk & Hl & Hg & Hq).
  split; [exact Ha|]. split; [exact He|]. split; [exact Hr|]. split; [exact Hk|].
  split; [|split].
  - intros x Hx. cbn in Hx. apply list_elem_of_filter in Hx as [_ Hx]. by apply Hl.
  - intros x [->|Hx] Hin; cbn in Hin; apply list_elem_of_filter in Hin as [Hne Hin].
    + by apply Hne.
    + by apply (Hg x).
  - intros Hin. cbn. apply list_elem_of_filter. split; [by intros E; apply Hother|].
    by apply Hq.
Qed.

Lemma remove_anchors_releasing (l : list elem) (gone : listener → Prop) (rmh : bool) :
  returns (releasing w0 gone rmh)
          (for_each (λ a, removeEventListener (AnchorClick a)) l)
          (λ _, releasing w0 (λ x, (∃ a, a ∈ l ∧ x = AnchorClick a) ∨ gone x) rmh).
Proof.
  revert gone. induction l as [|a l IH]; intros gone.
  - apply returns_ret. intros w. apply releasing_fewer.
    intros x [(a & Ha & _)|Hx]; [by apply elem_of_nil in Ha | exact Hx].
  - cbn [for_each].
    eapply returns_bind; [by apply removeEventListener_releasing | intros ?].
    eapply returns_weaken; [apply IH | done |]. intros ? w. apply releasing_fewer.
    intros x [(a' & Ha' & ->)|Hx].
    + apply elem_of_cons in Ha' as [->|Ha']; [right; by left | left; by exists a'].
    + right. by right.
Qed.

Lemma cancelAnimationFrame_releasing (n : nat) (gone : listener → Prop) (rmh : bool) :
  returns (releasing w0 gone rmh) (cancelAnimationFrame n) (λ _, releasing w0 gone rmh).
Proof. apply returns_update. intros w H. exact H. Qed.

Lemma clearRectCache_releasing (gone : listener → Prop) (rmh : bool) :
  returns (releasing w0 gone rmh) clearRectCache (λ _, releasing w0 gone rmh).
Proof.
  unfold clearRectCache.
  eapply returns_bind with (R := λ _, releasing w0 gone rmh); [|intros ?].
  - apply returns_assign. intros w (Ha & He & Hr & Hk & Hl & Hg & Hq).
    split; [revert Ha; apply alive_frame; cbn; auto|]. done.
  - apply returns_assign. intros w (Ha & He & Hr & Hk & Hl & Hg & Hq).
    split; [revert Ha; apply alive_frame; cbn; auto|]. done.
Qed.

(** [destroy] on a handler in use. *)
Lemma destroy_releases :
  returns (λ w, w = w0 ∧ alive w0) destroy
    (λ _ w',
       this w' = released (set_handlers false false (this w0)) ∧
       (listeners w' ⊆ listeners w0) ∧
       (OnScroll ∉ listeners w') ∧ (ThrottledResize ∉ listeners w') ∧
       (ReducedMotion QueryOfInit ∈ listeners w0 →
        ReducedMotion QueryOfInit ∈ listeners w') ∧
       (supportsNativeSmoothScroll (this w0) = false →
        smoothScrollHandler (this w0) = true →
        ∀ a, a ∈ anchors w0 → AnchorClick a ∉ listeners w')).
Proof.
  unfold destroy.
  eapply returns_bind; [apply returns_self | intros h]. cbn beta.
  set (gone1 := λ x : listener, x = ThrottledResize ∨ x = OnScroll).
  set (gone2 := λ x : listener,
         (reducedMotionHandler (this w0) = true ∧ x = ReducedMotion QueryOfDestroy)
         ∨ gone1 x).
  set (gone := λ x : listener,
         (negb (supportsNativeSmoothScroll (this w0)) && smoothScrollHandler (this w0) = true
          ∧ ∃ a, a ∈ anchors w0 ∧ x = AnchorClick a) ∨ gone2 x).
  eapply returns_bind
    with (R := λ _ w, h = this w0 ∧
                      releasing w0 gone1 (reducedMotionHandler (this w0)) w).
  { intros w (-> & -> & Ha). rewrite (alive_bound w0 Ha).
    assert (H0 : releasing w0 (λ _, False) (reducedMotionHandler (this w0)) w0).
    { unfold releasing. split; [exact Ha|]. split; [reflexivity|].
      split; [reflexivity|]. split; [reflexivity|]. split; [reflexivity|].
      split; [by intros l [] | done]. }
    assert (Hm : returns (releasing w0 (λ _, False) (reducedMotionHandler (this w0)))
                   (removeEventListener OnScroll;; removeEventListener ThrottledResize)
                   (λ _, releasing w0 gone1 (reducedMotionHandler (this w0)))).
    { eapply returns_bind; [by apply removeEventListener_releasing | intros ?].
      eapply returns_weaken; [by apply removeEventListener_releasing | done |].
      intros ? w. apply releasing_fewer. intros x [-> | ->]; [by left | right; by left]. }
    destruct (Hm w0 H0) as (r0 & w' & E & H'). exists r0, w'. done. }
  intros ?. eapply returns_bind with (R := λ _ w, h = this w0 ∧ releasing w0 gone2 false w).
  { intros w (-> & Hw).
    destruct (reducedMotionHandler (this w0)) eqn:Erm.
    - assert (Hm : returns (releasing w0 gone1 true)
                     (removeEventListener (ReducedMotion QueryOfDestroy);;
                      assign (set_handlers (smoothScrollHandler (this w0)) false))
                     (λ _, releasing w0 gone2 false)).
      { eapply returns_bind; [by apply removeEventListener_releasing | intros ?].
        apply returns_assign. intros w1 (Ha & He & Hr & Hk & Hl & Hg & Hq).
        split; [revert Ha; apply alive_frame; cbn; auto|].
        split; [exact He|]. split; [reflexivity|]. split; [exact Hk|]. split; [exact Hl|].
        split; [|exact Hq].
        intros x [[_ ->]|Hx]; apply Hg; [by left | by right]. }
      destruct (Hm w Hw) as (r0 & w' & E & H'). exists r0, w'. done.
    - exists tt, w. split; [reflexivity|]. split; [reflexivity|].
      revert Hw. apply releasing_fewer. by intros x [[? _]|Hx]. }
  intros ?. eapply returns_bind with (R := λ _ w, h = this w0 ∧ releasing w0 gone false w).
  { intros w (-> & Hw). unfold gone.
    destruct (negb (supportsNativeSmoothScroll (this w0)) && smoothScrollHandler (this w0)).
    - pose proof Hw as (_ & _ & _ & Hk & _).
      destruct (remove_anchors_releasing (anchors w) gone2 false w Hw)
        as (r0 & w' & E & H').
      exists r0, w'. split; [exact E|]. split; [reflexivity|].
      revert H'. apply releasing_fewer.
      intros x [[_ (anchor & Hin & ->)]|Hx]; [left | by right].
      exists anchor. split; [by rewrite Hk | reflexivity].
    - exists tt, w. split; [reflexivity|]. split; [reflexivity|].
      revert Hw. apply releasing_fewer. by intros x [[? _]|Hx]. }
  intros ?. eapply returns_bind with (R := λ _ w, h = this w0 ∧ releasing w0 gone false w).
  { intros w (-> & Hw). destruct (styleUpdateScheduled (this w0)).
    - destruct (cancelAnimationFrame_releasing (handle_of_bool true) gone false w Hw)
        as (r0 & w' & E & H'). exists r0, w'. done.
    - exists tt, w. done. }
  intros ?. eapply returns_bind with (R := λ _ w, releasing w0 gone false w).
  { intros w (-> & Hw). destruct (ticking (this w0)).
    - destruct (cancelAnimationFrame_releasing (handle_of_bool true) gone false w Hw)
        as (r0 & w' & E & H'). exists r0, w'. done.
    - exists tt, w. done. }
  intros ?. eapply returns_bind with (R := λ _ w, releasing w0 gone false w).
  { apply returns_method. intros w (Ha & _). by apply alive_bound. }
  intros ?. eapply returns_bind; [apply clearRectCache_releasing | intros ?].
  eapply returns_bind; [apply returns_self | intros h1]. cbn beta.
  eapply returns_bind with (R := λ _ w, h1 = this w ∧ releasing w0 gone false w).
  { intros w (-> & Hw). pose proof Hw as ((_ & _ & [p Hp] & _) & _). rewrite Hp.
    exists p, w. done. }
  intros p.
  eapply returns_bind with (R := λ _ w, parallaxState h1 = true ∧ releasing w0 gone false w).
  { apply returns_assign. intros w (-> & Hw). pose proof Hw as ((_ & Hs & _) & _).
    split; [exact Hs|]. destruct Hw as (Ha & He & Hr & Hk & Hl & Hg & Hq).
    split; [revert Ha; apply alive_frame; cbn; auto|]. done. }
  intros ?. eapply returns_bind with (R := λ _ w, releasing w0 gone false w).
  { intros w (-> & Hw). exists tt, w. done. }
  intros ?. apply returns_assign. intros w (Ha & He & Hr & Hk & Hl & Hg & Hq).
  cbn [this with_this listeners with_listeners]. split.
  { rewrite <- He. unfold released, set_handlers. cbn. by rewrite Hr. }
  split; [exact Hl|].
  split; [apply Hg; right; right; by right|].
  split; [apply Hg; right; right; by left|].
  split; [exact Hq|].
  intros Hn Hs anchor Hin. apply Hg. left. rewrite Hn, Hs.
  split; [reflexivity|]. by exists anchor.
Qed.

End ReleaseFacts.

(** X18.  [destroy] works once.  On a handler in use it returns, takes the
    scroll and resize listeners off the window (and those of the anchors
    when the polyfill is in use), and leaves the bound methods, the maps
    and the element references [null]; the flags [ticking] and
    [styleUpdateScheduled] and the preference stay as they were.  The
    change listener of the media query stays where [init] put it, since
    [destroy] looks for it on another media query object: a change of the
    preference still runs it, and it stores the new preference in the
    released object.  A scroll or a resize of the page changes the window
    and nothing else from then on, and a second [destroy] throws before it
    has changed a field or a listener. *)
Theorem destroy_works_once (w : ScrollHandler.world) :
  alive w →
  ∃ w', ScrollHandler.destroy w = (ScrollHandler.Ok tt, w') ∧
    ScrollHandler.this w'
    = ScrollHandler.released (ScrollHandler.set_handlers false false (ScrollHandler.this w)) ∧
    (ScrollHandler.OnScroll ∉ ScrollHandler.listeners w') ∧
    (ScrollHandler.ThrottledResize ∉ ScrollHandler.listeners w') ∧
    (ScrollHandler.ReducedMotion ScrollHandler.QueryOfInit ∈ ScrollHandler.listeners w →
     ScrollHandler.ReducedMotion ScrollHandler.QueryOfInit ∈ ScrollHandler.listeners w' ∧
     ∀ b, ScrollHandler.this (ScrollHandler.react w' (ScrollHandler.Motion b))
          = ScrollHandler.set_prefersReducedMotion b (ScrollHandler.this w')) ∧
    (ScrollHandler.supportsNativeSmoothScroll (ScrollHandler.this w) = false →
     ScrollHandler.smoothScrollHandler (ScrollHandler.this w) = true →
     ∀ a, a ∈ ScrollHandler.anchors w →
          ScrollHandler.AnchorClick a ∉ ScrollHandler.listeners w') ∧
    (ScrollHandler.listeners w' ⊆ ScrollHandler.listeners w) ∧
    (∀ y, ScrollHandler.react w' (ScrollHandler.Scroll y) = ScrollHandler.set_scrollY y w') ∧
    (∀ ih sh, ScrollHandler.react w' (ScrollHandler.Resize ih sh)
              = ScrollHandler.set_size ih sh w') ∧
    ∃ w'', ScrollHandler.destroy w' = (ScrollHandler.TypeError, w'') ∧
      ScrollHandler.this w'' = ScrollHandler.this w' ∧
      ScrollHandler.listeners w'' = ScrollHandler.listeners w' ∧
      ScrollHandler.timers w'' = ScrollHandler.timers w' ∧
      ScrollHandler.written w'' = ScrollHandler.written w'.
Proof.
  intros Hw. destruct (destroy_releases w w (conj eq_refl Hw))
    as ([] & w' & E & Ht & Hls & H1 & H2 & Hrm & Han).
  exists w'. split; [exact E|]. split; [exact Ht|].
  split; [exact H1|]. split; [exact H2|].
  split.
  { intros Hin. split; [by apply Hrm|]. intros b.
    unfold ScrollHandler.react, ScrollHandler.dispatch.
    rewrite bool_decide_eq_true_2 by (by apply Hrm). reflexivity. }
  split; [exact Han|].
  split; [exact Hls|].
  split.
  { intros y. unfold ScrollHandler.react, ScrollHandler.dispatch.
    by rewrite bool_decide_eq_false_2. }
  split.
  { intros ih sh. unfold ScrollHandler.react, ScrollHandler.dispatch.
    by rewrite bool_decide_eq_false_2. }
  unfold ScrollHandler.destroy.
  rewrite (bind_ok ScrollHandler.self _ _ _ _ eq_refl). rewrite Ht.
  cbn [ScrollHandler.released ScrollHandler.set_handlers
       ScrollHandler.bound ScrollHandler.reducedMotionHandler
       ScrollHandler.supportsNativeSmoothScroll ScrollHandler.smoothScrollHandler
       ScrollHandler.styleUpdateScheduled ScrollHandler.ticking].
  rewrite andb_false_r.
  destruct (ScrollHandler.styleUpdateScheduled (ScrollHandler.this w)),
           (ScrollHandler.ticking (ScrollHandler.this w));
    (erewrite bind_ok by reflexivity; erewrite bind_ok by reflexivity;
     erewrite bind_ok by reflexivity; erewrite bind_ok by reflexivity;
     erewrite bind_ok by reflexivity;
     unfold mbind at 1, ScrollHandler.M_bind at 1, ScrollHandler.method at 1,
       mbind at 1, ScrollHandler.M_bind at 1, ScrollHandler.self at 1;
     cbn [ScrollHandler.this ScrollHandler.with_this ScrollHandler.with_frames
          ScrollHandler.cancelAnimationFrame ScrollHandler.update];
     rewrite Ht; cbn [ScrollHandler.released ScrollHandler.bound];
     eexists; (split; [reflexivity|]); cbn; by rewrite ?Ht).
Qed.

(** The handler that has just been made on the page with an image: the
    change listener is there before [destroy] and after it. *)
Lemma destroy_works_once_witness :
  ∃ w', ScrollHandler.destroy
          (ScrollHandler.play [ScrollHandler.Construct true (Some 7%nat) [3%nat]]
             page_with_image)
        = (ScrollHandler.Ok tt, w') ∧
    ScrollHandler.ReducedMotion ScrollHandler.QueryOfInit ∈ ScrollHandler.listeners w' ∧
    ∃ w'', ScrollHandler.destroy w' = (ScrollHandler.TypeError, w'').
Proof.
  assert (Hw : alive (ScrollHandler.play [ScrollHandler.Construct true (Some 7%nat) [3%nat]]
                        page_with_image)).
  { unfold alive. vm_compute. repeat split; eexists; reflexivity. }
  assert (Hl : ScrollHandler.ReducedMotion ScrollHandler.QueryOfInit
               ∈ ScrollHandler.listeners
                   (ScrollHandler.play
                      [ScrollHandler.Construct true (Some 7%nat) [3%nat]] page_with_image)).
  { vm_compute. apply list_elem_of_further, list_elem_of_further, list_elem_of_here. }
  destruct (destroy_works_once _ Hw)
    as (w' & E & _ & _ & _ & Hq & _ & _ & _ & _ & w'' & E' & _).
  exists w'. split; [exact E|]. split; [exact (proj1 (Hq Hl))|]. exists w''. exact E'.
Defined.

(** ** Viewport tests and the parallax value of [utils.js] *)

Section ViewportFacts.
Import ScrollHandler.

Lemma less_lt (a b : Q) : less a b = true ↔ (a < b)%Q.
Proof.
  unfold less. rewrite negb_true_iff. split.
  - intros H. apply Qnot_le_lt. intros Hle. apply Qle_bool_iff in Hle. congruence.
  - intros H. destruct (Qle_bool b a) eqn:E; [|reflexivity].
    apply Qle_bool_iff in E. exfalso. by apply (Qlt_not_le a b).
Qed.

Lemma isInViewport_layout (w : world) (element : elem) (offset : Q) :
  alive w → cache_agrees w →
  ∃ w', isInViewport element offset w = (Ok (within w element offset), w') ∧
        (getElementRect element w).2 = w' ∧ same_page w w'.
Proof.
  intros Hw Ha.
  destruct (getElementRect_layout w element Hw Ha)
    as (r & w' & E & Ht & Hb & _ & _ & Hs).
  exists w'. unfold isInViewport. rewrite (bind_ok _ _ _ _ _ E).
  rewrite (bind_ok self _ w' w' _ eq_refl). rewrite E.
  pose proof Hs as (_ & _ & Hh & _). unfold within. rewrite Hh, Ht, Hb.
  split; [reflexivity|]. split; [reflexivity | exact Hs].
Qed.

End ViewportFacts.

(** X19.  The two viewport tests, and what their offset does.  The test of
    [utils.js] is strict and a greater offset narrows it: an element in
    view at an offset is in view at every smaller one.  The test of the
    handler is inclusive and a greater offset widens it.  On a handler in
    use whose cache agrees with the layout, [isInViewport] returns the
    value of the inclusive test on the layout and changes nothing but the
    geometry cache.  An image that [updateParallax] counts as in view
    passes the handler's test at every offset from 0 on; an image whose top
    is at the bottom edge of the viewport passes the handler's test at
    offset 0 and is not in view for [updateParallax]. *)
Theorem viewport_tests_and_their_offsets :
  (∀ (p : UtilsGeometry.page) (element : UtilsGeometry.elem) (offset offset' : Q),
      (offset <= offset')%Q →
      UtilsGeometry.isInViewport p element offset' = true →
      UtilsGeometry.isInViewport p element offset = true) ∧
  (∀ (w : ScrollHandler.world) (element : ScrollHandler.elem) (offset offset' : Q),
      (offset <= offset')%Q →
      within w element offset = true → within w element offset' = true) ∧
  (∀ (w : ScrollHandler.world) (element : ScrollHandler.elem) (offset : Q),
      alive w → cache_agrees w →
      ∃ w', ScrollHandler.isInViewport element offset w
            = (ScrollHandler.Ok (within w element offset), w') ∧
            (ScrollHandler.getElementRect element w).2 = w' ∧ same_page w w') ∧
  (∀ (w : ScrollHandler.world) (image : ScrollHandler.elem) (offset : Q),
      (0 <= offset)%Q → in_view w image = true → within w image offset = true) ∧
  (∀ (w : ScrollHandler.world) (image : ScrollHandler.elem),
      ((ScrollHandler.boxes w image).1
       == ScrollHandler.num (ScrollHandler.windowHeight (ScrollHandler.this w)))%Q →
      (0 <= (ScrollHandler.boxes w image).2)%Q →
      within w image 0 = true ∧ in_view w image = false).
Proof.
  split; [|split; [|split; [|split]]].
  - intros p element offset offset' Hle.
    unfold UtilsGeometry.isInViewport. cbv zeta.
    rewrite !andb_true_iff, !less_lt. intros [H1 H2]. split; lra.
  - intros w element offset offset' Hle. unfold within.
    rewrite !andb_true_iff, !Qle_bool_iff. intros [H1 H2]. split; lra.
  - exact isInViewport_layout.
  - intros w image offset Hle. unfold in_view, within.
    rewrite !andb_true_iff, !less_lt, !Qle_bool_iff. intros [H1 H2]. split; lra.
  - intros w image Ht Hb. unfold in_view, within. split.
    + rewrite andb_true_iff, !Qle_bool_iff. split; lra.
    + apply andb_false_iff. left. apply not_true_is_false. rewrite less_lt. lra.
Qed.

(** On the page with an image, whose top is at 0 and whose bottom is at
    100 in a viewport of height 800. *)
Lemma viewport_tests_and_their_offsets_witness :
  UtilsGeometry.isInViewport
    (UtilsGeometry.Page (λ _, (0, 100)%Q) 800 0) 3%nat 50 = true ∧
  within (ScrollHandler.play [ScrollHandler.Construct true (Some 7%nat) [3%nat]]
            page_with_image) 3%nat 10 = true.
Proof.
  split.
  - assert (Hle : (50 <= 99)%Q) by (vm_compute; discriminate).
    assert (H : UtilsGeometry.isInViewport
                  (UtilsGeometry.Page (λ _, (0, 100)%Q) 800 0) 3%nat 99 = true)
      by (vm_compute; reflexivity).
    exact (proj1 viewport_tests_and_their_offsets _ 3%nat 50%Q 99%Q Hle H).
  - assert (Hle : (0 <= 10)%Q) by (vm_compute; discriminate).
    assert (H : in_view (ScrollHandler.play
                           [ScrollHandler.Construct true (Some 7%nat) [3%nat]]
                           page_with_image) 3%nat = true)
      by (vm_compute; reflexivity).
    exact (proj1 (proj2 (proj2 (proj2 viewport_tests_and_their_offsets)))
             _ 3%nat 10%Q Hle H).
Defined.

(** X20.  In exact arithmetic the parallax value of [utils.js] is a
    fraction of the speed that does not depend on the scroll offset.  For
    an element in view at offset 0, [calculateParallaxTransform] returns
    the finite number (h - top) / (h - top + bottom) * speed, where h is
    the height of the viewport; for a positive speed it lies strictly
    between 0 and the speed.  When bottom - top + h is 0 the result is not
    a finite number. *)
Theorem utils_parallax_is_a_fraction_of_the_speed :
  (∀ (p : UtilsGeometry.page) (element : UtilsGeometry.elem) (speed : Q),
      UtilsGeometry.isInViewport p element 0 = true →
      ∃ v, UtilsGeometry.calculateParallaxTransform p element speed
           = ScrollHandler.Finite v ∧
           (v == (UtilsGeometry.innerHeight p - (UtilsGeometry.rects p element).1)
                 / (UtilsGeometry.innerHeight p - (UtilsGeometry.rects p element).1
                    + (UtilsGeometry.rects p element).2) * speed)%Q ∧
           ((0 < speed)%Q → (0 < v)%Q ∧ (v < speed)%Q)) ∧
  (∀ (p : UtilsGeometry.page) (element : UtilsGeometry.elem) (speed : Q),
      ((UtilsGeometry.rects p element).2 - (UtilsGeometry.rects p element).1
       + UtilsGeometry.innerHeight p == 0)%Q →
      UtilsGeometry.calculateParallaxTransform p element speed = ScrollHandler.NotFinite).
Proof.
  split.
  - intros [rects ih y] element speed. unfold UtilsGeometry.isInViewport,
      UtilsGeometry.calculateParallaxTransform, UtilsGeometry.getElementRect. cbn.
    destruct (rects element) as [t b]. cbn.
    rewrite andb_true_iff, !less_lt. intros [H1 H2].
    assert (Hn : (0 < ih - t)%Q) by lra.
    assert (Hd : (0 < ih - t + b)%Q) by lra.
    unfold ScrollHandler.divide.
    destruct (Qeq_bool (b + y - (t + y - ih)) 0) eqn:E.
    { apply Qeq_bool_iff in E. lra. }
    cbn. eexists. split; [reflexivity|].
    assert (Hv : ((y - (t + y - ih)) / (b + y - (t + y - ih)) * speed
                  == (ih - t) / (ih - t + b) * speed)%Q).
    { field; try split; lra. }
    split; [exact Hv|]. intros Hs. rewrite Hv.
    assert (Hf : (0 < (ih - t) / (ih - t + b))%Q).
    { apply Qlt_shift_div_l; [exact Hd | lra]. }
    assert (Hg : ((ih - t) / (ih - t + b) < 1)%Q).
    { apply Qlt_shift_div_r; [exact Hd | lra]. }
    split; nra.
  - intros [rects ih y] element speed. unfold
      UtilsGeometry.calculateParallaxTransform, UtilsGeometry.getElementRect. cbn.
    destruct (rects element) as [t b]. cbn. intros H.
    unfold ScrollHandler.divide.
    destruct (Qeq_bool (b + y - (t + y - ih)) 0) eqn:E; [reflexivity|].
    apply Qeq_bool_neq in E. exfalso. apply E. lra.
Qed.

(** An element from 0 to 100 in a viewport of height 800, at speed 1/2:
    the value is 4/9. *)
Lemma utils_parallax_is_a_fraction_of_the_speed_witness :
  ∃ v, UtilsGeometry.calculateParallaxTransform
         (UtilsGeometry.Page (λ _, (0, 100)%Q) 800 300) 3%nat (1 # 2)
       = ScrollHandler.Finite v ∧
       (v == (800 - 0) / (800 - 0 + 100) * (1 # 2))%Q.
Proof.
  assert (H : UtilsGeometry.isInViewport
                (UtilsGeometry.Page (λ _, (0, 100)%Q) 800 300) 3%nat 0 = true)
    by (vm_compute; reflexivity).
  destruct (proj1 utils_parallax_is_a_fraction_of_the_speed
              (UtilsGeometry.Page (λ _, (0, 100)%Q) 800 300) 3%nat (1 # 2)%Q H)
    as (v & E & Hv & _).
  exists v. split; [exact E | exact Hv].
Defined.

(** ** The scroll coordinator: listeners *)

Section InstallFacts.
Import ScrollHandler.

Variable native : bool.
Variable an : list elem.

Lemma returns_for_each_in {A : Type} (P : world → Prop) (f : A → M unit) (l : list A) :
  (∀ a, a ∈ l → returns P (f a) (λ _, P)) → returns P (for_each f l) (λ _, P).
Proof.
  induction l as [|a l IH]; intros Hf; [by apply returns_ret|].
  cbn [for_each]. eapply returns_bind; [apply Hf, list_elem_of_here | intros ?].
  apply IH. intros b Hb. by apply Hf, list_elem_of_further.
Qed.

Lemma accounted_frame (w w' : world) :
  listeners w' = listeners w → anchors w' = anchors w →
  supportsNativeSmoothScroll (this w') = supportsNativeSmoothScroll (this w) →
  (reducedMotionHandler (this w) = true → reducedMotionHandler (this w') = true) →
  (smoothScrollHandler (this w) = true → smoothScrollHandler (this w') = true) →
  accounted w → accounted w'.
Proof.
  intros El Ea En Hr Hs Hacc l Hl. rewrite El in Hl. specialize (Hacc l Hl).
  destruct l as [| | q |a]; [done | done | split; [apply Hacc | apply Hr, Hacc] |].
  destruct Hacc as (H1 & H2 & H3). cbn. rewrite En, Ea. split; [exact H1|].
  split; [by apply Hs | exact H3].
Qed.

Lemma installing_frame (w w' : world) :
  bound (this w') = bound (this w) →
  parallaxState (this w') = parallaxState (this w) →
  (is_Some (pendingStyles (this w)) → is_Some (pendingStyles (this w'))) →
  (is_Some (rectCache (this w)) → is_Some (rectCache (this w'))) →
  parallaxImages (this w') = parallaxImages (this w) →
  listeners w' = listeners w → anchors w' = anchors w → uncaught w' = uncaught w →
  supportsNativeSmoothScroll (this w') = supportsNativeSmoothScroll (this w) →
  (reducedMotionHandler (this w) = true → reducedMotionHandler (this w') = true) →
  (smoothScrollHandler (this w) = true → smoothScrollHandler (this w') = true) →
  installing native an w → installing native an w'.
Proof.
  intros E1 E2 E3 E4 E5 El Ea Eu En Hr Hs (Ha & Hacc & Hu & Hk & Hn).
  split; [by apply (alive_frame w w')|].
  split; [by apply (accounted_frame w w')|].
  by rewrite Eu, Ea, En.
Qed.

Lemma addEventListener_adds (l : listener) :
  returns (λ w, installing native an w ∧ own_listener l w) (addEventListener l)
          (λ _ w, installing native an w ∧ l ∈ listeners w).
Proof.
  apply returns_update. intros w [Hw Hok]. case_bool_decide as Hin; [by split|].
  destruct Hw as (Ha & Hacc & Hu & Hk & Hn). split.
  - split; [exact Ha|]. split; [|done].
    intros x Hx. cbn in Hx. apply elem_of_app in Hx as [Hx|Hx]; [by apply Hacc|].
    apply list_elem_of_singleton in Hx. subst x. exact Hok.
  - cbn. apply elem_of_app. right. apply list_elem_of_here.
Qed.

Lemma addEventListener_installing (l : listener) :
  returns (λ w, installing native an w ∧ own_listener l w) (addEventListener l)
          (λ _, installing native an).
Proof.
  eapply returns_weaken; [apply addEventListener_adds | done |].
  by intros ? w [H _].
Qed.

Lemma handleResize_installing :
  returns (installing native an) handleResize (λ _, installing native an).
Proof.
  set (R := λ w, accounted w ∧ uncaught w = 0%nat ∧ anchors w = an ∧
                 supportsNativeSmoothScroll (this w) = native).
  assert (HR : besides_styles_and_cache R).
  { unfold besides_styles_and_cache, besides_styles.
    split; [split; [|split] | split; [|split; [|split]]]; intros w x H; exact H. }
  eapply returns_weaken.
  - apply (returns_preserves alive R); [apply handleResize_returns|].
    apply (handleResize_besides R HR). by intros w a b H.
  - intros w (Ha & H). by split.
  - intros ? w (Ha & H). by split.
Qed.

Lemma destroy_keeps_uncaught (n : nat) :
  preserves (λ w, uncaught w = n) destroy.
Proof.
  unfold destroy, clearRectCache, removeEventListener, assign, cancelAnimationFrame.
  repeat first
    [ apply preserves_ret | apply preserves_throw | apply preserves_get
    | apply preserves_self | apply preserves_deref | apply preserves_method
    | apply preserves_for_each; intros ?
    | apply preserves_bind; [|intros ?]
    | match goal with |- preserves _ (if ?b then _ else _) => destruct b end ];
    apply preserves_update; intros w H; exact H.
Qed.

(** [new ScrollHandler()] on a page on which no script has run. *)
Lemma construct_installs (boxes : elem → Q * Q) (wn : window) (bar : option elem)
    (images : list elem) :
  returns (λ w, w = blank boxes an wn) (construct native bar images)
          (λ _ w, installing native an w ∧ ReducedMotion QueryOfInit ∈ listeners w).
Proof.
  unfold construct.
  eapply returns_bind with (R := λ _, installing native an).
  { apply returns_assign. intros w ->. split.
    - unfold alive, fresh. cbn. repeat split; by eexists.
    - split; [|done]. intros l Hl. by apply elem_of_nil in Hl. }
  intros ?. unfold init.
  eapply returns_bind with (R := λ _, installing native an).
  { eapply returns_weaken; [apply (addEventListener_installing OnScroll) | | done].
    by intros w Hw. }
  intros ?. eapply returns_bind with (R := λ _, installing native an).
  { eapply returns_weaken; [apply (addEventListener_installing ThrottledResize) | | done].
    by intros w Hw. }
  intros ?. eapply returns_bind; [apply returns_self | intros h]. cbn beta.
  eapply returns_bind with (R := λ _, installing native an).
  { intros w [-> Hw]. destruct (supportsNativeSmoothScroll (this w)) eqn:En.
    { exists tt, w. done. }
    assert (Hm : returns (λ w', w' = w)
                   (w1 ← get;
                    assign (set_handlers true (reducedMotionHandler (this w)));;
                    for_each (λ a, addEventListener (AnchorClick a)) (anchors w1))
                   (λ _, installing native an)); [|by apply Hm].
    eapply returns_bind; [apply returns_get | intros w1]. cbn beta.
    eapply returns_bind
      with (R := λ _ w', (installing native an w' ∧
                          supportsNativeSmoothScroll (this w') = false ∧
                          smoothScrollHandler (this w') = true) ∧ anchors w' = anchors w1).
    { apply returns_assign. intros w' [-> ->]. split; [|reflexivity].
      split; [|by split]. revert Hw. apply installing_frame; cbn; auto. }
    intros ?. eapply returns_weaken
      with (P' := λ w', installing native an w' ∧
                        supportsNativeSmoothScroll (this w') = false ∧
                        smoothScrollHandler (this w') = true ∧ anchors w' = anchors w1)
           (Q' := λ _ w', installing native an w' ∧
                          supportsNativeSmoothScroll (this w') = false ∧
                          smoothScrollHandler (this w') = true ∧ anchors w' = anchors w1).
    - apply returns_for_each_in. intros anchor Hin.
      intros w' (Hw' & Hn' & Hs' & Ha').
      destruct (addEventListener_installing (AnchorClick anchor) w') as (r0 & w'' & E & H'').
      { split; [exact Hw'|]. cbn. rewrite Ha'. done. }
      exists r0, w''. split; [exact E|]. split; [exact H''|].
      unfold addEventListener, update in E. injection E as _ <-.
      case_bool_decide; done.
    - intros w' ((H1 & H2 & H3) & H4). done.
    - intros ? w' (H1 & _). exact H1. }
  intros ?. eapply returns_bind with (R := λ _, installing native an).
  { apply returns_method. intros w (Ha & _). by apply alive_bound. }
  intros ?. eapply returns_bind; [apply handleResize_installing | intros ?].
  eapply returns_bind with (R := λ _, installing native an).
  { intros w Hw. by exists w, w. }
  intros w1. eapply returns_bind with (R := λ _, installing native an).
  { apply returns_assign. intros w. apply installing_frame; cbn; auto. }
  intros ?. eapply returns_bind; [apply returns_self | intros h']. cbn beta.
  eapply returns_bind
    with (R := λ _ w, installing native an w ∧ reducedMotionHandler (this w) = true).
  { apply returns_assign. intros w [-> Hw]. split; [|reflexivity].
    revert Hw. apply installing_frame; cbn; auto. }
  intros ?. eapply returns_weaken;
    [apply (addEventListener_adds (ReducedMotion QueryOfInit)) | | done].
  intros w [Hw Hh]. by split.
Qed.

End InstallFacts.

(** X23.  A handler that is constructed and destroyed leaves one
    listener behind, the change listener of the media query.  On a handler
    in use, when every listener on the page is one of the handler's,
    [destroy] returns and the listeners left on the page are the change
    listeners that were there.  The constructor, on a page on which no
    script has run, returns with the handler in use, every listener being
    one of the handler's and the change listener among them, with native
    smooth scrolling and with the polyfill, whatever the anchors of the
    page; after [destroy] the change listener is on the page and no other
    listener is. *)
Theorem construct_then_destroy_leaves_the_change_listener :
  (∀ w : ScrollHandler.world,
      alive w → accounted w →
      ∃ w', ScrollHandler.destroy w = (ScrollHandler.Ok tt, w') ∧
            ∀ l, l ∈ ScrollHandler.listeners w'
                 ↔ l = ScrollHandler.ReducedMotion ScrollHandler.QueryOfInit ∧
                   l ∈ ScrollHandler.listeners w) ∧
  (∀ (boxes : ScrollHandler.elem → Q * Q) (anchors : list ScrollHandler.elem)
     (wn : ScrollHandler.window) (native : bool) (bar : option ScrollHandler.elem)
     (images : list ScrollHandler.elem),
      let w := ScrollHandler.task (ScrollHandler.construct native bar images)
                 (ScrollHandler.blank boxes anchors wn) in
      alive w ∧ accounted w ∧ ScrollHandler.uncaught w = 0%nat ∧
      ScrollHandler.ReducedMotion ScrollHandler.QueryOfInit ∈ ScrollHandler.listeners w ∧
      (∀ l, l ∈ ScrollHandler.listeners (ScrollHandler.task ScrollHandler.destroy w)
            ↔ l = ScrollHandler.ReducedMotion ScrollHandler.QueryOfInit) ∧
      ScrollHandler.uncaught (ScrollHandler.task ScrollHandler.destroy w) = 0%nat).
Proof.
  assert (Hd : ∀ w : ScrollHandler.world,
            alive w → accounted w →
            ∃ w', ScrollHandler.destroy w = (ScrollHandler.Ok tt, w') ∧
                  (∀ l, l ∈ ScrollHandler.listeners w'
                        ↔ l = ScrollHandler.ReducedMotion ScrollHandler.QueryOfInit ∧
                          l ∈ ScrollHandler.listeners w) ∧
                  ScrollHandler.uncaught w' = ScrollHandler.uncaught w).
  { intros w Hw Hacc.
    destruct (destroy_releases w w (conj eq_refl Hw))
      as ([] & w' & E & Ht & Hls & H1 & H2 & Hrm & Han).
    exists w'. split; [exact E|]. split.
    - intros l. split.
      + intros Hin. pose proof (Hacc l (Hls l Hin)) as Hl. split; [|by apply Hls].
        destruct l as [| | q |a].
        * by apply H1 in Hin.
        * by apply H2 in Hin.
        * destruct Hl as [-> _]. reflexivity.
        * destruct Hl as (Hn & Hs & Ha). by apply (Han Hn Hs a Ha) in Hin.
      + intros [-> Hin]. by apply Hrm.
    - pose proof (destroy_keeps_uncaught (ScrollHandler.uncaught w) w eq_refl) as Hu.
      by rewrite E in Hu. }
  split.
  - intros w Hw Hacc. destruct (Hd w Hw Hacc) as (w' & E & Hl & _). by exists w'.
  - intros boxes anchors wn native bar images. cbv zeta.
    destruct (construct_installs native anchors boxes wn bar images _ eq_refl)
      as ([] & w & E & (Ha & Hacc & Hu & _) & Hq).
    assert (Ew : ScrollHandler.task (ScrollHandler.construct native bar images)
                   (ScrollHandler.blank boxes anchors wn) = w)
      by (unfold ScrollHandler.task; by rewrite E).
    rewrite Ew. destruct (Hd w Ha Hacc) as (w' & E' & Hl & Hu').
    assert (Ed : ScrollHandler.task ScrollHandler.destroy w = w')
      by (unfold ScrollHandler.task; by rewrite E').
    rewrite Ed.
    split; [exact Ha|]. split; [exact Hacc|]. split; [exact Hu|]. split; [exact Hq|].
    split; [|by rewrite Hu'].
    intros l. rewrite Hl. split; [by intros [H _] | by intros ->].
Qed.

(** The handler that has just been made on the page with an image. *)
Lemma construct_then_destroy_leaves_the_change_listener_witness :
  ∃ w', ScrollHandler.destroy
          (ScrollHandler.task (ScrollHandler.construct true (Some 7%nat) [3%nat])
             (ScrollHandler.blank (λ _, (0, 100)%Q) []
                (ScrollHandler.Window 0 800 1000 20 false)))
        = (ScrollHandler.Ok tt, w') ∧
        ScrollHandler.ReducedMotion ScrollHandler.QueryOfInit ∈ ScrollHandler.listeners w' ∧
        (ScrollHandler.OnScroll ∉ ScrollHandler.listeners w').
Proof.
  destruct (proj2 construct_then_destroy_leaves_the_change_listener
              (λ _, (0, 100)%Q) [] (ScrollHandler.Window 0 800 1000 20 false)
              true (Some 7%nat) [3%nat]) as (Ha & Hacc & _ & Hq & _).
  destruct (proj1 construct_then_destroy_leaves_the_change_listener _ Ha Hacc)
    as (w' & E & Hl).
  exists w'. split; [exact E|]. split.
  - apply Hl. split; [reflexivity | exact Hq].
  - intros Hin. apply Hl in Hin as [Hne _]. discriminate Hne.
Defined.

(** ** The scroll coordinator: timers *)

Section TimerFacts.
Import ScrollHandler.
Local Open Scope Z_scope.

Lemma filter_drop_length {A : Type} (P Q : A → Prop) `{∀ x, Decision (P x)}
    `{∀ x, Decision (Q x)} (l : list A) :
  (length (filter P (filter Q l)) ≤ length (filter P l))%nat.
Proof.
  induction l as [|x l IH]; [done|].
  rewrite (filter_cons Q). destruct (decide (Q x)).
  - rewrite !filter_cons. destruct (decide (P x)); cbn; lia.
  - rewrite filter_cons. destruct (decide (P x)); cbn; lia.
Qed.

Lemma filter_single {A : Type} (P : A → Prop) `{∀ x, Decision (P x)} (l : list A)
    (x y : A) :
  (length (filter P l) ≤ 1)%nat → x ∈ filter P l → y ∈ filter P l → x = y.
Proof.
  destruct (filter P l) as [|a [|b l']]; cbn; intros Hl Hx Hy.
  - by apply elem_of_nil in Hx.
  - apply list_elem_of_singleton in Hx, Hy. by subst.
  - lia.
Qed.

Lemma earliest_elem {C : Type} (l : list (Timers.timer C)) (tm : Timers.timer C) :
  Timers.earliest l = Some tm → tm ∈ l.
Proof.
  revert tm. induction l as [|x l IH]; intros tm; [done|]. cbn.
  destruct (Timers.earliest l) as [tm'|].
  - destruct (_ <? _); intros [= <-];
      [apply list_elem_of_further; by apply IH | apply list_elem_of_here].
  - intros [= <-]. apply list_elem_of_here.
Qed.

Lemma tidy_frame (w w' : world) :
  timers w' = timers w → timeout (this w') = timeout (this w) →
  inThrottle (this w') = inThrottle (this w) → tidy w → tidy w'.
Proof.
  intros E1 E2 E3. unfold tidy, later_timers, release_timers. by rewrite E1, E2, E3.
Qed.

Lemma tidy_besides : besides_styles_and_cache tidy.
Proof.
  unfold besides_styles_and_cache, besides_styles.
  split; [split; [|split] | split; [|split; [|split]]];
    intros w x; by apply tidy_frame.
Qed.

(** Timers are taken off the table. *)
Lemma tidy_drop (w : world) (i : nat) (n : nat) :
  tidy w →
  tidy (with_timers (Timers.Table n (Timers.drop i (Timers.pending (timers w)))) w).
Proof.
  intros (H1 & H2 & H3 & H4). unfold tidy, later_timers, release_timers, Timers.drop in *.
  cbn. split; [|split; [|split]].
  - intros tm Htm. apply H1. apply list_elem_of_filter in Htm as [Hp Htm].
    apply list_elem_of_filter. split; [exact Hp|].
    by apply list_elem_of_filter in Htm as [_ Htm].
  - intros tm Htm. apply (H2 tm). apply list_elem_of_filter in Htm as [Hp Htm].
    apply list_elem_of_filter. split; [exact Hp|].
    by apply list_elem_of_filter in Htm as [_ Htm].
  - etrans; [apply filter_drop_length | exact H3].
  - etrans; [apply filter_drop_length | exact H4].
Qed.

Lemma clearTimeout_tidy (h : option nat) : preserves tidy (clearTimeout h).
Proof.
  apply preserves_update. intros w Hw. destruct h as [i|]; [|by destruct w as [? ? ? ? ? []]].
  cbn. by apply tidy_drop.
Qed.

(** [debouncedParallax] leaves one debounce timer, the new one. *)
Lemma debouncedParallax_tidy : preserves tidy debouncedParallax.
Proof.
  intros w (H1 & H2 & H3 & H4). unfold debouncedParallax, mbind, M_bind, self, clearTimeout,
    setTimeout, assign, update. cbn.
  set (rest := Timers.pending (Timers.clearTimeout (timeout (this w)) (timers w))).
  assert (Hsub : ∀ tm, tm ∈ rest → tm ∈ Timers.pending (timers w)).
  { intros tm. unfold rest. destruct (timeout (this w)); [|done]. cbn.
    intros Htm. by apply list_elem_of_filter in Htm as [_ Htm]. }
  assert (Hnone : filter (λ tm, is_later tm = true) rest = []).
  { destruct (filter (λ tm, is_later tm = true) rest) as [|tm l] eqn:E; [reflexivity|].
    exfalso.
    assert (Hf : tm ∈ filter (λ tm, is_later tm = true) rest)
      by (rewrite E; apply list_elem_of_here).
    apply list_elem_of_filter in Hf as [Hl Htm]. unfold rest in Htm.
    assert (Hin : tm ∈ later_timers w).
    { apply list_elem_of_filter. split; [exact Hl | by apply Hsub]. }
    specialize (H1 tm Hin). rewrite H1 in Htm. cbn in Htm.
    apply list_elem_of_filter in Htm as [Hne _]. by apply Hne. }
  assert (Hrel : (length (filter (λ tm, is_release tm = true) rest) ≤ 1)%nat).
  { unfold rest. destruct (timeout (this w)); [|exact H4]. cbn.
    etrans; [apply filter_drop_length | exact H4]. }
  unfold tidy, later_timers, release_timers.
  destruct (Timers.clearTimeout (timeout (this w)) (timers w)) as [nid pend] eqn:Eq.
  cbn in *. subst rest. rewrite !filter_app, Hnone. cbn.
  destruct (decide (true = true)) as [_|Hn]; [|by destruct Hn].
  destruct (decide (false = true)) as [Hn|_]; [discriminate|].
  rewrite app_nil_r. split; [|split; [|split]].
  - intros tm Htm. apply list_elem_of_singleton in Htm. by subst tm.
  - intros tm Htm. apply (H2 tm). apply list_elem_of_filter in Htm as [Hp Htm].
    apply list_elem_of_filter. split; [exact Hp | by apply Hsub].
  - cbn. lia.
  - exact Hrel.
Qed.

Lemma updateParallax_tidy : preserves tidy updateParallax.
Proof. apply updateParallax_besides, tidy_besides. Qed.

Lemma updateScrollProgress_tidy : preserves tidy updateScrollProgress.
Proof. apply updateScrollProgress_besides, tidy_besides. Qed.

Lemma handleResize_tidy : preserves tidy handleResize.
Proof.
  apply (handleResize_besides tidy tidy_besides). intros w a b. by apply tidy_frame.
Qed.

Lemma scrollTick_tidy : preserves tidy scrollTick.
Proof.
  unfold scrollTick.
  apply preserves_bind; [apply preserves_method | intros ?].
  apply preserves_bind; [apply updateScrollProgress_tidy | intros ?].
  apply preserves_bind; [apply preserves_self | intros h].
  apply preserves_bind.
  - destruct (default false _); [apply preserves_ret|].
    apply preserves_bind; [apply preserves_method | intros ?].
    apply debouncedParallax_tidy.
  - intros ?. apply preserves_update. intros w. by apply tidy_frame.
Qed.

Lemma later_tidy : preserves tidy later.
Proof.
  unfold later. apply preserves_bind; [apply preserves_self | intros h].
  apply preserves_bind; [apply clearTimeout_tidy | intros ?].
  apply updateParallax_tidy.
Qed.

Lemma applyStyles_tidy : preserves tidy applyStyles.
Proof.
  unfold applyStyles. apply preserves_bind; [apply preserves_self | intros h].
  apply preserves_bind; [apply preserves_deref | intros pending].
  apply preserves_bind.
  - apply preserves_for_each. intros entry. apply preserves_for_each. intros pv.
    apply preserves_update. intros w. by apply tidy_frame.
  - intros ?. apply preserves_bind; [|intros ?];
      apply preserves_update; intros w; by apply tidy_frame.
Qed.

Lemma onScroll_tidy : preserves tidy onScroll.
Proof.
  unfold onScroll. apply preserves_bind; [apply preserves_get | intros w0]. cbv zeta.
  apply preserves_bind;
    [apply preserves_update; intros w; by apply tidy_frame | intros ?].
  destruct (ticking (this w0)); [apply preserves_ret|].
  apply preserves_bind; [|intros ?; apply preserves_update; intros w; by apply tidy_frame].
  intros w Hw. unfold requestAnimationFrame. cbn. revert Hw. by apply tidy_frame.
Qed.

Lemma destroy_tidy : preserves tidy destroy.
Proof.
  unfold destroy, clearRectCache, removeEventListener, assign, cancelAnimationFrame.
  repeat first
    [ apply preserves_ret | apply preserves_throw | apply preserves_get
    | apply preserves_self | apply preserves_deref | apply preserves_method
    | apply preserves_for_each; intros ?
    | apply preserves_bind; [|intros ?]
    | match goal with |- preserves _ (if ?b then _ else _) => destruct b end ];
    apply preserves_update; intros w; by apply tidy_frame.
Qed.

(** The throttle arms its timer when there is none. *)
Lemma throttledResize_tidy : preserves tidy throttledResize.
Proof.
  intros w Hw. unfold throttledResize.
  rewrite (bind_ok self _ w w (this w) eq_refl).
  destruct (inThrottle (this w)) eqn:Et; [exact Hw|].
  assert (Hm : preserves (λ w0, tidy w0 ∧ inThrottle (this w0) = false) handleResize).
  { assert (HR : besides_styles_and_cache
                   (λ w0, tidy w0 ∧ inThrottle (this w0) = false)).
    { unfold besides_styles_and_cache, besides_styles.
      split; [split; [|split] | split; [|split; [|split]]];
        intros w0 x [H1 H2]; (split; [revert H1; by apply tidy_frame | exact H2]). }
    apply (handleResize_besides _ HR). intros w0 a b [H1 H2].
    split; [revert H1; by apply tidy_frame | exact H2]. }
  specialize (Hm w (conj Hw Et)). unfold mbind at 1, M_bind at 1.
  destruct (handleResize w) as [[[]|] w1]; cbn [snd] in Hm; [|by destruct Hm].
  destruct Hm as [(H1 & H2 & H3 & H4) Et1].
  unfold mbind, M_bind, assign, update, setTimeout. cbn.
  assert (Hnone : release_timers w1 = []).
  { destruct (release_timers w1) as [|tm l] eqn:E; [reflexivity|].
    pose proof (H2 tm (list_elem_of_here tm l)). congruence. }
  unfold tidy, later_timers, release_timers in *. cbn.
  rewrite !filter_app, Hnone. cbn.
  destruct (decide (true = true)) as [_|Hn]; [|by destruct Hn].
  destruct (decide (false = true)) as [Hn|_]; [discriminate|].
  rewrite app_nil_r. split; [exact H1|]. split; [done|]. split; [exact H3 | cbn; lia].
Qed.

Lemma tidy_task (m : M unit) (w : world) : preserves tidy m → tidy w → tidy (task m w).
Proof.
  intros Hm Hw. apply preserves_task; [|exact Hm | exact Hw].
  intros w1. by apply tidy_frame.
Qed.

Lemma tidy_dispatch (l : listener) (m : M unit) (w : world) :
  preserves tidy m → tidy w → tidy (dispatch l m w).
Proof.
  intros Hm Hw. unfold dispatch. case_bool_decide; [by apply tidy_task | exact Hw].
Qed.

Lemma fire_due_tidy (fuel : nat) (t : Z) (w : world) :
  tidy w → tidy (fire_due fuel t w).
Proof.
  revert w. induction fuel as [|fuel IH]; intros w Hw; [exact Hw|].
  cbn [fire_due]. destruct (Timers.earliest _) as [tm|] eqn:Ee; [|exact Hw].
  destruct (_ <=? _); [|exact Hw]. cbv zeta. apply IH.
  apply earliest_elem in Ee.
  set (w1 := with_timers _ _).
  assert (Hw1 : tidy w1).
  { unfold w1. apply (tidy_frame (with_timers
                        (Timers.Table (Timers.next_id (timers w))
                           (Timers.drop (Timers.timer_id tm) (Timers.pending (timers w))))
                        w)); [reflexivity..|].
    by apply tidy_drop. }
  unfold run_timer_cb. destruct (Timers.timer_cb tm) eqn:Ecb.
  - (* the throttle timer: no other one is armed *)
    unfold task, assign, update. cbn [fst snd].
    destruct Hw as (H1 & H2 & H3 & H4). destruct Hw1 as (G1 & G2 & G3 & G4).
    assert (Hnone : release_timers w1 = []).
    { destruct (release_timers w1) as [|tm' l] eqn:E; [reflexivity|]. exfalso.
      assert (Hin : tm' ∈ release_timers w1) by (rewrite E; apply list_elem_of_here).
      unfold release_timers, w1 in Hin. cbn in Hin.
      apply list_elem_of_filter in Hin as [Hr Hin].
      apply list_elem_of_filter in Hin as [Hne Hin].
      assert (tm = tm'); [|by subst].
      apply (filter_single (λ tm, is_release tm = true) (Timers.pending (timers w)));
        [exact H4 | |]; apply list_elem_of_filter; split; try done.
      unfold is_release. by rewrite Ecb. }
    unfold tidy. unfold later_timers, release_timers in *. cbn in *.
    rewrite Hnone. split; [exact G1|]. split; [|split; [exact G3 | cbn; lia]].
    intros tm' Htm'. by apply elem_of_nil in Htm'.
  - by apply tidy_task; [apply later_tidy|].
Qed.

Lemma frame_tidy (cbs : list (nat * frame_cb)) (w : world) :
  tidy w → tidy (foldl run_frame_cb w cbs).
Proof.
  revert w. induction cbs as [|r cbs IH]; intros w Hw; [exact Hw|].
  cbn [foldl]. apply IH. unfold run_frame_cb. destruct (r.2).
  - by apply tidy_task; [apply applyStyles_tidy|].
  - by apply tidy_task; [apply scrollTick_tidy|].
Qed.

Lemma react_tidy (w : world) (ev : event) :
  is_construct ev = false → tidy w → tidy (react w ev).
Proof.
  intros Hev Hw. destruct ev as [native bar images|y|ih sh|sh|b| |t|]; cbn [react].
  - discriminate.
  - apply tidy_dispatch; [apply onScroll_tidy|]. revert Hw. by apply tidy_frame.
  - apply tidy_dispatch; [apply throttledResize_tidy|]. revert Hw. by apply tidy_frame.
  - revert Hw. by apply tidy_frame.
  - apply tidy_dispatch.
    + apply preserves_update. intros w1. by apply tidy_frame.
    + revert Hw. by apply tidy_frame.
  - destruct (Frames.take (frames w)) as [cbs q]. apply frame_tidy.
    revert Hw. by apply tidy_frame.
  - cbv zeta. set (w' := fire_due _ t w).
    assert (Hw' : tidy w') by (by apply fire_due_tidy).
    revert Hw'. by apply tidy_frame.
  - by apply tidy_task; [apply destroy_tidy|].
Qed.

Lemma construct_arms_nothing (native : bool) (bar : option elem) (images : list elem)
    (q : Timers.table timer_cb) :
  preserves (λ w, timers w = q) (construct native bar images).
Proof.
  assert (HR : besides_styles_and_cache (λ w, timers w = q)).
  { unfold besides_styles_and_cache, besides_styles.
    split; [split; [|split] | split; [|split; [|split]]]; intros w x H; exact H. }
  unfold construct, init, addEventListener, assign.
  apply preserves_bind; [apply preserves_update; by intros w H | intros ?].
  apply preserves_bind;
    [apply preserves_update; intros w H; by case_bool_decide | intros ?].
  apply preserves_bind;
    [apply preserves_update; intros w H; by case_bool_decide | intros ?].
  apply preserves_bind; [apply preserves_self | intros h].
  apply preserves_bind.
  { destruct (supportsNativeSmoothScroll h); [apply preserves_ret|].
    apply preserves_bind; [apply preserves_get | intros w0].
    apply preserves_bind; [apply preserves_update; by intros w H | intros ?].
    apply preserves_for_each. intros anchor.
    apply preserves_update; intros w H; by case_bool_decide. }
  intros ?. apply preserves_bind; [apply preserves_method | intros ?].
  apply preserves_bind;
    [apply (handleResize_besides _ HR); by intros w x1 x2 H | intros ?].
  apply preserves_bind; [apply preserves_get | intros w0].
  apply preserves_bind; [apply preserves_update; by intros w H | intros ?].
  apply preserves_bind; [apply preserves_self | intros h'].
  apply preserves_bind; [apply preserves_update; by intros w H | intros ?].
  apply preserves_update; intros w H; by case_bool_decide.
Qed.

End TimerFacts.

(** X24.  The timers do not pile up.  After the constructor has run on
    a page on which no script has run, and after any scrolls, resizes,
    changes of the preference, frames, waits and a [destroy] that follow,
    at most one timer of the parallax debounce and at most one timer of the
    resize throttle are armed; the debounce timer is the one that the
    closure's [timeout] names, and a throttle timer is armed only while
    [inThrottle] is up. *)
Theorem timers_do_not_pile_up (boxes : ScrollHandler.elem → Q * Q)
    (anchors : list ScrollHandler.elem) (wn : ScrollHandler.window) (native : bool)
    (bar : option ScrollHandler.elem) (images : list ScrollHandler.elem)
    (evs : list ScrollHandler.event) :
  forallb (λ ev, negb (is_construct ev)) evs = true →
  let w := ScrollHandler.play (ScrollHandler.Construct native bar images :: evs)
             (ScrollHandler.blank boxes anchors wn) in
  (length (later_timers w) ≤ 1)%nat ∧ (length (release_timers w) ≤ 1)%nat ∧
  (∀ tm, tm ∈ later_timers w →
         ScrollHandler.timeout (ScrollHandler.this w) = Some (Timers.timer_id tm)) ∧
  (∀ tm, tm ∈ release_timers w →
         ScrollHandler.inThrottle (ScrollHandler.this w) = true).
Proof.
  intros Hevs. cbv zeta. cbn [ScrollHandler.play foldl].
  fold (ScrollHandler.play evs
          (ScrollHandler.react (ScrollHandler.blank boxes anchors wn)
             (ScrollHandler.Construct native bar images))).
  assert (H0 : tidy (ScrollHandler.react (ScrollHandler.blank boxes anchors wn)
                       (ScrollHandler.Construct native bar images))).
  { cbn [ScrollHandler.react].
    assert (Hq : ScrollHandler.timers
                   (ScrollHandler.task (ScrollHandler.construct native bar images)
                      (ScrollHandler.blank boxes anchors wn)) = Timers.empty).
    { apply (preserves_task (λ w, ScrollHandler.timers w = Timers.empty));
        [by intros w H | apply construct_arms_nothing | reflexivity]. }
    unfold tidy, later_timers, release_timers. rewrite Hq. cbn.
    split; [|split; [|split; lia]]; intros tm Htm; by apply elem_of_nil in Htm. }
  revert H0. generalize (ScrollHandler.react (ScrollHandler.blank boxes anchors wn)
                           (ScrollHandler.Construct native bar images)) as w.
  induction evs as [|ev evs IH]; intros w Hw.
  - destruct Hw as (H1 & H2 & H3 & H4). done.
  - cbn [forallb] in Hevs. apply andb_prop in Hevs as [Hev Hevs].
    cbn [ScrollHandler.play foldl]. apply (IH Hevs). apply react_tidy; [|exact Hw].
    by apply negb_true_iff in Hev.
Qed.

(** A page with an image that is scrolled three times, with frames and
    waits in between, and resized twice. *)
Lemma timers_do_not_pile_up_witness :
  (length
     (later_timers
        (ScrollHandler.play
           (ScrollHandler.Construct true (Some 7%nat) [3%nat]
            :: [ScrollHandler.Scroll 100; ScrollHandler.Frame; ScrollHandler.Advance 30;
                ScrollHandler.Scroll 200; ScrollHandler.Frame; ScrollHandler.Resize 600 2000;
                ScrollHandler.Scroll 300; ScrollHandler.Frame;
                ScrollHandler.Resize 500 2500])
           (ScrollHandler.blank (λ _, (0, 100)%Q) []
              (ScrollHandler.Window 0 800 1000 20 false)))) ≤ 1)%nat.
Proof.
  exact (proj1 (timers_do_not_pile_up (λ _, (0, 100)%Q) []
                  (ScrollHandler.Window 0 800 1000 20 false) true (Some 7%nat) [3%nat]
                  [ScrollHandler.Scroll 100; ScrollHandler.Frame; ScrollHandler.Advance 30;
                   ScrollHandler.Scroll 200; ScrollHandler.Frame;
                   ScrollHandler.Resize 600 2000;
                   ScrollHandler.Scroll 300; ScrollHandler.Frame;
                   ScrollHandler.Resize 500 2500] eq_refl)).
Defined.

(** ** [main.js]: the navigation bar *)

Section NavbarFacts.
Import Main.
Local Open Scope Z_scope.

Lemma handleScroll_handled (p : page) :
  navbar p = true → one_timer p → handleScroll p = (true, handled p).
Proof.
  intros Hn Ht. unfold one_timer in Ht.
  destruct p as [nb hd sc y t ls st tk [nid pend] fr un]. cbn in *. subst nb.
  unfold handleScroll, handled. cbn.
  destruct pend as [|tm [|tm' pend]]; [| |done].
  - destruct st; reflexivity.
  - destruct Ht as [-> _]. cbn. unfold Timers.drop. cbn.
    rewrite decide_False by (intros H; by apply H). reflexivity.
Qed.

Lemma scroll_settled (p : page) (y : Q) :
  nav_settled p → nav_settled (react p (Scroll y)).
Proof.
  intros (Hn & Hf & Ht). cbn [react]. unfold onScroll.
  cbn [ticking set_pageYOffset]. destruct (ticking p) eqn:Etk.
  - split; [exact Hn|]. split; [cbn; by rewrite Etk | exact Ht].
  - split; [exact Hn|]. split; [|exact Ht].
    cbn. rewrite Hf. by eexists.
Qed.

Lemma frame_step (p : page) :
  nav_settled p →
  react p Frame
  = if ticking p
    then set_ticking false
           (handled (set_frames (Frames.Queue (Frames.next_handle (frames p)) []) p))
    else p.
Proof.
  intros (Hn & Hf & Ht). cbn [react Frames.take].
  destruct (ticking p) eqn:Etk.
  - destruct Hf as [h Hf]. rewrite Hf. cbn [foldl]. unfold run_frame_cb. cbn [snd].
    rewrite handleScroll_handled; [reflexivity | exact Hn | exact Ht].
  - rewrite Hf. cbn [foldl]. destruct p as [nb hd sc y t ls st tk tm [nh rq] un].
    cbn in *. by subst rq.
Qed.

Lemma frame_settled (p : page) :
  nav_settled p → nav_settled (react p Frame).
Proof.
  intros Hp. rewrite (frame_step p Hp). destruct (ticking p); [|exact Hp].
  split; [reflexivity|]. split; [reflexivity|].
  unfold one_timer. cbn. split; [reflexivity | lia].
Qed.

Lemma advance_step (p : page) (t : Z) :
  navbar p = true → one_timer p →
  one_timer (react p (Advance t)) ∧
  navbar (react p (Advance t)) = true ∧
  ticking (react p (Advance t)) = ticking p ∧
  frames (react p (Advance t)) = frames p ∧
  (now p + 150 ≤ t → hide (react p (Advance t)) = false).
Proof.
  intros Hn Ht. unfold one_timer in *.
  destruct p as [nb hd sc y nw ls st tk [nid pend] fr un]. cbn in *. subst nb.
  destruct pend as [|[h due []] [|tm' pend]]; [| |done].
  - cbn. done.
  - destruct Ht as [-> Hd]. cbn in Hd.
    cbn [length fire_due timers Timers.pending Timers.earliest Timers.timer_due].
    destruct (due <=? t) eqn:E.
    + cbn. unfold Timers.drop. cbn.
      rewrite decide_False by (intros H; by apply H). cbn. done.
    + cbn. apply Z.leb_gt in E. repeat split; try done; try lia.
Qed.

Lemma advance_settled (p : page) (t : Z) :
  nav_settled p → nav_settled (react p (Advance t)).
Proof.
  intros (Hn & Hf & Ht).
  destruct (advance_step p t Hn Ht) as (H1 & H2 & H3 & H4 & _).
  split; [exact H2|]. split; [by rewrite H3, H4 | exact H1].
Qed.

Lemma play_settled (evs : list nav_event) (p : page) :
  nav_settled p → nav_settled (play evs p).
Proof.
  revert p. induction evs as [|ev evs IH]; intros p Hp; [exact Hp|].
  cbn [play foldl]. apply IH. destruct ev as [y| |t].
  - by apply scroll_settled.
  - by apply frame_settled.
  - by apply advance_settled.
Qed.

Lemma nav_play_snoc (evs : list nav_event) (ev : nav_event) (p : page) :
  play (evs ++ [ev]) p = react (play evs p) ev.
Proof. unfold play. by rewrite foldl_app. Qed.

Lemma scrolls_settled (p : page) (ys : list Q) (y : Q) :
  nav_settled p → ticking p = false →
  play (Scroll <$> (ys ++ [y])) p
  = set_ticking true
      (set_frames (Frames.requestAnimationFrame Tick (frames p)).2 (set_pageYOffset y p)).
Proof.
  intros Hp Htk. revert y. induction ys as [|y0 ys IH] using rev_ind; intros y.
  - cbn. unfold onScroll. cbn. by rewrite Htk.
  - rewrite fmap_app. cbn [fmap list_fmap]. rewrite nav_play_snoc. rewrite IH.
    cbn. reflexivity.
Qed.

Lemma stuck_react (p : page) (ev : nav_event) : nav_stuck p → nav_stuck (react p ev).
Proof.
  intros (H1 & H2 & H3 & H4 & H5 & H6 & H7).
  destruct p as [nb hd sc y nw ls st tk [nid pend] [nh rq] un]. cbn in *. subst.
  destruct ev as [y'| |t]; cbn; done.
Qed.

Lemma stuck_play (evs : list nav_event) (p : page) : nav_stuck p → nav_stuck (play evs p).
Proof.
  revert p. induction evs as [|ev evs IH]; intros p Hp; [exact Hp|].
  cbn [play foldl]. apply IH. by apply stuck_react.
Qed.

End NavbarFacts.

(** X21.  The navigation bar comes back.  On a page that has the bar,
    after any scrolls, frames and waits at most one timer is armed, and
    once 150 ms have passed without a frame the bar is not hidden.  Any
    number of scroll events between two frames are handled once, in the
    next frame, at the last offset: the bar is hidden when that offset is
    greater than the last handled one and greater than 100, it has the
    class [scrolled] when the offset is greater than 50, and the timer that
    shows the bar again is due 150 ms later.  On a page without the bar
    the first handled scroll throws before the flag [ticking] is lowered,
    and no scroll is handled after it. *)
Theorem navbar_comes_back :
  (∀ (evs : list Main.nav_event),
      let p := Main.play evs (Main.page_init true) in
      (length (Timers.pending (Main.timers p)) ≤ 1)%nat ∧
      ∀ t, (Main.now p + 150 ≤ t)%Z → Main.hide (Main.react p (Main.Advance t)) = false) ∧
  (∀ (evs : list Main.nav_event) (ys : list Q) (y : Q),
      let p := Main.play evs (Main.page_init true) in
      Main.ticking p = false →
      let p' := Main.play ((Main.Scroll <$> (ys ++ [y])) ++ [Main.Frame]) p in
      Main.hide p'
      = ScrollHandler.less (Main.lastScroll p) y && ScrollHandler.less 100 y ∧
      Main.scrolled p' = ScrollHandler.less 50 y ∧
      Main.lastScroll p' = y ∧
      Main.ticking p' = false ∧
      Timers.pending (Main.timers p')
      = [Timers.Timer (Timers.next_id (Main.timers p)) (Main.now p + 150) Main.Unhide]) ∧
  (∀ (evs : list Main.nav_event) (y : Q),
      let p := Main.play (Main.Scroll y :: Main.Frame :: evs) (Main.page_init false) in
      Main.ticking p = true ∧ Frames.requested (Main.frames p) = [] ∧
      Main.uncaught p = 1%nat ∧ Main.scrolled p = false).
Proof.
  assert (H0 : nav_settled (Main.page_init true)) by (by repeat split).
  split; [|split].
  - intros evs. cbv zeta.
    pose proof (play_settled evs _ H0) as (Hn & Hf & Ht).
    split.
    + unfold one_timer in Ht.
      destruct (Timers.pending _) as [|tm [|tm' l]]; cbn; [lia | lia | done].
    + intros t Hle. by apply advance_step.
  - intros evs ys y. cbv zeta. intros Htk.
    pose proof (play_settled evs _ H0) as Hp.
    set (p := Main.play evs (Main.page_init true)) in *.
    assert (Hp1 : nav_settled
                    (Main.set_ticking true
                       (Main.set_frames
                          (Frames.requestAnimationFrame Main.Tick (Main.frames p)).2
                          (Main.set_pageYOffset y p)))).
    { destruct Hp as (Hn & Hf & Ht). split; [exact Hn|]. split; [|exact Ht].
      cbn. rewrite Htk in Hf. rewrite Hf. by eexists. }
    assert (E : Main.play ((Main.Scroll <$> (ys ++ [y])) ++ [Main.Frame]) p
                = Main.set_ticking false
                    (handled
                       (Main.set_frames
                          (Frames.Queue (S (Frames.next_handle (Main.frames p))) [])
                          (Main.set_ticking true (Main.set_pageYOffset y p))))).
    { rewrite nav_play_snoc, (scrolls_settled p ys y Hp Htk).
      rewrite (frame_step _ Hp1). reflexivity. }
    rewrite E. cbn. done.
  - intros evs y. cbv zeta. cbn [Main.play foldl].
    assert (Hs : nav_stuck (Main.react (Main.react (Main.page_init false) (Main.Scroll y))
                              Main.Frame)) by (by repeat split).
    pose proof (stuck_play evs _ Hs) as (H1 & H2 & H3 & H4 & H5 & H6 & H7).
    done.
Qed.

(** The page scrolled down to 300 and a frame: the bar is hidden, and 150
    ms later it is back. *)
Lemma navbar_comes_back_witness :
  Main.hide (Main.play [Main.Scroll 300; Main.Frame] (Main.page_init true)) = true ∧
  Main.hide
    (Main.react (Main.play [Main.Scroll 300; Main.Frame] (Main.page_init true))
       (Main.Advance 150)) = false.
Proof.
  split; [vm_compute; reflexivity|].
  assert (Hle : (Main.now (Main.play [Main.Scroll 300; Main.Frame] (Main.page_init true))
                 + 150 ≤ 150)%Z) by (vm_compute; discriminate).
  exact (proj2 (proj1 navbar_comes_back [Main.Scroll 300; Main.Frame]) 150%Z Hle).
Defined.

(** ** [main.js]: the skills accordion *)

Section AccordionFacts.
Import Main.

Variable skillsHeaders : list nat.

Lemma initialize_lookup (l : list nat) (a : attributes) (e : nat) :
  foldl (λ a header, <[header := "false"]> a) a l !! e
  = if bool_decide (e ∈ l) then Some "false" else a !! e.
Proof.
  unfold attributes in *. induction l as [|x l IH] using rev_ind.
  - cbn. rewrite bool_decide_eq_false_2; [reflexivity | apply not_elem_of_nil].
  - rewrite foldl_app. cbn [foldl]. cbv beta. destruct (decide (x = e)) as [->|Hne].
    + rewrite lookup_insert_eq. rewrite bool_decide_eq_true_2; [reflexivity|].
      apply elem_of_app. right. apply list_elem_of_here.
    + rewrite lookup_insert_ne by exact Hne. rewrite IH.
      apply (f_equal (λ b : bool, if b then Some "false" else a !! e)).
      apply bool_decide_ext. rewrite elem_of_app, list_elem_of_singleton.
      split; [by left | intros [H|H]; [exact H | by subst]].
Qed.

Lemma close_others_lookup (header : nat) (l : list nat) (a : attributes) (e : nat) :
  foldl (λ a otherHeader,
           if bool_decide (otherHeader ≠ header) then <[otherHeader := "false"]> a else a)
        a l !! e
  = if bool_decide (e ∈ l ∧ e ≠ header) then Some "false" else a !! e.
Proof.
  unfold attributes in *. induction l as [|x l IH] using rev_ind.
  - cbn. rewrite bool_decide_eq_false_2; [reflexivity|].
    intros [H _]. by apply not_elem_of_nil in H.
  - rewrite foldl_app. cbn [foldl]. cbv beta.
    destruct (decide (x = header)) as [->|Hx].
    + rewrite (bool_decide_eq_false_2 (header ≠ header)) by (intros H; by apply H).
      rewrite IH.
      apply (f_equal (λ b : bool, if b then Some "false" else a !! e)).
      apply bool_decide_ext. rewrite elem_of_app, list_elem_of_singleton.
      split; [intros [H1 H2]; split; [by left | exact H2]|].
      intros [[H|H] H2]; [by split | done].
    + rewrite (bool_decide_eq_true_2 (x ≠ header)) by exact Hx.
      destruct (decide (x = e)) as [->|Hne].
      * rewrite lookup_insert_eq. rewrite bool_decide_eq_true_2; [reflexivity|].
        split; [|exact Hx]. apply elem_of_app. right. apply list_elem_of_here.
      * rewrite lookup_insert_ne by exact Hne. rewrite IH.
        apply (f_equal (λ b : bool, if b then Some "false" else a !! e)).
        apply bool_decide_ext. rewrite elem_of_app, list_elem_of_singleton.
        split; [intros [H1 H2]; split; [by left | exact H2]|].
        intros [[H|H] H2]; [by split | by subst].
Qed.

Lemma click_lookup (header : nat) (a : attributes) (e : nat) :
  click skillsHeaders header a !! e
  = if bool_decide (e = header) then Some (toString (negb (expanded a header)))
    else if bool_decide (e ∈ skillsHeaders) then Some "false" else a !! e.
Proof.
  unfold click, attributes in *. cbv zeta.
  destruct (decide (e = header)) as [->|He].
  - rewrite lookup_insert_eq.
    by rewrite (bool_decide_eq_true_2 (header = header)) by reflexivity.
  - rewrite lookup_insert_ne by (intros ->; by apply He).
    rewrite (bool_decide_eq_false_2 (e = header)) by exact He.
    rewrite close_others_lookup.
    apply (f_equal (λ b : bool, if b then Some "false" else a !! e)).
    apply bool_decide_ext. split; [by intros [H _] | by intros H].
Qed.

Lemma after_clicks_snoc (a : attributes) (elements : list nat) (e : nat) :
  after_clicks skillsHeaders a (elements ++ [e])
  = clicked skillsHeaders (after_clicks skillsHeaders a elements) e.
Proof. unfold after_clicks. by rewrite foldl_app. Qed.

Lemma toString_true (b : bool) : toString b = "true" ↔ b = true.
Proof. by destruct b. Qed.

(** What holds after any clicks. *)
Lemma after_clicks_invariant (a : attributes) (elements : list nat) :
  (∀ h, h ∈ skillsHeaders →
        after_clicks skillsHeaders a elements !! h
        = Some (toString (expanded (after_clicks skillsHeaders a elements) h))) ∧
  (∀ h1 h2, h1 ∈ skillsHeaders → h2 ∈ skillsHeaders →
            expanded (after_clicks skillsHeaders a elements) h1 = true →
            expanded (after_clicks skillsHeaders a elements) h2 = true → h1 = h2) ∧
  (∀ e, e ∉ skillsHeaders → after_clicks skillsHeaders a elements !! e = a !! e).
Proof.
  induction elements as [|x elements IH] using rev_ind.
  - unfold after_clicks, initializeSkillsCollapsible. cbn [foldl].
    assert (Hin : ∀ h, h ∈ skillsHeaders →
              foldl (λ a header, <[header := "false"]> a) a skillsHeaders !! h
              = Some "false").
    { intros h Hh. rewrite initialize_lookup.
      by rewrite (bool_decide_eq_true_2 (h ∈ skillsHeaders)) by exact Hh. }
    split; [|split].
    + intros h Hh. unfold expanded. rewrite (Hin h Hh).
      by rewrite (bool_decide_eq_false_2 (Some "false" = Some "true")).
    + intros h1 h2 Hh1 _ H1. unfold expanded in H1. rewrite (Hin h1 Hh1) in H1.
      by rewrite (bool_decide_eq_false_2 (Some "false" = Some "true")) in H1.
    + intros e He. rewrite initialize_lookup.
      by rewrite (bool_decide_eq_false_2 (e ∈ skillsHeaders)) by exact He.
  - destruct IH as (I1 & I2 & I3). rewrite after_clicks_snoc.
    set (b := after_clicks skillsHeaders a elements) in *.
    unfold clicked. destruct (decide (x ∈ skillsHeaders)) as [Hx|Hx];
      [rewrite (bool_decide_eq_true_2 (x ∈ skillsHeaders)) by exact Hx
      | by rewrite (bool_decide_eq_false_2 (x ∈ skillsHeaders)) by exact Hx].
    assert (Hlk : ∀ h, h ∈ skillsHeaders →
              click skillsHeaders x b !! h
              = Some (toString (bool_decide (h = x) && negb (expanded b x)))).
    { intros h Hh. rewrite click_lookup. destruct (decide (h = x)) as [->|Hne].
      - by rewrite (bool_decide_eq_true_2 (x = x)) by reflexivity.
      - rewrite (bool_decide_eq_false_2 (h = x)) by exact Hne.
        by rewrite (bool_decide_eq_true_2 (h ∈ skillsHeaders)) by exact Hh. }
    assert (Hexp : ∀ h, h ∈ skillsHeaders →
              expanded (click skillsHeaders x b) h
              = bool_decide (h = x) && negb (expanded b x)).
    { intros h Hh. unfold expanded at 1. rewrite (Hlk h Hh).
      destruct (bool_decide (h = x) && negb (expanded b x)); reflexivity. }
    split; [|split].
    + intros h Hh. by rewrite (Hexp h Hh), (Hlk h Hh).
    + intros h1 h2 Hh1 Hh2. rewrite (Hexp h1 Hh1), (Hexp h2 Hh2).
      rewrite !andb_true_iff, !bool_decide_eq_true. intros [-> _] [-> _]. reflexivity.
    + intros e He. rewrite click_lookup.
      rewrite (bool_decide_eq_false_2 (e = x)) by (intros ->; by apply He).
      rewrite (bool_decide_eq_false_2 (e ∈ skillsHeaders)) by exact He. by apply I3.
Qed.

End AccordionFacts.

(** X22.  At most one section of the skills accordion is open.  After
    the accordion has been set up and any elements have been clicked,
    every header has [aria-expanded] equal to true or to false, at most one
    header has it true, and the attributes of the other elements are
    untouched.  A click on a header opens its section when it was closed
    and closes it when it was open, and closes every other section. *)
Theorem one_skills_section_open_at_a_time (skillsHeaders : list nat)
    (a : Main.attributes) (elements : list nat) :
  (∀ h, h ∈ skillsHeaders →
        after_clicks skillsHeaders a elements !! h
        = Some (Main.toString (expanded (after_clicks skillsHeaders a elements) h))) ∧
  (∀ h1 h2, h1 ∈ skillsHeaders → h2 ∈ skillsHeaders →
            expanded (after_clicks skillsHeaders a elements) h1 = true →
            expanded (after_clicks skillsHeaders a elements) h2 = true → h1 = h2) ∧
  (∀ e, e ∉ skillsHeaders → after_clicks skillsHeaders a elements !! e = a !! e) ∧
  (∀ h, h ∈ skillsHeaders →
        expanded (after_clicks skillsHeaders a (elements ++ [h])) h
        = negb (expanded (after_clicks skillsHeaders a elements) h) ∧
        ∀ o, o ∈ skillsHeaders → o ≠ h →
             expanded (after_clicks skillsHeaders a (elements ++ [h])) o = false).
Proof.
  destruct (after_clicks_invariant skillsHeaders a elements) as (I1 & I2 & I3).
  split; [exact I1|]. split; [exact I2|]. split; [exact I3|].
  intros h Hh. rewrite after_clicks_snoc. unfold Main.clicked.
  rewrite (bool_decide_eq_true_2 (h ∈ skillsHeaders)) by exact Hh. split.
  - unfold expanded at 1. rewrite click_lookup.
    rewrite (bool_decide_eq_true_2 (h = h)) by reflexivity.
    destruct (expanded _ h); reflexivity.
  - intros o Ho Hne. unfold expanded at 1. rewrite click_lookup.
    rewrite (bool_decide_eq_false_2 (o = h)) by exact Hne.
    rewrite (bool_decide_eq_true_2 (o ∈ skillsHeaders)) by exact Ho. reflexivity.
Qed.

(** Three headers; the first is clicked, then the third: the third is
    open and the first is closed again. *)
Lemma one_skills_section_open_at_a_time_witness :
  expanded (after_clicks [1; 2; 3]%nat ∅ ([1%nat] ++ [3%nat])) 3%nat
  = negb (expanded (after_clicks [1; 2; 3]%nat ∅ [1%nat]) 3%nat) ∧
  expanded (after_clicks [1; 2; 3]%nat ∅ ([1%nat] ++ [3%nat])) 1%nat = false.
Proof.
  assert (H3 : 3%nat ∈ [1; 2; 3]%nat)
    by (apply list_elem_of_further, list_elem_of_further, list_elem_of_here).
  assert (H1 : 1%nat ∈ [1; 2; 3]%nat) by apply list_elem_of_here.
  assert (Hne : 1%nat ≠ 3%nat) by discriminate.
  destruct (proj2 (proj2 (proj2
              (one_skills_section_open_at_a_time [1; 2; 3]%nat ∅ [1%nat]))) 3%nat H3)
    as [Ha Hb].
  split; [exact Ha | exact (Hb 1%nat H1 Hne)].
Defined.

